(** * jsip: a shallow embedding of the Matrix class, the kernel library
      and the Imager operators, with the properties of the specification.

    Modelling conventions.
    - A JavaScript number is a rational in canonical form ([Qc]): the
      numbers of the embedding are the finite ones, NaN and the infinities
      of IEEE doubles are not represented, and a statement about every
      matrix is a statement about every matrix of finite numbers.  A
      comparison is therefore total; with NaN, the tests of [clip] fail and
      [Math.min], [Math.max] and [Math.abs] return NaN.
      Division is [Qcdiv], total, with [x / 0 = 0]; JavaScript yields an
      infinity or NaN there and does not throw either.
    - Rounding to a double is [fl].  It is applied where the numbers grow
      past 53 bits whatever the input is, in the additions of [pascal] and
      of the sum of [gaussianBlur]; elsewhere an operation is written as
      the exact one, and a statement keeps the expression of the code.
    - Every method that mutates its receiver becomes a function that returns
      the new receiver; a thrown exception becomes [Err e], after which the
      partially mutated objects are unobservable.
    - The two arities of [get] and [set] (with and without a channel index)
      are the pairs [get]/[get_cell] and [set]/[set_cell].
    - Where JavaScript would read [undefined] or grow an array because the
      store does not have the shape announced by rows/cols/chls, the
      embedding stops with [Err OutsideModel]; this is unreachable from
      well-formed matrices ([wf]).
    - The operands of a binary operator are distinct objects that share no
      cell.  [copy] and [crop] store references to the source's pixel arrays;
      they are modelled by value, which is what every call below observes.
    - Memory and array-length limits of the runtime are not modelled. *)

From Stdlib Require Import ZArith QArith Qcanon Lia.
From stdpp Require Import base tactics option list list_numbers numbers strings.

Local Open Scope Z_scope.

(** ** Errors and the result monad *)

(** The built-in exception classes that the code throws, the strings it
    throws under a name of its own ('ConvolutionError: ...' and the like),
    and [OutsideModel] for the paths that the embedding does not follow. *)
Inductive error : Type :=
  | TypeError | RangeError | ReferenceError | Error
  | ConvolutionError | LightError | DodgeError | BurnError
  | OutsideModel.

Inductive result (A : Type) : Type :=
  | Ok (a : A)
  | Err (e : error).
Arguments Ok {A} a.
Arguments Err {A} e.

#[global] Instance result_ret : MRet result := @Ok.
#[global] Instance result_bind : MBind result := λ A B f r,
  match r with Ok a => f a | Err e => Err e end.

(** A [for] loop whose body may throw: the state is threaded through the
    index list from left to right. *)
Fixpoint forM {X S : Type} (l : list X) (body : X → S → result S) (s : S) : result S :=
  match l with
  | [] => Ok s
  | x :: l' => s' ← body x s; forM l' body s'
  end.

(** [for (let i = 0; i < n; i++)] for an integer bound [n]. *)
Definition range (n : Z) : list Z := seqZ 0 n.

(** ** Numbers *)

Definition Z2Qc (z : Z) : Qc := Qc_of_Z z.

(** [parseInt] applied to a number: the integer part, truncated toward zero
    (exact for magnitudes whose decimal rendering has no exponent). *)
Definition parseInt (x : Qc) : Z := Z.quot (Qnum x) (Z.pos (Qden x)).

(** [Array(n)] throws RangeError unless [n] is a non-negative integer. *)
Definition is_length (x : Qc) : bool := (Qden x =? 1)%positive && (0 <=? Qnum x).

Definition Qc_ltb (x y : Qc) : bool := bool_decide (x < y)%Qc.
Definition Qc_eqb (x y : Qc) : bool := bool_decide (x = y).

Definition js_min (x y : Qc) : Qc := if Qc_ltb y x then y else x.
Definition js_max (x y : Qc) : Qc := if Qc_ltb x y then y else x.
Definition js_abs (x : Qc) : Qc := if Qc_ltb x 0 then (- x)%Qc else x.

(** The double nearest to [n / d], for positive [n] and [d], as a pair
    [(a, b)] that stands for [a / b]: the quotient is scaled by a power of
    two into [2^52, 2^53), rounded to an integer with ties going to the even
    one, and scaled back.  The exponent has no bounds: no overflow to an
    infinity and no subnormal numbers. *)
Definition nearest (n d : Z) : Z * Z :=
  let k := Z.log2 n - Z.log2 d in
  let s := 53 - k in
  let n0 := n * 2 ^ Z.max s 0 in
  let d0 := d * 2 ^ Z.max (- s) 0 in
  let '(d1, s1) := if n0 <? d0 * 2 ^ 53 then (d0, s) else (2 * d0, s - 1) in
  let q := n0 / d1 in
  let r := n0 mod d1 in
  let z := if (d1 <? 2 * r) || ((d1 =? 2 * r) && Z.odd q) then q + 1 else q in
  (z * 2 ^ Z.max (- s1) 0, 2 ^ Z.max s1 0).

(** Rounding to the nearest double. *)
Definition fl (x : Qc) : Qc :=
  match Qnum x with
  | 0 => 0%Qc
  | Z.pos n => let '(a, b) := nearest (Z.pos n) (Z.pos (Qden x)) in Q2Qc (a # Z.to_pos b)
  | Z.neg n => let '(a, b) := nearest (Z.pos n) (Z.pos (Qden x)) in Q2Qc (- a # Z.to_pos b)
  end.

(** The sum of two doubles, as the machine forms it. *)
Definition fadd (x y : Qc) : Qc := fl (x + y).

(** ** Matrix *)

Module Matrix.

(** [m[i][j]] is a number when the matrix has one channel and an array of
    channel values otherwise. *)
Inductive cell : Type :=
  | Scalar (v : Qc)
  | Pixel (p : list Qc).

Record t : Type := mk {
  m : list (list cell);
  rows : Z;
  cols : Z;
  chls : Z
}.

Definition with_m (M : t) (m' : list (list cell)) : t :=
  {| m := m'; rows := rows M; cols := cols M; chls := chls M |}.

Definition with_chls (M : t) (c : Z) : t :=
  {| m := m M; rows := rows M; cols := cols M; chls := c |}.

Definition oob2 (M : t) (i j : Z) : bool :=
  (rows M <=? i) || (cols M <=? j) || (i <? 0) || (j <? 0).

Definition oob3 (M : t) (i j k : Z) : bool :=
  (rows M <=? i) || (cols M <=? j) || (chls M <=? k) || (i <? 0) || (j <? 0) || (k <? 0).

(** Raw store access [this.m[i][j]]. *)
Definition raw (M : t) (i j : Z) : option cell :=
  row ← m M !! Z.to_nat i; row !! Z.to_nat j.

(** [get(i, j, k)] *)
Definition get (M : t) (i j k : Z) : result Qc :=
  if oob3 M i j k then Err RangeError
  else match raw M i j with
       | Some (Pixel p) =>
           match p !! Z.to_nat k with
           | Some v => Ok v
           | None => Err OutsideModel
           end
       | _ => Err OutsideModel
       end.

(** [get(i, j)] *)
Definition get_cell (M : t) (i j : Z) : result cell :=
  if oob2 M i j then Err RangeError
  else match raw M i j with
       | Some c => Ok c
       | None => Err OutsideModel
       end.

Definition getRows (M : t) : Z := rows M.
Definition getCols (M : t) : Z := cols M.
Definition getChls (M : t) : Z := chls M.

(** [getSize] reads an undeclared variable [chls] and so always throws. *)
Definition getSize (M : t) : result unit := Err ReferenceError.

Definition store (M : t) (i j : Z) (c : cell) : result t :=
  match m M !! Z.to_nat i with
  | Some row =>
      if decide (Z.to_nat j < length row)%nat
      then Ok (with_m M (<[Z.to_nat i := <[Z.to_nat j := c]> row]> (m M)))
      else Err OutsideModel
  | None => Err OutsideModel
  end.

(** [set(i, j, v, k)] *)
Definition set (M : t) (i j : Z) (v : Qc) (k : Z) : result t :=
  if oob3 M i j k then Err RangeError
  else match raw M i j with
       | Some (Pixel p) =>
           if decide (Z.to_nat k < length p)%nat
           then store M i j (Pixel (<[Z.to_nat k := v]> p))
           else Err OutsideModel
       | _ => Err OutsideModel
       end.

(** [set(i, j, v)]: the out-of-range branch evaluates
    [throw new new RangeError(..)], which is itself a TypeError. *)
Definition set_cell (M : t) (i j : Z) (c : cell) : result t :=
  if oob2 M i j then Err TypeError
  else store M i j c.

(** [setPixel(i, j, r, g, b, a)] *)
Definition setPixel (M : t) (i j : Z) (r g b : Qc) (a : option Qc) : result t :=
  if chls M <? 3 then Err Error
  else if bool_decide (a = None) && oob2 M i j then Err RangeError
  else
    M ← set M i j r 0;
    M ← set M i j g 1;
    M ← set M i j b 2;
    match a with
    | Some a' => if 4 <=? chls M then set M i j a' 3 else Ok M
    | None => Ok M
    end.

(** [apply(callback)]: every (row, col) of the receiver [M]; the callback
    acts on the state [S] that the closure mutates. *)
Definition apply {S : Type} (M : t) (callback : Z → Z → S → result S) : S → result S :=
  forM (range (rows M)) (λ i, forM (range (cols M)) (λ j, callback i j)).

(** [applyAll(callback)]: the channel index is absent when [chls <= 1]. *)
Definition applyAll {S : Type} (M : t) (callback : Z → Z → option Z → S → result S)
  : S → result S :=
  forM (range (rows M)) (λ i, forM (range (cols M)) (λ j,
    if 1 <? chls M
    then forM (range (chls M)) (λ k, callback i j (Some k))
    else callback i j None)).

(** [applyAllPixels(callback)]: channels 0, 1, 2 of every (row, col). *)
Definition applyAllPixels {S : Type} (M : t) (callback : Z → Z → Z → S → result S)
  : S → result S :=
  apply M (λ i j, forM (range 3) (λ k, callback i j k)).

(** [fillAlpha(a)] *)
Definition fillAlpha (M : t) (a : Qc) : result t :=
  apply M (λ i j M', set M' i j a 3) M.

(** [generate(rows, cols, chls, v)].  The guard is [!parseInt(x)]; the
    array constructors then throw RangeError on a length that is not a
    non-negative integer.  When the guard and [Array(rows)] pass, [rows]
    is at least 1, so [Array(cols)] is reached, and likewise the cell
    initialiser. *)
Definition generate (rows cols chls : Qc) (v : Qc) : result t :=
  if (parseInt rows =? 0) || (parseInt cols =? 0) || (parseInt chls =? 0)
  then Err TypeError
  else if negb (is_length rows) then Err RangeError
  else if negb (is_length cols) then Err RangeError
  else
    let nr := Z.to_nat (parseInt rows) in
    let nc := Z.to_nat (parseInt cols) in
    if Qc_ltb 1 chls then
      if is_length chls
      then Ok {| m := replicate nr (replicate nc (Pixel (replicate (Z.to_nat (parseInt chls)) v)));
                 rows := parseInt rows; cols := parseInt cols; chls := parseInt chls |}
      else Err RangeError
    else Ok {| m := replicate nr (replicate nc (Scalar v));
               rows := parseInt rows; cols := parseInt cols; chls := parseInt chls |}.

(** [new Matrix(rows, cols, chls)] with numeric arguments. *)
Definition new (rows cols chls : Z) : result t :=
  generate (Z2Qc rows) (Z2Qc cols) (Z2Qc chls) 0.

(** [zeros(rows, cols, chls)] and [ones(rows, cols, chls)] *)
Definition zeros (rows cols chls : Z) : result t :=
  generate (Z2Qc rows) (Z2Qc cols) (Z2Qc chls) 0.
Definition ones (rows cols chls : Z) : result t :=
  generate (Z2Qc rows) (Z2Qc cols) (Z2Qc chls) 1.
Definition white (rows cols chls : Z) : result t := ones rows cols chls.

(** [load(m)] and [new Matrix(m)] for a 2D or 3D array literal. *)
Definition load (a : list (list cell)) : result t :=
  match a with
  | [] => Err TypeError
  | r0 :: _ =>
      Ok {| m := a;
            rows := Z.of_nat (length a);
            cols := Z.of_nat (length r0);
            chls := match r0 with
                    | Pixel p :: _ => Z.of_nat (length p)
                    | _ => 1
                    end |}
  end.

(** [copy(to, {i, j})]: the receiver is only read. *)
Definition copy (M to : t) (oi oj : Z) : result t :=
  apply M (λ i j to', c ← get_cell M i j; set_cell to' (i + oi) (j + oj) c) to.

(** [extrude(chls)] *)
Definition extrude (M : t) (n : Z) : result t :=
  if n <=? 1 then Err RangeError
  else if n <? chls M then Err RangeError
  else
    M' ← (if chls M =? 1
          then apply M (λ i j M',
                 c ← get_cell M' i j;
                 match c with
                 | Scalar v => set_cell M' i j (Pixel (replicate (Z.to_nat n) v))
                 | Pixel _ => Err OutsideModel
                 end) M
          else apply M (λ i j M',
                 match raw M' i j with
                 | Some (Pixel p) =>
                     match p !! Z.to_nat (chls M - 1) with
                     | Some v =>
                         store M' i j (Pixel (p ++ replicate (Z.to_nat (n - chls M)) v))
                     | None => Err OutsideModel
                     end
                 | _ => Err OutsideModel
                 end) M);
    Ok (with_chls M' n).

(** [isWhite()] *)
Definition isWhite (M : t) : result bool :=
  if negb (chls M =? 3) && negb (chls M =? 4) then Ok false
  else applyAllPixels M (λ i j k flag,
         v ← get M i j k;
         Ok (if Qc_eqb v 1 then flag else false)) true.

(** [swapRow(i, i2)] and [swapCol(j, j2)]: unchecked store accesses. *)
Definition swapRow (M : t) (i i2 : Z) : result t :=
  match m M !! Z.to_nat i, m M !! Z.to_nat i2 with
  | Some r, Some r2 =>
      Ok (with_m M (<[Z.to_nat i2 := r]> (<[Z.to_nat i := r2]> (m M))))
  | _, _ => Err OutsideModel
  end.

Definition swapCol (M : t) (j j2 : Z) : result t :=
  forM (range (rows M)) (λ i M',
    match raw M' i j, raw M' i j2 with
    | Some c, Some c2 => M'' ← store M' i j c2; store M'' i j2 c
    | _, _ => Err OutsideModel
    end) M.

(** [flipX], [flipY]: the loop test is [j < Math.floor(cols) / 2], that is
    [2 * j < cols] for an integer column count. *)
Definition flipX (M : t) : result t :=
  forM (range ((cols M + 1) / 2)) (λ j M', swapCol M' j (cols M' - j - 1)) M.
Definition flipY (M : t) : result t :=
  forM (range ((rows M + 1) / 2)) (λ i M', swapRow M' i (rows M' - i - 1)) M.
Definition flipXY (M : t) : result t :=
  M ← flipX M; flipY M.

Definition num_of_cell (c : cell) : result Qc :=
  match c with
  | Scalar v => Ok v
  | Pixel _ => Err OutsideModel
  end.

(** [div(v)] *)
Definition div (M : t) (v : Qc) : result t :=
  if Qc_eqb v 0 then Err RangeError
  else applyAll M (λ i j k M',
         match k, raw M' i j with
         | Some k', Some (Pixel p) =>
             match p !! Z.to_nat k' with
             | Some x => store M' i j (Pixel (<[Z.to_nat k' := (x / v)%Qc]> p))
             | None => Err OutsideModel
             end
         | None, Some (Scalar x) => store M' i j (Scalar (x / v)%Qc)
         | _, _ => Err OutsideModel
         end) M.

(** [accum(i, j, v, k)] *)
Definition accum (M : t) (i j : Z) (v : Qc) (k : option Z) : result t :=
  match k with
  | Some k' => x ← get M i j k'; set M i j (x + v)%Qc k'
  | None => c ← get_cell M i j; x ← num_of_cell c; set_cell M i j (Scalar (x + v)%Qc)
  end.

(** [mmul(B)] *)
Definition mmul (M B : t) : result t :=
  if (1 <? chls M) || (1 <? chls B) then Err Error
  else if negb (cols M =? rows B) then _ ← getSize M; Err Error
  else
    prod ← new (cols M) (rows B) 1;
    prod ← forM (range (rows M)) (λ i,
             forM (range (cols M)) (λ j,
               forM (range (cols B)) (λ k prod,
                 a ← get_cell M k j ≫= num_of_cell;
                 b ← get_cell B i k ≫= num_of_cell;
                 accum prod i j (a * b)%Qc None))) prod;
    copy prod M 0 0.

(** [this.m[i][j]] for arbitrary integers: [None] where JavaScript reads
    [undefined] or fails on a missing row. *)
Definition at_ (M : t) (i j : Z) : option cell :=
  if (i <? 0) || (j <? 0) then None else raw M i j.

(** [getRow(i)]: [None] is JavaScript's [undefined]. *)
Definition getRow (M : t) (i : Z) : option (list cell) :=
  if i <? 0 then None else m M !! Z.to_nat i.

(** [getCol(j)] *)
Definition getCol (M : t) (j : Z) : result (list cell) :=
  forM (range (rows M)) (λ i col,
    match at_ M i j with
    | Some c => Ok (col ++ [c])
    | None => Err OutsideModel
    end) [].

(** [setRow(i, r)] *)
Definition setRow (M : t) (i : Z) (r : list cell) : result t :=
  if negb (Z.of_nat (length r) =? cols M) then Err RangeError
  else if (0 <=? i) && (i <? Z.of_nat (length (m M)))
  then Ok (with_m M (<[Z.to_nat i := r]> (m M)))
  else Err OutsideModel.

(** [setCol(j, c)] *)
Definition setCol (M : t) (j : Z) (c : list cell) : result t :=
  if negb (Z.of_nat (length c) =? rows M) then Err RangeError
  else forM (range (rows M)) (λ i M',
         match c !! Z.to_nat i with
         | Some x => if j <? 0 then Err OutsideModel else store M' i j x
         | None => Err OutsideModel
         end) M.

(** [fill(v)] *)
Definition fill (M : t) (v : Qc) : result t :=
  applyAll M (λ i j k M',
    match k with
    | Some k' => set M' i j v k'
    | None => set_cell M' i j (Scalar v)
    end) M.

(** [fillRed(r)], [fillGreen(g)], [fillBlue(b)] *)
Definition fillRed (M : t) (r : Qc) : result t :=
  apply M (λ i j M', set M' i j r 0) M.
Definition fillGreen (M : t) (g : Qc) : result t :=
  apply M (λ i j M', set M' i j g 1) M.
Definition fillBlue (M : t) (b : Qc) : result t :=
  apply M (λ i j M', set M' i j b 2) M.

(** [black(rows, cols, chls)] *)
Definition black (rows cols chls : Z) : result t :=
  M ← zeros rows cols chls;
  apply M (λ i j M', set M' i j 1 3) M.

(** [red(rows, cols, chls)], [green(rows, cols, chls)] and
    [blue(rows, cols, chls)] with the sizes given. *)
Definition red (rows cols chls : Z) : result t :=
  M ← generate (Z2Qc rows) (Z2Qc cols) (Z2Qc chls) 0;
  M ← fillRed M 1; fillAlpha M 1.
Definition green (rows cols chls : Z) : result t :=
  M ← generate (Z2Qc rows) (Z2Qc cols) (Z2Qc chls) 0;
  M ← fillGreen M 1; fillAlpha M 1.
Definition blue (rows cols chls : Z) : result t :=
  M ← generate (Z2Qc rows) (Z2Qc cols) (Z2Qc chls) 0;
  M ← fillBlue M 1; fillAlpha M 1.

(** [identity(size)] *)
Definition identity (size : Z) : result t :=
  M ← generate (Z2Qc size) (Z2Qc size) 1 0;
  forM (range size) (λ i M', set_cell M' i i (Scalar 1)) M.

(** [intrude(chls)]: [slice] is not a method of a number, hence the
    TypeError on a cell that is not an array. *)
Definition intrude (M : t) (n : Z) : result t :=
  if n <? 1 then Err RangeError
  else if chls M =? 1 then Err RangeError
  else
    M' ← (if 1 <? n
          then apply M (λ i j M',
                 c ← get_cell M' i j;
                 match c with
                 | Pixel p => set_cell M' i j (Pixel (take (Z.to_nat n) p))
                 | Scalar _ => Err TypeError
                 end) M
          else apply M (λ i j M',
                 v ← get M' i j 0; set_cell M' i j (Scalar v)) M);
    Ok (with_chls M' n).

(** [transpose()]: the receiver takes over the store and the sizes of the
    buffer [t]. *)
Definition transpose (M : t) : result t :=
  t ← new (cols M) (rows M) (chls M);
  t ← forM (range (cols M)) (λ i,
         forM (range (rows M)) (λ j t,
           c ← get_cell M j i; set_cell t i j c)) t;
  Ok {| m := m t; rows := rows t; cols := cols t; chls := chls t |}.

(** [isBlack()] *)
Definition isBlack (M : t) : result bool :=
  if negb (chls M =? 3) && negb (chls M =? 4) then Ok false
  else applyAllPixels M (λ i j k flag,
         v ← get M i j k;
         Ok (if Qc_eqb v 0 then flag else false)) true.

(** The callback shared by [add], [sub] and [mul]:
    [this.m[i][j][k] op= v], and [this.m[i][j] op= v] without a channel. *)
Definition update (f : Qc → Qc) (i j : Z) (k : option Z) (M' : t) : result t :=
  match k, raw M' i j with
  | Some k', Some (Pixel p) =>
      match p !! Z.to_nat k' with
      | Some x => store M' i j (Pixel (<[Z.to_nat k' := f x]> p))
      | None => Err OutsideModel
      end
  | None, Some (Scalar x) => store M' i j (Scalar (f x))
  | _, _ => Err OutsideModel
  end.

(** [add(v)], [sub(v)], [mul(v)] *)
Definition add (M : t) (v : Qc) : result t := applyAll M (update (λ x, x + v)%Qc) M.
Definition sub (M : t) (v : Qc) : result t := applyAll M (update (λ x, x - v)%Qc) M.
Definition mul (M : t) (v : Qc) : result t := applyAll M (update (λ x, x * v)%Qc) M.

(** The size test of [madd], [msub] and [mavg]. *)
Definition size_differs (M B : t) : bool :=
  negb (rows M =? rows B) || negb (cols M =? cols B) || negb (chls M =? chls B).

(** [madd(B, chls)]: the error message is built with [getSize]. *)
Definition madd (M B : t) (n : Z) : result t :=
  if size_differs M B then _ ← getSize M; Err Error
  else applyAll M (λ i j k M',
         match k with
         | None => b ← get_cell B i j ≫= num_of_cell; accum M' i j b None
         | Some k' =>
             if k' <? n then b ← get B i j k'; accum M' i j b (Some k') else Ok M'
         end) M.

(** [msub(B, chls)] *)
Definition msub (M B : t) (n : Z) : result t :=
  if size_differs M B then _ ← getSize M; Err Error
  else applyAll M (λ i j k M',
         match k with
         | None => b ← get_cell B i j ≫= num_of_cell; accum M' i j (b * -1)%Qc None
         | Some k' =>
             if k' <? n then b ← get B i j k'; accum M' i j (b * -1)%Qc (Some k')
             else Ok M'
         end) M.

(** [mavg(B)] *)
Definition mavg (M B : t) : result t :=
  if size_differs M B then _ ← getSize M; Err Error
  else applyAll M (λ i j k M',
         match k with
         | None =>
             a ← get_cell M' i j ≫= num_of_cell;
             b ← get_cell B i j ≫= num_of_cell;
             set_cell M' i j (Scalar ((a + b) / 2)%Qc)
         | Some k' =>
             a ← get M' i j k'; b ← get B i j k';
             set M' i j ((a + b) / 2)%Qc k'
         end) M.

End Matrix.

(** ** Kernels *)

Module Kernel.
Import Matrix.

(** A 2D array literal of integers. *)
Definition lit (a : list (list Z)) : list (list cell) :=
  map (map (λ z, Scalar (Z2Qc z))) a.

Definition identity : result Matrix.t :=
  load (lit [[0; 0; 0]; [0; 1; 0]; [0; 0; 0]]).

Definition prewitt : result Matrix.t :=
  A ← load (lit [[1; 0; -1]; [1; 0; -1]; [1; 0; -1]]);
  B ← load (lit [[1; 1; 1]; [0; 0; 0]; [-1; -1; -1]]);
  mmul A B.

(** One round of the loop body of [pascal]: the sums of neighbours, each
    rounded to a double, then [unshift(1)] and [push(1)]. *)
Definition pascal_step (ans : list Qc) : list Qc :=
  1%Qc :: zip_with fadd ans (tail ans) ++ [1%Qc].

Definition pascal (n : Z) : list Qc :=
  if n =? 1 then [1%Qc]
  else if n =? 2 then [1%Qc; 1%Qc]
  else Nat.iter (Z.to_nat (n - 2)) pascal_step [1%Qc; 1%Qc].

(** [gaussianBlur(size)]: the sum is formed by rounded additions; the two
    divisions are those of [div]. *)
Definition gaussianBlur (size : Z) : result (list Matrix.t) :=
  let row := pascal size in
  w0 ← load [Scalar <$> row];
  let col := (λ n, [Scalar n]) <$> row in
  w1 ← load col;
  sum ← forM (range size) (λ i sum,
           x ← get_cell w0 0 i ≫= num_of_cell; Ok (fadd sum x)) 0%Qc;
  w0 ← div w0 sum;
  w1 ← div w1 sum;
  Ok [w0; w1].

End Kernel.

(** ** Imager *)

Module Imager.
Import Matrix.

Definition clip (val lo hi : Qc) : Qc :=
  if Qc_ltb val lo then lo
  else if Qc_ltb hi val then hi
  else val.

(** [normalize(A)] *)
Definition normalize (A : Matrix.t) : result Matrix.t :=
  applyAll A (λ i j k A',
    match k with
    | Some k' => x ← get A' i j k'; set A' i j (clip x 0 1) k'
    | None => x ← get_cell A' i j ≫= num_of_cell; set_cell A' i j (Scalar (clip x 0 1))
    end) A.

(** [convolution(A, w)]: returns the image and the kernel as the call
    leaves them (the kernel is extruded and flipped in place). *)
Definition convolution (A w : Matrix.t) : result (Matrix.t * Matrix.t) :=
  if (Z.rem (getRows w) 2 =? 0) || (Z.rem (getCols w) 2 =? 0) then Err ConvolutionError
  else
    w ← (if (getChls w =? 1) && (1 <? getChls A) then extrude w (getChls A) else Ok w);
    if negb (getChls w =? getChls A) && negb ((getChls A =? 4) && (getChls w =? 3))
    then Err ConvolutionError
    else
      w ← flipXY w;
      accum ← zeros (getRows A) (getCols A) (getChls A);
      accum ← fillAlpha accum 1;
      pad ← zeros (getRows A + getRows w / 2 * 2) (getCols A + getCols w / 2 * 2) (getChls A);
      pad ← copy A pad (getRows w / 2) (getCols w / 2);
      accum ← forM (range (getRows accum)) (λ i,
                forM (range (getCols accum)) (λ j,
                  forM (range (Z.min (getChls accum) 3)) (λ k,
                    forM (range (getRows w)) (λ wi,
                      forM (range (getCols w)) (λ wj accum,
                        a ← get accum i j k;
                        p ← get pad (i + wi) (j + wj) k;
                        x ← get w wi wj k;
                        set accum i j (a + p * x)%Qc k))))) accum;
      accum ← normalize accum;
      A ← copy accum A 0 0;
      Ok (A, w).

(** [crop(A, x1, y1, x2, y2)] for integer corners. *)
Definition crop (A : Matrix.t) (x1 y1 x2 y2 : Z) : result Matrix.t :=
  let offX := Z.min x1 x2 in
  let offY := Z.min y1 y2 in
  crop ← new (Z.abs (x2 - x1)) (Z.abs (y2 - y1)) (getChls A);
  apply crop (λ i j crop,
    c ← get_cell A (i + offX) (j + offY); set_cell crop i j c) crop.

(** [invert(A)] *)
Definition invert (A : Matrix.t) : result Matrix.t :=
  apply A (λ i j A',
    r ← get A' i j 0; g ← get A' i j 1; b ← get A' i j 2;
    setPixel A' i j (1 - r)%Qc (1 - g)%Qc (1 - b)%Qc None) A.

(** The blend operators whose callback has the form
    [A.set(i, j, f(A.get(i, j, k), B.get(i, j, k)), k)]. *)
Definition blend (f : Qc → Qc → Qc) (A B : Matrix.t) : result Matrix.t :=
  applyAllPixels A (λ i j k A',
    a ← get A' i j k; b ← get B i j k; set A' i j (f a b) k) A.

Definition addition := blend (λ a b, a + b)%Qc.
Definition subtraction := blend (λ a b, a - b)%Qc.
Definition multiply := blend (λ a b, a * b)%Qc.
Definition divide := blend (λ a b, a / b)%Qc.
Definition difference := blend (λ a b, js_abs (a + b))%Qc.
Definition screen := blend (λ a b, 1 - (1 - a) * (1 - b))%Qc.
Definition darken := blend js_min.
Definition lighten := blend js_max.

Definition half : Qc := Q2Qc (1 # 2).

Definition overlay_fn (a b : Qc) : Qc :=
  if Qc_ltb a half then (2 * a * b)%Qc else (1 - 2 * (1 - a) * (1 - b))%Qc.

Definition overlay := blend overlay_fn.

(** [normal(A, B)] *)
Definition normal (A B : Matrix.t) : result Matrix.t :=
  applyAllPixels A (λ i j k A',
    a3 ← get A' i j 3; b3 ← get B i j 3; a3' ← get A' i j 3;
    let nuA := (a3 + b3 * (1 - a3'))%Qc in
    a ← get A' i j k; a3 ← get A' i j 3;
    b ← get B i j k; b3 ← get B i j 3; a3' ← get A' i j 3;
    set A' i j ((a * a3 + b * b3 * (1 - a3')) / nuA)%Qc k) A.

Definition burn_linear := blend (λ a b, a + b - 1)%Qc.

(** [dodge(A, B, 'color')], the target of the recursive call of the
    'divide' mode. *)
Definition dodge_color (A B : Matrix.t) : result (Matrix.t * Matrix.t) :=
  B ← invert B; A ← divide A B; B ← invert B; Ok (A, B).

(** [dodge(A, B, type)]: both operands are returned, [B] being inverted
    and restored in place by some modes.  [A] and [B] are two objects that
    share no pixel array, here and in [burn] and [light]: a call with one
    object in both places is not described. *)
Definition dodge (A B : Matrix.t) (type : string) : result (Matrix.t * Matrix.t) :=
  if String.eqb type "screen" then
    A ← invert A; B ← invert B; A ← multiply A B; A ← invert A; B ← invert B; Ok (A, B)
  else if String.eqb type "color" then dodge_color A B
  else if String.eqb type "linear" then A ← addition A B; Ok (A, B)
  else if String.eqb type "divide" then
    white ← isWhite B;
    if negb white then dodge_color A B else Ok (A, B)
  else Err DodgeError.

(** [burn(A, B, type)] *)
Definition burn (A B : Matrix.t) (type : string) : result (Matrix.t * Matrix.t) :=
  if String.eqb type "multiply" then A ← multiply A B; Ok (A, B)
  else if String.eqb type "color" then
    A ← invert A; A ← divide A B; A ← invert A; Ok (A, B)
  else if String.eqb type "linear" then A ← burn_linear A B; Ok (A, B)
  else Err BurnError.

Section Light.
(** [Math.sqrt], which has no rational model, is a parameter. *)
Variable js_sqrt : Qc → Qc.

Definition soft_fn (a b : Qc) : Qc :=
  if Qc_ltb a half then (2 * a * b + a * a * (1 - 2 * b))%Qc
  else (2 * a * (1 - b) + js_sqrt a * (2 * b - 1))%Qc.

(** [light(A, B, type)] *)
Definition light (A B : Matrix.t) (type : string) : result (Matrix.t * Matrix.t) :=
  if String.eqb type "soft" then A ← blend soft_fn A B; Ok (A, B)
  else if String.eqb type "hard" then A ← blend overlay_fn A B; Ok (A, B)
  else if String.eqb type "vivid" then
    '(A, B) ← dodge A B "color"; burn A B "color"
  else if String.eqb type "linear" then
    '(A, B) ← dodge A B "linear"; burn A B "linear"
  else Err LightError.
End Light.

(** [gray(A, 'normal')], which is also [gray(A)]. *)
Definition gray_normal (A : Matrix.t) : result Matrix.t :=
  apply A (λ i j A',
    r ← get A' i j 0; g ← get A' i j 1; b ← get A' i j 2;
    let v := ((r + g + b) / Z2Qc 3)%Qc in
    setPixel A' i j v v v None) A.

(** [gray(A, 'ITU-R')] *)
Definition gray_ITU (A : Matrix.t) : result Matrix.t :=
  apply A (λ i j A',
    r ← get A' i j 0; g ← get A' i j 1; b ← get A' i j 2;
    let v := (r * Q2Qc (299 # 1000) + g * Q2Qc (587 # 1000) + b * Q2Qc (114 # 1000))%Qc in
    setPixel A' i j v v v None) A.

(** [blur(A, 'gaussian', size)]: the two kernels are applied in turn. *)
Definition blur_gaussian (A : Matrix.t) (size : Z) : result Matrix.t :=
  ws ← Kernel.gaussianBlur size;
  forM ws (λ w A', r ← convolution A' w; Ok r.1) A.

(** [for (let i = 0; i < n; i += size) body(i)], from [i] on.  The rounds
    are counted: with a [size] of at least 1 the loop stops within [n]
    rounds, and a loop that is still running after as many rounds as the
    count allows (a [size] of 0 or below) never stops, which is
    [Err OutsideModel]. *)
Fixpoint stride {St : Type} (fuel : nat) (i n size : Z) (body : Z → St → result St)
    (s : St) : result St :=
  if i <? n then
    match fuel with
    | O => Err OutsideModel
    | S fuel' => s' ← body i s; stride fuel' (i + size) n size body s'
    end
  else Ok s.

(** The values of [i2] in [for (let i2 = i; i2 < i + size && i2 < n; i2++)]. *)
Definition block (i size n : Z) : list Z := seqZ i (Z.min (i + size) n - i).

(** [pixelize(A, size)] for an integer [size]; [pixel] is the array of the
    three sums.  The sizes of [A] are read from the argument: no write of
    the function changes them. *)
Definition pixelize (A : Matrix.t) (size : Z) : result Matrix.t :=
  let area := Z2Qc (size * size) in
  stride (Z.to_nat (rows A)) 0 (rows A) size (λ i,
    stride (Z.to_nat (cols A)) 0 (cols A) size (λ j A',
      pixel ← forM (block i size (rows A)) (λ i2,
                forM (block j size (cols A)) (λ j2,
                  forM (range 3) (λ k pixel,
                    v ← get A' i2 j2 k;
                    Ok (alter (λ x, x + v)%Qc (Z.to_nat k) pixel)))) [0; 0; 0]%Qc;
      let pixel :=
        foldl (λ pixel p, alter (λ x, x / area)%Qc (Z.to_nat p) pixel) pixel (range 3) in
      forM (block i size (rows A)) (λ i2,
        forM (block j size (cols A)) (λ j2 A'',
          setPixel A'' i2 j2 (nth 0 pixel 0%Qc) (nth 1 pixel 0%Qc) (nth 2 pixel 0%Qc)
                   (Some 1%Qc))) A')) A.

End Imager.

(** ** Well-formed matrices and observations used by the statements *)

#[global] Instance result_fmap : FMap result := λ A B f r,
  match r with Ok a => Ok (f a) | Err e => Err e end.

(** A cell fits a channel count: a number for one channel, an array of
    exactly [c] values for more. *)
Definition cell_ok (c : Z) (x : Matrix.cell) : Prop :=
  match x with
  | Matrix.Scalar _ => c = 1
  | Matrix.Pixel p => 1 < c ∧ length p = Z.to_nat c
  end.

#[global] Instance cell_ok_dec c x : Decision (cell_ok c x).
Proof. destruct x; simpl; apply _. Defined.

(** The data invariant of the specification: every row has [cols] entries
    and every pixel has exactly [chls] values. *)
Definition wf (M : Matrix.t) : Prop :=
  1 ≤ Matrix.chls M ∧ 0 ≤ Matrix.rows M ∧ 0 ≤ Matrix.cols M ∧
  length (Matrix.m M) = Z.to_nat (Matrix.rows M) ∧
  Forall (λ r, length r = Z.to_nat (Matrix.cols M) ∧
               Forall (cell_ok (Matrix.chls M)) r) (Matrix.m M).

#[global] Instance wf_dec M : Decision (wf M).
Proof. unfold wf. apply _. Defined.

(** The numbers that a double holds: those that rounding leaves as they
    are.  They are finite. *)
Definition double (x : Qc) : Prop := fl x = x.

Definition cell_doubles (c : Matrix.cell) : Prop :=
  match c with
  | Matrix.Scalar v => double v
  | Matrix.Pixel p => Forall double p
  end.

#[global] Instance cell_doubles_dec c : Decision (cell_doubles c).
Proof. destruct c; simpl; unfold double; apply _. Defined.

(** A matrix of finite doubles: what the code holds as long as no operation
    has produced an infinity or NaN. *)
Definition doubles (M : Matrix.t) : Prop := Forall (Forall cell_doubles) (Matrix.m M).

(** The shape alone: [rows] rows of [cols] cells, whatever the cells hold. *)
Definition grid (M : Matrix.t) : Prop :=
  0 ≤ Matrix.rows M ∧ 0 ≤ Matrix.cols M ∧
  length (Matrix.m M) = Z.to_nat (Matrix.rows M) ∧
  Forall (λ r, length r = Z.to_nat (Matrix.cols M)) (Matrix.m M).

Definition same_dims (M N : Matrix.t) : Prop :=
  Matrix.rows M = Matrix.rows N ∧ Matrix.cols M = Matrix.cols N ∧
  Matrix.chls M = Matrix.chls N.

(** Channel [k] of a cell; a number is its own channel 0. *)
Definition cell_chan (c : Matrix.cell) (k : Z) : option Qc :=
  if k <? 0 then None
  else match c with
       | Matrix.Scalar v => if k =? 0 then Some v else None
       | Matrix.Pixel p => p !! Z.to_nat k
       end.

(** The value of channel [k] of the cell at (i, j), read from the store
    alone. *)
Definition chan (M : Matrix.t) (i j k : Z) : option Qc :=
  if (i <? 0) || (j <? 0) then None
  else c ← Matrix.raw M i j; cell_chan c k.

(** The cell that [extrude] leaves in place of [c]: the last of its [old]
    channel values repeated up to [n] channels. *)
Definition extruded (n old : Z) (c : Matrix.cell) : Matrix.cell :=
  match c with
  | Matrix.Scalar v => Matrix.Pixel (replicate (Z.to_nat n) v)
  | Matrix.Pixel p =>
      match p !! Z.to_nat (old - 1) with
      | Some v => Matrix.Pixel (p ++ replicate (Z.to_nat (n - old)) v)
      | None => c
      end
  end.

(** Printing a matrix with plain fractions. *)
Definition cell_view (c : Matrix.cell) : list Q :=
  match c with
  | Matrix.Scalar v => [this v]
  | Matrix.Pixel p => this <$> p
  end.

Definition view (M : Matrix.t) : list (list (list Q)) * (Z * Z * Z) :=
  (map (map cell_view) (Matrix.m M), (Matrix.rows M, Matrix.cols M, Matrix.chls M)).

(** All-white, in the words of the specification: 3 or 4 channels and every
    colour channel of every pixel equal to 1. *)
Definition all_white (B : Matrix.t) : Prop :=
  (Matrix.chls B = 3 ∨ Matrix.chls B = 4) ∧
  ∀ i j k, 0 ≤ i < Matrix.rows B → 0 ≤ j < Matrix.cols B → 0 ≤ k < 3 →
    chan B i j k = Some 1%Qc.

(** Pascal's triangle: [choose n k] is entry [k] of row [n], counted from 0. *)
Fixpoint choose (n k : nat) : Z :=
  match k, n with
  | O, _ => 1
  | S _, O => 0
  | S k', S n' => choose n' k' + choose n' k
  end.

Definition pascal_row (n : nat) : list Z := choose (n - 1) <$> seq 0 n.

(** The next row of the triangle, from a row: every entry is the sum of the
    two above it. *)
Definition next_row (l : list Z) : list Z := 1 :: zip_with Z.add l (tail l) ++ [1].

Definition Qc_sum (l : list Qc) : Qc := foldr Qcplus 0%Qc l.

Definition sumZ (l : list Z) : Z := foldr Z.add 0 l.

(** The weights of the Gaussian kernels in the words of the specification:
    row [n] of Pascal's triangle, each entry divided by the row's sum. *)
Definition weights (n : nat) : list Qc :=
  (λ c, Z2Qc c / Z2Qc (sumZ (pascal_row n)))%Qc <$> pascal_row n.

(** A 1 by N single-channel matrix and an N by 1 one with the given entries. *)
Definition row_kernel (l : list Qc) : Matrix.t :=
  {| Matrix.m := [Matrix.Scalar <$> l];
     Matrix.rows := 1; Matrix.cols := Z.of_nat (length l); Matrix.chls := 1 |}.
Definition col_kernel (l : list Qc) : Matrix.t :=
  {| Matrix.m := (λ x, [Matrix.Scalar x]) <$> l;
     Matrix.rows := Z.of_nat (length l); Matrix.cols := 1; Matrix.chls := 1 |}.

(** All the numbers of a matrix, row by row. *)
Definition entries (M : Matrix.t) : list Qc :=
  c ← concat (Matrix.m M);
  match c with Matrix.Scalar v => [v] | Matrix.Pixel p => p end.

(** The dense product of the specification:
    [(A * B)[i][j] = sum over k of A[i][k] * B[k][j]]. *)
Definition dot (u v : list Z) : Z := foldr Z.add 0 (zip_with Z.mul u v).
Definition column (B : list (list Z)) (j : nat) : list Z := (λ r, nth j r 0) <$> B.
Definition matmul_spec (A B : list (list Z)) : list (list Z) :=
  (λ r, (λ j, dot r (column B j)) <$> seq 0 (length (hd [] B))) <$> A.

(** Reading position [p] of a matrix, and the value found there. *)
Definition rd2 (M : Matrix.t) (p : Z * Z) : result Matrix.cell :=
  Matrix.get_cell M p.1 p.2.
Definition rd3 (M : Matrix.t) (p : Z * Z * Z) : result Qc :=
  Matrix.get M p.1.1 p.1.2 p.2.
Definition getd (M : Matrix.t) (p : Z * Z * Z) : Qc :=
  match rd3 M p with Ok v => v | Err _ => 0%Qc end.

(** The frame of the blend operators: a well-formed result of the same
    dimensions whose alpha channel is the one of the operand. *)
Definition keeps_alpha (A A' : Matrix.t) : Prop :=
  wf A' ∧ same_dims A' A ∧ ∀ i j, Matrix.get A' i j 3 = Matrix.get A i j 3.

(** The number in cell (i, j) of a single-channel matrix. *)
Definition entry (M : Matrix.t) (i j : Z) : Qc :=
  match Matrix.get_cell M i j with
  | Ok (Matrix.Scalar v) => v
  | _ => 0%Qc
  end.

(** What the loops of [mmul] add up at (i, j):
    [this[0][j] * B[i][0] + this[1][j] * B[i][1] + ...]. *)
Definition mmul_entry (M B : Matrix.t) (n i j : Z) : Qc :=
  foldl (λ s k, s + entry M k j * entry B i k)%Qc 0%Qc (range n).

(** ** Positions visited by the traversals *)

Definition idx2 (R C : Z) : list (Z * Z) :=
  i ← range R; j ← range C; [(i, j)].

Definition idx3 (R C K : Z) : list (Z * Z * Z) :=
  i ← range R; j ← range C; k ← range K; [(i, j, k)].

(** ** Sample inputs *)

Definition q (a : Z) (b : positive) : Qc := Q2Qc (a # b).

Definition px (M : list (list (list Qc))) : Matrix.t :=
  {| Matrix.m := map (map Matrix.Pixel) M;
     Matrix.rows := Z.of_nat (length M);
     Matrix.cols := Z.of_nat (length (hd [] M));
     Matrix.chls := Z.of_nat (length (hd [] (hd [] M))) |}.

Definition rgba_bright : Matrix.t := px [[[q 2 1; q 1 2; q 0 1; q 1 3]]].
Definition rgba_a : Matrix.t :=
  px [[[q 1 4; q 1 2; q 3 4; q 1 2]; [q 1 1; q 0 1; q 1 8; q 1 1]]].
Definition rgba_b : Matrix.t :=
  px [[[q 1 2; q 1 2; q 1 4; q 1 4]; [q 1 8; q 1 1; q 1 2; q 1 3]]].
Definition rgba_white : Matrix.t :=
  px [[[q 1 1; q 1 1; q 1 1; q 1 2]; [q 1 1; q 1 1; q 1 1; q 0 1]]].
Definition rgb_one : Matrix.t := px [[[q 1 2; q 1 4; q 1 8]]].
Definition five_channels : Matrix.t := px [[[q 1 2; q 1 4; q 1 8; q 1 2; q 1 2]]].
Definition identity_kernel : Matrix.t :=
  {| Matrix.m := Kernel.lit [[0; 0; 0]; [0; 1; 0]; [0; 0; 0]];
     Matrix.rows := 3; Matrix.cols := 3; Matrix.chls := 1 |}.
Definition even_kernel : Matrix.t :=
  {| Matrix.m := Kernel.lit [[1; 1]; [1; 1]];
     Matrix.rows := 2; Matrix.cols := 2; Matrix.chls := 1 |}.
Definition gray_2x3 : Matrix.t :=
  {| Matrix.m := Kernel.lit [[1; 2; 3]; [4; 5; 6]];
     Matrix.rows := 2; Matrix.cols := 3; Matrix.chls := 1 |}.

(** The identity kernel after [extrude(c)]; the flip leaves it as it is. *)
Definition identity_extruded (c : Z) : Matrix.t :=
  let P v := Matrix.Pixel (replicate (Z.to_nat c) (Z2Qc v)) in
  {| Matrix.m := [[P 0; P 0; P 0]; [P 0; P 1; P 0]; [P 0; P 0; P 0]];
     Matrix.rows := 3; Matrix.cols := 3; Matrix.chls := c |}.

(** Weight of the identity kernel at window position [q]. *)
Definition identity_weight (q : Z * Z) : Qc :=
  if bool_decide (q = (1, 1)) then Z2Qc 1 else Z2Qc 0.

(** All-black, as [isBlack] tests it: 3 or 4 channels and every colour
    channel of every pixel equal to 0. *)
Definition all_black (B : Matrix.t) : Prop :=
  (Matrix.chls B = 3 ∨ Matrix.chls B = 4) ∧
  ∀ i j k, 0 ≤ i < Matrix.rows B → 0 ≤ j < Matrix.cols B → 0 ≤ k < 3 →
    chan B i j k = Some 0%Qc.

(** More sample inputs. *)
Definition rgba_black : Matrix.t :=
  px [[[q 0 1; q 0 1; q 0 1; q 1 2]; [q 0 1; q 0 1; q 0 1; q 1 1]]].

(** The cell that [intrude(n)] leaves in place of a pixel: its first [n]
    channel values, or the number of channel 0 when [n] is 1. *)
Definition intruded (n : Z) (c : Matrix.cell) : Matrix.cell :=
  match c with
  | Matrix.Pixel p =>
      if 1 <? n then Matrix.Pixel (take (Z.to_nat n) p)
      else match p !! 0%nat with
           | Some v => Matrix.Scalar v
           | None => c
           end
  | Matrix.Scalar _ => c
  end.

Definition square_a : Matrix.t :=
  {| Matrix.m := Kernel.lit [[1; 2]; [3; 4]];
     Matrix.rows := 2; Matrix.cols := 2; Matrix.chls := 1 |}.
Definition square_b : Matrix.t :=
  {| Matrix.m := Kernel.lit [[0; 1]; [5; 7]];
     Matrix.rows := 2; Matrix.cols := 2; Matrix.chls := 1 |}.
Definition gray_3x2 : Matrix.t :=
  {| Matrix.m := Kernel.lit [[1; 2]; [3; 4]; [5; 6]];
     Matrix.rows := 3; Matrix.cols := 2; Matrix.chls := 1 |}.

(** The pixel that [setPixel(i, j, r', g', b')] leaves when the three new
    colours are computed from the old ones. *)
Definition recolored (fr fg fb : Qc → Qc → Qc → Qc) (c : Matrix.cell) : Matrix.cell :=
  match c with
  | Matrix.Pixel p =>
      match p !! 0%nat, p !! 1%nat, p !! 2%nat with
      | Some r, Some g, Some b =>
          Matrix.Pixel (<[2%nat := fb r g b]> (<[1%nat := fg r g b]> (<[0%nat := fr r g b]> p)))
      | _, _, _ => c
      end
  | Matrix.Scalar _ => c
  end.

(** The image that the window of [convolution] slides over: [A] with [hr]
    rows of zeros above and below and [hc] columns of zeros on each side. *)
Definition padded (A : Matrix.t) (hr hc : Z) (x y k : Z) : Qc :=
  if (hr <=? x) && (x <? hr + Matrix.rows A) && (hc <=? y) && (y <? hc + Matrix.cols A)
  then getd A (x - hr, y - hc, k)
  else 0%Qc.

(** What the loops of [convolution] add up at (i, j, k) for a single-channel
    kernel [w], in the order of the loops: the window of the padded image at
    (i, j) against the kernel turned by half a turn. *)
Definition conv_sum (A w : Matrix.t) (i j k : Z) : Qc :=
  foldl (λ s q, s + padded A (Matrix.rows w / 2) (Matrix.cols w / 2) (i + q.1) (j + q.2) k
                    * entry w (Matrix.rows w - 1 - q.1) (Matrix.cols w - 1 - q.2))%Qc
        0%Qc (idx2 (Matrix.rows w) (Matrix.cols w)).

Definition laplacian_kernel : Matrix.t :=
  {| Matrix.m := Kernel.lit [[0; 1; 0]; [1; -4; 1]; [0; 1; 0]];
     Matrix.rows := 3; Matrix.cols := 3; Matrix.chls := 1 |}.

(** The starts of the blocks of [pixelize] along a side of length [n]: the
    multiples of [size] below [n]. *)
Definition starts (n size : Z) : list Z := (λ t, t * size) <$> range ((n + size - 1) / size).

(** The cells of the block that starts at (i0, j0), cut at the sides of a
    grid of [R] rows and [C] columns, in the order of the loops. *)
Definition cells (i0 j0 size R C : Z) : list (Z * Z) :=
  i2 ← Imager.block i0 size R; j2 ← Imager.block j0 size C; [(i2, j2)].

(** The colour that [pixelize] gives to the block that starts at (i0, j0):
    the sum of channel [k] over the cells of the block, divided by the area
    [size * size] of a whole block. *)
Definition block_mean (A : Matrix.t) (size i0 j0 k : Z) : Qc :=
  (foldl (λ s q, s + getd A (q.1, q.2, k))%Qc 0%Qc
         (cells i0 j0 size (Matrix.rows A) (Matrix.cols A)) / Z2Qc (size * size))%Qc.

(** The pixel that [setPixel(i, j, r, g, b, 1)] leaves: the alpha channel,
    where there is one, is set as well. *)
Definition repainted (r g b : Qc) (c : Matrix.cell) : Matrix.cell :=
  match c with
  | Matrix.Pixel p =>
      Matrix.Pixel (<[3%nat := 1%Qc]> (<[2%nat := b]> (<[1%nat := g]> (<[0%nat := r]> p))))
  | Matrix.Scalar _ => c
  end.

(** * Properties *)

(** ** The result monad and loops *)

Lemma bind_Ok {A B} (f : A → result B) (a : A) : (Ok a ≫= f) = f a.
Proof. reflexivity. Qed.

Lemma bind_Ok_inv {A B} (f : A → result B) (r : result A) (b : B) :
  (r ≫= f) = Ok b → ∃ a, r = Ok a ∧ f a = Ok b.
Proof. destruct r as [a|e]; simpl; [eauto | discriminate]. Qed.

Lemma forM_app {X S} (l1 l2 : list X) (body : X → S → result S) (s : S) :
  forM (l1 ++ l2) body s = forM l1 body s ≫= forM l2 body.
Proof.
  revert s. induction l1 as [|x l1 IH]; intros s; simpl; [done|].
  destruct (body x s) as [s'|e]; simpl; [apply IH | done].
Qed.

Lemma forM_bind {X Y S} (l : list X) (g : X → list Y) (body : Y → S → result S) (s : S) :
  forM (l ≫= g) body s = forM l (λ x, forM (g x) body) s.
Proof.
  revert s. induction l as [|x l IH]; intros s; [done|].
  rewrite bind_cons, forM_app. simpl.
  destruct (forM (g x) body s) as [s'|e]; simpl; [apply IH | done].
Qed.

Lemma forM_singleton {X S} (x : X) (body : X → S → result S) (s : S) :
  forM [x] body s = body x s.
Proof. simpl. by destruct (body x s). Qed.

Lemma forM_ext {X S} (l : list X) (f g : X → S → result S) (s : S) :
  (∀ x s, x ∈ l → f x s = g x s) → forM l f s = forM l g s.
Proof.
  revert s. induction l as [|x l IH]; intros s H; simpl; [done|].
  rewrite (H x s) by left. destruct (g x s) as [s'|e]; simpl; [|done].
  apply IH. intros. apply H. by right.
Qed.

(** A loop whose every round succeeds and keeps an invariant. *)
Lemma forM_inv {X S} (I : S → Prop) (l : list X) (body : X → S → result S) (s : S) :
  I s →
  (∀ x s, x ∈ l → I s → ∃ s', body x s = Ok s' ∧ I s') →
  ∃ s', forM l body s = Ok s' ∧ I s'.
Proof.
  revert s. induction l as [|x l IH]; intros s Hs Hbody; simpl; [eauto|].
  destruct (Hbody x s) as (s1 & -> & Hs1); [left | done |]. simpl.
  apply IH; [done|]. intros. apply Hbody; [by right | done].
Qed.

(** A loop over distinct positions, each round rewriting its own position
    with a value that depends only on that position and on positions that
    the loop never visits: the result is the pointwise assignment. *)
Section local.
Context {S P V : Type}.
Variable rd : S → P → result V.
Variable good : S → Prop.

Lemma forM_local (ps : list P) (F : P → V) (step : P → S → result S) (s0 : S) :
  NoDup ps → good s0 →
  (∀ p s, p ∈ ps → good s → rd s p = rd s0 p →
          (∀ r, r ∉ ps → rd s r = rd s0 r) →
     ∃ s1, step p s = Ok s1 ∧ good s1 ∧ rd s1 p = Ok (F p) ∧
           ∀ r, r ≠ p → rd s1 r = rd s r) →
  ∃ s', forM ps step s0 = Ok s' ∧ good s' ∧
        (∀ p, p ∈ ps → rd s' p = Ok (F p)) ∧
        (∀ r, r ∉ ps → rd s' r = rd s0 r).
Proof.
  intros Hnd Hg0 Hstep.
  assert (∀ l s, NoDup l → l ⊆ ps → good s →
            (∀ p, p ∈ l → rd s p = rd s0 p) →
            (∀ r, r ∉ ps → rd s r = rd s0 r) →
            ∃ s', forM l step s = Ok s' ∧ good s' ∧
                  (∀ p, p ∈ l → rd s' p = Ok (F p)) ∧
                  (∀ r, r ∉ l → rd s' r = rd s r)) as Hgen.
  { induction l as [|p l IH]; intros s Hl Hsub Hg Hin Hout; simpl.
    - exists s. split_and!; [done | done | | done]. intros p Hp. by apply elem_of_nil in Hp.
    - apply NoDup_cons in Hl as [Hp Hl].
      destruct (Hstep p s) as (s1 & -> & Hg1 & Hp1 & Hfr); [| done | | done |].
      { apply Hsub. left. }
      { apply Hin. left. }
      simpl.
      destruct (IH s1) as (s' & -> & Hg' & Hval & Hrest); [done | | done | | |].
      { intros x Hx. apply Hsub. by right. }
      { intros x Hx. rewrite Hfr; [apply Hin; by right|]. intros ->. done. }
      { intros r Hr. rewrite Hfr; [by apply Hout|]. intros ->. apply Hr, Hsub. left. }
      exists s'. split_and!; [done | done | |].
      + intros x [->|Hx]%elem_of_cons; [|by apply Hval].
        rewrite Hrest; done.
      + intros r Hr. rewrite Hrest, Hfr; [done | |].
        * intros ->. apply Hr. left.
        * intros Hx. apply Hr. by right. }
  destruct (Hgen ps s0) as (s' & ? & ? & ? & ?); [done | done | done | done | done |].
  exists s'. split_and!; try done.
Qed.
End local.

(** ** Index lists *)

Lemma elem_of_range (n k : Z) : k ∈ range n ↔ 0 ≤ k < n.
Proof. unfold range. rewrite elem_of_seqZ. lia. Qed.

Lemma NoDup_range (n : Z) : NoDup (range n).
Proof. apply NoDup_seqZ. Qed.

Lemma elem_of_idx2 (R C i j : Z) : (i, j) ∈ idx2 R C ↔ 0 ≤ i < R ∧ 0 ≤ j < C.
Proof.
  unfold idx2. rewrite list_elem_of_bind. setoid_rewrite list_elem_of_bind.
  setoid_rewrite elem_of_range. setoid_rewrite list_elem_of_singleton.
  split; [intros (i' & (j' & [= -> ->] & ?) & ?); done|].
  intros [? ?]. exists i. split; [|done]. exists j. done.
Qed.

Lemma NoDup_idx2 (R C : Z) : NoDup (idx2 R C).
Proof.
  unfold idx2. apply NoDup_bind; [| |apply NoDup_range].
  - intros i1 i2 [a b] _ _ (j1 & H1 & _)%list_elem_of_bind (j2 & H2 & _)%list_elem_of_bind.
    apply list_elem_of_singleton in H1, H2. congruence.
  - intros i _. apply NoDup_bind; [| |apply NoDup_range].
    + intros j1 j2 [a b] _ _ H1 H2. apply list_elem_of_singleton in H1, H2. congruence.
    + intros. apply NoDup_singleton.
Qed.

Lemma elem_of_idx3 (R C K i j k : Z) :
  (i, j, k) ∈ idx3 R C K ↔ 0 ≤ i < R ∧ 0 ≤ j < C ∧ 0 ≤ k < K.
Proof.
  unfold idx3. rewrite list_elem_of_bind. setoid_rewrite list_elem_of_bind.
  setoid_rewrite list_elem_of_bind.
  setoid_rewrite elem_of_range. setoid_rewrite list_elem_of_singleton.
  split; [intros (i' & (j' & (k' & [= -> -> ->] & ?) & ?) & ?); done|].
  intros (? & ? & ?). exists i. split; [|done]. exists j. split; [|done]. exists k. done.
Qed.

Lemma NoDup_idx3 (R C K : Z) : NoDup (idx3 R C K).
Proof.
  unfold idx3. apply NoDup_bind; [| |apply NoDup_range].
  - intros i1 i2 [[a b] c] _ _
      (j1 & (k1 & H1 & _)%list_elem_of_bind & _)%list_elem_of_bind
      (j2 & (k2 & H2 & _)%list_elem_of_bind & _)%list_elem_of_bind.
    apply list_elem_of_singleton in H1, H2. congruence.
  - intros i _. apply NoDup_bind; [| |apply NoDup_range].
    + intros j1 j2 [[a b] c] _ _ (k1 & H1 & _)%list_elem_of_bind (k2 & H2 & _)%list_elem_of_bind.
      apply list_elem_of_singleton in H1, H2. congruence.
    + intros j _. apply NoDup_bind; [| |apply NoDup_range].
      * intros k1 k2 [[a b] c] _ _ H1 H2. apply list_elem_of_singleton in H1, H2. congruence.
      * intros. apply NoDup_singleton.
Qed.

(** ** Store accesses on well-formed matrices *)

Lemma oob2_false (M : Matrix.t) (i j : Z) :
  Matrix.oob2 M i j = false ↔ 0 ≤ i < Matrix.rows M ∧ 0 ≤ j < Matrix.cols M.
Proof. unfold Matrix.oob2. rewrite !orb_false_iff. lia. Qed.

Lemma oob3_false (M : Matrix.t) (i j k : Z) :
  Matrix.oob3 M i j k = false ↔
  0 ≤ i < Matrix.rows M ∧ 0 ≤ j < Matrix.cols M ∧ 0 ≤ k < Matrix.chls M.
Proof. unfold Matrix.oob3. rewrite !orb_false_iff. lia. Qed.

Lemma oob2_true (M : Matrix.t) (i j : Z) :
  ¬ (0 ≤ i < Matrix.rows M ∧ 0 ≤ j < Matrix.cols M) → Matrix.oob2 M i j = true.
Proof. rewrite <-oob2_false. by destruct (Matrix.oob2 M i j). Qed.

Lemma oob3_true (M : Matrix.t) (i j k : Z) :
  ¬ (0 ≤ i < Matrix.rows M ∧ 0 ≤ j < Matrix.cols M ∧ 0 ≤ k < Matrix.chls M) →
  Matrix.oob3 M i j k = true.
Proof. rewrite <-oob3_false. by destruct (Matrix.oob3 M i j k). Qed.

Lemma same_dims_oob2 (M N : Matrix.t) (i j : Z) :
  same_dims M N → Matrix.oob2 M i j = Matrix.oob2 N i j.
Proof. intros (? & ? & ?). unfold Matrix.oob2. congruence. Qed.

Lemma same_dims_oob3 (M N : Matrix.t) (i j k : Z) :
  same_dims M N → Matrix.oob3 M i j k = Matrix.oob3 N i j k.
Proof. intros (? & ? & ?). unfold Matrix.oob3. congruence. Qed.

Lemma same_dims_refl (M : Matrix.t) : same_dims M M.
Proof. done. Qed.

Lemma same_dims_sym (M N : Matrix.t) : same_dims M N → same_dims N M.
Proof. intros (? & ? & ?). done. Qed.

Lemma same_dims_trans (M N O : Matrix.t) : same_dims M N → same_dims N O → same_dims M O.
Proof. intros (? & ? & ?) (? & ? & ?). split_and!; congruence. Qed.

Lemma wf_grid (M : Matrix.t) : wf M → grid M.
Proof.
  intros (_ & ? & ? & ? & Hrows). unfold grid. split_and!; [done..|].
  eapply Forall_impl; [done|]. by intros r [? _].
Qed.

Lemma grid_raw (M : Matrix.t) (i j : Z) :
  grid M → 0 ≤ i < Matrix.rows M → 0 ≤ j < Matrix.cols M →
  ∃ c, Matrix.raw M i j = Some c.
Proof.
  intros (_ & _ & Hlen & Hrows) Hi Hj. unfold Matrix.raw.
  destruct (lookup_lt_is_Some_2 (Matrix.m M) (Z.to_nat i)) as [row Hrow]; [lia|].
  rewrite Hrow. simpl.
  pose proof (Forall_lookup_1 _ _ _ _ Hrows Hrow) as Hl. simpl in Hl.
  apply lookup_lt_is_Some_2. lia.
Qed.

Lemma wf_raw (M : Matrix.t) (i j : Z) :
  wf M → 0 ≤ i < Matrix.rows M → 0 ≤ j < Matrix.cols M →
  ∃ c, Matrix.raw M i j = Some c ∧ cell_ok (Matrix.chls M) c.
Proof.
  intros Hwf Hi Hj. destruct (grid_raw M i j) as [c Hc]; [by apply wf_grid | done..|].
  exists c. split; [done|]. destruct Hwf as (_ & _ & _ & _ & Hrows).
  unfold Matrix.raw in Hc.
  destruct (Matrix.m M !! Z.to_nat i) as [row|] eqn:Hrow; [|done]. simpl in Hc.
  destruct (Forall_lookup_1 _ _ _ _ Hrows Hrow) as [_ Hcells].
  by eapply Forall_lookup_1.
Qed.

(** A matrix whose shape is right and whose cells all fit its channel
    count is well formed. *)
Lemma wf_intro (M : Matrix.t) :
  grid M → 1 ≤ Matrix.chls M →
  (∀ i j c, 0 ≤ i < Matrix.rows M → 0 ≤ j < Matrix.cols M →
            Matrix.raw M i j = Some c → cell_ok (Matrix.chls M) c) →
  wf M.
Proof.
  intros (Hr & Hc & Hlen & Hrows) Hk Hcells. unfold wf. split_and!; [done..|].
  apply Forall_lookup. intros i row Hrow.
  pose proof (Forall_lookup_1 _ _ _ _ Hrows Hrow) as Hl. simpl in Hl. split; [done|].
  apply Forall_lookup. intros j c Hcj.
  pose proof (lookup_lt_Some _ _ _ Hrow). pose proof (lookup_lt_Some _ _ _ Hcj).
  apply (Hcells (Z.of_nat i) (Z.of_nat j)); [lia..|].
  unfold Matrix.raw. rewrite !Nat2Z.id, Hrow. done.
Qed.

Lemma store_grid (M : Matrix.t) (i j : Z) (c : Matrix.cell) :
  grid M → 0 ≤ i < Matrix.rows M → 0 ≤ j < Matrix.cols M →
  ∃ M', Matrix.store M i j c = Ok M' ∧ grid M' ∧ same_dims M' M ∧
        Matrix.raw M' i j = Some c ∧
        ∀ i' j', 0 ≤ i' → 0 ≤ j' → (i', j') ≠ (i, j) →
                 Matrix.raw M' i' j' = Matrix.raw M i' j'.
Proof.
  intros (Hr & Hcl & Hlen & Hrows) Hi Hj.
  unfold Matrix.store.
  destruct (lookup_lt_is_Some_2 (Matrix.m M) (Z.to_nat i)) as [row Hrow]; [lia|].
  rewrite Hrow.
  pose proof (Forall_lookup_1 _ _ _ _ Hrows Hrow) as Hl. simpl in Hl.
  rewrite decide_True by lia.
  eexists. split; [done|]. split_and!.
  - unfold grid, Matrix.with_m; simpl. split_and!; try done.
    + by rewrite length_insert.
    + apply Forall_insert; [done|]. by rewrite length_insert.
  - done.
  - unfold Matrix.raw, Matrix.with_m; simpl.
    rewrite list_lookup_insert_eq by lia. simpl.
    apply list_lookup_insert_eq. lia.
  - intros i' j' Hi' Hj' Hne. unfold Matrix.raw, Matrix.with_m; simpl.
    destruct (decide (Z.to_nat i = Z.to_nat i')) as [Heq|Hneq].
    + rewrite <-Heq, list_lookup_insert_eq, Hrow by lia. simpl.
      apply list_lookup_insert_ne. intros Hjj. apply Hne. f_equal; lia.
    + by rewrite list_lookup_insert_ne.
Qed.

Lemma store_spec (M : Matrix.t) (i j : Z) (c : Matrix.cell) :
  wf M → 0 ≤ i < Matrix.rows M → 0 ≤ j < Matrix.cols M → cell_ok (Matrix.chls M) c →
  ∃ M', Matrix.store M i j c = Ok M' ∧ wf M' ∧ same_dims M' M ∧
        Matrix.raw M' i j = Some c ∧
        ∀ i' j', 0 ≤ i' → 0 ≤ j' → (i', j') ≠ (i, j) →
                 Matrix.raw M' i' j' = Matrix.raw M i' j'.
Proof.
  intros Hwf Hi Hj Hc.
  destruct (store_grid M i j c) as (M' & Hst & Hg & Hd & Hraw & Hfr);
    [by apply wf_grid | done..|].
  exists M'. split_and!; try done. pose proof Hd as (D1 & D2 & D3).
  apply wf_intro; [done | destruct Hwf; lia |].
  intros i' j' c' Hi' Hj' Hc'. rewrite D3.
  destruct (decide ((i', j') = (i, j))) as [[= -> ->]|Hne].
  - rewrite Hraw in Hc'. by injection Hc' as <-.
  - rewrite Hfr in Hc' by (done || lia).
    destruct (wf_raw M i' j') as (c'' & Hc'' & Hok); [done | lia.. |]. congruence.
Qed.

Lemma get_cell_raw (M : Matrix.t) (i j : Z) (c : Matrix.cell) :
  0 ≤ i < Matrix.rows M → 0 ≤ j < Matrix.cols M →
  Matrix.raw M i j = Some c → Matrix.get_cell M i j = Ok c.
Proof.
  intros Hi Hj Hraw. unfold Matrix.get_cell.
  rewrite (proj2 (oob2_false M i j)) by done. by rewrite Hraw.
Qed.

Lemma get_cell_wf (M : Matrix.t) (i j : Z) :
  wf M → 0 ≤ i < Matrix.rows M → 0 ≤ j < Matrix.cols M →
  ∃ c, Matrix.get_cell M i j = Ok c ∧ cell_ok (Matrix.chls M) c ∧
       Matrix.raw M i j = Some c.
Proof.
  intros Hwf Hi Hj. destruct (wf_raw M i j) as (c & Hc & Hok); [done..|].
  exists c. split_and!; [|done..]. by apply get_cell_raw.
Qed.

Lemma get_cell_same_raw (M N : Matrix.t) (i j : Z) :
  same_dims M N → Matrix.raw M i j = Matrix.raw N i j →
  Matrix.get_cell M i j = Matrix.get_cell N i j.
Proof.
  intros Hd Hraw. unfold Matrix.get_cell.
  by rewrite (same_dims_oob2 M N), Hraw.
Qed.

Lemma get_same_raw (M N : Matrix.t) (i j k : Z) :
  same_dims M N → Matrix.raw M i j = Matrix.raw N i j →
  Matrix.get M i j k = Matrix.get N i j k.
Proof.
  intros Hd Hraw. unfold Matrix.get.
  by rewrite (same_dims_oob3 M N), Hraw.
Qed.

Lemma get_same_cell (M N : Matrix.t) (i j k : Z) :
  same_dims M N → Matrix.get_cell M i j = Matrix.get_cell N i j →
  Matrix.get M i j k = Matrix.get N i j k.
Proof.
  intros Hd Hc. unfold Matrix.get. rewrite (same_dims_oob3 M N) by done.
  destruct (Matrix.oob3 N i j k) eqn:Hoob; [done|].
  apply oob3_false in Hoob as (Hi & Hj & Hk).
  unfold Matrix.get_cell in Hc. rewrite (same_dims_oob2 M N) in Hc by done.
  rewrite (proj2 (oob2_false N i j)) in Hc by done.
  destruct (Matrix.raw M i j), (Matrix.raw N i j); by simplify_eq/=.
Qed.

(** [set(i, j, c)] on a well-formed matrix. *)
Lemma set_cell_spec (M : Matrix.t) (i j : Z) (c : Matrix.cell) :
  wf M → 0 ≤ i < Matrix.rows M → 0 ≤ j < Matrix.cols M → cell_ok (Matrix.chls M) c →
  ∃ M', Matrix.set_cell M i j c = Ok M' ∧ wf M' ∧ same_dims M' M ∧
        Matrix.get_cell M' i j = Ok c ∧
        ∀ r : Z * Z, r ≠ (i, j) →
          Matrix.get_cell M' r.1 r.2 = Matrix.get_cell M r.1 r.2.
Proof.
  intros Hwf Hi Hj Hc. unfold Matrix.set_cell.
  rewrite (proj2 (oob2_false M i j)) by done.
  destruct (store_spec M i j c) as (M' & -> & Hwf' & Hd & Hraw & Hfr); [done..|].
  exists M'. split_and!; try done.
  - destruct Hd as (? & ? & ?). apply get_cell_raw; [lia..|done].
  - intros [i' j'] Hne; simpl. unfold Matrix.get_cell.
    rewrite (same_dims_oob2 M' M) by done.
    destruct (Matrix.oob2 M i' j') eqn:Hoob; [done|].
    apply oob2_false in Hoob. rewrite Hfr; [done|lia|lia|done].
Qed.

(** [get(i, j, k)] on a well-formed matrix with pixel cells. *)
Lemma get_wf (M : Matrix.t) (i j k : Z) :
  wf M → 1 < Matrix.chls M →
  0 ≤ i < Matrix.rows M → 0 ≤ j < Matrix.cols M → 0 ≤ k < Matrix.chls M →
  ∃ v, Matrix.get M i j k = Ok v ∧ chan M i j k = Some v.
Proof.
  intros Hwf Hc Hi Hj Hk. destruct (wf_raw M i j) as (c & Hraw & Hok); [done..|].
  unfold Matrix.get, chan, cell_chan. rewrite (proj2 (oob3_false M i j k)) by done.
  rewrite Hraw. simpl.
  replace ((i <? 0) || (j <? 0)) with false by lia. replace (k <? 0) with false by lia.
  destruct c as [v|p]; simpl in Hok; [lia|]. destruct Hok as [_ Hlen].
  destruct (lookup_lt_is_Some_2 p (Z.to_nat k)) as [v Hv]; [lia|].
  rewrite Hv. eauto.
Qed.

Lemma get_chan (M : Matrix.t) (i j k : Z) (v : Qc) :
  Matrix.get M i j k = Ok v → chan M i j k = Some v.
Proof.
  unfold Matrix.get, chan, cell_chan. destruct (Matrix.oob3 M i j k) eqn:Hoob; [done|].
  apply oob3_false in Hoob. replace ((i <? 0) || (j <? 0)) with false by lia.
  replace (k <? 0) with false by lia.
  destruct (Matrix.raw M i j) as [[?|p]|]; try done; simpl.
  destruct (p !! Z.to_nat k); congruence.
Qed.

(** [set(i, j, v, k)] on a well-formed matrix with pixel cells. *)
Lemma set_spec (M : Matrix.t) (i j k : Z) (v : Qc) :
  wf M → 0 ≤ i < Matrix.rows M → 0 ≤ j < Matrix.cols M → 0 ≤ k < Matrix.chls M →
  1 < Matrix.chls M →
  ∃ M', Matrix.set M i j v k = Ok M' ∧ wf M' ∧ same_dims M' M ∧
        Matrix.get M' i j k = Ok v ∧
        ∀ r : Z * Z * Z, r ≠ (i, j, k) →
          Matrix.get M' r.1.1 r.1.2 r.2 = Matrix.get M r.1.1 r.1.2 r.2.
Proof.
  intros Hwf Hi Hj Hk Hc. destruct (wf_raw M i j) as (c & Hraw & Hok); [done..|].
  unfold Matrix.set. rewrite (proj2 (oob3_false M i j k)) by done. rewrite Hraw.
  destruct c as [?|p]; simpl in Hok; [lia|]. destruct Hok as [_ Hlen].
  rewrite decide_True by lia.
  destruct (store_spec M i j (Matrix.Pixel (<[Z.to_nat k:=v]> p)))
    as (M' & -> & Hwf' & Hd & Hraw' & Hfr); [done..| |].
  { simpl. by rewrite length_insert. }
  exists M'. split_and!; try done.
  - unfold Matrix.get. rewrite (same_dims_oob3 M' M) by done.
    rewrite (proj2 (oob3_false M i j k)) by done. rewrite Hraw'.
    rewrite list_lookup_insert_eq by lia. done.
  - intros [[i' j'] k'] Hne; simpl. unfold Matrix.get.
    rewrite (same_dims_oob3 M' M) by done.
    destruct (Matrix.oob3 M i' j' k') eqn:Hoob; [done|].
    apply oob3_false in Hoob.
    destruct (decide ((i', j') = (i, j))) as [[= -> ->]|Hij].
    + rewrite Hraw', Hraw. rewrite list_lookup_insert_ne; [done|].
      intros Hkk. apply Hne. f_equal. lia.
    + rewrite Hfr; [done|lia|lia|done].
Qed.

(** Writing a channel leaves every other cell as it was. *)
Lemma set_get_cell_other (M M' : Matrix.t) (i j k i' j' : Z) (v : Qc) :
  wf M → Matrix.set M i j v k = Ok M' → (i', j') ≠ (i, j) →
  Matrix.get_cell M' i' j' = Matrix.get_cell M i' j'.
Proof.
  intros Hwf Hset Hne. unfold Matrix.set in Hset.
  destruct (Matrix.oob3 M i j k) eqn:Hoob; [done|]. apply oob3_false in Hoob.
  destruct (Matrix.raw M i j) as [[?|p]|] eqn:Hraw; try done.
  case_decide; [|done].
  assert (cell_ok (Matrix.chls M) (Matrix.Pixel (<[Z.to_nat k:=v]> p))) as Hok.
  { destruct (wf_raw M i j) as (c & Hc & Hok); [done|lia|lia|].
    rewrite Hraw in Hc. injection Hc as <-. simpl in *. by rewrite length_insert. }
  destruct (store_spec M i j (Matrix.Pixel (<[Z.to_nat k:=v]> p)))
    as (M'' & Hst & _ & Hd & _ & Hfr); [done|lia|lia|done|].
  rewrite Hst in Hset. injection Hset as ->.
  unfold Matrix.get_cell. rewrite (same_dims_oob2 M' M) by done.
  destruct (Matrix.oob2 M i' j') eqn:Hoob2; [done|]. apply oob2_false in Hoob2.
  rewrite Hfr; [done|lia|lia|done].
Qed.

(** ** Traversals as loops over position lists *)

Lemma nest2_flat {S} (R C : Z) (cb : Z → Z → S → result S) (s : S) :
  forM (range R) (λ i, forM (range C) (λ j, cb i j)) s
  = forM (idx2 R C) (λ p, cb p.1 p.2) s.
Proof.
  unfold idx2. rewrite forM_bind. apply forM_ext; intros i s' _.
  rewrite forM_bind. apply forM_ext; intros j s'' _. by rewrite forM_singleton.
Qed.

Lemma nest3_flat {S} (R C K : Z) (cb : Z → Z → Z → S → result S) (s : S) :
  forM (range R) (λ i, forM (range C) (λ j, forM (range K) (λ k, cb i j k))) s
  = forM (idx3 R C K) (λ p, cb p.1.1 p.1.2 p.2) s.
Proof.
  unfold idx3. rewrite forM_bind. apply forM_ext; intros i s' _.
  rewrite forM_bind. apply forM_ext; intros j s'' _.
  rewrite forM_bind. apply forM_ext; intros k s''' _. by rewrite forM_singleton.
Qed.

Lemma apply_flat {S} (M : Matrix.t) (cb : Z → Z → S → result S) (s : S) :
  Matrix.apply M cb s = forM (idx2 (Matrix.rows M) (Matrix.cols M)) (λ p, cb p.1 p.2) s.
Proof. apply nest2_flat. Qed.

Lemma applyAllPixels_flat {S} (M : Matrix.t) (cb : Z → Z → Z → S → result S) (s : S) :
  Matrix.applyAllPixels M cb s
  = forM (idx3 (Matrix.rows M) (Matrix.cols M) 3) (λ p, cb p.1.1 p.1.2 p.2) s.
Proof. apply nest3_flat. Qed.

Lemma applyAll_flat {S} (M : Matrix.t) (cb : Z → Z → option Z → S → result S) (s : S) :
  1 < Matrix.chls M →
  Matrix.applyAll M cb s
  = forM (idx3 (Matrix.rows M) (Matrix.cols M) (Matrix.chls M))
      (λ p, cb p.1.1 p.1.2 (Some p.2)) s.
Proof.
  intros Hc. unfold Matrix.applyAll. replace (1 <? Matrix.chls M) with true by lia.
  apply (nest3_flat _ _ _ (λ i j k, cb i j (Some k))).
Qed.

Lemma applyAll_flat1 {S} (M : Matrix.t) (cb : Z → Z → option Z → S → result S) (s : S) :
  Matrix.chls M ≤ 1 →
  Matrix.applyAll M cb s
  = forM (idx2 (Matrix.rows M) (Matrix.cols M)) (λ p, cb p.1 p.2 None) s.
Proof.
  intros Hc. unfold Matrix.applyAll. replace (1 <? Matrix.chls M) with false by lia.
  apply (nest2_flat _ _ (λ i j, cb i j None)).
Qed.

(** ** Assignment loops over the channels of a matrix *)

(** A loop over distinct channel positions [ps] of [A] that stores at
    each position a value computed from that position and from positions
    outside [ps]. *)
Lemma assign_loop (A : Matrix.t) (ps : list (Z * Z * Z))
    (h : Z * Z * Z → Matrix.t → result Qc) (F : Z * Z * Z → Qc) :
  wf A → 1 < Matrix.chls A → NoDup ps →
  (∀ i j k, (i, j, k) ∈ ps →
     0 ≤ i < Matrix.rows A ∧ 0 ≤ j < Matrix.cols A ∧ 0 ≤ k < Matrix.chls A) →
  (∀ p A', p ∈ ps → wf A' → same_dims A' A → rd3 A' p = rd3 A p →
     (∀ r, r ∉ ps → rd3 A' r = rd3 A r) → h p A' = Ok (F p)) →
  ∃ A', forM ps (λ p A', v ← h p A'; Matrix.set A' p.1.1 p.1.2 v p.2) A = Ok A' ∧
        (wf A' ∧ same_dims A' A) ∧
        (∀ p, p ∈ ps → rd3 A' p = Ok (F p)) ∧
        (∀ r, r ∉ ps → rd3 A' r = rd3 A r).
Proof.
  intros Hwf Hc Hnd Hrange Hh.
  apply (forM_local rd3 (λ A', wf A' ∧ same_dims A' A)); [done | done |].
  intros [[i j] k] A' Hp [Hwf' Hd] Hsame Hout.
  rewrite (Hh _ A') by done. simpl.
  destruct (Hrange i j k Hp) as (Hi & Hj & Hk). pose proof Hd as (Hd1 & Hd2 & Hd3).
  destruct (set_spec A' i j k (F (i, j, k))) as (A'' & -> & Hwf'' & Hd'' & Hget & Hfr);
    [done | lia.. |].
  exists A''. split_and!; try done. by eapply same_dims_trans.
Qed.

Lemma getd_Ok (M : Matrix.t) (p : Z * Z * Z) (v : Qc) : rd3 M p = Ok v → getd M p = v.
Proof. unfold getd. by intros ->. Qed.

Lemma rd3_wf (M : Matrix.t) (i j k : Z) :
  wf M → 1 < Matrix.chls M →
  0 ≤ i < Matrix.rows M → 0 ≤ j < Matrix.cols M → 0 ≤ k < Matrix.chls M →
  rd3 M (i, j, k) = Ok (getd M (i, j, k)).
Proof.
  intros. destruct (get_wf M i j k) as (v & Hv & _); [done..|].
  unfold getd, rd3; simpl. by rewrite Hv.
Qed.

(** The operators of the form [A.set(i, j, f(A.get(i,j,k), B.get(i,j,k)), k)]. *)
Lemma blend_spec (f : Qc → Qc → Qc) (A B : Matrix.t) :
  wf A → wf B → same_dims B A → 3 ≤ Matrix.chls A →
  ∃ A', Imager.blend f A B = Ok A' ∧ (wf A' ∧ same_dims A' A) ∧
        (∀ p, p ∈ idx3 (Matrix.rows A) (Matrix.cols A) 3 →
              rd3 A' p = Ok (f (getd A p) (getd B p))) ∧
        (∀ r, r ∉ idx3 (Matrix.rows A) (Matrix.cols A) 3 → rd3 A' r = rd3 A r).
Proof.
  intros HA HB Hd Hc. unfold Imager.blend. rewrite applyAllPixels_flat.
  destruct Hd as (Hd1 & Hd2 & Hd3).
  destruct (assign_loop A (idx3 (Matrix.rows A) (Matrix.cols A) 3)
    (λ p A', a ← rd3 A' p; b ← rd3 B p; Ok (f a b))
    (λ p, f (getd A p) (getd B p))) as (A' & Hrun & Hrest); [done | lia | apply NoDup_idx3 | | |].
  - intros i j k Hp%elem_of_idx3. lia.
  - intros [[i j] k] A' Hp%elem_of_idx3 Hwf' Hd' Hsame _.
    rewrite Hsame, (rd3_wf A), (rd3_wf B) by (done || lia). done.
  - exists A'. split; [|done]. rewrite <-Hrun. apply forM_ext.
    intros [[i j] k] A'' _. unfold rd3; simpl.
    destruct (Matrix.get A'' i j k); simpl; [|done]. by destruct (Matrix.get B i j k).
Qed.

Lemma alpha_not_color (R C i j : Z) : (i, j, 3) ∉ idx3 R C 3.
Proof. rewrite elem_of_idx3. lia. Qed.

Lemma keeps_alpha_refl (A : Matrix.t) : wf A → keeps_alpha A A.
Proof. intros. unfold keeps_alpha. by split_and!. Qed.

Lemma keeps_alpha_trans (A A' A'' : Matrix.t) :
  keeps_alpha A A' → keeps_alpha A' A'' → keeps_alpha A A''.
Proof.
  intros (? & ? & H1) (? & ? & H2). unfold keeps_alpha.
  split_and!; [done | by eapply same_dims_trans |].
  intros. by rewrite H2, H1.
Qed.

Lemma blend_alpha (f : Qc → Qc → Qc) (A B : Matrix.t) :
  wf A → wf B → same_dims B A → 3 ≤ Matrix.chls A →
  ∃ A', Imager.blend f A B = Ok A' ∧ keeps_alpha A A'.
Proof.
  intros. destruct (blend_spec f A B) as (A' & ? & [? ?] & _ & Hfr); [done..|].
  exists A'. split; [done|]. unfold keeps_alpha. split_and!; [done..|].
  intros i j. apply (Hfr (i, j, 3)), alpha_not_color.
Qed.

(** [normal]: the three colour channels of a pixel are recomputed from the
    operands' colours and alphas; alpha itself is never written. *)
Lemma normal_spec (A B : Matrix.t) :
  wf A → wf B → same_dims B A → Matrix.chls A = 4 →
  ∃ A', Imager.normal A B = Ok A' ∧ (wf A' ∧ same_dims A' A) ∧
        (∀ i j k, (i, j, k) ∈ idx3 (Matrix.rows A) (Matrix.cols A) 3 →
           rd3 A' (i, j, k) =
             Ok ((getd A (i, j, k) * getd A (i, j, 3)
                  + getd B (i, j, k) * getd B (i, j, 3) * (1 - getd A (i, j, 3)))
                 / (getd A (i, j, 3) + getd B (i, j, 3) * (1 - getd A (i, j, 3))))%Qc) ∧
        (∀ r, r ∉ idx3 (Matrix.rows A) (Matrix.cols A) 3 → rd3 A' r = rd3 A r).
Proof.
  intros HA HB Hd Hc. unfold Imager.normal. rewrite applyAllPixels_flat.
  destruct Hd as (Hd1 & Hd2 & Hd3).
  destruct (assign_loop A (idx3 (Matrix.rows A) (Matrix.cols A) 3)
    (λ p A', a3 ← rd3 A' (p.1, 3); b3 ← rd3 B (p.1, 3); a ← rd3 A' p; b ← rd3 B p;
             Ok ((a * a3 + b * b3 * (1 - a3)) / (a3 + b3 * (1 - a3)))%Qc)
    (λ p, ((getd A p * getd A (p.1, 3) + getd B p * getd B (p.1, 3) * (1 - getd A (p.1, 3)))
          / (getd A (p.1, 3) + getd B (p.1, 3) * (1 - getd A (p.1, 3))))%Qc))
    as (A' & Hrun & [Hwf' Hd'] & Hval & Hfr); [done | lia | apply NoDup_idx3 | | |].
  - intros i j k Hp%elem_of_idx3. lia.
  - intros [[i j] k] A' Hp%elem_of_idx3 HwfA' HdA' Hsame Hout. simpl.
    rewrite (Hout (i, j, 3)) by apply alpha_not_color.
    rewrite Hsame, !(rd3_wf A), !(rd3_wf B) by (done || lia). done.
  - exists A'. split; [|split_and!; try done].
    + rewrite <-Hrun. apply forM_ext.
      intros [[i j] k] A'' _. unfold rd3; simpl.
      destruct (Matrix.get A'' i j 3); simpl; [|done].
      destruct (Matrix.get B i j 3); simpl; [|done].
      destruct (Matrix.get A'' i j k); simpl; [|done]. by destruct (Matrix.get B i j k).
    + intros i j k Hp. apply (Hval (i, j, k) Hp).
Qed.

Lemma set_alpha (M : Matrix.t) (i j k : Z) (v : Qc) :
  wf M → 0 ≤ i < Matrix.rows M → 0 ≤ j < Matrix.cols M → 0 ≤ k < 3 →
  3 ≤ Matrix.chls M →
  ∃ M', Matrix.set M i j v k = Ok M' ∧ keeps_alpha M M'.
Proof.
  intros Hwf Hi Hj Hk Hc.
  destruct (set_spec M i j k v) as (M' & -> & ? & ? & _ & Hfr); [done | lia.. |].
  exists M'. split; [done|]. unfold keeps_alpha. split_and!; [done..|].
  intros i' j'. apply (Hfr (i', j', 3)). intros [= _ _ ?]. lia.
Qed.

Lemma setPixel_alpha (M : Matrix.t) (i j : Z) (r g b : Qc) :
  wf M → 0 ≤ i < Matrix.rows M → 0 ≤ j < Matrix.cols M → 3 ≤ Matrix.chls M →
  ∃ M', Matrix.setPixel M i j r g b None = Ok M' ∧ keeps_alpha M M'.
Proof.
  intros Hwf Hi Hj Hc. unfold Matrix.setPixel.
  replace (Matrix.chls M <? 3) with false by lia.
  rewrite (proj2 (oob2_false M i j)) by done. rewrite andb_false_r.
  destruct (set_alpha M i j 0 r) as (M1 & -> & K1); [done | lia.. |]. simpl.
  pose proof K1 as (W1 & (D1 & D2 & D3) & _).
  destruct (set_alpha M1 i j 1 g) as (M2 & -> & K2); [done | lia.. |]. simpl.
  pose proof K2 as (W2 & (E1 & E2 & E3) & _).
  destruct (set_alpha M2 i j 2 b) as (M3 & -> & K3); [done | lia.. |]. simpl.
  exists M3. split; [done|]. eauto using keeps_alpha_trans.
Qed.

(** [invert] succeeds on every well-formed matrix with at least three
    channels and writes colour channels only. *)
Lemma invert_alpha (A : Matrix.t) :
  wf A → 3 ≤ Matrix.chls A → ∃ A', Imager.invert A = Ok A' ∧ keeps_alpha A A'.
Proof.
  intros Hwf Hc. unfold Imager.invert. rewrite apply_flat.
  apply (forM_inv (keeps_alpha A)); [by apply keeps_alpha_refl|].
  intros [i j] A' [Hi Hj]%elem_of_idx2 K. pose proof K as (W & (D1 & D2 & D3) & _). simpl.
  destruct (get_wf A' i j 0) as (r & -> & _); [done | lia.. |].
  destruct (get_wf A' i j 1) as (g & -> & _); [done | lia.. |].
  destruct (get_wf A' i j 2) as (b & -> & _); [done | lia.. |]. simpl.
  destruct (setPixel_alpha A' i j (1 - r) (1 - g) (1 - b)) as (A'' & -> & K'); [done | lia.. |].
  exists A''. split; [done|]. by eapply keeps_alpha_trans.
Qed.

(** ** [isWhite] against the specification's all-white *)

Lemma white_loop (B : Matrix.t) (ps : list (Z * Z * Z)) (flag : bool) :
  wf B → 1 < Matrix.chls B →
  (∀ i j k, (i, j, k) ∈ ps →
     0 ≤ i < Matrix.rows B ∧ 0 ≤ j < Matrix.cols B ∧ 0 ≤ k < Matrix.chls B) →
  ∃ b, forM ps (λ p flag, v ← Matrix.get B p.1.1 p.1.2 p.2;
                 Ok (if Qc_eqb v 1 then flag else false)) flag = Ok b ∧
       (b = true ↔ flag = true ∧ ∀ i j k, (i, j, k) ∈ ps → chan B i j k = Some 1%Qc).
Proof.
  intros Hwf Hc. revert flag. induction ps as [|[[i j] k] ps IH]; intros flag Hr; simpl.
  - exists flag. split; [done|]. split; [|by intros []]. intros ->. split; [done|].
    intros ??? H. by apply elem_of_nil in H.
  - destruct (Hr i j k) as (Hi & Hj & Hk); [left|].
    destruct (get_wf B i j k) as (v & -> & Hv); [done..|]. simpl.
    destruct (IH (if Qc_eqb v 1 then flag else false)) as (b & -> & Hb).
    { intros. apply Hr. by right. }
    exists b. split; [done|]. rewrite Hb. unfold Qc_eqb.
    split.
    + intros [Hflag Hall]. case_bool_decide as Hv1; [|done]. subst v.
      split; [done|]. intros i' j' k' [[= -> -> ->]|?]%elem_of_cons; [done | by apply Hall].
    + intros [-> Hall]. rewrite (Hall i j k) in Hv by left. injection Hv as <-.
      rewrite bool_decide_eq_true_2 by done. split; [done|].
      intros. apply Hall. by right.
Qed.

Lemma isWhite_spec (B : Matrix.t) :
  wf B → ∃ b, Matrix.isWhite B = Ok b ∧ (b = true ↔ all_white B).
Proof.
  intros Hwf. unfold Matrix.isWhite, all_white.
  destruct (negb (Matrix.chls B =? 3) && negb (Matrix.chls B =? 4)) eqn:Hc.
  - exists false. split; [done|]. split; [done|]. intros [? _]. lia.
  - rewrite applyAllPixels_flat.
    destruct (white_loop B (idx3 (Matrix.rows B) (Matrix.cols B) 3) true)
      as (b & -> & Hb); [done | lia | |].
    { intros i j k Hp%elem_of_idx3. lia. }
    exists b. split; [done|]. rewrite Hb. setoid_rewrite elem_of_idx3.
    split.
    + intros [_ H]. split; [lia|]. intros. by apply H.
    + intros [_ H]. split; [done|]. intros ??? (? & ? & ?). by apply H.
Qed.

(** ** The composite blend families *)

Ltac unpack_alpha :=
  repeat match goal with
         | H : keeps_alpha _ _ |- _ => destruct H as (? & (? & ? & ?) & _)
         end.

Ltac alpha_side :=
  unpack_alpha; unfold same_dims in *;
  first [assumption | lia | split_and!; lia].

Lemma dodge_color_alpha (A B : Matrix.t) :
  wf A → wf B → same_dims B A → 3 ≤ Matrix.chls A →
  ∃ A' B', Imager.dodge_color A B = Ok (A', B') ∧ keeps_alpha A A' ∧ keeps_alpha B B'.
Proof.
  intros HA HB Hd Hc. unfold Imager.dodge_color.
  destruct (invert_alpha B) as (B1 & -> & KB1); [alpha_side..|]. simpl.
  destruct (blend_alpha (λ a b, a / b)%Qc A B1) as (A1 & HA1 & KA1); [alpha_side..|].
  unfold Imager.divide. rewrite HA1. simpl.
  destruct (invert_alpha B1) as (B2 & -> & KB2); [alpha_side..|]. simpl.
  exists A1, B2. split_and!; [done | done |]. by eapply keeps_alpha_trans.
Qed.

Lemma dodge_alpha (A B : Matrix.t) (type : string) :
  wf A → wf B → same_dims B A → 3 ≤ Matrix.chls A →
  type ∈ ["screen"; "color"; "linear"; "divide"] →
  ∃ A' B', Imager.dodge A B type = Ok (A', B') ∧ keeps_alpha A A' ∧ keeps_alpha B B'.
Proof.
  intros HA HB Hd Hc Ht. unfold Imager.dodge.
  repeat (apply elem_of_cons in Ht as [->|Ht]); [| | | |by apply elem_of_nil in Ht]; simpl.
  - destruct (invert_alpha A) as (A1 & -> & KA1); [alpha_side..|]. simpl.
    destruct (invert_alpha B) as (B1 & -> & KB1); [alpha_side..|]. simpl.
    destruct (blend_alpha (λ a b, a * b)%Qc A1 B1) as (A2 & HA2 & KA2); [alpha_side..|].
    unfold Imager.multiply. rewrite HA2. simpl.
    destruct (invert_alpha A2) as (A3 & -> & KA3); [alpha_side..|]. simpl.
    destruct (invert_alpha B1) as (B2 & -> & KB2); [alpha_side..|]. simpl.
    exists A3, B2. split_and!; [done | |]; eauto using keeps_alpha_trans.
  - by apply dodge_color_alpha.
  - destruct (blend_alpha (λ a b, a + b)%Qc A B) as (A1 & HA1 & KA1); [alpha_side..|].
    unfold Imager.addition. rewrite HA1. simpl.
    exists A1, B. split_and!; [done | done |]. by apply keeps_alpha_refl.
  - destruct (isWhite_spec B) as (b & -> & _); [done|]. simpl.
    destruct b; simpl; [|by apply dodge_color_alpha].
    exists A, B. split_and!; [done | |]; by apply keeps_alpha_refl.
Qed.

Lemma burn_alpha (A B : Matrix.t) (type : string) :
  wf A → wf B → same_dims B A → 3 ≤ Matrix.chls A →
  type ∈ ["multiply"; "color"; "linear"] →
  ∃ A' B', Imager.burn A B type = Ok (A', B') ∧ keeps_alpha A A' ∧ keeps_alpha B B'.
Proof.
  intros HA HB Hd Hc Ht. unfold Imager.burn.
  repeat (apply elem_of_cons in Ht as [->|Ht]); [| | |by apply elem_of_nil in Ht]; simpl.
  - destruct (blend_alpha (λ a b, a * b)%Qc A B) as (A1 & HA1 & KA1); [alpha_side..|].
    unfold Imager.multiply. rewrite HA1. simpl.
    exists A1, B. split_and!; [done | done |]. by apply keeps_alpha_refl.
  - destruct (invert_alpha A) as (A1 & -> & KA1); [alpha_side..|]. simpl.
    destruct (blend_alpha (λ a b, a / b)%Qc A1 B) as (A2 & HA2 & KA2); [alpha_side..|].
    unfold Imager.divide. rewrite HA2. simpl.
    destruct (invert_alpha A2) as (A3 & -> & KA3); [alpha_side..|]. simpl.
    exists A3, B. split_and!; [done | |]; eauto using keeps_alpha_trans, keeps_alpha_refl.
  - destruct (blend_alpha (λ a b, a + b - 1)%Qc A B) as (A1 & HA1 & KA1); [alpha_side..|].
    unfold Imager.burn_linear. rewrite HA1. simpl.
    exists A1, B. split_and!; [done | done |]. by apply keeps_alpha_refl.
Qed.

Lemma light_alpha (js_sqrt : Qc → Qc) (A B : Matrix.t) (type : string) :
  wf A → wf B → same_dims B A → 3 ≤ Matrix.chls A →
  type ∈ ["soft"; "hard"; "vivid"; "linear"] →
  ∃ A' B', Imager.light js_sqrt A B type = Ok (A', B') ∧
           keeps_alpha A A' ∧ keeps_alpha B B'.
Proof.
  intros HA HB Hd Hc Ht. unfold Imager.light.
  repeat (apply elem_of_cons in Ht as [->|Ht]); [| | | |by apply elem_of_nil in Ht]; simpl.
  - destruct (blend_alpha (Imager.soft_fn js_sqrt) A B) as (A1 & -> & KA1); [alpha_side..|].
    simpl. exists A1, B. split_and!; [done | done |]. by apply keeps_alpha_refl.
  - destruct (blend_alpha Imager.overlay_fn A B) as (A1 & -> & KA1); [alpha_side..|].
    simpl. exists A1, B. split_and!; [done | done |]. by apply keeps_alpha_refl.
  - destruct (dodge_alpha A B "color") as (A1 & B1 & -> & KA1 & KB1);
      [alpha_side.. | by repeat constructor |]. simpl.
    destruct (burn_alpha A1 B1 "color") as (A2 & B2 & -> & KA2 & KB2);
      [alpha_side.. | by repeat constructor |].
    exists A2, B2. split_and!; [done | |]; eauto using keeps_alpha_trans.
  - destruct (dodge_alpha A B "linear") as (A1 & B1 & -> & KA1 & KB1);
      [alpha_side.. | by repeat constructor |]. simpl.
    destruct (burn_alpha A1 B1 "linear") as (A2 & B2 & -> & KA2 & KB2);
      [alpha_side.. | by repeat constructor |].
    exists A2, B2. split_and!; [done | |]; eauto using keeps_alpha_trans.
Qed.

(** ** Blend operators: the claims *)

Ltac by_decide := apply (bool_decide_unpack _); vm_compute; exact I.

(** C7. For matrices [A] and [B] of equal dimensions with at least three
    channels, [dodge(A, B, 'divide')] is [dodge(A, B, 'color')] whenever
    [B] is not all-white, a call that succeeds, and it returns [A] (and [B])
    untouched whenever [B] is all-white. *)
Theorem dodge_divide_is_color_unless_white (A B : Matrix.t) :
  wf A → wf B → same_dims B A → 3 ≤ Matrix.chls A →
  (¬ all_white B →
     Imager.dodge A B "divide" = Imager.dodge A B "color" ∧
     ∃ A' B', Imager.dodge A B "color" = Ok (A', B')) ∧
  (all_white B → Imager.dodge A B "divide" = Ok (A, B)).
Proof.
  intros HA HB Hd Hc.
  destruct (isWhite_spec B HB) as (b & Hb & Hiff).
  unfold Imager.dodge; simpl. rewrite Hb; simpl. split.
  - intros Hnw. destruct b; [by destruct Hnw; apply Hiff|]. simpl. split; [done|].
    destruct (dodge_color_alpha A B) as (A' & B' & -> & _); eauto.
  - intros Hw. apply Hiff in Hw as ->. done.
Qed.

Lemma dodge_divide_is_color_unless_white_witness :
  wf rgba_a ∧ wf rgba_white ∧ wf rgba_b ∧
  same_dims rgba_white rgba_a ∧ same_dims rgba_b rgba_a ∧ 3 ≤ Matrix.chls rgba_a ∧
  all_white rgba_white ∧ ¬ all_white rgba_b ∧
  Imager.dodge rgba_a rgba_b "divide" = Imager.dodge rgba_a rgba_b "color" ∧
  Imager.dodge rgba_a rgba_white "divide" = Ok (rgba_a, rgba_white).
Proof.
  assert (wf rgba_a) as HA by by_decide.
  assert (wf rgba_white) as HB by by_decide.
  assert (wf rgba_b) as HB' by by_decide.
  assert (same_dims rgba_white rgba_a) as Hd by (by vm_compute).
  assert (same_dims rgba_b rgba_a) as Hd' by (by vm_compute).
  assert (3 ≤ Matrix.chls rgba_a) as Hc by (vm_compute; discriminate).
  assert (¬ all_white rgba_b) as Hnw.
  { intros [_ H].
    specialize (H 0 0 0 ltac:(simpl; lia) ltac:(simpl; lia) ltac:(lia)).
    vm_compute in H. discriminate H. }
  assert (all_white rgba_white) as Hw.
  { split; [by right|]. intros i j k Hi Hj Hk.
    assert (i = 0) as -> by (simpl in Hi; lia).
    assert (j = 0 ∨ j = 1) as [-> | ->] by (simpl in Hj; lia);
      (assert (k = 0 ∨ k = 1 ∨ k = 2) as [-> | [-> | ->]] by lia); reflexivity. }
  refine (conj HA (conj HB (conj HB' (conj Hd (conj Hd' (conj Hc (conj Hw (conj Hnw
           (conj _ _))))))))).
  - by apply (dodge_divide_is_color_unless_white rgba_a rgba_b).
  - by apply (dodge_divide_is_color_unless_white rgba_a rgba_white).
Defined.



(** C10. Every blend operator writes only colour channels 0..2 of its base
    operand: on 4-channel operands of equal dimensions each of addition,
    subtraction, multiply, divide, difference, screen, overlay, darken,
    lighten, normal, light, dodge and burn (in each of their modes) returns
    normally and leaves the alpha channel of every pixel of [A] as it was;
    [normal] in particular computes a result alpha and does not store it. *)
Theorem blend_operators_keep_alpha (js_sqrt : Qc → Qc) (A B : Matrix.t) :
  wf A → wf B → same_dims B A → Matrix.chls A = 4 →
  (∀ op, op ∈ [Imager.addition; Imager.subtraction; Imager.multiply; Imager.divide;
               Imager.difference; Imager.screen; Imager.overlay; Imager.darken;
               Imager.lighten; Imager.normal] →
     ∃ A', op A B = Ok A' ∧ ∀ i j, Matrix.get A' i j 3 = Matrix.get A i j 3) ∧
  (∀ type, type ∈ ["soft"; "hard"; "vivid"; "linear"] →
     ∃ A' B', Imager.light js_sqrt A B type = Ok (A', B') ∧
              ∀ i j, Matrix.get A' i j 3 = Matrix.get A i j 3) ∧
  (∀ type, type ∈ ["screen"; "color"; "linear"; "divide"] →
     ∃ A' B', Imager.dodge A B type = Ok (A', B') ∧
              ∀ i j, Matrix.get A' i j 3 = Matrix.get A i j 3) ∧
  (∀ type, type ∈ ["multiply"; "color"; "linear"] →
     ∃ A' B', Imager.burn A B type = Ok (A', B') ∧
              ∀ i j, Matrix.get A' i j 3 = Matrix.get A i j 3).
Proof.
  intros HA HB Hd Hc. split_and!.
  - intros op Hop.
    assert (op = Imager.normal ∨ ∃ f, op = Imager.blend f) as [-> | [f ->]].
    { repeat (apply elem_of_cons in Hop as [->|Hop]); [..|by apply elem_of_nil in Hop];
        first [by left | right; eexists; reflexivity]. }
    + destruct (normal_spec A B) as (A' & ? & _ & _ & Hfr); [done..|].
      exists A'. split; [done|]. intros i j. apply (Hfr (i, j, 3)), alpha_not_color.
    + destruct (blend_alpha f A B) as (A' & ? & _ & _ & ?); [done | done | done | lia |].
      by exists A'.
  - intros type Ht.
    destruct (light_alpha js_sqrt A B type) as (A' & B' & ? & (_ & _ & ?) & _);
      [done | done | done | lia | done |]. by exists A', B'.
  - intros type Ht.
    destruct (dodge_alpha A B type) as (A' & B' & ? & (_ & _ & ?) & _);
      [done | done | done | lia | done |]. by exists A', B'.
  - intros type Ht.
    destruct (burn_alpha A B type) as (A' & B' & ? & (_ & _ & ?) & _);
      [done | done | done | lia | done |]. by exists A', B'.
Qed.

Lemma blend_operators_keep_alpha_witness :
  wf rgba_a ∧ wf rgba_b ∧ same_dims rgba_b rgba_a ∧ Matrix.chls rgba_a = 4 ∧
  (∃ A', Imager.normal rgba_a rgba_b = Ok A' ∧ Matrix.get A' 0 0 3 = Ok (q 1 2)) ∧
  (∃ A' B', Imager.dodge rgba_a rgba_b "screen" = Ok (A', B') ∧
            Matrix.get A' 0 1 3 = Ok (q 1 1)).
Proof.
  assert (wf rgba_a) as HA by by_decide.
  assert (wf rgba_b) as HB by by_decide.
  assert (same_dims rgba_b rgba_a) as Hd by (by vm_compute).
  destruct (blend_operators_keep_alpha (λ x, x) rgba_a rgba_b HA HB Hd eq_refl)
    as (Hop & _ & Hdodge & _).
  refine (conj HA (conj HB (conj Hd (conj eq_refl (conj _ _))))).
  - destruct (Hop Imager.normal) as (A' & Hrun & Hal); [by repeat constructor|].
    exists A'. split; [exact Hrun|]. rewrite Hal. reflexivity.
  - destruct (Hdodge "screen") as (A' & B' & Hrun & Hal); [by repeat constructor|].
    exists A', B'. split; [exact Hrun|]. rewrite Hal. reflexivity.
Defined.

(** ** [generate] *)

Lemma parseInt_Z (z : Z) : parseInt (Z2Qc z) = z.
Proof. unfold parseInt; simpl. apply Z.quot_1_r. Qed.

Lemma is_length_Z (z : Z) : is_length (Z2Qc z) = (0 <=? z).
Proof. done. Qed.

Lemma Qc_ltb_Z (a b : Z) : Qc_ltb (Z2Qc a) (Z2Qc b) = (a <? b).
Proof.
  unfold Qc_ltb, Z2Qc. destruct (Z.ltb_spec a b) as [H|H].
  - apply bool_decide_eq_true_2. by rewrite <-Z2Qc_inj_lt.
  - apply bool_decide_eq_false_2. rewrite <-Z2Qc_inj_lt. lia.
Qed.

(** [generate] on integer arguments. *)
Lemma generate_Z (r c k : Z) (v : Qc) :
  Matrix.generate (Z2Qc r) (Z2Qc c) (Z2Qc k) v =
  if (r =? 0) || (c =? 0) || (k =? 0) then Err TypeError
  else if r <? 0 then Err RangeError
  else if c <? 0 then Err RangeError
  else if 1 <? k
       then Ok {| Matrix.m := replicate (Z.to_nat r)
                                (replicate (Z.to_nat c) (Matrix.Pixel (replicate (Z.to_nat k) v)));
                  Matrix.rows := r; Matrix.cols := c; Matrix.chls := k |}
       else Ok {| Matrix.m := replicate (Z.to_nat r) (replicate (Z.to_nat c) (Matrix.Scalar v));
                  Matrix.rows := r; Matrix.cols := c; Matrix.chls := k |}.
Proof.
  unfold Matrix.generate. rewrite !parseInt_Z, !is_length_Z.
  replace 1%Qc with (Z2Qc 1) by apply Z2Qc_inj_1. rewrite Qc_ltb_Z.
  destruct ((r =? 0) || (c =? 0) || (k =? 0)); [done|].
  destruct (Z.ltb_spec r 0), (Z.leb_spec 0 r); try lia; simpl; [done|].
  destruct (Z.ltb_spec c 0), (Z.leb_spec 0 c); try lia; simpl; [done|].
  destruct (Z.ltb_spec 1 k); [|done].
  by replace (0 <=? k) with true by lia.
Qed.

(** Positive integer dimensions: a well-formed matrix filled with [v]. *)
Lemma generate_positive (r c k : Z) (v : Qc) :
  1 ≤ r → 1 ≤ c → 1 ≤ k →
  ∃ M, Matrix.generate (Z2Qc r) (Z2Qc c) (Z2Qc k) v = Ok M ∧ wf M ∧
       Matrix.rows M = r ∧ Matrix.cols M = c ∧ Matrix.chls M = k ∧
       ∀ i j, 0 ≤ i < r → 0 ≤ j < c →
         Matrix.raw M i j =
           Some (if 1 <? k then Matrix.Pixel (replicate (Z.to_nat k) v) else Matrix.Scalar v).
Proof.
  intros Hr Hc Hk. rewrite generate_Z.
  replace ((r =? 0) || (c =? 0) || (k =? 0)) with false by lia.
  replace (r <? 0) with false by lia. replace (c <? 0) with false by lia.
  destruct (Z.ltb_spec 1 k); eexists; (split; [done|]); simpl.
  - split_and!; try done.
    + unfold wf; simpl. split_and!; [lia.. | by rewrite length_replicate |].
      apply Forall_replicate. split; [by rewrite length_replicate|].
      apply Forall_replicate. simpl. split; [lia|]. by rewrite length_replicate.
    + intros i j Hi Hj. unfold Matrix.raw; simpl.
      rewrite lookup_replicate_2 by lia. simpl. apply lookup_replicate_2. lia.
  - split_and!; try done.
    + unfold wf; simpl. split_and!; [lia.. | by rewrite length_replicate |].
      apply Forall_replicate. split; [by rewrite length_replicate|].
      apply Forall_replicate. simpl. lia.
    + intros i j Hi Hj. unfold Matrix.raw; simpl.
      rewrite lookup_replicate_2 by lia. simpl. apply lookup_replicate_2. lia.
Qed.

(** The guard and the array constructors together reject every row or
    column count that is not a positive integer. *)
Lemma generate_rejects_rows_cols (rows cols chls v : Qc) (M : Matrix.t) :
  Matrix.generate rows cols chls v = Ok M →
  (Qden rows = 1%positive ∧ 0 < Qnum rows) ∧ (Qden cols = 1%positive ∧ 0 < Qnum cols).
Proof.
  unfold Matrix.generate. intros H.
  destruct (Z.eqb_spec (parseInt rows) 0) as [|Hr]; [done|].
  destruct (Z.eqb_spec (parseInt cols) 0) as [|Hc]; [done|].
  rewrite !orb_false_l in H. destruct (parseInt chls =? 0); [done|].
  destruct (is_length rows) eqn:Lr; [|done]. destruct (is_length cols) eqn:Lc; [|done].
  apply andb_true_iff in Lr as [Er Pr]. apply andb_true_iff in Lc as [Ec Pc].
  apply Pos.eqb_eq in Er, Ec. apply Z.leb_le in Pr, Pc.
  unfold parseInt in Hr, Hc. rewrite Er in Hr. rewrite Ec in Hc.
  rewrite Z.quot_1_r in Hr, Hc. lia.
Qed.

(** A channel count of -1 or below passes the guard, skips the pixel
    arrays and is stored as it is. *)
Lemma generate_negative_channels (r c k : Z) (v : Qc) :
  1 ≤ r → 1 ≤ c → k ≤ -1 →
  Matrix.generate (Z2Qc r) (Z2Qc c) (Z2Qc k) v =
    Ok {| Matrix.m := replicate (Z.to_nat r) (replicate (Z.to_nat c) (Matrix.Scalar v));
          Matrix.rows := r; Matrix.cols := c; Matrix.chls := k |}.
Proof.
  intros Hr Hc Hk. rewrite generate_Z.
  replace ((r =? 0) || (c =? 0) || (k =? 0)) with false by lia.
  replace (r <? 0) with false by lia. replace (c <? 0) with false by lia.
  by replace (1 <? k) with false by lia.
Qed.

(** C4. [generate(2, 2, -1, 0)]: the channel count -1 is not a positive
    integer, and the call returns a 2 by 2 matrix of zeros whose channel
    count is -1 instead of failing; a fractional row count such as 5/2, and
    a zero, are rejected. *)
Theorem generate_accepts_negative_channels :
  view <$> Matrix.generate (Z2Qc 2) (Z2Qc 2) (Z2Qc (-1)) 0
    = Ok ([[[0%Q]; [0%Q]]; [[0%Q]; [0%Q]]], (2, 2, -1)) ∧
  Matrix.generate (q 5 2) (Z2Qc 2) (Z2Qc 1) 0 = Err RangeError ∧
  Matrix.generate (Z2Qc 2) (Z2Qc 0) (Z2Qc 1) 0 = Err TypeError.
Proof. by vm_compute. Qed.

(** ** [mmul] and the Prewitt kernel *)

(** Operands with more than one channel, or with mismatching inner
    dimensions, are rejected. *)
Lemma mmul_rejects (A B : Matrix.t) :
  1 < Matrix.chls A ∨ 1 < Matrix.chls B ∨ Matrix.cols A ≠ Matrix.rows B →
  ∃ e, Matrix.mmul A B = Err e.
Proof.
  intros H. unfold Matrix.mmul.
  destruct ((1 <? Matrix.chls A) || (1 <? Matrix.chls B)) eqn:Hc; [by eexists|].
  replace (Matrix.cols A =? Matrix.rows B) with false by lia. by eexists.
Qed.

(** C3. The Prewitt factory multiplies [[1,0,-1],[1,0,-1],[1,0,-1]] by
    [[1,1,1],[0,0,0],[-1,-1,-1]] with [mmul]; the standard product of the
    two is the constant matrix of 2s, and [mmul] returns
    [[3,0,-3],[0,0,0],[-3,0,3]], the product taken in the other order. *)
Theorem prewitt_is_not_the_standard_product :
  view <$> Kernel.prewitt
    = Ok ([[[3%Q]; [0%Q]; [(-3)%Q]]; [[0%Q]; [0%Q]; [0%Q]]; [[(-3)%Q]; [0%Q]; [3%Q]]],
          (3, 3, 1)) ∧
  matmul_spec [[1; 0; -1]; [1; 0; -1]; [1; 0; -1]] [[1; 1; 1]; [0; 0; 0]; [-1; -1; -1]]
    = [[2; 2; 2]; [2; 2; 2]; [2; 2; 2]] ∧
  matmul_spec [[1; 1; 1]; [0; 0; 0]; [-1; -1; -1]] [[1; 0; -1]; [1; 0; -1]; [1; 0; -1]]
    = [[3; 0; -3]; [0; 0; 0]; [-3; 0; 3]].
Proof. by vm_compute. Qed.

(** ** Cell-level loops and [extrude] *)

Lemma get_cell_Ok (M : Matrix.t) (i j : Z) (c : Matrix.cell) :
  Matrix.get_cell M i j = Ok c →
  (0 ≤ i < Matrix.rows M ∧ 0 ≤ j < Matrix.cols M) ∧ Matrix.raw M i j = Some c.
Proof.
  unfold Matrix.get_cell. destruct (Matrix.oob2 M i j) eqn:Hoob; [done|].
  apply oob2_false in Hoob. destruct (Matrix.raw M i j); [|done]. by intros [= ->].
Qed.

Lemma set_cell_grid (M : Matrix.t) (i j : Z) (c : Matrix.cell) :
  grid M → 0 ≤ i < Matrix.rows M → 0 ≤ j < Matrix.cols M →
  ∃ M', Matrix.set_cell M i j c = Ok M' ∧ (grid M' ∧ same_dims M' M) ∧
        rd2 M' (i, j) = Ok c ∧
        ∀ r : Z * Z, r ≠ (i, j) → rd2 M' r = rd2 M r.
Proof.
  intros Hg Hi Hj. unfold Matrix.set_cell.
  rewrite (proj2 (oob2_false M i j)) by done.
  destruct (store_grid M i j c) as (M' & -> & Hg' & Hd & Hraw & Hfr); [done..|].
  exists M'. split_and!; try done.
  - destruct Hd as (? & ? & ?). apply get_cell_raw; [simpl; lia..|done].
  - intros [i' j'] Hne; unfold rd2; simpl. unfold Matrix.get_cell.
    rewrite (same_dims_oob2 M' M) by done.
    destruct (Matrix.oob2 M i' j') eqn:Hoob; [done|].
    apply oob2_false in Hoob. rewrite Hfr; [done|lia|lia|done].
Qed.

Lemma store_grid_rd (M : Matrix.t) (i j : Z) (c : Matrix.cell) :
  grid M → 0 ≤ i < Matrix.rows M → 0 ≤ j < Matrix.cols M →
  ∃ M', Matrix.store M i j c = Ok M' ∧ (grid M' ∧ same_dims M' M) ∧
        rd2 M' (i, j) = Ok c ∧
        ∀ r : Z * Z, r ≠ (i, j) → rd2 M' r = rd2 M r.
Proof.
  intros Hg Hi Hj. destruct (set_cell_grid M i j c) as (M' & Hs & ?); [done..|].
  exists M'. split; [|done]. rewrite <-Hs. unfold Matrix.set_cell.
  by rewrite (proj2 (oob2_false M i j)).
Qed.

(** A loop that replaces every cell [c] at a position of [ps] by [f c]. *)
Lemma map_cells_loop (M : Matrix.t) (ps : list (Z * Z))
    (step : Z * Z → Matrix.t → result Matrix.t) (F : Z * Z → Matrix.cell) :
  grid M → NoDup ps →
  (∀ i j, (i, j) ∈ ps → 0 ≤ i < Matrix.rows M ∧ 0 ≤ j < Matrix.cols M) →
  (∀ p M', p ∈ ps → grid M' → same_dims M' M → rd2 M' p = rd2 M p →
     step p M' = Matrix.store M' p.1 p.2 (F p)) →
  ∃ M', forM ps step M = Ok M' ∧ (grid M' ∧ same_dims M' M) ∧
        (∀ p, p ∈ ps → rd2 M' p = Ok (F p)) ∧
        (∀ r, r ∉ ps → rd2 M' r = rd2 M r).
Proof.
  intros Hg Hnd Hrange Hstep.
  apply (forM_local rd2 (λ M', grid M' ∧ same_dims M' M)); [done | done |].
  intros [i j] M' Hp [Hg' Hd] Hsame _. rewrite Hstep by done. simpl.
  destruct (Hrange i j Hp) as [Hi Hj]. pose proof Hd as (D1 & D2 & D3).
  destruct (store_grid_rd M' i j (F (i, j))) as (M'' & -> & [? ?] & ? & ?); [done | lia.. |].
  exists M''. split_and!; try done. by eapply same_dims_trans.
Qed.

Lemma extrude_rejects (M : Matrix.t) (n : Z) :
  n ≤ 1 ∨ n < Matrix.chls M → Matrix.extrude M n = Err RangeError.
Proof.
  intros H. unfold Matrix.extrude. destruct (Z.leb_spec n 1); [done|].
  by replace (n <? Matrix.chls M) with true by lia.
Qed.

Lemma extrude_cells (M : Matrix.t) (n : Z) :
  wf M → 1 < n → Matrix.chls M ≤ n →
  ∃ M', Matrix.extrude M n = Ok M' ∧ grid M' ∧
        Matrix.rows M' = Matrix.rows M ∧ Matrix.cols M' = Matrix.cols M ∧
        Matrix.chls M' = n ∧
        ∀ i j c, 0 ≤ i < Matrix.rows M → 0 ≤ j < Matrix.cols M →
          Matrix.raw M i j = Some c →
          Matrix.raw M' i j = Some (extruded n (Matrix.chls M) c).
Proof.
  intros Hwf Hn Hc. unfold Matrix.extrude.
  replace (n <=? 1) with false by lia. replace (n <? Matrix.chls M) with false by lia.
  pose proof (wf_grid M Hwf) as Hg.
  set (F := λ p : Z * Z, match rd2 M p with
                         | Ok c => extruded n (Matrix.chls M) c
                         | Err _ => Matrix.Scalar 0
                         end).
  assert (∀ step,
    (∀ p M', p ∈ idx2 (Matrix.rows M) (Matrix.cols M) → grid M' → same_dims M' M →
       rd2 M' p = rd2 M p → step p.1 p.2 M' = Matrix.store M' p.1 p.2 (F p)) →
    ∃ M', (Matrix.apply M step M ≫= λ M', Ok (Matrix.with_chls M' n)) = Ok M' ∧ grid M' ∧
        Matrix.rows M' = Matrix.rows M ∧ Matrix.cols M' = Matrix.cols M ∧
        Matrix.chls M' = n ∧
        ∀ i j c, 0 ≤ i < Matrix.rows M → 0 ≤ j < Matrix.cols M →
          Matrix.raw M i j = Some c →
          Matrix.raw M' i j = Some (extruded n (Matrix.chls M) c)) as Hloop.
  { intros step Hstep. rewrite apply_flat.
    destruct (map_cells_loop M (idx2 (Matrix.rows M) (Matrix.cols M))
                (λ p, step p.1 p.2) F) as (M' & -> & [Hg' Hd] & Hval & _);
      [done | apply NoDup_idx2 | by intros i j ?%elem_of_idx2 | done |].
    simpl. eexists. split; [done|]. destruct Hd as (D1 & D2 & D3).
    split_and!; try done.
    intros i j c Hi Hj Hraw. specialize (Hval (i, j)).
    rewrite elem_of_idx2 in Hval. specialize (Hval (conj Hi Hj)).
    apply get_cell_Ok in Hval as [_ Hval]. simpl in Hval.
    unfold Matrix.raw, Matrix.with_chls in *; simpl. rewrite Hval. f_equal.
    unfold F, rd2; simpl. by rewrite (get_cell_raw M i j c). }
  destruct (Z.eqb_spec (Matrix.chls M) 1) as [H1|H1].
  - apply Hloop. intros [i j] M' [Hi Hj]%elem_of_idx2 Hg' Hd Hsame. simpl.
    unfold rd2 in Hsame; simpl in Hsame. rewrite Hsame.
    destruct (get_cell_wf M i j) as (c & Hc' & Hok & _); [done..|].
    unfold F, rd2; simpl. rewrite Hc'. simpl.
    destruct c as [v|p]; simpl in Hok; [|lia]. simpl. unfold Matrix.set_cell.
    rewrite (same_dims_oob2 M' M), (proj2 (oob2_false M i j)); done.
  - apply Hloop. intros [i j] M' [Hi Hj]%elem_of_idx2 Hg' Hd Hsame. simpl.
    destruct (get_cell_wf M i j) as (c & Hc' & Hok & _); [done..|].
    unfold rd2 in Hsame; simpl in Hsame. rewrite Hc' in Hsame.
    apply get_cell_Ok in Hsame as [_ ->].
    unfold F, rd2; simpl. rewrite Hc'.
    destruct c as [v|p]; simpl in Hok; [lia|]. simpl.
    destruct (p !! Z.to_nat (Matrix.chls M - 1)) eqn:Hl; [done|].
    apply lookup_ge_None in Hl. destruct Hwf. lia.
Qed.

Lemma extruded_ok (n old : Z) (c : Matrix.cell) :
  1 ≤ old → 1 < n → old ≤ n → cell_ok old c → cell_ok n (extruded n old c).
Proof.
  intros Ho Hn Hle Hc. destruct c as [v|p]; simpl in *.
  - split; [done|]. by rewrite length_replicate.
  - destruct Hc as [Ho' Hlen].
    destruct (lookup_lt_is_Some_2 p (Z.to_nat (old - 1))) as [v ->]; [lia|]. simpl.
    split; [done|]. rewrite length_app, length_replicate. lia.
Qed.

Lemma extruded_old (n old k : Z) (c : Matrix.cell) :
  1 < n → cell_ok old c → 0 ≤ k < old →
  cell_chan (extruded n old c) k = cell_chan c k.
Proof.
  intros Hn Hc Hk. unfold cell_chan. replace (k <? 0) with false by lia.
  destruct c as [v|p]; simpl in *.
  - subst old. assert (k = 0) as -> by lia. simpl. apply lookup_replicate_2. lia.
  - destruct Hc as [Ho Hlen].
    destruct (lookup_lt_is_Some_2 p (Z.to_nat (old - 1))) as [v ->]; [lia|].
    apply lookup_app_l. lia.
Qed.

Lemma extruded_new (n old k : Z) (c : Matrix.cell) :
  1 < n → cell_ok old c → old ≤ k < n →
  cell_chan (extruded n old c) k = cell_chan c (old - 1).
Proof.
  intros Hn Hc Hk. unfold cell_chan.
  destruct c as [v|p]; simpl in *.
  - subst old. simpl. replace (k <? 0) with false by lia. apply lookup_replicate_2. lia.
  - destruct Hc as [Ho Hlen]. replace (k <? 0) with false by lia.
    replace (old - 1 <? 0) with false by lia.
    destruct (lookup_lt_is_Some_2 p (Z.to_nat (old - 1))) as [v Hv]; [lia|]. rewrite Hv.
    rewrite lookup_app_r by lia. apply lookup_replicate_2. lia.
Qed.

Lemma chan_raw (M : Matrix.t) (i j k : Z) (c : Matrix.cell) :
  0 ≤ i → 0 ≤ j → Matrix.raw M i j = Some c → chan M i j k = cell_chan c k.
Proof.
  intros Hi Hj Hraw. unfold chan. replace ((i <? 0) || (j <? 0)) with false by lia.
  by rewrite Hraw.
Qed.

(** [extrude] to a count that is at least the current one. *)
Lemma extrude_ok (M : Matrix.t) (n : Z) :
  wf M → 1 < n → Matrix.chls M ≤ n →
  ∃ M', Matrix.extrude M n = Ok M' ∧ wf M' ∧
    Matrix.rows M' = Matrix.rows M ∧ Matrix.cols M' = Matrix.cols M ∧
    Matrix.chls M' = n ∧
    ∀ i j, 0 ≤ i < Matrix.rows M → 0 ≤ j < Matrix.cols M →
      (∀ k, 0 ≤ k < Matrix.chls M → chan M' i j k = chan M i j k) ∧
      (∀ k, Matrix.chls M ≤ k < n → chan M' i j k = chan M i j (Matrix.chls M - 1)).
Proof.
  intros Hwf Hn Hle.
  destruct (extrude_cells M n) as (M' & Hrun & Hg & D1 & D2 & D3 & Hcells); [done..|].
  exists M'. split_and!; try done.
  - apply wf_intro; [done | lia |]. intros i j c Hi Hj Hc. rewrite D1, D2 in *.
    destruct (wf_raw M i j) as (c0 & Hc0 & Hok); [done..|].
    rewrite (Hcells i j c0) in Hc by done. injection Hc as <-. rewrite D3.
    apply extruded_ok; [destruct Hwf; lia | done..].
  - intros i j Hi Hj. destruct (wf_raw M i j) as (c0 & Hc0 & Hok); [done..|].
    pose proof (Hcells i j c0 Hi Hj Hc0) as Hc'.
    split; intros k Hk; rewrite (chan_raw M' i j k _ ltac:(lia) ltac:(lia) Hc'),
      (chan_raw M i j _ _ ltac:(lia) ltac:(lia) Hc0).
    + by apply extruded_old.
    + by apply extruded_new.
Qed.

(** C5, as the code has it.  [extrude(n)] fails when [n] is at most 1 or
    strictly below the current channel count; for every other [n], the
    current count included, it succeeds, leaves the channels that were
    there unchanged and gives every new channel up to [n] the value of the
    last old one. *)
Theorem extrude_spec (M : Matrix.t) (n : Z) :
  wf M →
  (n ≤ 1 ∨ n < Matrix.chls M → Matrix.extrude M n = Err RangeError) ∧
  (1 < n → Matrix.chls M ≤ n →
     ∃ M', Matrix.extrude M n = Ok M' ∧ wf M' ∧
       Matrix.rows M' = Matrix.rows M ∧ Matrix.cols M' = Matrix.cols M ∧
       Matrix.chls M' = n ∧
       ∀ i j, 0 ≤ i < Matrix.rows M → 0 ≤ j < Matrix.cols M →
         (∀ k, 0 ≤ k < Matrix.chls M → chan M' i j k = chan M i j k) ∧
         (∀ k, Matrix.chls M ≤ k < n → chan M' i j k = chan M i j (Matrix.chls M - 1))).
Proof.
  intros Hwf. split; [apply extrude_rejects | by apply extrude_ok].
Qed.

Lemma extrude_spec_witness :
  wf rgb_one ∧
  Matrix.extrude rgb_one 2 = Err RangeError ∧
  ∃ M', Matrix.extrude rgb_one 5 = Ok M' ∧ Matrix.chls M' = 5 ∧
        chan M' 0 0 1 = Some (q 1 4) ∧ chan M' 0 0 4 = Some (q 1 8).
Proof.
  assert (wf rgb_one) as Hwf by by_decide.
  destruct (extrude_spec rgb_one 2 Hwf) as [Hrej _].
  destruct (extrude_spec rgb_one 5 Hwf) as [_ Hok].
  refine (conj Hwf (conj (Hrej _) _)); [right; simpl; lia|].
  destruct Hok as (M' & Hrun & _ & _ & _ & Hc & Hval); [lia | simpl; lia |].
  exists M'. split; [exact Hrun|]. split; [exact Hc|].
  destruct (Hval 0 0) as [Hold Hnew]; [simpl; lia..|].
  split.
  - rewrite Hold by (simpl; lia). reflexivity.
  - rewrite Hnew by (simpl; lia). reflexivity.
Defined.

(** C5 as stated fails: a 3-channel matrix extruded to 3 channels, a count
    not above the current one, is returned unchanged instead of failing. *)
Lemma extrude_to_same_count_succeeds :
  Matrix.chls rgb_one = 3 ∧ Matrix.extrude rgb_one 3 = Ok rgb_one.
Proof. by vm_compute. Qed.

(** ** [copy] and [crop] *)

Lemma forM_fmap {X Y S} (g : X → Y) (l : list X) (body : Y → S → result S) (s : S) :
  forM (g <$> l) body s = forM l (λ x, body (g x)) s.
Proof.
  revert s. induction l as [|x l IH]; intros s; simpl; [done|].
  destruct (body (g x) s); simpl; [apply IH | done].
Qed.

(** Copying a window of [R] by [C] cells from [Src] at offset (si, sj) into
    [Dst] at offset (di, dj), as [copy] and [crop] do. *)
Lemma transfer_loop (Src Dst : Matrix.t) (R C si sj di dj : Z) :
  wf Src → wf Dst → Matrix.chls Src = Matrix.chls Dst →
  (∀ i j, 0 ≤ i < R → 0 ≤ j < C →
     (0 ≤ i + si < Matrix.rows Src ∧ 0 ≤ j + sj < Matrix.cols Src) ∧
     (0 ≤ i + di < Matrix.rows Dst ∧ 0 ≤ j + dj < Matrix.cols Dst)) →
  ∃ Dst', forM (idx2 R C) (λ p to',
            c ← Matrix.get_cell Src (p.1 + si) (p.2 + sj);
            Matrix.set_cell to' (p.1 + di) (p.2 + dj) c) Dst = Ok Dst' ∧
          (wf Dst' ∧ same_dims Dst' Dst) ∧
          (∀ i j, 0 ≤ i < R → 0 ≤ j < C →
             Matrix.get_cell Dst' (i + di) (j + dj) = Matrix.get_cell Src (i + si) (j + sj)) ∧
          (∀ i j, ¬ (di ≤ i < di + R ∧ dj ≤ j < dj + C) →
             Matrix.get_cell Dst' i j = Matrix.get_cell Dst i j).
Proof.
  intros HS HD Hc Hrange.
  set (g := λ p : Z * Z, (p.1 + di, p.2 + dj)).
  set (F := λ r : Z * Z, match Matrix.get_cell Src (r.1 - di + si) (r.2 - dj + sj) with
                         | Ok c => c | Err _ => Matrix.Scalar 0 end).
  assert (Inj (=) (=) g) as Hinj.
  { intros [a b] [a' b'] [= ? ?]. f_equal; lia. }
  assert (∀ r, r ∈ g <$> idx2 R C ↔ di ≤ r.1 < di + R ∧ dj ≤ r.2 < dj + C) as Hmem.
  { intros [a b]. rewrite list_elem_of_fmap. split.
    - intros ([i j] & [= -> ->] & [? ?]%elem_of_idx2). simpl. lia.
    - intros [? ?]. exists (a - di, b - dj). split; [unfold g; simpl; f_equal; lia|].
      apply elem_of_idx2. simpl in *. lia. }
  destruct (forM_local rd2 (λ M', wf M' ∧ same_dims M' Dst) (g <$> idx2 R C) F
    (λ r to', c ← Matrix.get_cell Src (r.1 - di + si) (r.2 - dj + sj);
              Matrix.set_cell to' r.1 r.2 c) Dst)
    as (Dst' & Hrun & Hgood & Hval & Hfr).
  - apply NoDup_fmap_2; [done | apply NoDup_idx2].
  - done.
  - intros [a b] M' Hr [Hwf' Hd] _ _. apply Hmem in Hr. simpl in Hr.
    destruct (Hrange (a - di) (b - dj)) as [[Hi Hj] [Hi' Hj']]; [lia..|].
    destruct (get_cell_wf Src (a - di + si) (b - dj + sj)) as (c & Hc' & Hok & _); [done..|].
    unfold F. simpl. rewrite Hc'. simpl. pose proof Hd as (D1 & D2 & D3).
    destruct (set_cell_spec M' a b c) as (M'' & -> & ? & ? & ? & ?); [done | lia.. | |].
    { by rewrite D3, <-Hc. }
    exists M''. split_and!; try done. by eapply same_dims_trans.
  - exists Dst'. split_and!.
    + rewrite <-Hrun, forM_fmap. apply forM_ext. intros [i j] s _. simpl.
      by replace (i + di - di + si) with (i + si) by lia;
         replace (j + dj - dj + sj) with (j + sj) by lia.
    + apply Hgood.
    + apply Hgood.
    + intros i j Hi Hj. specialize (Hval (i + di, j + dj)).
      unfold rd2, F in Hval; simpl in Hval. rewrite Hval.
      * replace (i + di - di + si) with (i + si) by lia.
        replace (j + dj - dj + sj) with (j + sj) by lia.
        destruct (Hrange i j) as [[? ?] _]; [done..|].
        by destruct (get_cell_wf Src (i + si) (j + sj)) as (c & -> & _); [done..|].
      * apply Hmem. simpl. lia.
    + intros i j Hout. apply (Hfr (i, j)). by rewrite Hmem.
Qed.

(** [copy(to, {i, j})] *)
Lemma copy_spec (M to : Matrix.t) (oi oj : Z) :
  wf M → wf to → Matrix.chls M = Matrix.chls to →
  0 ≤ oi → 0 ≤ oj → Matrix.rows M + oi ≤ Matrix.rows to → Matrix.cols M + oj ≤ Matrix.cols to →
  ∃ to', Matrix.copy M to oi oj = Ok to' ∧ (wf to' ∧ same_dims to' to) ∧
         (∀ i j, 0 ≤ i < Matrix.rows M → 0 ≤ j < Matrix.cols M →
            Matrix.get_cell to' (i + oi) (j + oj) = Matrix.get_cell M i j) ∧
         (∀ i j, ¬ (oi ≤ i < oi + Matrix.rows M ∧ oj ≤ j < oj + Matrix.cols M) →
            Matrix.get_cell to' i j = Matrix.get_cell to i j).
Proof.
  intros HM Hto Hc Hoi Hoj Hr Hcl. unfold Matrix.copy. rewrite apply_flat.
  destruct (transfer_loop M to (Matrix.rows M) (Matrix.cols M) 0 0 oi oj)
    as (to' & Hrun & [Hwf' Hd'] & Hval & Hfr); [done.. | intros; lia |].
  exists to'. split_and!; [| done | done | | done].
  - rewrite <-Hrun. apply forM_ext. intros [i j] s _. simpl.
    by rewrite !Z.add_0_r.
  - intros i j Hi Hj. rewrite Hval by done. by rewrite !Z.add_0_r.
Qed.

(** C9. For corners of a non-empty rectangle inside [A], [crop] returns a
    new matrix of [|x2 - x1|] rows and [|y2 - y1|] columns whose cell at
    (i, j) is the cell of [A] at (i + min x1 x2, j + min y1 y2); [A] is an
    argument that [crop] only reads. *)
Theorem crop_spec (A : Matrix.t) (x1 y1 x2 y2 : Z) :
  wf A → x1 ≠ x2 → y1 ≠ y2 →
  0 ≤ Z.min x1 x2 → Z.max x1 x2 ≤ Matrix.rows A →
  0 ≤ Z.min y1 y2 → Z.max y1 y2 ≤ Matrix.cols A →
  ∃ crop, Imager.crop A x1 y1 x2 y2 = Ok crop ∧ wf crop ∧
    Matrix.rows crop = Z.abs (x2 - x1) ∧ Matrix.cols crop = Z.abs (y2 - y1) ∧
    Matrix.chls crop = Matrix.chls A ∧
    ∀ i j, 0 ≤ i < Z.abs (x2 - x1) → 0 ≤ j < Z.abs (y2 - y1) →
      ∃ c, Matrix.get_cell A (i + Z.min x1 x2) (j + Z.min y1 y2) = Ok c ∧
           Matrix.get_cell crop i j = Ok c.
Proof.
  intros HA Hx Hy Hx0 Hx1 Hy0 Hy1. unfold Imager.crop, Matrix.new, Matrix.getChls.
  destruct (generate_positive (Z.abs (x2 - x1)) (Z.abs (y2 - y1)) (Matrix.chls A) 0)
    as (C0 & -> & HC0 & D1 & D2 & D3 & _); [lia | lia | destruct HA; lia |]. simpl.
  rewrite apply_flat.
  destruct (transfer_loop A C0 (Matrix.rows C0) (Matrix.cols C0)
              (Z.min x1 x2) (Z.min y1 y2) 0 0)
    as (C1 & Hrun & [HC1 (E1 & E2 & E3)] & Hval & _); [done | done | done | intros; lia |].
  exists C1. split_and!; [| done | lia.. |].
  - rewrite <-Hrun. apply forM_ext. intros [i j] s _. simpl. by rewrite !Z.add_0_r.
  - intros i j Hi Hj.
    destruct (get_cell_wf A (i + Z.min x1 x2) (j + Z.min y1 y2)) as (c & Hc & _);
      [done | lia.. |].
    exists c. split; [done|]. specialize (Hval i j). rewrite !Z.add_0_r in Hval.
    rewrite Hval; [done | lia..].
Qed.

Lemma crop_spec_witness :
  wf gray_2x3 ∧
  ∃ crop, Imager.crop gray_2x3 2 3 1 1 = Ok crop ∧
          Matrix.rows crop = 1 ∧ Matrix.cols crop = 2 ∧
          Matrix.get_cell crop 0 1 = Ok (Matrix.Scalar (Z2Qc 6)).
Proof.
  assert (wf gray_2x3) as Hwf by by_decide.
  refine (conj Hwf _).
  destruct (crop_spec gray_2x3 2 3 1 1 Hwf) as (crop & Hrun & _ & Hr & Hc & _ & Hval);
    [simpl; lia..|].
  exists crop. split; [exact Hrun|]. split; [exact Hr|]. split; [exact Hc|].
  destruct (Hval 0 1) as (c & HA & Hcrop); [simpl; lia..|].
  rewrite Hcrop, <-HA. reflexivity.
Defined.

(** ** Flips *)

Lemma swapRow_wf (M : Matrix.t) (i i2 : Z) :
  wf M → 0 ≤ i < Matrix.rows M → 0 ≤ i2 < Matrix.rows M →
  ∃ M', Matrix.swapRow M i i2 = Ok M' ∧ wf M' ∧ same_dims M' M.
Proof.
  intros Hwf Hi Hi2. pose proof Hwf as (Hk & Hr & Hc & Hlen & Hrows).
  unfold Matrix.swapRow.
  destruct (lookup_lt_is_Some_2 (Matrix.m M) (Z.to_nat i)) as [r Hrow]; [lia|].
  destruct (lookup_lt_is_Some_2 (Matrix.m M) (Z.to_nat i2)) as [r2 Hrow2]; [lia|].
  rewrite Hrow, Hrow2. eexists. split; [done|]. split; [|done].
  unfold wf, Matrix.with_m; simpl. split_and!; [done.. | by rewrite !length_insert |].
  apply Forall_insert; [apply Forall_insert; [done|]|].
  - exact (Forall_lookup_1 _ _ _ _ Hrows Hrow2).
  - exact (Forall_lookup_1 _ _ _ _ Hrows Hrow).
Qed.

Lemma swapCol_wf (M : Matrix.t) (j j2 : Z) :
  wf M → 0 ≤ j < Matrix.cols M → 0 ≤ j2 < Matrix.cols M →
  ∃ M', Matrix.swapCol M j j2 = Ok M' ∧ wf M' ∧ same_dims M' M.
Proof.
  intros Hwf Hj Hj2. unfold Matrix.swapCol.
  apply (forM_inv (λ M', wf M' ∧ same_dims M' M)); [done|].
  intros i M' Hi%elem_of_range [Hwf' Hd]. pose proof Hd as (D1 & D2 & D3).
  destruct (wf_raw M' i j) as (c & -> & Hc); [done | lia.. |].
  destruct (wf_raw M' i j2) as (c2 & -> & Hc2); [done | lia.. |].
  destruct (store_spec M' i j c2) as (M1 & -> & Hwf1 & Hd1 & _); [done | lia.. | done |].
  simpl. pose proof Hd1 as (E1 & E2 & E3).
  destruct (store_spec M1 i j2 c) as (M2 & -> & Hwf2 & Hd2 & _); [done | lia.. | by rewrite E3 |].
  exists M2. split; [done|]. split; [done|]. eauto using same_dims_trans.
Qed.

Lemma flipX_wf (M : Matrix.t) :
  wf M → ∃ M', Matrix.flipX M = Ok M' ∧ wf M' ∧ same_dims M' M.
Proof.
  intros Hwf. unfold Matrix.flipX.
  apply (forM_inv (λ M', wf M' ∧ same_dims M' M)); [done|].
  intros j M' Hj%elem_of_range [Hwf' Hd]. pose proof Hd as (D1 & D2 & D3).
  destruct (swapCol_wf M' j (Matrix.cols M' - j - 1)) as (M1 & -> & ? & ?);
    [done | Z.div_mod_to_equations; lia.. |].
  exists M1. eauto using same_dims_trans.
Qed.

Lemma flipY_wf (M : Matrix.t) :
  wf M → ∃ M', Matrix.flipY M = Ok M' ∧ wf M' ∧ same_dims M' M.
Proof.
  intros Hwf. unfold Matrix.flipY.
  apply (forM_inv (λ M', wf M' ∧ same_dims M' M)); [done|].
  intros i M' Hi%elem_of_range [Hwf' Hd]. pose proof Hd as (D1 & D2 & D3).
  destruct (swapRow_wf M' i (Matrix.rows M' - i - 1)) as (M1 & -> & ? & ?);
    [done | Z.div_mod_to_equations; lia.. |].
  exists M1. eauto using same_dims_trans.
Qed.

(** [flipXY] returns normally on every well-formed matrix. *)
Lemma flipXY_wf (M : Matrix.t) :
  wf M → ∃ M', Matrix.flipXY M = Ok M' ∧ wf M' ∧ same_dims M' M.
Proof.
  intros Hwf. unfold Matrix.flipXY.
  destruct (flipX_wf M Hwf) as (M1 & -> & Hwf1 & Hd1). simpl.
  destruct (flipY_wf M1 Hwf1) as (M2 & -> & Hwf2 & Hd2).
  exists M2. eauto using same_dims_trans.
Qed.

(** ** Convolution on images without an alpha channel *)

Lemma zeros_Ok (r c k : Z) (M : Matrix.t) :
  Matrix.zeros r c k = Ok M →
  1 ≤ r ∧ 1 ≤ c ∧ Matrix.rows M = r ∧ Matrix.cols M = c ∧ Matrix.chls M = k.
Proof.
  unfold Matrix.zeros. rewrite generate_Z.
  destruct (Z.eqb_spec r 0), (Z.eqb_spec c 0); simpl; try done.
  destruct (k =? 0); [done|].
  destruct (Z.ltb_spec r 0); [done|]. destruct (Z.ltb_spec c 0); [done|].
  destruct (1 <? k); intros [= <-]; simpl; lia.
Qed.

Lemma zeros_positive (r c k : Z) :
  1 ≤ r → 1 ≤ c → 1 ≤ k →
  ∃ M, Matrix.zeros r c k = Ok M ∧ wf M ∧
       Matrix.rows M = r ∧ Matrix.cols M = c ∧ Matrix.chls M = k ∧
       ∀ i j, 0 ≤ i < r → 0 ≤ j < c →
         Matrix.raw M i j =
           Some (if 1 <? k then Matrix.Pixel (replicate (Z.to_nat k) 0%Qc)
                 else Matrix.Scalar 0%Qc).
Proof. apply generate_positive. Qed.

(** The accumulator is filled at channel 3 whatever its channel count. *)
Lemma fillAlpha_below_four (M : Matrix.t) (a : Qc) :
  1 ≤ Matrix.rows M → 1 ≤ Matrix.cols M → Matrix.chls M < 4 →
  Matrix.fillAlpha M a = Err RangeError.
Proof.
  intros Hr Hc Hk. unfold Matrix.fillAlpha, Matrix.apply, range.
  rewrite (seqZ_cons 0 (Matrix.rows M)), (seqZ_cons 0 (Matrix.cols M)) by lia. simpl.
  unfold Matrix.set. by rewrite oob3_true by lia.
Qed.

Lemma convolution_never_completes (A w : Matrix.t) (r : Matrix.t * Matrix.t) :
  Matrix.chls A < 4 → Imager.convolution A w ≠ Ok r.
Proof.
  intros Hk Heq.
  unfold Imager.convolution, Matrix.getRows, Matrix.getCols, Matrix.getChls in Heq.
  destruct ((Z.rem (Matrix.rows w) 2 =? 0) || (Z.rem (Matrix.cols w) 2 =? 0)); [done|].
  apply bind_Ok_inv in Heq as (w1 & _ & Heq).
  destruct (negb (Matrix.chls w1 =? Matrix.chls A) &&
            negb ((Matrix.chls A =? 4) && (Matrix.chls w1 =? 3))); [done|].
  apply bind_Ok_inv in Heq as (w2 & _ & Heq).
  apply bind_Ok_inv in Heq as (acc & Hz & Heq).
  apply bind_Ok_inv in Heq as (acc1 & Hfill & _).
  apply zeros_Ok in Hz as (? & ? & ? & ? & ?).
  by rewrite fillAlpha_below_four in Hfill by lia.
Qed.

(** C2, as the code has it.  On an image with fewer than 4 channels
    [convolution] never returns: a kernel with an even row or column count
    is rejected first, with a ConvolutionError, and a kernel that passes the
    checks (odd counts, one channel or as many as the image) reaches the
    accumulator's alpha fill at channel 3, which throws RangeError before
    any result is produced. *)
Theorem convolution_below_four_channels (A w : Matrix.t) :
  Matrix.chls A < 4 →
  (∀ r, Imager.convolution A w ≠ Ok r) ∧
  (Z.rem (Matrix.rows w) 2 = 0 ∨ Z.rem (Matrix.cols w) 2 = 0 →
     Imager.convolution A w = Err ConvolutionError) ∧
  (wf A → wf w → 1 ≤ Matrix.rows A → 1 ≤ Matrix.cols A →
   Z.rem (Matrix.rows w) 2 ≠ 0 → Z.rem (Matrix.cols w) 2 ≠ 0 →
   Matrix.chls w = 1 ∨ Matrix.chls w = Matrix.chls A →
     Imager.convolution A w = Err RangeError).
Proof.
  intros Hk. split_and!.
  - intros r. by apply convolution_never_completes.
  - intros Heven. unfold Imager.convolution, Matrix.getRows, Matrix.getCols.
    destruct Heven as [H|H]; rewrite H; simpl; by rewrite ?orb_true_r.
  - intros HA Hw Hr Hc Hor Hoc Hch.
    unfold Imager.convolution, Matrix.getRows, Matrix.getCols, Matrix.getChls.
    rewrite (proj2 (Z.eqb_neq _ _) Hor), (proj2 (Z.eqb_neq _ _) Hoc). simpl.
    assert (∃ w1, (if (Matrix.chls w =? 1) && (1 <? Matrix.chls A)
                   then Matrix.extrude w (Matrix.chls A) else Ok w) = Ok w1 ∧
                  wf w1 ∧ Matrix.chls w1 = Matrix.chls A) as (w1 & -> & Hw1 & Hc1).
    { destruct ((Matrix.chls w =? 1) && (1 <? Matrix.chls A)) eqn:Hb.
      - destruct (extrude_ok w (Matrix.chls A)) as (w1 & ? & ? & _ & _ & ? & _);
          [done | lia.. |]. by exists w1.
      - exists w. split_and!; [done | done |]. destruct HA as (? & _). lia. }
    rewrite bind_Ok. replace (Matrix.chls w1 =? Matrix.chls A) with true by lia.
    rewrite andb_false_l.
    destruct (flipXY_wf w1 Hw1) as (w2 & -> & _). rewrite bind_Ok.
    destruct (zeros_positive (Matrix.rows A) (Matrix.cols A) (Matrix.chls A))
      as (acc & -> & _ & ? & ? & ? & _); [done | done | destruct HA; lia |].
    rewrite bind_Ok. by rewrite fillAlpha_below_four by lia.
Qed.

Lemma convolution_below_four_channels_witness :
  Matrix.chls rgb_one < 4 ∧ wf rgb_one ∧ wf identity_kernel ∧
  Imager.convolution rgb_one identity_kernel = Err RangeError ∧
  Imager.convolution rgb_one even_kernel = Err ConvolutionError.
Proof.
  assert (Matrix.chls rgb_one < 4) as Hk by (simpl; lia).
  assert (wf rgb_one) as HA by by_decide.
  assert (wf identity_kernel) as Hw by by_decide.
  destruct (convolution_below_four_channels rgb_one identity_kernel Hk) as (_ & _ & Hrange).
  destruct (convolution_below_four_channels rgb_one even_kernel Hk) as (_ & Heven & _).
  refine (conj Hk (conj HA (conj Hw (conj _ _)))).
  - apply Hrange; [done | done | by vm_compute.. | by left].
  - apply Heven. by left.
Defined.

(** C2 as stated fails twice: an even-sized kernel on a 3-channel image
    is rejected with a ConvolutionError, not a RangeError, and a 5-channel
    image is convolved to the end. *)
Lemma convolution_other_outcomes :
  Imager.convolution rgb_one even_kernel = Err ConvolutionError ∧
  view ∘ fst <$> Imager.convolution five_channels identity_kernel
    = Ok ([[[(1 # 2)%Q; (1 # 4)%Q; (1 # 8)%Q; 1%Q; 0%Q]]], (1, 1, 5)).
Proof. by vm_compute. Qed.

(** ** Pascal's triangle and the Gaussian kernels *)

Lemma choose_nonneg (n k : nat) : 0 ≤ choose n k.
Proof.
  revert k. induction n as [|n IH]; intros [|k]; simpl; try lia.
  pose proof (IH k). pose proof (IH (S k)). lia.
Qed.

Lemma choose_above (n k : nat) : (n < k)%nat → choose n k = 0.
Proof.
  revert k. induction n as [|n IH]; intros [|k] H; simpl; try lia.
  rewrite !IH by lia. done.
Qed.

Lemma choose_diag (n : nat) : choose n n = 1.
Proof.
  induction n as [|n IH]; [done|]. simpl. rewrite IH, choose_above by lia. done.
Qed.

Lemma zip_with_seq_tail {A B} (g : A → A → B) (f : nat → A) (a n : nat) :
  zip_with g (f <$> seq a (S n)) (f <$> seq (S a) n)
  = (λ i, g (f i) (f (S i))) <$> seq a n.
Proof.
  revert a. induction n as [|n IH]; intros a; [done|].
  specialize (IH (S a)). simpl in *. f_equal. exact IH.
Qed.

(** The sums of neighbours turn a row of the triangle into the next one. *)
Lemma next_row_spec (n : nat) : next_row (pascal_row (S n)) = pascal_row (S (S n)).
Proof.
  unfold next_row, pascal_row. simpl Nat.sub. rewrite Nat.sub_0_r.
  change (tail (choose n <$> seq 0 (S n))) with (choose n <$> seq 1 n).
  rewrite zip_with_seq_tail.
  rewrite (seq_S (S n)), fmap_app. simpl seq at 2.
  change (seq 0 (S n)) with (0%nat :: seq 1 n). rewrite fmap_cons. simpl.
  f_equal. f_equal.
  - rewrite <-fmap_S_seq, <-list_fmap_compose. by apply list_fmap_ext.
  - do 2 f_equal. rewrite choose_diag, choose_above by lia. done.
Qed.

Lemma iter_next_row (n : nat) : Nat.iter n next_row [1] = pascal_row (S n).
Proof.
  induction n as [|n IH]; [done|]. simpl Nat.iter. rewrite IH. apply next_row_spec.
Qed.

(** *** Rounding keeps the sign *)

Lemma nearest_pos (n d : Z) :
  0 < n → 0 < d → 0 < (nearest n d).1 ∧ 0 < (nearest n d).2.
Proof.
  intros Hn Hd. unfold nearest.
  set (la := Z.log2 n). set (lb := Z.log2 d).
  pose proof (Z.log2_spec n Hn) as [Ln _]. pose proof (Z.log2_spec d Hd) as [_ Ld].
  pose proof (Z.log2_nonneg n) as Hla. pose proof (Z.log2_nonneg d) as Hlb.
  fold la in Ln, Hla. fold lb in Ld, Hlb.
  set (s := 53 - (la - lb)).
  set (n0 := n * 2 ^ Z.max s 0). set (d0 := d * 2 ^ Z.max (- s) 0).
  assert (0 < d0) as Hd0.
  { unfold d0. apply Z.mul_pos_pos; [done|]. apply Z.pow_pos_nonneg; lia. }
  assert (d0 ≤ n0) as Hle.
  { unfold n0, d0. destruct (Z.le_gt_cases 0 s) as [Hs|Hs].
    - rewrite (Z.max_l s 0), (Z.max_r (- s) 0) by lia. rewrite Z.pow_0_r, Z.mul_1_r.
      assert (2 ^ (lb + 1) ≤ 2 ^ la * 2 ^ s).
      { rewrite <-Z.pow_add_r by lia. apply Z.pow_le_mono_r; lia. }
      assert (0 < 2 ^ s) by (apply Z.pow_pos_nonneg; lia). nia.
    - rewrite (Z.max_r s 0), (Z.max_l (- s) 0) by lia. rewrite Z.pow_0_r, Z.mul_1_r.
      assert (2 ^ (lb + 1) * 2 ^ (- s) ≤ 2 ^ la).
      { rewrite <-Z.pow_add_r by lia. apply Z.pow_le_mono_r; lia. }
      assert (0 < 2 ^ (- s)) by (apply Z.pow_pos_nonneg; lia). nia. }
  assert (∀ d1 s1, 0 < d1 ≤ n0 →
    0 < ((if (d1 <? 2 * (n0 mod d1)) || ((d1 =? 2 * (n0 mod d1)) && Z.odd (n0 / d1))
          then n0 / d1 + 1 else n0 / d1) * 2 ^ Z.max (- s1) 0,
         2 ^ Z.max s1 0).1 ∧
    0 < ((if (d1 <? 2 * (n0 mod d1)) || ((d1 =? 2 * (n0 mod d1)) && Z.odd (n0 / d1))
          then n0 / d1 + 1 else n0 / d1) * 2 ^ Z.max (- s1) 0,
         2 ^ Z.max s1 0).2) as Hfin.
  { intros d1 s1 Hd1. cbn [fst snd].
    assert (0 < n0 / d1) by (apply Z.div_str_pos; lia).
    assert (0 < 2 ^ Z.max (- s1) 0) by (apply Z.pow_pos_nonneg; lia).
    assert (0 < 2 ^ Z.max s1 0) by (apply Z.pow_pos_nonneg; lia).
    split; [|done]. destruct (_ || _); nia. }
  destruct (Z.ltb_spec n0 (d0 * 2 ^ 53)) as [Hlt|Hge].
  - apply Hfin. lia.
  - apply Hfin. assert (2 ≤ 2 ^ 53) by done. nia.
Qed.

(** A positive number is rounded to a positive double. *)
Lemma fl_pos (x : Qc) : (0 < x)%Qc → (0 < fl x)%Qc.
Proof.
  intros Hx. unfold fl. destruct x as [[n d] Hc]. cbn [this Qnum Qden].
  assert (0 < n) as Hn.
  { unfold Qclt, Qlt in Hx. simpl in Hx. lia. }
  destruct n as [|p|p]; [lia | | lia].
  destruct (nearest_pos (Z.pos p) (Z.pos d)) as [Ha Hb]; [lia..|].
  destruct (nearest (Z.pos p) (Z.pos d)) as [a b]. cbn [fst snd] in *.
  unfold Qclt. cbn [this Q2Qc]. rewrite !Qred_correct. unfold Qlt. simpl. lia.
Qed.

Lemma Qcplus_pos (x y : Qc) : (0 ≤ x)%Qc → (0 < y)%Qc → (0 < x + y)%Qc.
Proof.
  intros Hx Hy. unfold Qclt, Qcle in *. unfold Qcplus. cbn [this Q2Qc].
  rewrite !Qred_correct. change (Qred 0) with 0%Q in *.
  apply (Qlt_le_trans _ (0 + y)%Q); [by rewrite Qplus_0_l|].
  apply Qplus_le_compat; [done | apply Qle_refl].
Qed.

Lemma fadd_pos (x y : Qc) : (0 ≤ x)%Qc → (0 < y)%Qc → (0 < fadd x y)%Qc.
Proof. intros Hx Hy. by apply fl_pos, Qcplus_pos. Qed.

(** *** The rows that [pascal] builds *)

Lemma length_pascal_step (l : list Qc) :
  l ≠ [] → length (Kernel.pascal_step l) = S (length l).
Proof.
  intros Hl. unfold Kernel.pascal_step. destruct l as [|x l]; [done|].
  cbn [tail]. rewrite length_cons, length_app, length_zip_with, length_cons.
  cbn [length]. lia.
Qed.

Lemma length_pascal (N : Z) : 1 ≤ N → length (Kernel.pascal N) = Z.to_nat N.
Proof.
  intros HN. unfold Kernel.pascal.
  destruct (Z.eqb_spec N 1) as [->|H1]; [done|].
  destruct (Z.eqb_spec N 2) as [->|H2]; [done|].
  assert (∀ k, length (Nat.iter k Kernel.pascal_step [1%Qc; 1%Qc]) = S (S k)) as Hiter.
  { induction k as [|k IH]; [done|]. simpl Nat.iter. rewrite length_pascal_step, IH; [done|].
    intros E. by rewrite E in IH. }
  rewrite Hiter. lia.
Qed.

Lemma pascal_step_positive (l : list Qc) :
  Forall (λ x, 0 < x)%Qc l → Forall (λ x, 0 < x)%Qc (Kernel.pascal_step l).
Proof.
  intros Hl. assert (0 < 1)%Qc as H1 by by_decide. unfold Kernel.pascal_step.
  constructor; [done|]. apply Forall_app. split; [|by constructor].
  destruct Hl as [|x l Hx Hl]; [constructor|]. cbn [tail].
  revert x Hx. induction Hl as [|y l Hy Hl IH]; intros x Hx; [constructor|].
  cbn [zip_with]. constructor; [|by apply IH].
  apply fadd_pos; [by apply Qclt_le_weak | done].
Qed.

Lemma pascal_positive (N : Z) : Forall (λ x, 0 < x)%Qc (Kernel.pascal N).
Proof.
  assert (0 < 1)%Qc as H1 by by_decide. unfold Kernel.pascal.
  destruct (N =? 1); [by repeat constructor|].
  destruct (N =? 2); [by repeat constructor|].
  induction (Z.to_nat (N - 2)) as [|k IH]; [by repeat constructor|].
  simpl Nat.iter. by apply pascal_step_positive.
Qed.

Lemma sum_positive (l : list Qc) (a : Qc) :
  (0 ≤ a)%Qc → l ≠ [] → Forall (λ x, 0 < x)%Qc l → (0 < foldl fadd a l)%Qc.
Proof.
  intros Ha Hne Hl. destruct Hl as [|x l Hx Hl]; [done|]. cbn [foldl].
  pose proof (fadd_pos a x Ha Hx) as Hacc. clear Hne Ha Hx.
  revert Hacc. generalize (fadd a x). induction Hl as [|y l Hy Hl IH]; intros acc Hacc; [done|].
  cbn [foldl]. apply IH. apply fadd_pos; [by apply Qclt_le_weak | done].
Qed.

(** Up to size 57 no addition of [pascal] and of the sum of [gaussianBlur]
    is rounded: the rows are those of Pascal's triangle and the sum is the
    sum of the row.  Checked by running the loops on the 57 sizes. *)
Lemma exact_sizes (n : nat) :
  (1 ≤ n ≤ 57)%nat →
  Kernel.pascal (Z.of_nat n) = Z2Qc <$> pascal_row n ∧
  foldl fadd 0%Qc (Z2Qc <$> pascal_row n) = Z2Qc (sumZ (pascal_row n)).
Proof.
  intros Hn.
  assert (Forall (λ k, Kernel.pascal (Z.of_nat (S k)) = Z2Qc <$> Nat.iter k next_row [1] ∧
                       foldl fadd 0%Qc (Z2Qc <$> Nat.iter k next_row [1])
                         = Z2Qc (sumZ (Nat.iter k next_row [1]))) (seq 0 57)) as H
    by by_decide.
  rewrite Forall_forall in H. destruct n as [|k]; [lia|].
  rewrite <-iter_next_row. apply H. apply elem_of_seq. lia.
Qed.

Lemma sumZ_nonneg (l : list Z) : Forall (λ x, 0 ≤ x) l → 0 ≤ sumZ l.
Proof. unfold sumZ. induction 1; simpl; lia. Qed.

Lemma choose_0 (n : nat) : choose n 0 = 1.
Proof. by destruct n. Qed.

Lemma sumZ_pascal_row_pos (n : nat) : (1 ≤ n)%nat → 0 < sumZ (pascal_row n).
Proof.
  intros Hn. destruct n as [|n]; [lia|]. unfold pascal_row.
  replace (S n - 1)%nat with n by lia.
  change (seq 0 (S n)) with (0%nat :: seq 1 n). rewrite fmap_cons.
  assert (0 ≤ sumZ (choose n <$> seq 1 n)) as H.
  { apply sumZ_nonneg, Forall_fmap, Forall_forall. intros. apply choose_nonneg. }
  unfold sumZ in *. simpl foldr. rewrite choose_0. lia.
Qed.

Lemma matrix_ext (M N : Matrix.t) :
  grid M → grid N → same_dims M N →
  (∀ i j, 0 ≤ i < Matrix.rows M → 0 ≤ j < Matrix.cols M →
          Matrix.raw M i j = Matrix.raw N i j) →
  M = N.
Proof.
  destruct M as [m1 r1 c1 k1], N as [m2 r2 c2 k2].
  intros (Hr1 & Hc1 & Hl1 & Hrows1) (Hr2 & Hc2 & Hl2 & Hrows2) (D1 & D2 & D3) Hraw.
  simpl in *. subst r2 c2 k2. f_equal.
  apply list_eq. intros i.
  destruct (decide (i < Z.to_nat r1)%nat) as [Hi|Hi].
  - destruct (lookup_lt_is_Some_2 m1 i) as [row1 Hrow1]; [lia|].
    destruct (lookup_lt_is_Some_2 m2 i) as [row2 Hrow2]; [lia|].
    rewrite Hrow1, Hrow2. f_equal.
    pose proof (Forall_lookup_1 _ _ _ _ Hrows1 Hrow1) as L1.
    pose proof (Forall_lookup_1 _ _ _ _ Hrows2 Hrow2) as L2. simpl in L1, L2.
    apply list_eq. intros j.
    destruct (decide (j < Z.to_nat c1)%nat) as [Hj|Hj].
    + specialize (Hraw (Z.of_nat i) (Z.of_nat j)). unfold Matrix.raw in Hraw. simpl in Hraw.
      rewrite !Nat2Z.id, Hrow1, Hrow2 in Hraw. apply Hraw; lia.
    + rewrite !lookup_ge_None_2 by lia. done.
  - rewrite !lookup_ge_None_2 by lia. done.
Qed.

Lemma wf_row_kernel (l : list Qc) : wf (row_kernel l).
Proof.
  unfold wf, row_kernel; simpl. split_and!; [lia.. | done |].
  constructor; [|constructor]. split; [rewrite length_fmap; lia|].
  apply Forall_fmap, Forall_forall. by intros.
Qed.

Lemma wf_col_kernel (l : list Qc) : wf (col_kernel l).
Proof.
  unfold wf, col_kernel; simpl. split_and!; [lia.. | rewrite length_fmap; lia |].
  apply Forall_fmap, Forall_forall. intros x _. simpl. split; [done|].
  by constructor.
Qed.

Lemma load_row (l : list Qc) :
  l ≠ [] → Matrix.load [Matrix.Scalar <$> l] = Ok (row_kernel l).
Proof.
  intros Hl. unfold Matrix.load, row_kernel. rewrite length_fmap.
  destruct l; [done|]. done.
Qed.

Lemma load_col (l : list Qc) :
  l ≠ [] → Matrix.load ((λ x, [Matrix.Scalar x]) <$> l) = Ok (col_kernel l).
Proof.
  intros Hl. unfold Matrix.load, col_kernel. destruct l as [|x l]; [done|].
  rewrite fmap_cons. cbn [length]. by rewrite length_fmap.
Qed.

Lemma raw_row_kernel (l : list Qc) (i : nat) :
  Matrix.raw (row_kernel l) 0 (Z.of_nat i) = Matrix.Scalar <$> l !! i.
Proof. unfold Matrix.raw; simpl. by rewrite Nat2Z.id, list_lookup_fmap. Qed.

Lemma raw_col_kernel (l : list Qc) (i : nat) :
  Matrix.raw (col_kernel l) (Z.of_nat i) 0 = Matrix.Scalar <$> l !! i.
Proof.
  unfold Matrix.raw; simpl. rewrite Nat2Z.id, list_lookup_fmap.
  by destruct (l !! i).
Qed.

(** The summation loop of [gaussianBlur]. *)
Lemma sum_loop (l : list Qc) (n : nat) (a : Qc) :
  (n ≤ length l)%nat →
  forM (range (Z.of_nat n)) (λ i sum,
    x ← Matrix.get_cell (row_kernel l) 0 i ≫= Matrix.num_of_cell; Ok (fadd sum x)) a
  = Ok (foldl fadd a (take n l)).
Proof.
  induction n as [|n IH]; intros Hn; [by rewrite take_0|].
  unfold range in *. rewrite seqZ_S, forM_app, IH by lia. rewrite Z.add_0_l. simpl.
  destruct (lookup_lt_is_Some_2 l n) as [x Hx]; [lia|].
  rewrite (get_cell_raw _ _ _ (Matrix.Scalar x)); [simpl | simpl; lia.. |].
  - by rewrite (take_S_r _ _ x), foldl_app.
  - by rewrite raw_row_kernel, Hx.
Qed.

(** [div(v)] on a well-formed single-channel matrix. *)
Lemma div_scalar (M : Matrix.t) (s : Qc) :
  wf M → Matrix.chls M = 1 → s ≠ 0%Qc →
  ∃ M', Matrix.div M s = Ok M' ∧ grid M' ∧ same_dims M' M ∧
        ∀ i j x, 0 ≤ i < Matrix.rows M → 0 ≤ j < Matrix.cols M →
          Matrix.raw M i j = Some (Matrix.Scalar x) →
          Matrix.raw M' i j = Some (Matrix.Scalar (x / s)%Qc).
Proof.
  intros Hwf Hc Hs. unfold Matrix.div, Qc_eqb.
  rewrite bool_decide_eq_false_2 by done. rewrite applyAll_flat1 by lia.
  set (F := λ p : Z * Z, match rd2 M p with
                         | Ok (Matrix.Scalar x) => Matrix.Scalar (x / s)%Qc
                         | _ => Matrix.Scalar 0
                         end).
  destruct (map_cells_loop M (idx2 (Matrix.rows M) (Matrix.cols M))
    (λ p M', match Matrix.raw M' p.1 p.2 with
             | Some (Matrix.Scalar x) => Matrix.store M' p.1 p.2 (Matrix.Scalar (x / s)%Qc)
             | _ => Err OutsideModel
             end) F) as (M' & Hrun & [Hg Hd] & Hval & _).
  - by apply wf_grid.
  - apply NoDup_idx2.
  - by intros i j ?%elem_of_idx2.
  - intros [i j] M' [Hi Hj]%elem_of_idx2 Hg' Hd' Hsame. simpl.
    destruct (get_cell_wf M i j) as (c & Hc' & Hok & _); [done..|].
    unfold rd2 in Hsame; simpl in Hsame. rewrite Hc' in Hsame.
    apply get_cell_Ok in Hsame as [_ ->].
    unfold F, rd2; simpl. rewrite Hc'.
    destruct c; simpl in Hok; [done | lia].
  - exists M'. split_and!; [done.. |].
    intros i j x Hi Hj Hraw. specialize (Hval (i, j)).
    rewrite elem_of_idx2 in Hval. specialize (Hval (conj Hi Hj)).
    apply get_cell_Ok in Hval as [_ Hval]. simpl in Hval. rewrite Hval. f_equal.
    unfold F, rd2; simpl. by rewrite (get_cell_raw M i j (Matrix.Scalar x)).
Qed.

Lemma div_row_kernel (l : list Qc) (s : Qc) :
  s ≠ 0%Qc → Matrix.div (row_kernel l) s = Ok (row_kernel ((λ x, x / s)%Qc <$> l)).
Proof.
  intros Hs.
  destruct (div_scalar (row_kernel l) s) as (M' & -> & Hg & Hd & Hval);
    [apply wf_row_kernel | done | done |].
  f_equal. apply matrix_ext; [done | apply wf_grid, wf_row_kernel | |].
  - eapply same_dims_trans; [done|]. unfold same_dims; simpl. by rewrite length_fmap.
  - destruct Hd as (-> & -> & _). simpl. intros i j Hi Hj.
    assert (i = 0) as -> by lia.
    destruct (lookup_lt_is_Some_2 l (Z.to_nat j)) as [x Hx]; [lia|].
    rewrite <-(Z2Nat.id j) by lia.
    rewrite (Hval 0 (Z.of_nat (Z.to_nat j)) x); [| simpl; lia.. |].
    + by rewrite raw_row_kernel, list_lookup_fmap, Hx.
    + by rewrite raw_row_kernel, Hx.
Qed.

Lemma div_col_kernel (l : list Qc) (s : Qc) :
  s ≠ 0%Qc → Matrix.div (col_kernel l) s = Ok (col_kernel ((λ x, x / s)%Qc <$> l)).
Proof.
  intros Hs.
  destruct (div_scalar (col_kernel l) s) as (M' & -> & Hg & Hd & Hval);
    [apply wf_col_kernel | done | done |].
  f_equal. apply matrix_ext; [done | apply wf_grid, wf_col_kernel | |].
  - eapply same_dims_trans; [done|]. unfold same_dims; simpl. by rewrite length_fmap.
  - destruct Hd as (-> & -> & _). simpl. intros i j Hi Hj.
    assert (j = 0) as -> by lia.
    destruct (lookup_lt_is_Some_2 l (Z.to_nat i)) as [x Hx]; [lia|].
    rewrite <-(Z2Nat.id i) by lia.
    rewrite (Hval (Z.of_nat (Z.to_nat i)) 0 x); [| simpl; lia.. |].
    + by rewrite raw_col_kernel, list_lookup_fmap, Hx.
    + by rewrite raw_col_kernel, Hx.
Qed.

Lemma entries_row_kernel (l : list Qc) : entries (row_kernel l) = l.
Proof.
  unfold entries, row_kernel; simpl. rewrite app_nil_r.
  induction l as [|x l IH]; [done|]. rewrite fmap_cons, bind_cons, IH. done.
Qed.

Lemma entries_col_kernel (l : list Qc) : entries (col_kernel l) = l.
Proof.
  unfold entries, col_kernel; simpl.
  induction l as [|x l IH]; [done|]. rewrite fmap_cons. simpl concat.
  rewrite bind_cons, IH. done.
Qed.

Lemma Qc_sum_weights (n : nat) : (1 ≤ n)%nat → Qc_sum (weights n) = 1%Qc.
Proof.
  intros Hn. unfold weights. pose proof (sumZ_pascal_row_pos n Hn) as Hpos.
  set (s := Z2Qc (sumZ (pascal_row n))).
  assert (s ≠ 0%Qc) as Hs.
  { unfold s, Z2Qc. rewrite <-Z2Qc_inj_0. intros H%Z2Qc_inj. lia. }
  assert (∀ zs, Qc_sum ((λ c, Z2Qc c / s)%Qc <$> zs) = (Z2Qc (sumZ zs) / s)%Qc) as H.
  { unfold Qc_sum, sumZ. induction zs as [|z zs IH]; csimpl.
    - unfold Z2Qc. rewrite Z2Qc_inj_0. unfold Qcdiv. ring.
    - rewrite IH. unfold Z2Qc. rewrite Z2Qc_inj_add. unfold Qcdiv. ring. }
  rewrite H. fold s. unfold Qcdiv. by apply Qcmult_inv_r.
Qed.

Lemma length_weights (n : nat) : length (weights n) = n.
Proof. unfold weights, pascal_row. by rewrite !length_fmap, length_seq. Qed.

(** [gaussianBlur(N)] returns for every N >= 1: the row that [pascal]
    built, divided by the sum that the loop formed, as a row and as a
    column. *)
Lemma gaussianBlur_run (N : Z) :
  1 ≤ N →
  ∃ s, (0 < s)%Qc ∧ s = foldl fadd 0%Qc (Kernel.pascal N) ∧
    Kernel.gaussianBlur N
      = Ok [row_kernel ((λ x, x / s)%Qc <$> Kernel.pascal N);
            col_kernel ((λ x, x / s)%Qc <$> Kernel.pascal N)].
Proof.
  intros HN. pose proof (length_pascal N HN) as Hlen.
  assert (Kernel.pascal N ≠ []) as Hne.
  { intros H. rewrite H in Hlen. simpl in Hlen. lia. }
  assert (0 < foldl fadd 0%Qc (Kernel.pascal N))%Qc as Hpos.
  { apply sum_positive; [apply Qcle_refl | done | apply pascal_positive]. }
  exists (foldl fadd 0%Qc (Kernel.pascal N)). split_and!; [done | done |].
  unfold Kernel.gaussianBlur. rewrite load_row, load_col by done. rewrite !bind_Ok.
  pose proof (sum_loop (Kernel.pascal N) (Z.to_nat N) 0%Qc ltac:(lia)) as Hsum.
  rewrite Z2Nat.id, take_ge in Hsum by lia. rewrite Hsum, bind_Ok.
  assert (foldl fadd 0%Qc (Kernel.pascal N) ≠ 0%Qc) as Hs.
  { intros E. rewrite E in Hpos. by apply Qclt_not_eq in Hpos. }
  by rewrite div_row_kernel, bind_Ok, div_col_kernel, bind_Ok by done.
Qed.

Lemma gaussianBlur_weights (n : nat) :
  (1 ≤ n ≤ 57)%nat →
  Kernel.gaussianBlur (Z.of_nat n) = Ok [row_kernel (weights n); col_kernel (weights n)].
Proof.
  intros Hn. destruct (exact_sizes n Hn) as [Hrow Hsum].
  destruct (gaussianBlur_run (Z.of_nat n)) as (s & _ & -> & ->); [lia|].
  rewrite Hrow, Hsum. unfold weights. by rewrite <-list_fmap_compose.
Qed.

(** C6. For every N from 1 to 57, odd ones included, [gaussianBlur(N)]
    returns the pair of a 1 by N row kernel and an N by 1 column kernel
    whose entries are row N of Pascal's triangle divided by the sum of that
    row, so that the entries of each kernel add up to 1; [pascal] computes
    the rows of the triangle, with [pascal(1) = [1]], [pascal(2) = [1,1]]
    and [pascal(5) = [1,4,6,4,1]].  The bound is where the doubles of the
    code stop holding the integers of the triangle. *)
Theorem gaussianBlur_spec (N : Z) :
  1 ≤ N ≤ 57 →
  Kernel.gaussianBlur N
    = Ok [row_kernel (weights (Z.to_nat N)); col_kernel (weights (Z.to_nat N))] ∧
  Matrix.cols (row_kernel (weights (Z.to_nat N))) = N ∧
  Matrix.rows (col_kernel (weights (Z.to_nat N))) = N ∧
  Qc_sum (entries (row_kernel (weights (Z.to_nat N)))) = 1%Qc ∧
  Qc_sum (entries (col_kernel (weights (Z.to_nat N)))) = 1%Qc ∧
  Kernel.pascal N = Z2Qc <$> pascal_row (Z.to_nat N) ∧
  Kernel.pascal 1 = Z2Qc <$> [1] ∧
  Kernel.pascal 2 = Z2Qc <$> [1; 1] ∧
  Kernel.pascal 5 = Z2Qc <$> [1; 4; 6; 4; 1].
Proof.
  intros HN. destruct (Z_of_nat_complete N) as [n ->]; [lia|]. rewrite Nat2Z.id.
  split_and!.
  - apply gaussianBlur_weights. lia.
  - simpl. rewrite length_weights. lia.
  - simpl. rewrite length_weights. lia.
  - rewrite entries_row_kernel. apply Qc_sum_weights. lia.
  - rewrite entries_col_kernel. apply Qc_sum_weights. lia.
  - apply exact_sizes. lia.
  - apply (exact_sizes 1). lia.
  - apply (exact_sizes 2). lia.
  - apply (exact_sizes 5). lia.
Qed.

Lemma gaussianBlur_spec_witness :
  1 ≤ 3 ≤ 57 ∧
  Kernel.gaussianBlur 3 = Ok [row_kernel (weights 3); col_kernel (weights 3)] ∧
  (this <$> weights 3) = [(1 # 4)%Q; (1 # 2)%Q; (1 # 4)%Q].
Proof.
  assert (1 ≤ 3 ≤ 57) as H by lia.
  refine (conj H (conj _ _)).
  - apply (gaussianBlur_spec 3 H).
  - reflexivity.
Defined.

(** C6, where it fails: at the odd size 59 the entries of the row of
    Pascal's triangle no longer fit the 53 bits of a double.  [pascal(59)]
    is not that row, some of the weights that the claim announces are no
    doubles at all, and [gaussianBlur(59)] returns other kernels. *)
Theorem gaussianBlur_rounds_at_59 :
  Kernel.pascal 59 ≠ Z2Qc <$> pascal_row 59 ∧
  Exists (λ w, fl w ≠ w) (weights 59) ∧
  Kernel.gaussianBlur 59 ≠ Ok [row_kernel (weights 59); col_kernel (weights 59)].
Proof.
  unfold weights. rewrite <-(iter_next_row 58).
  split_and!; [by_decide | by_decide |].
  destruct (gaussianBlur_run 59) as (s & _ & -> & ->); [lia|].
  intros Heq.
  pose proof (f_equal (λ r : result (list Matrix.t),
                         match r with Ok (w :: _) => entries w | _ => [] end) Heq) as H.
  cbv beta iota in H. rewrite !entries_row_kernel in H. revert H. by_decide.
Qed.

(** ** Convolution with the identity kernel *)

Lemma identity_loads : Kernel.identity = Ok identity_kernel.
Proof. reflexivity. Qed.

Lemma extrude_identity (c : Z) :
  1 < c → Matrix.extrude identity_kernel c = Ok (identity_extruded c).
Proof.
  intros Hc. unfold Matrix.extrude.
  replace (c <=? 1) with false by lia.
  replace (c <? Matrix.chls identity_kernel) with false by (simpl; lia).
  reflexivity.
Qed.

Lemma flipXY_identity (c : Z) :
  Matrix.flipXY (identity_extruded c) = Ok (identity_extruded c).
Proof. reflexivity. Qed.

Lemma idx2_3_3 :
  idx2 3 3 = [(0, 0); (0, 1); (0, 2); (1, 0); (1, 1); (1, 2); (2, 0); (2, 1); (2, 2)].
Proof. reflexivity. Qed.

Lemma get_identity_extruded (c k : Z) (q : Z * Z) :
  0 ≤ k < c → q ∈ idx2 3 3 →
  Matrix.get (identity_extruded c) q.1 q.2 k = Ok (identity_weight q).
Proof.
  intros Hk Hq. rewrite idx2_3_3 in Hq.
  unfold Matrix.get, Matrix.oob3.
  repeat (apply elem_of_cons in Hq as [->|Hq]); [..|by apply elem_of_nil in Hq];
    simpl; replace (c <=? k) with false by lia; replace (k <? 0) with false by lia; simpl;
    rewrite lookup_replicate_2 by lia; reflexivity.
Qed.

Lemma get_via_cell (M : Matrix.t) (i j k : Z) (c : Matrix.cell) :
  0 ≤ k < Matrix.chls M → Matrix.get_cell M i j = Ok c →
  Matrix.get M i j k =
    match c with
    | Matrix.Pixel p =>
        match p !! Z.to_nat k with Some v => Ok v | None => Err OutsideModel end
    | Matrix.Scalar _ => Err OutsideModel
    end.
Proof.
  intros Hk [[Hi Hj] Hraw]%get_cell_Ok. unfold Matrix.get.
  rewrite (proj2 (oob3_false M i j k)) by done. by rewrite Hraw.
Qed.

Lemma get_transfer (M N : Matrix.t) (i j i' j' k : Z) (c : Matrix.cell) :
  Matrix.chls M = Matrix.chls N → 0 ≤ k < Matrix.chls M →
  Matrix.get_cell N i' j' = Ok c → Matrix.get_cell M i j = Ok c →
  Matrix.get M i j k = Matrix.get N i' j' k.
Proof.
  intros Hc Hk HN HM.
  rewrite (get_via_cell M i j k c), (get_via_cell N i' j' k c); (done || lia).
Qed.

Lemma zeros_get (r c k : Z) :
  1 ≤ r → 1 ≤ c → 1 < k →
  ∃ M, Matrix.zeros r c k = Ok M ∧ wf M ∧
       Matrix.rows M = r ∧ Matrix.cols M = c ∧ Matrix.chls M = k ∧
       ∀ i j k', 0 ≤ i < r → 0 ≤ j < c → 0 ≤ k' < k → rd3 M (i, j, k') = Ok 0%Qc.
Proof.
  intros Hr Hc Hk.
  destruct (zeros_positive r c k) as (M & ? & ? & D1 & D2 & D3 & Hraw); [lia..|].
  exists M. split_and!; try done.
  intros i j k' Hi Hj Hk'. unfold rd3, Matrix.get; simpl.
  rewrite (proj2 (oob3_false M i j k')) by lia. rewrite Hraw by done.
  replace (1 <? k) with true by lia. by rewrite lookup_replicate_2 by lia.
Qed.

(** [fillAlpha(a)] on a matrix that has a channel 3. *)
Lemma fillAlpha_spec (M : Matrix.t) (a : Qc) :
  wf M → 4 ≤ Matrix.chls M →
  ∃ M', Matrix.fillAlpha M a = Ok M' ∧ wf M' ∧ same_dims M' M ∧
        (∀ i j, 0 ≤ i < Matrix.rows M → 0 ≤ j < Matrix.cols M →
                rd3 M' (i, j, 3) = Ok a) ∧
        (∀ i j k, k ≠ 3 → rd3 M' (i, j, k) = rd3 M (i, j, k)).
Proof.
  intros Hwf Hc. unfold Matrix.fillAlpha. rewrite apply_flat.
  set (g := λ p : Z * Z, (p, 3)).
  assert (Inj (=) (=) g) as Hinj by (by intros ?? [= ->]).
  destruct (assign_loop M (g <$> idx2 (Matrix.rows M) (Matrix.cols M))
              (λ _ _, Ok a) (λ _, a)) as (M' & Hrun & [Hwf' Hd] & Hval & Hfr).
  - done.
  - lia.
  - apply NoDup_fmap_2; [done | apply NoDup_idx2].
  - intros i j k ([i' j'] & [= -> -> ->] & [? ?]%elem_of_idx2)%list_elem_of_fmap. lia.
  - done.
  - exists M'. split_and!; try done.
    + rewrite <-Hrun, forM_fmap. done.
    + intros i j Hi Hj. apply Hval, list_elem_of_fmap. exists (i, j).
      split; [done|]. by apply elem_of_idx2.
    + intros i j k Hk. apply Hfr.
      intros ([i' j'] & [= -> -> ->] & _)%list_elem_of_fmap. done.
Qed.

(** The window loop of [convolution] at one output position. *)
Lemma window_loop (pad w : Matrix.t) (i j k : Z) (ws : list (Z * Z))
    (P X : Z * Z → Qc) (acc : Matrix.t) (a : Qc) :
  wf acc → 1 < Matrix.chls acc →
  0 ≤ i < Matrix.rows acc → 0 ≤ j < Matrix.cols acc → 0 ≤ k < Matrix.chls acc →
  (∀ q, q ∈ ws → Matrix.get pad (i + q.1) (j + q.2) k = Ok (P q) ∧
                  Matrix.get w q.1 q.2 k = Ok (X q)) →
  rd3 acc (i, j, k) = Ok a →
  ∃ acc', forM ws (λ q acc,
            a ← Matrix.get acc i j k;
            p ← Matrix.get pad (i + q.1) (j + q.2) k;
            x ← Matrix.get w q.1 q.2 k;
            Matrix.set acc i j (a + p * x)%Qc k) acc = Ok acc' ∧
          (wf acc' ∧ same_dims acc' acc) ∧
          rd3 acc' (i, j, k) = Ok (foldl (λ a q, a + P q * X q)%Qc a ws) ∧
          ∀ r, r ≠ (i, j, k) → rd3 acc' r = rd3 acc r.
Proof.
  intros Hwf Hc Hi Hj Hk. revert acc a Hwf Hc Hi Hj Hk.
  induction ws as [|q ws IH]; intros acc a Hwf Hc Hi Hj Hk Hvals Ha; simpl.
  - exists acc. by split_and!.
  - unfold rd3 in Ha; simpl in Ha. rewrite Ha. simpl.
    destruct (Hvals q) as [-> ->]; [left|]. simpl.
    destruct (set_spec acc i j k (a + P q * X q)%Qc) as (acc1 & -> & Hwf1 & Hd1 & Hget & Hfr1);
      [done..|]. simpl.
    pose proof Hd1 as (D1 & D2 & D3).
    destruct (IH acc1 (a + P q * X q)%Qc) as (acc' & -> & [Hwf' Hd'] & Hval & Hfr');
      [done | lia.. | | done |].
    { intros. apply Hvals. by right. }
    exists acc'. split_and!; [done | done | by eapply same_dims_trans | done |].
    intros r Hr. rewrite Hfr' by done. by apply Hfr1.
Qed.

Lemma clip_unit (x : Qc) : (0 ≤ x)%Qc → (x ≤ 1)%Qc → Imager.clip x 0 1 = x.
Proof.
  intros H0 H1. unfold Imager.clip, Qc_ltb.
  rewrite !bool_decide_eq_false_2; [done | by apply Qcle_not_lt..].
Qed.

Lemma clip_one : Imager.clip 1 0 1 = 1%Qc.
Proof. apply clip_unit; by_decide. Qed.

(** [normalize(A)] on a matrix with pixel cells. *)
Lemma normalize_spec (M : Matrix.t) :
  wf M → 1 < Matrix.chls M →
  ∃ M', Imager.normalize M = Ok M' ∧ wf M' ∧ same_dims M' M ∧
        ∀ p, p ∈ idx3 (Matrix.rows M) (Matrix.cols M) (Matrix.chls M) →
             rd3 M' p = Ok (Imager.clip (getd M p) 0 1).
Proof.
  intros Hwf Hc. unfold Imager.normalize. rewrite applyAll_flat by done.
  destruct (assign_loop M (idx3 (Matrix.rows M) (Matrix.cols M) (Matrix.chls M))
              (λ p A', x ← rd3 A' p; Ok (Imager.clip x 0 1))
              (λ p, Imager.clip (getd M p) 0 1)) as (M' & Hrun & [Hwf' Hd] & Hval & _).
  - done.
  - done.
  - apply NoDup_idx3.
  - by intros i j k ?%elem_of_idx3.
  - intros [[i j] k] A' (? & ? & ?)%elem_of_idx3 _ _ -> _. by rewrite rd3_wf.
  - exists M'. split_and!; try done. rewrite <-Hrun. apply forM_ext.
    intros [[i j] k] A' _. unfold rd3; simpl. by destruct (Matrix.get A' i j k).
Qed.

(** The accumulation loops of [convolution] with the identity kernel: each
    colour channel of the accumulator, zero at first, receives the value
    of the padded image under the centre of the window. *)
Lemma accumulate_identity (A pad acc : Matrix.t) :
  wf A → 4 ≤ Matrix.chls A → wf pad → wf acc → same_dims acc A →
  Matrix.chls pad = Matrix.chls A →
  Matrix.rows pad = Matrix.rows A + 2 → Matrix.cols pad = Matrix.cols A + 2 →
  (∀ i j, 0 ≤ i < Matrix.rows A → 0 ≤ j < Matrix.cols A →
     Matrix.get_cell pad (i + 1) (j + 1) = Matrix.get_cell A i j) →
  (∀ p, p ∈ idx3 (Matrix.rows A) (Matrix.cols A) 3 → rd3 acc p = Ok 0%Qc) →
  ∃ acc',
    forM (range (Matrix.rows acc)) (λ i,
      forM (range (Matrix.cols acc)) (λ j,
        forM (range 3) (λ k,
          forM (range 3) (λ wi,
            forM (range 3) (λ wj accum,
              a ← Matrix.get accum i j k;
              p ← Matrix.get pad (i + wi) (j + wj) k;
              x ← Matrix.get (identity_extruded (Matrix.chls A)) wi wj k;
              Matrix.set accum i j (a + p * x)%Qc k))))) acc = Ok acc' ∧
    (wf acc' ∧ same_dims acc' acc) ∧
    (∀ p, p ∈ idx3 (Matrix.rows A) (Matrix.cols A) 3 → rd3 acc' p = Ok (getd A p)) ∧
    (∀ r, r ∉ idx3 (Matrix.rows A) (Matrix.cols A) 3 → rd3 acc' r = rd3 acc r).
Proof.
  intros HA Hc Hpad Hacc (D1 & D2 & D3) Pc Pr Pcl Hcentre Hzero.
  rewrite nest3_flat, D1, D2.
  apply (forM_local rd3 (λ M, wf M ∧ same_dims M acc)); [apply NoDup_idx3 | done |].
  intros [[i j] k] s Hp [Hs Hds] Hsame _. pose proof Hp as (Hi & Hj & Hk)%elem_of_idx3.
  pose proof Hds as (E1 & E2 & E3). cbn [fst snd].
  rewrite (nest2_flat 3 3 (λ wi wj accum,
    a ← Matrix.get accum i j k;
    p ← Matrix.get pad (i + wi) (j + wj) k;
    x ← Matrix.get (identity_extruded (Matrix.chls A)) wi wj k;
    Matrix.set accum i j (a + p * x)%Qc k)).
  destruct (window_loop pad (identity_extruded (Matrix.chls A)) i j k (idx2 3 3)
              (λ q, getd pad (i + q.1, j + q.2, k)) identity_weight s 0%Qc)
    as (s1 & -> & [Hs1 Hd1] & Hval & Hfr); [done | lia.. | | |].
  - intros [wi wj] Hq. pose proof Hq as [? ?]%elem_of_idx2. simpl. split.
    + apply (rd3_wf pad (i + wi) (j + wj) k); [done | lia..].
    + apply (get_identity_extruded (Matrix.chls A) k (wi, wj)); [lia | done].
  - rewrite Hsame. by apply Hzero.
  - exists s1. split_and!; [done | done | by eapply same_dims_trans | | done].
    rewrite Hval, idx2_3_3. f_equal. simpl. unfold identity_weight. simpl.
    unfold Z2Qc. rewrite Z2Qc_inj_0, Z2Qc_inj_1.
    destruct (get_cell_wf A i j) as (c & Hc' & _); [done..|].
    assert (getd pad (i + 1, j + 1, k) = getd A (i, j, k)) as ->.
    { unfold getd, rd3; simpl.
      rewrite (get_transfer pad A (i + 1) (j + 1) i j k c); [done | done | lia | done |].
      by rewrite Hcentre. }
    ring.
Qed.

Lemma identity_convolution_run (A : Matrix.t) :
  wf A → 4 ≤ Matrix.chls A → 1 ≤ Matrix.rows A → 1 ≤ Matrix.cols A →
  ∃ A', Imager.convolution A identity_kernel
          = Ok (A', identity_extruded (Matrix.chls A)) ∧
        wf A' ∧ same_dims A' A ∧
        ∀ i j, 0 ≤ i < Matrix.rows A → 0 ≤ j < Matrix.cols A →
          (∀ k, 0 ≤ k < 3 →
             rd3 A' (i, j, k) = Ok (Imager.clip (getd A (i, j, k)) 0 1)) ∧
          rd3 A' (i, j, 3) = Ok 1%Qc.
Proof.
  intros HA Hc Hr Hcl.
  unfold Imager.convolution, Matrix.getRows, Matrix.getCols, Matrix.getChls.
  change (Z.rem (Matrix.rows identity_kernel) 2 =? 0) with false.
  change (Z.rem (Matrix.cols identity_kernel) 2 =? 0) with false.
  change (Matrix.chls identity_kernel =? 1) with true.
  cbn [orb andb]. replace (1 <? Matrix.chls A) with true by lia.
  rewrite extrude_identity by lia. rewrite bind_Ok.
  change (Matrix.chls (identity_extruded (Matrix.chls A))) with (Matrix.chls A).
  rewrite Z.eqb_refl. cbn [negb andb].
  rewrite flipXY_identity, bind_Ok.
  change (Matrix.rows (identity_extruded (Matrix.chls A))) with 3.
  change (Matrix.cols (identity_extruded (Matrix.chls A))) with 3.
  change (3 / 2 * 2) with 2. change (3 / 2) with 1.
  destruct (zeros_get (Matrix.rows A) (Matrix.cols A) (Matrix.chls A))
    as (acc0 & -> & Hwf0 & R0 & C0 & K0 & Hz0); [lia..|]. rewrite bind_Ok.
  destruct (fillAlpha_spec acc0 1) as (acc1 & -> & Hwf1 & (R1 & C1 & K1) & Hal1 & Hfr1);
    [done | lia |]. rewrite bind_Ok.
  destruct (zeros_get (Matrix.rows A + 2) (Matrix.cols A + 2) (Matrix.chls A))
    as (pad0 & -> & Hwfp0 & Rp0 & Cp0 & Kp0 & _); [lia..|]. rewrite bind_Ok.
  destruct (copy_spec A pad0 1 1) as (pad & -> & [Hwfp (Rp & Cp & Kp)] & Hcentre & _);
    [done | done | lia.. |]. rewrite bind_Ok.
  rewrite Z.min_r by lia.
  destruct (accumulate_identity A pad acc1)
    as (acc2 & -> & [Hwf2 (R2 & C2 & K2)] & Hval2 & Hfr2);
    [done | done | done | done | unfold same_dims; lia | lia.. | done | |].
  { intros [[i j] k] (? & ? & ?)%elem_of_idx3. rewrite Hfr1 by lia. apply Hz0; lia. }
  rewrite bind_Ok.
  destruct (normalize_spec acc2) as (acc3 & -> & Hwf3 & (R3 & C3 & K3) & Hval3);
    [done | lia |]. rewrite bind_Ok.
  destruct (copy_spec acc3 A 0 0) as (A' & -> & [HwfA' HdA'] & Hcopy & _);
    [done | done | lia.. |]. rewrite bind_Ok.
  exists A'. split_and!; [done..|].
  intros i j Hi Hj.
  assert (∀ k, rd3 A' (i, j, k) = rd3 acc3 (i, j, k)) as Hsame.
  { intros k. unfold rd3; simpl. apply get_same_cell.
    - eapply same_dims_trans; [done|]. unfold same_dims. lia.
    - specialize (Hcopy i j). rewrite !Z.add_0_r in Hcopy. apply Hcopy; lia. }
  split.
  - intros k Hk. rewrite Hsame, Hval3 by (apply elem_of_idx3; lia). do 2 f_equal.
    apply getd_Ok, Hval2, elem_of_idx3. lia.
  - rewrite Hsame, Hval3 by (apply elem_of_idx3; lia).
    rewrite (getd_Ok acc2 (i, j, 3) 1%Qc); [by rewrite clip_one|].
    rewrite Hfr2 by apply alpha_not_color. apply Hal1; lia.
Qed.

(** C1, as the code has it.  On a non-empty image of finite doubles (no
    infinity, no NaN) with at least 4 channels,
    convolving with the identity kernel returns the image with every colour
    channel (0..2) clamped into [0, 1], hence unchanged where it already
    lies in [0, 1], and with its alpha channel set to 1 at every pixel.
    Finite numbers are needed: the window sum multiplies the eight
    neighbours of a pixel by 0, which cancels a finite neighbour only. *)
Theorem convolution_identity (A : Matrix.t) :
  wf A → doubles A → 4 ≤ Matrix.chls A → 1 ≤ Matrix.rows A → 1 ≤ Matrix.cols A →
  ∃ A' w', (Kernel.identity ≫= Imager.convolution A) = Ok (A', w') ∧
    Matrix.rows A' = Matrix.rows A ∧ Matrix.cols A' = Matrix.cols A ∧
    Matrix.chls A' = Matrix.chls A ∧
    ∀ i j, 0 ≤ i < Matrix.rows A → 0 ≤ j < Matrix.cols A →
      (∀ k v, 0 ≤ k < 3 → Matrix.get A i j k = Ok v →
         Matrix.get A' i j k = Ok (Imager.clip v 0 1) ∧
         ((0 ≤ v)%Qc → (v ≤ 1)%Qc → Matrix.get A' i j k = Ok v)) ∧
      Matrix.get A' i j 3 = Ok 1%Qc.
Proof.
  intros HA _ Hc Hr Hcl.
  destruct (identity_convolution_run A) as (A' & Hrun & _ & (D1 & D2 & D3) & Hval); [done..|].
  exists A', (identity_extruded (Matrix.chls A)).
  rewrite identity_loads, bind_Ok. split_and!; [done..|].
  intros i j Hi Hj. destruct (Hval i j Hi Hj) as [Hcol Hal]. split; [|done].
  intros k v Hk Hv. specialize (Hcol k Hk). unfold rd3 in Hcol; simpl in Hcol.
  rewrite (getd_Ok A (i, j, k) v) in Hcol by done.
  split; [done|]. intros H0 H1. by rewrite Hcol, clip_unit.
Qed.

Lemma convolution_identity_witness :
  wf rgba_a ∧ doubles rgba_a ∧
  4 ≤ Matrix.chls rgba_a ∧ 1 ≤ Matrix.rows rgba_a ∧ 1 ≤ Matrix.cols rgba_a ∧
  ∃ A' w', (Kernel.identity ≫= Imager.convolution rgba_a) = Ok (A', w') ∧
           Matrix.get A' 0 0 2 = Ok (q 3 4) ∧ Matrix.get A' 0 0 3 = Ok 1%Qc.
Proof.
  assert (wf rgba_a) as HA by by_decide.
  assert (doubles rgba_a) as HD by by_decide.
  assert (4 ≤ Matrix.chls rgba_a) as Hc by (simpl; lia).
  assert (1 ≤ Matrix.rows rgba_a) as Hr by (simpl; lia).
  assert (1 ≤ Matrix.cols rgba_a) as Hcl by (simpl; lia).
  refine (conj HA (conj HD (conj Hc (conj Hr (conj Hcl _))))).
  destruct (convolution_identity rgba_a HA HD Hc Hr Hcl)
    as (A' & w' & Hrun & _ & _ & _ & Hval).
  exists A', w'. split; [exact Hrun|].
  destruct (Hval 0 0) as [Hcol Hal]; [simpl; lia..|].
  split; [|exact Hal].
  destruct (Hcol 2 (q 3 4)) as [_ Hsame]; [lia | reflexivity |].
  apply Hsame; by_decide.
Defined.

(** C1 as stated fails on values outside [0, 1]: the red value 2 of a
    4-channel pixel comes back as 1. *)
Lemma convolution_identity_clamps :
  view rgba_bright = ([[[2%Q; (1 # 2)%Q; 0%Q; (1 # 3)%Q]]], (1, 1, 4)) ∧
  view ∘ fst <$> (Kernel.identity ≫= Imager.convolution rgba_bright)
    = Ok ([[[1%Q; (1 # 2)%Q; 0%Q; 1%Q]]], (1, 1, 4)).
Proof. by vm_compute. Qed.

(** ** [mmul] on square operands *)

Lemma scalar_entry (M : Matrix.t) (i j : Z) :
  wf M → Matrix.chls M = 1 → 0 ≤ i < Matrix.rows M → 0 ≤ j < Matrix.cols M →
  Matrix.get_cell M i j = Ok (Matrix.Scalar (entry M i j)).
Proof.
  intros Hwf Hc Hi Hj. destruct (get_cell_wf M i j) as (c & Hc' & Hok & _); [done..|].
  unfold entry. rewrite Hc'. destruct c; simpl in Hok; [done | lia].
Qed.

Lemma accum_cell (M : Matrix.t) (i j : Z) (v : Qc) :
  Matrix.accum M i j v None =
  (c ← Matrix.get_cell M i j; x ← Matrix.num_of_cell c;
   Matrix.set_cell M i j (Matrix.Scalar (x + v)%Qc)).
Proof. reflexivity. Qed.

(** The innermost loop of [mmul] at one cell of the product buffer. *)
Lemma accum_loop (M B prod : Matrix.t) (i j : Z) (ks : list Z) (a : Qc) :
  wf M → wf B → wf prod →
  Matrix.chls M = 1 → Matrix.chls B = 1 → Matrix.chls prod = 1 →
  0 ≤ i < Matrix.rows prod → 0 ≤ j < Matrix.cols prod →
  (∀ k, k ∈ ks → (0 ≤ k < Matrix.rows M ∧ 0 ≤ j < Matrix.cols M) ∧
                 (0 ≤ i < Matrix.rows B ∧ 0 ≤ k < Matrix.cols B)) →
  rd2 prod (i, j) = Ok (Matrix.Scalar a) →
  ∃ prod', forM ks (λ k prod,
             a ← Matrix.get_cell M k j ≫= Matrix.num_of_cell;
             b ← Matrix.get_cell B i k ≫= Matrix.num_of_cell;
             Matrix.accum prod i j (a * b)%Qc None) prod = Ok prod' ∧
           (wf prod' ∧ same_dims prod' prod) ∧
           rd2 prod' (i, j)
             = Ok (Matrix.Scalar (foldl (λ s k, s + entry M k j * entry B i k)%Qc a ks)) ∧
           ∀ r, r ≠ (i, j) → rd2 prod' r = rd2 prod r.
Proof.
  intros HM HB Hp CM CB Cp Hi Hj. revert prod a Hp Cp Hi Hj.
  induction ks as [|k ks IH]; intros prod a Hp Cp Hi Hj Hks Ha; cbn [forM].
  - exists prod. by split_and!.
  - destruct (Hks k) as [[? ?] [? ?]]; [left|].
    rewrite (scalar_entry M k j), (scalar_entry B i k) by done.
    cbn [mbind result_bind Matrix.num_of_cell].
    rewrite accum_cell. unfold rd2 in Ha; cbn [fst snd] in Ha. rewrite Ha.
    cbn [mbind result_bind Matrix.num_of_cell].
    destruct (set_cell_spec prod i j (Matrix.Scalar (a + entry M k j * entry B i k)%Qc))
      as (p1 & -> & Hp1 & Hd1 & Hget & Hfr1); [done.. |].
    cbn [mbind result_bind]. pose proof Hd1 as (D1 & D2 & D3).
    destruct (IH p1 (a + entry M k j * entry B i k)%Qc) as (p' & -> & [Hp' Hd'] & Hval & Hfr');
      [done | lia.. | | done |].
    { intros. apply Hks. by right. }
    exists p'. split_and!; [done | done | by eapply same_dims_trans | done |].
    intros r Hr. rewrite Hfr' by done. by apply Hfr1.
Qed.

(** [mmul] on square single-channel operands of the same size: every cell
    (i, j) of the receiver ends up holding the sum over k of
    [this[k][j] * B[i][k]], which is entry (i, j) of the product of [B]
    by [this]. *)
Lemma mmul_square (M B : Matrix.t) (n : Z) :
  wf M → wf B → Matrix.chls M = 1 → Matrix.chls B = 1 → 1 ≤ n →
  Matrix.rows M = n → Matrix.cols M = n → Matrix.rows B = n → Matrix.cols B = n →
  ∃ M', Matrix.mmul M B = Ok M' ∧ wf M' ∧ same_dims M' M ∧
        ∀ i j, 0 ≤ i < n → 0 ≤ j < n →
          Matrix.get_cell M' i j = Ok (Matrix.Scalar (mmul_entry M B n i j)).
Proof.
  intros HM HB CM CB Hn RM KM RB KB. unfold Matrix.mmul.
  replace ((1 <? Matrix.chls M) || (1 <? Matrix.chls B)) with false by lia.
  replace (Matrix.cols M =? Matrix.rows B) with true by lia. cbn [negb].
  rewrite RM, KM, RB, KB. unfold Matrix.new.
  destruct (generate_positive n n 1 0) as (p0 & -> & Hp0 & R0 & C0 & K0 & Hraw0); [lia..|].
  rewrite bind_Ok, nest2_flat.
  destruct (forM_local rd2 (λ p, wf p ∧ same_dims p p0) (idx2 n n)
              (λ q, Matrix.Scalar (mmul_entry M B n q.1 q.2))
              (λ q, forM (range n) (λ k prod,
                 a ← Matrix.get_cell M k q.2 ≫= Matrix.num_of_cell;
                 b ← Matrix.get_cell B q.1 k ≫= Matrix.num_of_cell;
                 Matrix.accum prod q.1 q.2 (a * b)%Qc None)) p0)
    as (p1 & -> & [Hp1 (R1 & C1 & K1)] & Hval & _); [apply NoDup_idx2 | done | |].
  { intros [i j] s [Hi Hj]%elem_of_idx2 [Hs (E1 & E2 & E3)] Hsame _. cbn [fst snd].
    destruct (accum_loop M B s i j (range n) 0%Qc)
      as (s1 & -> & [Hs1 Hd1] & Hv & Hfr); [done | done | done | done | done | lia | lia | lia | | |].
    - intros k Hk%elem_of_range. lia.
    - rewrite Hsame. unfold rd2; simpl. apply get_cell_raw; [lia..|].
      by rewrite Hraw0.
    - exists s1. split_and!; [done | done | | done | done].
      eapply same_dims_trans; [done|]. by unfold same_dims. }
  rewrite bind_Ok.
  destruct (copy_spec p1 M 0 0) as (M' & -> & [HM' HdM'] & Hcopy & _); [done | done | lia.. |].
  exists M'. split_and!; [done..|].
  intros i j Hi Hj. specialize (Hcopy i j). rewrite !Z.add_0_r in Hcopy.
  rewrite Hcopy by lia. apply (Hval (i, j)), elem_of_idx2. lia.
Qed.

(** * Further properties of the Matrix class *)

(** ** Loops: indexed invariants and the first failing round *)

Lemma range_snoc (n : Z) : 0 ≤ n → range (n + 1) = range n ++ [n].
Proof.
  intros Hn. unfold range. rewrite seqZ_app by lia.
  rewrite Z.add_0_l, (seqZ_cons n 1), (seqZ_nil (Z.succ n) (Z.pred 1)) by lia. done.
Qed.

(** A counting loop whose invariant depends on the number of rounds done. *)
Lemma forM_range_inv {S} (I : Z → S → Prop) (n : Z) (body : Z → S → result S) (s : S) :
  0 ≤ n → I 0 s →
  (∀ i s, 0 ≤ i < n → I i s → ∃ s', body i s = Ok s' ∧ I (i + 1) s') →
  ∃ s', forM (range n) body s = Ok s' ∧ I n s'.
Proof.
  intros Hn H0 Hstep.
  assert (∀ k : nat, Z.of_nat k ≤ n →
            ∃ s', forM (range (Z.of_nat k)) body s = Ok s' ∧ I (Z.of_nat k) s') as Hgen.
  { induction k as [|k IH]; intros Hk.
    - exists s. done.
    - destruct IH as (s1 & Hrun & Hs1); [lia|].
      rewrite Nat2Z.inj_succ, <-Z.add_1_r, range_snoc, forM_app, Hrun by lia.
      simpl. destruct (Hstep (Z.of_nat k) s1) as (s2 & -> & Hs2); [lia | done |].
      exists s2. done. }
  destruct (Hgen (Z.to_nat n)) as (s' & Hrun & Hs'); [lia|].
  rewrite Z2Nat.id in Hrun, Hs' by done. eauto.
Qed.

(** A loop stops with the error of its first failing round: the rounds
    before it succeed and keep the invariant. *)
Lemma forM_fails {X S} (I : S → Prop) (bad : X → Prop) (e : error)
    (l : list X) (body : X → S → result S) (s : S) :
  I s →
  (∀ x s, x ∈ l → I s →
     (¬ bad x ∧ ∃ s', body x s = Ok s' ∧ I s') ∨ (bad x ∧ body x s = Err e)) →
  (∃ x, x ∈ l ∧ bad x) →
  forM l body s = Err e.
Proof.
  revert s. induction l as [|x l IH]; intros s Hs Hbody (y & Hy & Hbad).
  - by apply elem_of_nil in Hy.
  - simpl. destruct (Hbody x s) as [[Hgood (s1 & -> & Hs1)]|[_ ->]]; [left | done | | done].
    simpl. apply IH; [done | |].
    + intros. apply Hbody; [by right | done].
    + apply elem_of_cons in Hy as [->|Hy]; [done|]. eauto.
Qed.

(** ** Matrices are determined by their channel values *)

Lemma cell_ext (c : Z) (x y : Matrix.cell) :
  cell_ok c x → cell_ok c y →
  (∀ k, 0 ≤ k < c → cell_chan x k = cell_chan y k) → x = y.
Proof.
  intros Hx Hy H. destruct x as [v|p], y as [w|q]; simpl in *; try lia.
  - subst c. specialize (H 0 ltac:(lia)). unfold cell_chan in H. simpl in H. congruence.
  - f_equal. destruct Hx as [Hc Hp], Hy as [_ Hq]. apply list_eq. intros n.
    destruct (decide (n < Z.to_nat c)%nat) as [Hn|Hn].
    + specialize (H (Z.of_nat n) ltac:(lia)). unfold cell_chan in H.
      replace (Z.of_nat n <? 0) with false in H by lia. by rewrite Nat2Z.id in H.
    + rewrite !lookup_ge_None_2 by lia. done.
Qed.

Lemma matrix_ext_chan (M N : Matrix.t) :
  wf M → wf N → same_dims M N →
  (∀ i j k, 0 ≤ i < Matrix.rows M → 0 ≤ j < Matrix.cols M → 0 ≤ k < Matrix.chls M →
            chan M i j k = chan N i j k) →
  M = N.
Proof.
  intros HM HN Hd Hch. pose proof Hd as (D1 & D2 & D3).
  apply matrix_ext; [by apply wf_grid.. | done |].
  intros i j Hi Hj.
  destruct (wf_raw M i j) as (x & Hx & Hxok); [done..|].
  destruct (wf_raw N i j) as (y & Hy & Hyok); [done | lia.. |].
  rewrite Hx, Hy. f_equal. apply (cell_ext (Matrix.chls M)); [done | by rewrite D3 |].
  intros k Hk. specialize (Hch i j k Hi Hj Hk).
  by rewrite (chan_raw M i j k x), (chan_raw N i j k y) in Hch by (done || lia).
Qed.

Lemma chan_get (M : Matrix.t) (i j k : Z) (v : Qc) :
  0 ≤ i < Matrix.rows M → 0 ≤ j < Matrix.cols M → 0 ≤ k < Matrix.chls M →
  1 < Matrix.chls M → wf M →
  chan M i j k = Some v → Matrix.get M i j k = Ok v.
Proof.
  intros Hi Hj Hk Hc Hwf Hch.
  destruct (get_wf M i j k) as (w & Hw & Hw'); [done..|]. congruence.
Qed.

Lemma rd3_chan (M : Matrix.t) (i j k : Z) (v : Qc) :
  rd3 M (i, j, k) = Ok v → chan M i j k = Some v.
Proof. apply get_chan. Qed.

Lemma chan_scalar (M : Matrix.t) (i j : Z) (c : Matrix.cell) :
  Matrix.get_cell M i j = Ok c → chan M i j 0 = cell_chan c 0.
Proof.
  intros [[Hi Hj] Hraw]%get_cell_Ok. apply chan_raw; [lia.. | done].
Qed.

(** ** Filling one channel, and filling everything *)

(** The loop shared by [fillRed], [fillGreen], [fillBlue], [fillAlpha] and
    [black]: channel [c] of every pixel is set to [a]. *)
Lemma fill_channel_spec (M : Matrix.t) (c : Z) (a : Qc) :
  wf M → 1 < Matrix.chls M → 0 ≤ c < Matrix.chls M →
  ∃ M', Matrix.apply M (λ i j M', Matrix.set M' i j a c) M = Ok M' ∧
        wf M' ∧ same_dims M' M ∧
        (∀ i j, 0 ≤ i < Matrix.rows M → 0 ≤ j < Matrix.cols M →
                rd3 M' (i, j, c) = Ok a) ∧
        (∀ i j k, k ≠ c → rd3 M' (i, j, k) = rd3 M (i, j, k)).
Proof.
  intros Hwf Hk Hc. rewrite apply_flat.
  set (g := λ p : Z * Z, (p, c)).
  assert (Inj (=) (=) g) as Hinj by (by intros ?? [= ->]).
  destruct (assign_loop M (g <$> idx2 (Matrix.rows M) (Matrix.cols M))
              (λ _ _, Ok a) (λ _, a)) as (M' & Hrun & [Hwf' Hd] & Hval & Hfr).
  - done.
  - done.
  - apply NoDup_fmap_2; [done | apply NoDup_idx2].
  - intros i j k ([i' j'] & [= -> -> ->] & [? ?]%elem_of_idx2)%list_elem_of_fmap. lia.
  - done.
  - exists M'. split_and!; try done.
    + rewrite <-Hrun, forM_fmap. done.
    + intros i j Hi Hj. apply Hval, list_elem_of_fmap. exists (i, j).
      split; [done|]. by apply elem_of_idx2.
    + intros i j k Hne. apply Hfr.
      intros ([i' j'] & [= -> -> ->] & _)%list_elem_of_fmap. done.
Qed.

(** On a non-empty matrix that has no channel [c] the first [set] throws. *)
Lemma fill_channel_fails (M : Matrix.t) (c : Z) (a : Qc) :
  1 ≤ Matrix.rows M → 1 ≤ Matrix.cols M → Matrix.chls M ≤ c →
  Matrix.apply M (λ i j M', Matrix.set M' i j a c) M = Err RangeError.
Proof.
  intros Hr Hc Hk. unfold Matrix.apply, range.
  rewrite (seqZ_cons 0 (Matrix.rows M)), (seqZ_cons 0 (Matrix.cols M)) by lia. simpl.
  unfold Matrix.set. by rewrite oob3_true by lia.
Qed.

Lemma get_after_fill (M M' : Matrix.t) (c : Z) (a : Qc) (i j k : Z) :
  0 ≤ i < Matrix.rows M → 0 ≤ j < Matrix.cols M →
  (∀ i j, 0 ≤ i < Matrix.rows M → 0 ≤ j < Matrix.cols M → rd3 M' (i, j, c) = Ok a) →
  (∀ i j k, k ≠ c → rd3 M' (i, j, k) = rd3 M (i, j, k)) →
  Matrix.get M' i j k = if k =? c then Ok a else Matrix.get M i j k.
Proof.
  intros Hi Hj Hval Hfr. destruct (Z.eqb_spec k c) as [->|Hne].
  - by apply (Hval i j).
  - by apply (Hfr i j k).
Qed.

(** X1. [fillRed], [fillGreen] and [fillBlue] on a matrix with at least
    three channels: the call succeeds, the matrix keeps its shape, the
    channel of the method's name (0, 1 or 2) holds the given value at every
    pixel, and every other channel, alpha included, is as before. *)
Theorem fill_color_channel_spec (M : Matrix.t) (v : Qc) :
  wf M → 3 ≤ Matrix.chls M →
  ∃ R G B,
    Matrix.fillRed M v = Ok R ∧ Matrix.fillGreen M v = Ok G ∧ Matrix.fillBlue M v = Ok B ∧
    (wf R ∧ same_dims R M) ∧ (wf G ∧ same_dims G M) ∧ (wf B ∧ same_dims B M) ∧
    ∀ i j k, 0 ≤ i < Matrix.rows M → 0 ≤ j < Matrix.cols M →
      Matrix.get R i j k = (if k =? 0 then Ok v else Matrix.get M i j k) ∧
      Matrix.get G i j k = (if k =? 1 then Ok v else Matrix.get M i j k) ∧
      Matrix.get B i j k = (if k =? 2 then Ok v else Matrix.get M i j k).
Proof.
  intros Hwf Hc.
  destruct (fill_channel_spec M 0 v) as (R & HR & WR & DR & VR & FR); [done | lia.. |].
  destruct (fill_channel_spec M 1 v) as (G & HG & WG & DG & VG & FG); [done | lia.. |].
  destruct (fill_channel_spec M 2 v) as (B & HB & WB & DB & VB & FB); [done | lia.. |].
  exists R, G, B. split_and!; try done.
  intros i j k Hi Hj. split_and!; by eapply get_after_fill.
Qed.

Lemma fill_color_channel_spec_witness :
  ∃ R G B,
    Matrix.fillRed rgba_a (q 1 3) = Ok R ∧ Matrix.fillGreen rgba_a (q 1 3) = Ok G ∧
    Matrix.fillBlue rgba_a (q 1 3) = Ok B ∧
    (wf R ∧ same_dims R rgba_a) ∧ (wf G ∧ same_dims G rgba_a) ∧ (wf B ∧ same_dims B rgba_a) ∧
    ∀ i j k, 0 ≤ i < Matrix.rows rgba_a → 0 ≤ j < Matrix.cols rgba_a →
      Matrix.get R i j k = (if k =? 0 then Ok (q 1 3) else Matrix.get rgba_a i j k) ∧
      Matrix.get G i j k = (if k =? 1 then Ok (q 1 3) else Matrix.get rgba_a i j k) ∧
      Matrix.get B i j k = (if k =? 2 then Ok (q 1 3) else Matrix.get rgba_a i j k).
Proof.
  apply (fill_color_channel_spec rgba_a (q 1 3)); [by_decide | simpl; lia].
Defined.

(** [fill(v)] on a matrix with pixel cells. *)
Lemma fill_pixels (M : Matrix.t) (v : Qc) :
  wf M → 1 < Matrix.chls M →
  ∃ M', Matrix.fill M v = Ok M' ∧ wf M' ∧ same_dims M' M ∧
        ∀ p, p ∈ idx3 (Matrix.rows M) (Matrix.cols M) (Matrix.chls M) → rd3 M' p = Ok v.
Proof.
  intros Hwf Hc. unfold Matrix.fill. rewrite applyAll_flat by done.
  destruct (assign_loop M (idx3 (Matrix.rows M) (Matrix.cols M) (Matrix.chls M))
              (λ _ _, Ok v) (λ _, v)) as (M' & Hrun & [Hwf' Hd] & Hval & _).
  - done.
  - done.
  - apply NoDup_idx3.
  - by intros i j k ?%elem_of_idx3.
  - done.
  - exists M'. split_and!; done.
Qed.

(** [fill(v)] on a single-channel matrix. *)
Lemma fill_scalars (M : Matrix.t) (v : Qc) :
  wf M → Matrix.chls M = 1 →
  ∃ M', Matrix.fill M v = Ok M' ∧ wf M' ∧ same_dims M' M ∧
        ∀ p, p ∈ idx2 (Matrix.rows M) (Matrix.cols M) → rd2 M' p = Ok (Matrix.Scalar v).
Proof.
  intros Hwf Hc. unfold Matrix.fill. rewrite applyAll_flat1 by lia.
  destruct (forM_local rd2 (λ M', wf M' ∧ same_dims M' M)
              (idx2 (Matrix.rows M) (Matrix.cols M)) (λ _, Matrix.Scalar v)
              (λ p M', Matrix.set_cell M' p.1 p.2 (Matrix.Scalar v)) M)
    as (M' & Hrun & [Hwf' Hd] & Hval & _); [apply NoDup_idx2 | done | |].
  - intros [i j] s [Hi Hj]%elem_of_idx2 [Hs (D1 & D2 & D3)] _ _. simpl.
    destruct (set_cell_spec s i j (Matrix.Scalar v)) as (s1 & -> & ? & ? & ? & ?);
      [done | lia.. | simpl; lia |].
    exists s1. split_and!; try done. by eapply same_dims_trans.
  - exists M'. split_and!; done.
Qed.

(** X2. [fill(v)] on a non-empty matrix leaves exactly the matrix that
    [generate(rows, cols, chls, v)] builds for the same sizes: every channel
    of every cell holds [v], the alpha channel included. *)
Theorem fill_is_generate (M : Matrix.t) (v : Qc) :
  wf M → 1 ≤ Matrix.rows M → 1 ≤ Matrix.cols M →
  Matrix.fill M v
    = Matrix.generate (Z2Qc (Matrix.rows M)) (Z2Qc (Matrix.cols M)) (Z2Qc (Matrix.chls M)) v ∧
  ∃ M', Matrix.fill M v = Ok M' ∧ wf M' ∧ same_dims M' M ∧
        ∀ i j k, 0 ≤ i < Matrix.rows M → 0 ≤ j < Matrix.cols M → 0 ≤ k < Matrix.chls M →
          chan M' i j k = Some v.
Proof.
  intros Hwf Hr Hc. pose proof Hwf as (Hk & _).
  destruct (generate_positive (Matrix.rows M) (Matrix.cols M) (Matrix.chls M) v)
    as (N & HN & WN & R1 & R2 & R3 & Hraw); [done..|].
  assert (∃ M', Matrix.fill M v = Ok M' ∧ wf M' ∧ same_dims M' M ∧
            ∀ i j k, 0 ≤ i < Matrix.rows M → 0 ≤ j < Matrix.cols M →
                     0 ≤ k < Matrix.chls M → chan M' i j k = Some v) as (M' & Hrun & W & D & Hch).
  { destruct (decide (1 < Matrix.chls M)) as [Hm|Hm].
    - destruct (fill_pixels M v) as (M' & Hrun & W & D & Hval); [done..|].
      exists M'. split_and!; try done. intros i j k Hi Hj Hk'.
      apply rd3_chan, Hval, elem_of_idx3. done.
    - destruct (fill_scalars M v) as (M' & Hrun & W & D & Hval); [done | lia |].
      exists M'. split_and!; try done. intros i j k Hi Hj Hk'.
      assert (k = 0) as -> by lia.
      rewrite (chan_scalar M' i j (Matrix.Scalar v)); [done|].
      apply (Hval (i, j)), elem_of_idx2. done. }
  split; [|by exists M'].
  rewrite Hrun, HN. f_equal. pose proof D as (D1 & D2 & D3).
  apply matrix_ext_chan; [done | done | unfold same_dims; lia |].
  intros i j k Hi Hj Hk'. rewrite Hch by lia.
  rewrite (chan_raw N i j k _ ltac:(lia) ltac:(lia) (Hraw i j ltac:(lia) ltac:(lia))).
  unfold cell_chan. replace (k <? 0) with false by lia.
  destruct (Z.ltb_spec 1 (Matrix.chls M)).
  - symmetry. apply lookup_replicate_2. lia.
  - by replace k with 0 by lia.
Qed.

Lemma fill_is_generate_witness :
  Matrix.fill rgba_a (q 1 3)
    = Matrix.generate (Z2Qc (Matrix.rows rgba_a)) (Z2Qc (Matrix.cols rgba_a))
        (Z2Qc (Matrix.chls rgba_a)) (q 1 3) ∧
  ∃ M', Matrix.fill rgba_a (q 1 3) = Ok M' ∧ wf M' ∧ same_dims M' rgba_a ∧
        ∀ i j k, 0 ≤ i < Matrix.rows rgba_a → 0 ≤ j < Matrix.cols rgba_a →
                 0 ≤ k < Matrix.chls rgba_a → chan M' i j k = Some (q 1 3).
Proof.
  apply (fill_is_generate rgba_a (q 1 3)); [by_decide | simpl; lia | simpl; lia].
Defined.

(** ** [isBlack] and the constant images *)

Lemma flag_loop (c : Qc) (B : Matrix.t) (ps : list (Z * Z * Z)) (flag : bool) :
  wf B → 1 < Matrix.chls B →
  (∀ i j k, (i, j, k) ∈ ps →
     0 ≤ i < Matrix.rows B ∧ 0 ≤ j < Matrix.cols B ∧ 0 ≤ k < Matrix.chls B) →
  ∃ b, forM ps (λ p flag, v ← Matrix.get B p.1.1 p.1.2 p.2;
                 Ok (if Qc_eqb v c then flag else false)) flag = Ok b ∧
       (b = true ↔ flag = true ∧ ∀ i j k, (i, j, k) ∈ ps → chan B i j k = Some c).
Proof.
  intros Hwf Hc. revert flag. induction ps as [|[[i j] k] ps IH]; intros flag Hr; simpl.
  - exists flag. split; [done|]. split; [|by intros []]. intros ->. split; [done|].
    intros ??? H. by apply elem_of_nil in H.
  - destruct (Hr i j k) as (Hi & Hj & Hk); [left|].
    destruct (get_wf B i j k) as (v & -> & Hv); [done..|]. simpl.
    destruct (IH (if Qc_eqb v c then flag else false)) as (b & -> & Hb).
    { intros. apply Hr. by right. }
    exists b. split; [done|]. rewrite Hb. unfold Qc_eqb.
    split.
    + intros [Hflag Hall]. case_bool_decide as Hv1; [|done]. subst v.
      split; [done|]. intros i' j' k' [[= -> -> ->]|?]%elem_of_cons; [done | by apply Hall].
    + intros [-> Hall]. rewrite (Hall i j k) in Hv by left. injection Hv as <-.
      rewrite bool_decide_eq_true_2 by done. split; [done|].
      intros. apply Hall. by right.
Qed.

Lemma isBlack_iff (B : Matrix.t) :
  wf B → ∃ b, Matrix.isBlack B = Ok b ∧ (b = true ↔ all_black B).
Proof.
  intros Hwf. unfold Matrix.isBlack, all_black.
  destruct (negb (Matrix.chls B =? 3) && negb (Matrix.chls B =? 4)) eqn:Hc.
  - exists false. split; [done|]. split; [done|]. intros [? _]. lia.
  - rewrite applyAllPixels_flat.
    destruct (flag_loop 0 B (idx3 (Matrix.rows B) (Matrix.cols B) 3) true)
      as (b & -> & Hb); [done | lia | |].
    { intros i j k Hp%elem_of_idx3. lia. }
    exists b. split; [done|]. rewrite Hb. setoid_rewrite elem_of_idx3.
    split.
    + intros [_ H]. split; [lia|]. intros. by apply H.
    + intros [_ H]. split; [done|]. intros ??? (? & ? & ?). by apply H.
Qed.

(** X3. [isBlack()] never throws on a well-formed matrix and answers true
    exactly when the matrix has 3 or 4 channels and every colour channel
    (0, 1, 2) of every pixel is 0; the alpha channel is not looked at, and
    any other channel count gives false. *)
Theorem isBlack_spec (B : Matrix.t) :
  wf B →
  ∃ b, Matrix.isBlack B = Ok b ∧ (b = true ↔ all_black B) ∧
       (Matrix.chls B ≠ 3 → Matrix.chls B ≠ 4 → b = false).
Proof.
  intros Hwf. destruct (isBlack_iff B Hwf) as (b & Hrun & Hb).
  exists b. split_and!; [done..|].
  intros H3 H4. destruct b; [|done]. destruct (proj1 Hb eq_refl) as [[?|?] _]; lia.
Qed.

Lemma isBlack_spec_witness :
  (∃ b, Matrix.isBlack rgba_black = Ok b ∧ (b = true ↔ all_black rgba_black) ∧
        (Matrix.chls rgba_black ≠ 3 → Matrix.chls rgba_black ≠ 4 → b = false)) ∧
  Matrix.isBlack rgba_black = Ok true ∧ Matrix.isBlack rgba_a = Ok false.
Proof.
  split; [apply (isBlack_spec rgba_black); by_decide | by vm_compute].
Defined.

(** The cell at a position is determined by its channel values. *)
Lemma cell_of_chans (M : Matrix.t) (i j : Z) (c : Matrix.cell) :
  wf M → 0 ≤ i < Matrix.rows M → 0 ≤ j < Matrix.cols M → cell_ok (Matrix.chls M) c →
  (∀ k, 0 ≤ k < Matrix.chls M → chan M i j k = cell_chan c k) →
  Matrix.get_cell M i j = Ok c.
Proof.
  intros Hwf Hi Hj Hc Hch.
  destruct (get_cell_wf M i j) as (x & Hx & Hxok & Hraw); [done..|].
  rewrite Hx. f_equal. apply (cell_ext (Matrix.chls M)); [done..|].
  intros k Hk. rewrite <-Hch by done. symmetry. apply chan_raw; [lia.. | done].
Qed.

(** An image of zeros with channel [c1] and then channel 3 set to 1. *)
Lemma zeros_two_channels (r c k c1 : Z) (M0 : Matrix.t) :
  1 ≤ r → 1 ≤ c → 4 ≤ k → 0 ≤ c1 < k →
  Matrix.generate (Z2Qc r) (Z2Qc c) (Z2Qc k) 0 = Ok M0 →
  ∃ M1 M2,
    Matrix.apply M0 (λ i j M', Matrix.set M' i j 1 c1) M0 = Ok M1 ∧
    Matrix.apply M1 (λ i j M', Matrix.set M' i j 1 3) M1 = Ok M2 ∧
    wf M2 ∧ Matrix.rows M2 = r ∧ Matrix.cols M2 = c ∧ Matrix.chls M2 = k ∧
    ∀ i j x, 0 ≤ i < r → 0 ≤ j < c → 0 ≤ x < k →
      chan M2 i j x = Some (if bool_decide (x = c1 ∨ x = 3) then 1%Qc else 0%Qc).
Proof.
  intros Hr Hc Hk Hc1 Hgen.
  destruct (zeros_get r c k) as (N0 & HZ & W0 & R0 & C0 & K0 & V0); [lia..|].
  unfold Matrix.zeros in HZ. rewrite Hgen in HZ. injection HZ as <-.
  destruct (fill_channel_spec M0 c1 1) as (M1 & H1 & W1 & (D1 & D2 & D3) & V1 & F1);
    [done | lia.. |].
  destruct (fill_channel_spec M1 3 1) as (M2 & H2 & W2 & (E1 & E2 & E3) & V2 & F2);
    [done | lia.. |].
  exists M1, M2. split_and!; [done | done | done | lia.. |].
  intros i j x Hi Hj Hx. apply rd3_chan.
  destruct (decide (x = 3)) as [->|H3].
  - rewrite bool_decide_eq_true_2 by (by right). apply V2; lia.
  - rewrite F2 by done. destruct (decide (x = c1)) as [->|H1'].
    + rewrite bool_decide_eq_true_2 by (by left). apply V1; lia.
    + rewrite bool_decide_eq_false_2 by (intros [?|?]; done).
      rewrite F1 by done. by apply V0.
Qed.

Lemma pixel_of_chans (M : Matrix.t) (i j : Z) (p : list Qc) :
  wf M → 0 ≤ i < Matrix.rows M → 0 ≤ j < Matrix.cols M →
  1 < Matrix.chls M → length p = Z.to_nat (Matrix.chls M) →
  (∀ k, 0 ≤ k < Matrix.chls M → chan M i j k = p !! Z.to_nat k) →
  Matrix.get_cell M i j = Ok (Matrix.Pixel p).
Proof.
  intros Hwf Hi Hj Hc Hlen Hch. apply cell_of_chans; [done.. | |].
  - simpl. done.
  - intros k Hk. rewrite Hch by done. unfold cell_chan.
    by replace (k <? 0) with false by lia.
Qed.

(** With 2 or 3 channels, [black], [red], [green] and [blue] all throw
    RangeError, from the write to channel 3 (or, for [blue] with 2
    channels, to channel 2). *)
Lemma opaque_images_fail (r c k : Z) :
  1 ≤ r → 1 ≤ c → 2 ≤ k ≤ 3 →
  Matrix.black r c k = Err RangeError ∧ Matrix.red r c k = Err RangeError ∧
  Matrix.green r c k = Err RangeError ∧ Matrix.blue r c k = Err RangeError.
Proof.
  intros Hr Hc Hk.
  destruct (generate_positive r c k 0) as (M0 & Hgen & W0 & R0 & C0 & K0 & _); [lia..|].
  assert (∀ c1 M1, Matrix.apply M0 (λ i j M', Matrix.set M' i j 1 c1) M0 = Ok M1 →
            0 ≤ c1 < k → Matrix.fillAlpha M1 1 = Err RangeError) as Hlast.
  { intros c1 M1 H1 Hc1.
    destruct (fill_channel_spec M0 c1 1) as (M1' & H1' & _ & (D1 & D2 & D3) & _);
      [done | lia.. |].
    rewrite H1 in H1'. injection H1' as <-. apply fillAlpha_below_four; lia. }
  unfold Matrix.black, Matrix.red, Matrix.green, Matrix.blue, Matrix.zeros.
  rewrite Hgen, !bind_Ok. split_and!.
  - apply fill_channel_fails; lia.
  - unfold Matrix.fillRed.
    destruct (fill_channel_spec M0 0 1) as (M1 & H1 & _); [done | lia.. |].
    rewrite H1, bind_Ok. apply (Hlast 0); [done | lia].
  - unfold Matrix.fillGreen.
    destruct (fill_channel_spec M0 1 1) as (M1 & H1 & _); [done | lia.. |].
    rewrite H1, bind_Ok. apply (Hlast 1); [done | lia].
  - unfold Matrix.fillBlue. destruct (decide (k = 2)) as [->|Hne].
    + rewrite fill_channel_fails by lia. done.
    + destruct (fill_channel_spec M0 2 1) as (M1 & H1 & _); [done | lia.. |].
      rewrite H1, bind_Ok. apply (Hlast 2); [done | lia].
Qed.

(** X4. [black(r, c, 4)] returns an image of pixels [0, 0, 0, 1] that
    [isBlack()] accepts, and [white(r, c, k)], for k = 3 or 4, an image of
    ones that [isWhite()] accepts; with 2 or 3 channels [black] throws
    RangeError from its write to the alpha channel, so that a black image
    without alpha cannot be made with it. *)
Theorem black_and_white_images (r c : Z) :
  1 ≤ r → 1 ≤ c →
  (∃ M, Matrix.black r c 4 = Ok M ∧ wf M ∧
        Matrix.rows M = r ∧ Matrix.cols M = c ∧ Matrix.chls M = 4 ∧
        (∀ i j, 0 ≤ i < r → 0 ≤ j < c →
           Matrix.get_cell M i j = Ok (Matrix.Pixel [0; 0; 0; 1]%Qc)) ∧
        Matrix.isBlack M = Ok true ∧ Matrix.isWhite M = Ok false) ∧
  (∀ k, k = 3 ∨ k = 4 →
     ∃ M, Matrix.white r c k = Ok M ∧ wf M ∧
          Matrix.rows M = r ∧ Matrix.cols M = c ∧ Matrix.chls M = k ∧
          (∀ i j, 0 ≤ i < r → 0 ≤ j < c →
             Matrix.get_cell M i j = Ok (Matrix.Pixel (replicate (Z.to_nat k) 1%Qc))) ∧
          Matrix.isWhite M = Ok true ∧ Matrix.isBlack M = Ok false) ∧
  (∀ k, 2 ≤ k ≤ 3 → Matrix.black r c k = Err RangeError).
Proof.
  intros Hr Hc. split_and!; [| | intros k Hk; by apply opaque_images_fail].
  - destruct (zeros_get r c 4) as (M0 & HZ & W0 & R0 & C0 & K0 & V0); [lia..|].
    destruct (fill_channel_spec M0 3 1) as (M1 & H1 & W2 & (D1 & D2 & D3) & V1 & F1);
      [done | lia.. |].
    assert (Matrix.chls M1 = 4) as K2 by lia.
    assert (∀ i j k, 0 ≤ i < r → 0 ≤ j < c → 0 ≤ k < 4 →
              chan M1 i j k = Some (if bool_decide (k = 3) then 1%Qc else 0%Qc)) as V2.
    { intros i j k Hi Hj Hk. apply rd3_chan. case_bool_decide as Hk3.
      - subst k. apply V1; lia.
      - rewrite F1 by done. by apply V0. }
    exists M1. unfold Matrix.black. rewrite HZ, bind_Ok, H1.
    assert (∀ i j k, 0 ≤ i < r → 0 ≤ j < c → 0 ≤ k < 3 → chan M1 i j k = Some 0%Qc) as Hzero.
    { intros i j k Hi Hj Hk. rewrite V2 by lia.
      by rewrite bool_decide_eq_false_2 by lia. }
    split_and!; [done | done | lia.. | | |].
    + intros i j Hi Hj. apply pixel_of_chans; [done | lia.. | by rewrite K2 |].
      intros k Hk. rewrite V2 by lia.
      assert (k = 0 ∨ k = 1 ∨ k = 2 ∨ k = 3) as [-> | [-> | [-> | ->]]] by lia; done.
    + destruct (isBlack_iff M1 W2) as (b & -> & Hb). f_equal. apply Hb.
      split; [lia|]. intros i j k Hi Hj Hk. apply Hzero; lia.
    + destruct (isWhite_spec M1 W2) as (b & -> & Hb). f_equal.
      destruct b; [|done]. destruct (proj1 Hb eq_refl) as [_ Hw].
      specialize (Hw 0 0 0 ltac:(lia) ltac:(lia) ltac:(lia)).
      rewrite Hzero in Hw by lia. done.
  - intros k Hk.
    destruct (generate_positive r c k 1) as (M & Hgen & W & R1 & C1 & K1 & Hraw); [lia..|].
    exists M. unfold Matrix.white, Matrix.ones. split_and!; try done.
    + intros i j Hi Hj. apply get_cell_raw; [lia.. |]. rewrite Hraw by done.
      by replace (1 <? k) with true by lia.
    + destruct (isWhite_spec M W) as (b & -> & Hb). f_equal. apply Hb.
      split; [lia|]. intros i j x Hi Hj Hx.
      rewrite (chan_raw M i j x _ ltac:(lia) ltac:(lia) (Hraw i j ltac:(lia) ltac:(lia))).
      replace (1 <? k) with true by lia. unfold cell_chan.
      replace (x <? 0) with false by lia. apply lookup_replicate_2. lia.
    + destruct (isBlack_iff M W) as (b & -> & Hb). f_equal.
      destruct b; [|done]. destruct (proj1 Hb eq_refl) as [_ Hw].
      specialize (Hw 0 0 0 ltac:(lia) ltac:(lia) ltac:(lia)).
      rewrite (chan_raw M 0 0 0 _ ltac:(lia) ltac:(lia) (Hraw 0 0 ltac:(lia) ltac:(lia))) in Hw.
      replace (1 <? k) with true in Hw by lia. unfold cell_chan in Hw. simpl in Hw.
      rewrite lookup_replicate_2 in Hw by lia. done.
Qed.

Lemma black_and_white_images_witness :
  ∃ M N, Matrix.black 1 2 4 = Ok M ∧ Matrix.isBlack M = Ok true ∧
         Matrix.white 1 2 3 = Ok N ∧ Matrix.isWhite N = Ok true ∧
         Matrix.black 1 2 3 = Err RangeError.
Proof.
  destruct (black_and_white_images 1 2) as ((M & H & _ & _ & _ & _ & _ & Hb & _) & Hw & Hf);
    [lia..|].
  destruct (Hw 3) as (N & H' & _ & _ & _ & _ & _ & Hw' & _); [by left|].
  exists M, N. exact (conj H (conj Hb (conj H' (conj Hw' (Hf 3 ltac:(lia)))))).
Defined.

(** X5. [red(r, c, 4)], [green(r, c, 4)] and [blue(r, c, 4)] return opaque
    images of the pure colour: every pixel is [1, 0, 0, 1], [0, 1, 0, 1]
    and [0, 0, 1, 1] respectively.  With 2 or 3 channels the three throw
    RangeError, from the write to the alpha channel. *)
Theorem primary_color_images (r c : Z) :
  1 ≤ r → 1 ≤ c →
  (∃ R G B,
    Matrix.red r c 4 = Ok R ∧ Matrix.green r c 4 = Ok G ∧ Matrix.blue r c 4 = Ok B ∧
    (wf R ∧ Matrix.rows R = r ∧ Matrix.cols R = c ∧ Matrix.chls R = 4) ∧
    (wf G ∧ Matrix.rows G = r ∧ Matrix.cols G = c ∧ Matrix.chls G = 4) ∧
    (wf B ∧ Matrix.rows B = r ∧ Matrix.cols B = c ∧ Matrix.chls B = 4) ∧
    ∀ i j, 0 ≤ i < r → 0 ≤ j < c →
      Matrix.get_cell R i j = Ok (Matrix.Pixel [1; 0; 0; 1]%Qc) ∧
      Matrix.get_cell G i j = Ok (Matrix.Pixel [0; 1; 0; 1]%Qc) ∧
      Matrix.get_cell B i j = Ok (Matrix.Pixel [0; 0; 1; 1]%Qc)) ∧
  (∀ k, 2 ≤ k ≤ 3 →
     Matrix.red r c k = Err RangeError ∧ Matrix.green r c k = Err RangeError ∧
     Matrix.blue r c k = Err RangeError).
Proof.
  intros Hr Hc. split; [|intros k Hk; by apply opaque_images_fail].
  destruct (generate_positive r c 4 0) as (M0 & Hgen & W0 & _); [lia..|].
  destruct (zeros_two_channels r c 4 0 M0) as (R1 & R & HR1 & HR & WR & RR & CR & KR & VR);
    [lia.. | done |].
  destruct (zeros_two_channels r c 4 1 M0) as (G1 & G & HG1 & HG & WG & RG & CG & KG & VG);
    [lia.. | done |].
  destruct (zeros_two_channels r c 4 2 M0) as (B1 & B & HB1 & HB & WB & RB & CB & KB & VB);
    [lia.. | done |].
  exists R, G, B. unfold Matrix.red, Matrix.green, Matrix.blue.
  unfold Matrix.fillRed, Matrix.fillGreen, Matrix.fillBlue, Matrix.fillAlpha.
  rewrite Hgen, !bind_Ok, HR1, HG1, HB1, !bind_Ok.
  split_and!; [done..|].
  intros i j Hi Hj. split_and!.
  - apply pixel_of_chans; [done | lia.. | by rewrite KR |].
    intros k Hk. rewrite VR by lia.
    assert (k = 0 ∨ k = 1 ∨ k = 2 ∨ k = 3) as [-> | [-> | [-> | ->]]] by lia; done.
  - apply pixel_of_chans; [done | lia.. | by rewrite KG |].
    intros k Hk. rewrite VG by lia.
    assert (k = 0 ∨ k = 1 ∨ k = 2 ∨ k = 3) as [-> | [-> | [-> | ->]]] by lia; done.
  - apply pixel_of_chans; [done | lia.. | by rewrite KB |].
    intros k Hk. rewrite VB by lia.
    assert (k = 0 ∨ k = 1 ∨ k = 2 ∨ k = 3) as [-> | [-> | [-> | ->]]] by lia; done.
Qed.

Lemma primary_color_images_witness :
  ∃ R G B,
    Matrix.red 2 1 4 = Ok R ∧ Matrix.green 2 1 4 = Ok G ∧ Matrix.blue 2 1 4 = Ok B ∧
    Matrix.get_cell R 1 0 = Ok (Matrix.Pixel [1; 0; 0; 1]%Qc) ∧
    Matrix.get_cell G 1 0 = Ok (Matrix.Pixel [0; 1; 0; 1]%Qc) ∧
    Matrix.get_cell B 1 0 = Ok (Matrix.Pixel [0; 0; 1; 1]%Qc) ∧
    Matrix.red 2 1 3 = Err RangeError.
Proof.
  destruct (primary_color_images 2 1)
    as ((R & G & B & HR & HG & HB & _ & _ & _ & Hpx) & Hf); [lia..|].
  destruct (Hpx 1 0) as (PR & PG & PB); [lia..|].
  destruct (Hf 3) as (FR & _ & _); [lia|].
  exists R, G, B. exact (conj HR (conj HG (conj HB (conj PR (conj PG (conj PB FR)))))).
Defined.

(** ** [transpose] *)

Lemma transpose_run (M : Matrix.t) :
  wf M → 1 ≤ Matrix.rows M → 1 ≤ Matrix.cols M →
  ∃ M', Matrix.transpose M = Ok M' ∧ wf M' ∧
        Matrix.rows M' = Matrix.cols M ∧ Matrix.cols M' = Matrix.rows M ∧
        Matrix.chls M' = Matrix.chls M ∧
        ∀ i j, 0 ≤ i < Matrix.cols M → 0 ≤ j < Matrix.rows M →
          Matrix.get_cell M' i j = Matrix.get_cell M j i.
Proof.
  intros Hwf Hr Hc. pose proof Hwf as (Hk & _). unfold Matrix.transpose, Matrix.new.
  destruct (generate_positive (Matrix.cols M) (Matrix.rows M) (Matrix.chls M) 0)
    as (t0 & -> & W0 & R0 & C0 & K0 & _); [done..|].
  rewrite bind_Ok, nest2_flat.
  destruct (forM_local rd2 (λ t, wf t ∧ same_dims t t0)
              (idx2 (Matrix.cols M) (Matrix.rows M))
              (λ p, match Matrix.get_cell M p.2 p.1 with
                    | Ok c => c | Err _ => Matrix.Scalar 0 end)
              (λ p t, c ← Matrix.get_cell M p.2 p.1; Matrix.set_cell t p.1 p.2 c) t0)
    as (t1 & -> & [W1 (D1 & D2 & D3)] & Hval & _); [apply NoDup_idx2 | done | |].
  { intros [i j] s [Hi Hj]%elem_of_idx2 [Hs (E1 & E2 & E3)] _ _. cbn [fst snd].
    destruct (get_cell_wf M j i) as (c & -> & Hok & _); [done..|].
    cbn [mbind result_bind].
    destruct (set_cell_spec s i j c) as (s1 & -> & ? & ? & ? & ?);
      [done | lia.. | by rewrite E3, K0 |].
    exists s1. split_and!; try done. by eapply same_dims_trans. }
  rewrite bind_Ok. exists t1. split_and!; [by destruct t1 | done | lia.. |].
  intros i j Hi Hj. specialize (Hval (i, j)). unfold rd2 in Hval. cbn [fst snd] in Hval.
  rewrite Hval by (apply elem_of_idx2; lia).
  by destruct (get_cell_wf M j i) as (c & -> & _); [done..|].
Qed.

Lemma transpose_twice (M : Matrix.t) :
  wf M → 1 ≤ Matrix.rows M → 1 ≤ Matrix.cols M →
  Matrix.transpose M ≫= Matrix.transpose = Ok M.
Proof.
  intros Hwf Hr Hc.
  destruct (transpose_run M) as (M1 & -> & W1 & R1 & C1 & K1 & H1); [done..|].
  rewrite bind_Ok.
  destruct (transpose_run M1) as (M2 & -> & W2 & R2 & C2 & K2 & H2); [done | lia.. |].
  f_equal. apply matrix_ext; [by apply wf_grid.. | unfold same_dims; lia |].
  intros i j Hi Hj.
  assert (Matrix.get_cell M2 i j = Matrix.get_cell M i j) as Heq.
  { rewrite H2 by lia. apply H1; lia. }
  destruct (get_cell_wf M i j) as (c & Hc' & _ & Hraw); [done | lia.. |].
  rewrite Hc' in Heq. apply get_cell_Ok in Heq as [_ ->]. done.
Qed.

(** X6. [transpose()] of a non-empty matrix swaps the row and column
    counts, keeps the channel count and puts the cell (j, i) of the
    receiver at (i, j), and transposing the result gives the matrix back; a
    receiver with no row or no column makes the buffer's constructor throw
    TypeError. *)
Theorem transpose_spec (M : Matrix.t) :
  wf M →
  (1 ≤ Matrix.rows M → 1 ≤ Matrix.cols M →
   ∃ M', Matrix.transpose M = Ok M' ∧ wf M' ∧
         Matrix.rows M' = Matrix.cols M ∧ Matrix.cols M' = Matrix.rows M ∧
         Matrix.chls M' = Matrix.chls M ∧
         (∀ i j, 0 ≤ i < Matrix.cols M → 0 ≤ j < Matrix.rows M →
            Matrix.get_cell M' i j = Matrix.get_cell M j i) ∧
         Matrix.transpose M' = Ok M) ∧
  (Matrix.rows M = 0 ∨ Matrix.cols M = 0 → Matrix.transpose M = Err TypeError).
Proof.
  intros Hwf. split.
  - intros Hr Hc. pose proof (transpose_twice M Hwf Hr Hc) as Htw.
    destruct (transpose_run M) as (M' & Hrun & W & R & C & K & Hcells); [done..|].
    rewrite Hrun, bind_Ok in Htw. exists M'. by split_and!.
  - intros H0. unfold Matrix.transpose, Matrix.new. rewrite generate_Z.
    by replace ((Matrix.cols M =? 0) || (Matrix.rows M =? 0) || (Matrix.chls M =? 0))
      with true by lia.
Qed.

Lemma transpose_spec_witness :
  ∃ M', Matrix.transpose gray_2x3 = Ok M' ∧
        Matrix.rows M' = Matrix.cols gray_2x3 ∧ Matrix.cols M' = Matrix.rows gray_2x3 ∧
        Matrix.get_cell M' 2 1 = Matrix.get_cell gray_2x3 1 2 ∧
        Matrix.transpose M' = Ok gray_2x3.
Proof.
  destruct (transpose_spec gray_2x3) as [H _]; [by_decide|].
  destruct H as (M' & Hrun & _ & R & C & _ & Hc & Hback); [simpl; lia..|].
  exists M'.
  exact (conj Hrun (conj R (conj C
          (conj (Hc 2 1 ltac:(simpl; lia) ltac:(simpl; lia)) Hback)))).
Defined.

(** ** Flips *)

Lemma raw_rows (M : Matrix.t) (i j : Z) :
  Matrix.raw M i j = (Matrix.m M !! Z.to_nat i) ≫= (λ row, row !! Z.to_nat j).
Proof. reflexivity. Qed.

(** [swapRow(a, b)] exchanges two rows of the store. *)
Lemma swapRow_rows (M : Matrix.t) (a b : Z) :
  wf M → 0 ≤ a < Matrix.rows M → 0 ≤ b < Matrix.rows M →
  ∃ M', Matrix.swapRow M a b = Ok M' ∧ wf M' ∧ same_dims M' M ∧
        ∀ p, 0 ≤ p < Matrix.rows M →
          Matrix.m M' !! Z.to_nat p =
            Matrix.m M !! Z.to_nat (if p =? b then a else if p =? a then b else p).
Proof.
  intros Hwf Ha Hb.
  destruct (swapRow_wf M a b) as (M' & Hrun & W & D); [done..|].
  exists M'. split_and!; [done..|]. intros p Hp.
  pose proof Hwf as (_ & _ & _ & Hlen & _). unfold Matrix.swapRow in Hrun.
  destruct (lookup_lt_is_Some_2 (Matrix.m M) (Z.to_nat a)) as [r Hr]; [lia|].
  destruct (lookup_lt_is_Some_2 (Matrix.m M) (Z.to_nat b)) as [r2 Hr2]; [lia|].
  rewrite Hr, Hr2 in Hrun. injection Hrun as <-. unfold Matrix.with_m; simpl.
  destruct (Z.eqb_spec p b) as [->|Hpb].
  - rewrite list_lookup_insert_eq by (rewrite length_insert; lia). done.
  - rewrite list_lookup_insert_ne by lia.
    destruct (Z.eqb_spec p a) as [->|Hpa].
    + rewrite list_lookup_insert_eq by lia. done.
    + rewrite list_lookup_insert_ne by lia. done.
Qed.

(** [flipY] reverses the order of the rows. *)
Lemma flipY_rows (M : Matrix.t) :
  wf M →
  ∃ M', Matrix.flipY M = Ok M' ∧ wf M' ∧ same_dims M' M ∧
        ∀ p, 0 ≤ p < Matrix.rows M →
          Matrix.m M' !! Z.to_nat p = Matrix.m M !! Z.to_nat (Matrix.rows M - 1 - p).
Proof.
  intros Hwf. unfold Matrix.flipY. set (n := Matrix.rows M).
  assert (0 ≤ n) as Hn by (destruct Hwf as (_ & ? & _); done).
  destruct (forM_range_inv
    (λ t M', wf M' ∧ same_dims M' M ∧
       ∀ p, 0 ≤ p < n →
         Matrix.m M' !! Z.to_nat p =
           Matrix.m M !! Z.to_nat (if (p <? t) || (n - 1 - t <? p) then n - 1 - p else p))
    ((n + 1) / 2) (λ i M', Matrix.swapRow M' i (Matrix.rows M' - i - 1)) M)
    as (M' & Hrun & W & D & Hrows).
  - Z.div_mod_to_equations; lia.
  - split_and!; [done..|]. intros p Hp.
    by replace ((p <? 0) || (n - 1 - 0 <? p)) with false by lia.
  - intros t s Ht (Ws & (D1 & D2 & D3) & Hs).
    assert (0 ≤ t ∧ 2 * t + 1 ≤ n) as [Ht0 Ht1] by (Z.div_mod_to_equations; lia).
    destruct (swapRow_rows s t (Matrix.rows s - t - 1)) as (s1 & -> & W1 & E & Hs1);
      [done | unfold n in *; lia.. |].
    exists s1. split_and!; [done.. | by eapply same_dims_trans |].
    intros p Hp. rewrite Hs1 by (unfold n in *; lia). fold n. rewrite D1. fold n.
    destruct (Z.eqb_spec p (n - t - 1)) as [->|Hp1].
    + rewrite Hs by lia.
      replace ((t <? t) || (n - 1 - t <? t)) with false by lia.
      replace ((n - t - 1 <? t + 1) || (n - 1 - (t + 1) <? n - t - 1)) with true by lia.
      f_equal. lia.
    + destruct (Z.eqb_spec p t) as [->|Hp2].
      * rewrite Hs by lia.
        replace ((n - t - 1 <? t) || (n - 1 - t <? n - t - 1)) with false by lia.
        replace ((t <? t + 1) || (n - 1 - (t + 1) <? t)) with true by lia.
        f_equal. lia.
      * rewrite Hs by lia.
        replace ((p <? t + 1) || (n - 1 - (t + 1) <? p))
          with ((p <? t) || (n - 1 - t <? p)) by lia. done.
  - exists M'. split_and!; [done..|]. intros p Hp. rewrite Hrows by done.
    replace ((p <? (n + 1) / 2) || (n - 1 - (n + 1) / 2 <? p)) with true; [done|].
    symmetry. apply orb_true_iff. Z.div_mod_to_equations. lia.
Qed.

(** [swapCol(a, b)] exchanges two cells in every row. *)
Lemma swapCol_cells (M : Matrix.t) (a b : Z) :
  wf M → 0 ≤ a < Matrix.cols M → 0 ≤ b < Matrix.cols M →
  ∃ M', Matrix.swapCol M a b = Ok M' ∧ wf M' ∧ same_dims M' M ∧
        ∀ i x, 0 ≤ i < Matrix.rows M → 0 ≤ x < Matrix.cols M →
          Matrix.raw M' i x =
            Matrix.raw M i (if x =? b then a else if x =? a then b else x).
Proof.
  intros Hwf Ha Hb. unfold Matrix.swapCol.
  assert (0 ≤ Matrix.rows M) as Hn by (destruct Hwf as (_ & ? & _); done).
  destruct (forM_range_inv
    (λ t M', wf M' ∧ same_dims M' M ∧
       ∀ i x, 0 ≤ i < Matrix.rows M → 0 ≤ x < Matrix.cols M →
         Matrix.raw M' i x =
           Matrix.raw M i (if i <? t then (if x =? b then a else if x =? a then b else x)
                           else x))
    (Matrix.rows M)
    (λ i M', match Matrix.raw M' i a, Matrix.raw M' i b with
             | Some c, Some c2 => M'' ← Matrix.store M' i a c2; Matrix.store M'' i b c
             | _, _ => Err OutsideModel
             end) M) as (M' & Hrun & W & D & Hcells).
  - done.
  - split_and!; [done..|]. intros i x Hi Hx. by replace (i <? 0) with false by lia.
  - intros t s Ht (Ws & (D1 & D2 & D3) & Hs).
    destruct (wf_raw s t a) as (c & Hc & Hcok); [done | lia.. |].
    destruct (wf_raw s t b) as (c2 & Hc2 & Hc2ok); [done | lia.. |].
    rewrite Hc, Hc2.
    destruct (store_spec s t a c2) as (s1 & -> & W1 & (E1 & E2 & E3) & Hraw1 & Hfr1);
      [done | lia.. | done |].
    rewrite bind_Ok.
    destruct (store_spec s1 t b c) as (s2 & -> & W2 & (F1 & F2 & F3) & Hraw2 & Hfr2);
      [done | lia.. | by rewrite E3 |].
    exists s2. split_and!; [done.. | unfold same_dims; lia |].
    intros i x Hi Hx.
    destruct (decide (i = t)) as [->|Hit].
    + replace (t <? t + 1) with true by lia.
      destruct (Z.eqb_spec x b) as [->|Hxb].
      * rewrite Hraw2, <-Hc. rewrite Hs by lia. by replace (t <? t) with false by lia.
      * rewrite Hfr2 by (lia || congruence).
        destruct (Z.eqb_spec x a) as [->|Hxa].
        -- rewrite Hraw1, <-Hc2. rewrite Hs by lia. by replace (t <? t) with false by lia.
        -- rewrite Hfr1 by (lia || congruence). rewrite Hs by lia.
           by replace (t <? t) with false by lia.
    + rewrite Hfr2 by (lia || congruence). rewrite Hfr1 by (lia || congruence).
      rewrite Hs by lia. by replace (i <? t + 1) with (i <? t) by lia.
  - exists M'. split_and!; [done..|]. intros i x Hi Hx. rewrite Hcells by done.
    by replace (i <? Matrix.rows M) with true by lia.
Qed.

(** [flipX] reverses every row. *)
Lemma flipX_cells (M : Matrix.t) :
  wf M →
  ∃ M', Matrix.flipX M = Ok M' ∧ wf M' ∧ same_dims M' M ∧
        ∀ i x, 0 ≤ i < Matrix.rows M → 0 ≤ x < Matrix.cols M →
          Matrix.raw M' i x = Matrix.raw M i (Matrix.cols M - 1 - x).
Proof.
  intros Hwf. unfold Matrix.flipX. set (n := Matrix.cols M).
  assert (0 ≤ n) as Hn by (destruct Hwf as (_ & _ & ? & _); done).
  destruct (forM_range_inv
    (λ t M', wf M' ∧ same_dims M' M ∧
       ∀ i x, 0 ≤ i < Matrix.rows M → 0 ≤ x < n →
         Matrix.raw M' i x =
           Matrix.raw M i (if (x <? t) || (n - 1 - t <? x) then n - 1 - x else x))
    ((n + 1) / 2) (λ j M', Matrix.swapCol M' j (Matrix.cols M' - j - 1)) M)
    as (M' & Hrun & W & D & Hcells).
  - Z.div_mod_to_equations; lia.
  - split_and!; [done..|]. intros i x Hi Hx.
    by replace ((x <? 0) || (n - 1 - 0 <? x)) with false by lia.
  - intros t s Ht (Ws & (D1 & D2 & D3) & Hs).
    assert (0 ≤ t ∧ 2 * t + 1 ≤ n) as [Ht0 Ht1] by (Z.div_mod_to_equations; lia).
    destruct (swapCol_cells s t (Matrix.cols s - t - 1)) as (s1 & -> & W1 & E & Hs1);
      [done | unfold n in *; lia.. |].
    exists s1. split_and!; [done.. | by eapply same_dims_trans |].
    intros i x Hi Hx. rewrite Hs1 by (unfold n in *; lia). rewrite D2. fold n.
    destruct (Z.eqb_spec x (n - t - 1)) as [->|Hp1].
    + rewrite Hs by lia.
      replace ((t <? t) || (n - 1 - t <? t)) with false by lia.
      replace ((n - t - 1 <? t + 1) || (n - 1 - (t + 1) <? n - t - 1)) with true by lia.
      f_equal. lia.
    + destruct (Z.eqb_spec x t) as [->|Hp2].
      * rewrite Hs by lia.
        replace ((n - t - 1 <? t) || (n - 1 - t <? n - t - 1)) with false by lia.
        replace ((t <? t + 1) || (n - 1 - (t + 1) <? t)) with true by lia.
        f_equal. lia.
      * rewrite Hs by lia.
        replace ((x <? t + 1) || (n - 1 - (t + 1) <? x))
          with ((x <? t) || (n - 1 - t <? x)) by lia. done.
  - exists M'. split_and!; [done..|]. intros i x Hi Hx. rewrite Hcells by done.
    replace ((x <? (n + 1) / 2) || (n - 1 - (n + 1) / 2 <? x)) with true; [done|].
    symmetry. apply orb_true_iff. Z.div_mod_to_equations. lia.
Qed.

Lemma flipY_cells (M : Matrix.t) :
  wf M →
  ∃ M', Matrix.flipY M = Ok M' ∧ wf M' ∧ same_dims M' M ∧
        ∀ i x, 0 ≤ i < Matrix.rows M → 0 ≤ x < Matrix.cols M →
          Matrix.raw M' i x = Matrix.raw M (Matrix.rows M - 1 - i) x.
Proof.
  intros Hwf. destruct (flipY_rows M Hwf) as (M' & Hrun & W & D & Hrows).
  exists M'. split_and!; [done..|]. intros i x Hi Hx.
  by rewrite !raw_rows, Hrows.
Qed.

Lemma flipXY_cells (M : Matrix.t) :
  wf M →
  ∃ M', Matrix.flipXY M = Ok M' ∧ wf M' ∧ same_dims M' M ∧
        ∀ i x, 0 ≤ i < Matrix.rows M → 0 ≤ x < Matrix.cols M →
          Matrix.raw M' i x = Matrix.raw M (Matrix.rows M - 1 - i) (Matrix.cols M - 1 - x).
Proof.
  intros Hwf. unfold Matrix.flipXY.
  destruct (flipX_cells M Hwf) as (M1 & -> & W1 & (D1 & D2 & D3) & H1). rewrite bind_Ok.
  destruct (flipY_cells M1 W1) as (M2 & -> & W2 & (E1 & E2 & E3) & H2).
  exists M2. split_and!; [done.. | unfold same_dims; lia |].
  intros i x Hi Hx. rewrite H2 by lia. rewrite D1. apply H1; lia.
Qed.

Lemma get_cell_of_raw (M N : Matrix.t) (i j i' j' : Z) :
  0 ≤ i < Matrix.rows M → 0 ≤ j < Matrix.cols M →
  0 ≤ i' < Matrix.rows N → 0 ≤ j' < Matrix.cols N →
  Matrix.raw M i j = Matrix.raw N i' j' →
  Matrix.get_cell M i j = Matrix.get_cell N i' j'.
Proof.
  intros Hi Hj Hi' Hj' Hraw. unfold Matrix.get_cell.
  rewrite (proj2 (oob2_false M i j)), (proj2 (oob2_false N i' j')) by done.
  by rewrite Hraw.
Qed.

Lemma flip_twice (M : Matrix.t) :
  wf M →
  Matrix.flipX M ≫= Matrix.flipX = Ok M ∧
  Matrix.flipY M ≫= Matrix.flipY = Ok M ∧
  Matrix.flipXY M ≫= Matrix.flipXY = Ok M.
Proof.
  intros Hwf. split_and!.
  - destruct (flipX_cells M Hwf) as (M1 & -> & W1 & (D1 & D2 & D3) & H1). rewrite bind_Ok.
    destruct (flipX_cells M1 W1) as (M2 & -> & W2 & (E1 & E2 & E3) & H2).
    f_equal. apply matrix_ext; [by apply wf_grid.. | unfold same_dims; lia |].
    intros i j Hi Hj. rewrite H2, H1 by lia. f_equal. lia.
  - destruct (flipY_cells M Hwf) as (M1 & -> & W1 & (D1 & D2 & D3) & H1). rewrite bind_Ok.
    destruct (flipY_cells M1 W1) as (M2 & -> & W2 & (E1 & E2 & E3) & H2).
    f_equal. apply matrix_ext; [by apply wf_grid.. | unfold same_dims; lia |].
    intros i j Hi Hj. rewrite H2, H1 by lia. f_equal. lia.
  - destruct (flipXY_cells M Hwf) as (M1 & -> & W1 & (D1 & D2 & D3) & H1). rewrite bind_Ok.
    destruct (flipXY_cells M1 W1) as (M2 & -> & W2 & (E1 & E2 & E3) & H2).
    f_equal. apply matrix_ext; [by apply wf_grid.. | unfold same_dims; lia |].
    intros i j Hi Hj. rewrite H2, H1 by lia. f_equal; lia.
Qed.

(** X7. The flips never throw on a well-formed matrix and keep its shape:
    [flipX] puts the cell of column [cols - 1 - j] at column j of every
    row, [flipY] the row [rows - 1 - i] at row i, and [flipXY] does both,
    a rotation by a half turn.  Each flip is its own inverse: applied to
    its own result it gives the matrix back. *)
Theorem flip_spec (M : Matrix.t) :
  wf M →
  ∃ X Y XY,
    Matrix.flipX M = Ok X ∧ Matrix.flipY M = Ok Y ∧ Matrix.flipXY M = Ok XY ∧
    (wf X ∧ same_dims X M) ∧ (wf Y ∧ same_dims Y M) ∧ (wf XY ∧ same_dims XY M) ∧
    (∀ i j, 0 ≤ i < Matrix.rows M → 0 ≤ j < Matrix.cols M →
       Matrix.get_cell X i j = Matrix.get_cell M i (Matrix.cols M - 1 - j) ∧
       Matrix.get_cell Y i j = Matrix.get_cell M (Matrix.rows M - 1 - i) j ∧
       Matrix.get_cell XY i j
         = Matrix.get_cell M (Matrix.rows M - 1 - i) (Matrix.cols M - 1 - j)) ∧
    Matrix.flipX X = Ok M ∧ Matrix.flipY Y = Ok M ∧ Matrix.flipXY XY = Ok M.
Proof.
  intros Hwf. destruct (flip_twice M Hwf) as (TX & TY & TXY).
  destruct (flipX_cells M Hwf) as (X & HX & WX & DX & CX).
  destruct (flipY_cells M Hwf) as (Y & HY & WY & DY & CY).
  destruct (flipXY_cells M Hwf) as (XY & HXY & WXY & DXY & CXY).
  rewrite HX, bind_Ok in TX. rewrite HY, bind_Ok in TY. rewrite HXY, bind_Ok in TXY.
  exists X, Y, XY. split_and!; [done.. | | done | done | done].
  pose proof DX as (? & ? & ?). pose proof DY as (? & ? & ?). pose proof DXY as (? & ? & ?).
  intros i j Hi Hj. split_and!; apply get_cell_of_raw; try lia; auto.
Qed.

Lemma flip_spec_witness :
  ∃ X Y XY,
    Matrix.flipX gray_2x3 = Ok X ∧ Matrix.flipY gray_2x3 = Ok Y ∧
    Matrix.flipXY gray_2x3 = Ok XY ∧
    Matrix.get_cell X 0 0 = Matrix.get_cell gray_2x3 0 2 ∧
    Matrix.get_cell Y 0 0 = Matrix.get_cell gray_2x3 1 0 ∧
    Matrix.get_cell XY 0 0 = Matrix.get_cell gray_2x3 1 2 ∧
    Matrix.flipXY XY = Ok gray_2x3.
Proof.
  destruct (flip_spec gray_2x3)
    as (X & Y & XY & HX & HY & HXY & _ & _ & _ & Hc & _ & _ & Hback); [by_decide|].
  destruct (Hc 0 0) as (C1 & C2 & C3); [simpl; lia..|].
  exists X, Y, XY.
  exact (conj HX (conj HY (conj HXY (conj C1 (conj C2 (conj C3 Hback)))))).
Defined.

(** ** [intrude] *)

Lemma intrude_cells (M : Matrix.t) (n : Z) :
  wf M → 1 < Matrix.chls M → 1 ≤ n →
  ∃ M', Matrix.intrude M n = Ok M' ∧ grid M' ∧
        Matrix.rows M' = Matrix.rows M ∧ Matrix.cols M' = Matrix.cols M ∧
        Matrix.chls M' = n ∧
        ∀ i j c, 0 ≤ i < Matrix.rows M → 0 ≤ j < Matrix.cols M →
          Matrix.raw M i j = Some c → Matrix.raw M' i j = Some (intruded n c).
Proof.
  intros Hwf Hk Hn. unfold Matrix.intrude.
  replace (n <? 1) with false by lia. replace (Matrix.chls M =? 1) with false by lia.
  pose proof (wf_grid M Hwf) as Hg.
  set (F := λ p : Z * Z, match rd2 M p with
                         | Ok c => intruded n c
                         | Err _ => Matrix.Scalar 0
                         end).
  assert (∃ M1,
    (if 1 <? n
     then Matrix.apply M (λ i j M',
            c ← Matrix.get_cell M' i j;
            match c with
            | Matrix.Pixel p => Matrix.set_cell M' i j (Matrix.Pixel (take (Z.to_nat n) p))
            | Matrix.Scalar _ => Err TypeError
            end) M
     else Matrix.apply M (λ i j M',
            v ← Matrix.get M' i j 0; Matrix.set_cell M' i j (Matrix.Scalar v)) M) = Ok M1 ∧
    (grid M1 ∧ same_dims M1 M) ∧
    ∀ p, p ∈ idx2 (Matrix.rows M) (Matrix.cols M) → rd2 M1 p = Ok (F p))
    as (M1 & -> & [Hg1 (D1 & D2 & D3)] & Hval).
  { destruct (Z.ltb_spec 1 n) as [Hbig|Hone]; rewrite apply_flat.
    - destruct (forM_local rd2 (λ M', grid M' ∧ same_dims M' M)
                  (idx2 (Matrix.rows M) (Matrix.cols M)) F
                  (λ p M', c ← Matrix.get_cell M' p.1 p.2;
                     match c with
                     | Matrix.Pixel p0 =>
                         Matrix.set_cell M' p.1 p.2 (Matrix.Pixel (take (Z.to_nat n) p0))
                     | Matrix.Scalar _ => Err TypeError
                     end) M) as (M1 & Hrun & Hgood & Hval & _);
        [apply NoDup_idx2 | done | | by exists M1].
      intros [i j] s [Hi Hj]%elem_of_idx2 [Hs (E1 & E2 & E3)] Hsame _. cbn [fst snd].
      destruct (get_cell_wf M i j) as (c & Hc & Hok & _); [done..|].
      unfold rd2 in Hsame. cbn [fst snd] in Hsame. rewrite Hsame, Hc. cbn [mbind result_bind].
      destruct c as [v|p0]; simpl in Hok; [lia|].
      destruct (set_cell_grid s i j (Matrix.Pixel (take (Z.to_nat n) p0)))
        as (s1 & -> & [? ?] & Hget & Hfr); [done | lia.. |].
      exists s1. split_and!; [done | done | by eapply same_dims_trans | | done].
      rewrite Hget. unfold F, rd2. cbn [fst snd]. rewrite Hc. simpl.
      by replace (1 <? n) with true by lia.
    - destruct (forM_local rd2 (λ M', grid M' ∧ same_dims M' M)
                  (idx2 (Matrix.rows M) (Matrix.cols M)) F
                  (λ p M', v ← Matrix.get M' p.1 p.2 0;
                     Matrix.set_cell M' p.1 p.2 (Matrix.Scalar v)) M)
        as (M1 & Hrun & Hgood & Hval & _); [apply NoDup_idx2 | done | | by exists M1].
      intros [i j] s [Hi Hj]%elem_of_idx2 [Hs (E1 & E2 & E3)] Hsame _. cbn [fst snd].
      destruct (get_cell_wf M i j) as (c & Hc & Hok & _); [done..|].
      unfold rd2 in Hsame. cbn [fst snd] in Hsame. rewrite Hc in Hsame.
      destruct c as [v|p0]; simpl in Hok; [lia|]. destruct Hok as [_ Hlen].
      destruct (lookup_lt_is_Some_2 p0 0) as [v Hv]; [lia|].
      rewrite (get_via_cell s i j 0 (Matrix.Pixel p0)) by (done || lia).
      change (Z.to_nat 0) with 0%nat. rewrite Hv. cbn [mbind result_bind].
      destruct (set_cell_grid s i j (Matrix.Scalar v))
        as (s1 & -> & [? ?] & Hget & Hfr); [done | lia.. |].
      exists s1. split_and!; [done | done | by eapply same_dims_trans | | done].
      rewrite Hget. unfold F, rd2. cbn [fst snd]. rewrite Hc. simpl.
      replace (1 <? n) with false by lia. by rewrite Hv. }
  rewrite bind_Ok. eexists. split; [done|]. unfold Matrix.with_chls; simpl.
  split_and!; [by destruct Hg1 as (? & ? & ? & ?) | done..|].
  intros i j c Hi Hj Hc. specialize (Hval (i, j)).
  rewrite elem_of_idx2 in Hval. specialize (Hval (conj Hi Hj)).
  apply get_cell_Ok in Hval as [_ Hval]. simpl in Hval.
  unfold Matrix.raw in *. simpl. rewrite Hval. f_equal.
  unfold F, rd2; simpl. by rewrite (get_cell_raw M i j c).
Qed.

Lemma intruded_ok (n old : Z) (c : Matrix.cell) :
  1 < old → 1 ≤ n ≤ old → cell_ok old c → cell_ok n (intruded n c).
Proof.
  intros Ho Hn Hc. destruct c as [v|p]; simpl in *; [lia|]. destruct Hc as [_ Hlen].
  destruct (Z.ltb_spec 1 n).
  - simpl. split; [done|]. rewrite length_take. lia.
  - destruct (lookup_lt_is_Some_2 p 0) as [v ->]; [lia|]. simpl. lia.
Qed.

Lemma intruded_chan (n old k : Z) (c : Matrix.cell) :
  1 < old → 1 ≤ n → cell_ok old c → 0 ≤ k < n →
  cell_chan (intruded n c) k = cell_chan c k.
Proof.
  intros Ho Hn Hc Hk. unfold cell_chan. replace (k <? 0) with false by lia.
  destruct c as [v|p]; simpl in *; [done|]. destruct Hc as [_ Hlen].
  destruct (Z.ltb_spec 1 n).
  - apply lookup_take_lt. lia.
  - destruct (lookup_lt_is_Some_2 p 0) as [v Hv]; [lia|]. rewrite Hv.
    assert (k = 0) as -> by lia. done.
Qed.

Lemma intrude_run (M : Matrix.t) (n : Z) :
  wf M → 1 < Matrix.chls M → 1 ≤ n ≤ Matrix.chls M →
  ∃ M', Matrix.intrude M n = Ok M' ∧ wf M' ∧
        Matrix.rows M' = Matrix.rows M ∧ Matrix.cols M' = Matrix.cols M ∧
        Matrix.chls M' = n ∧
        ∀ i j k, 0 ≤ i < Matrix.rows M → 0 ≤ j < Matrix.cols M → 0 ≤ k < n →
          chan M' i j k = chan M i j k.
Proof.
  intros Hwf Hk Hn.
  destruct (intrude_cells M n) as (M' & Hrun & Hg & D1 & D2 & D3 & Hcells); [done | done | lia |].
  exists M'. split_and!; try done.
  - apply wf_intro; [done | lia |]. intros i j c Hi Hj Hc. rewrite D1, D2 in *.
    destruct (wf_raw M i j) as (c0 & Hc0 & Hok); [done..|].
    rewrite (Hcells i j c0) in Hc by done. injection Hc as <-. rewrite D3.
    by apply (intruded_ok n (Matrix.chls M)).
  - intros i j k Hi Hj Hk'. destruct (wf_raw M i j) as (c0 & Hc0 & Hok); [done..|].
    pose proof (Hcells i j c0 Hi Hj Hc0) as Hc'.
    rewrite (chan_raw M' i j k _ ltac:(lia) ltac:(lia) Hc'),
      (chan_raw M i j _ _ ltac:(lia) ltac:(lia) Hc0).
    apply (intruded_chan n (Matrix.chls M)); (done || lia).
Qed.

(** X8. [intrude(n)] on a matrix with more than one channel, for
    1 <= n <= chls: the matrix keeps its rows and columns, has [n] channels
    afterwards and every kept channel holds its old value.  A target below 1,
    or a receiver with a single channel, is rejected with RangeError.  A
    target above the current count is accepted: the channel count is raised
    to [n] while no pixel gains a value, so the result is not well formed
    and reading its last announced channel yields no number. *)
Theorem intrude_spec (M : Matrix.t) (n : Z) :
  wf M →
  (n < 1 ∨ Matrix.chls M = 1 → Matrix.intrude M n = Err RangeError) ∧
  (1 < Matrix.chls M → 1 ≤ n ≤ Matrix.chls M →
   ∃ M', Matrix.intrude M n = Ok M' ∧ wf M' ∧
         Matrix.rows M' = Matrix.rows M ∧ Matrix.cols M' = Matrix.cols M ∧
         Matrix.chls M' = n ∧
         ∀ i j k, 0 ≤ i < Matrix.rows M → 0 ≤ j < Matrix.cols M → 0 ≤ k < n →
           chan M' i j k = chan M i j k) ∧
  (1 < Matrix.chls M → Matrix.chls M < n → 1 ≤ Matrix.rows M → 1 ≤ Matrix.cols M →
   ∃ M', Matrix.intrude M n = Ok M' ∧ Matrix.chls M' = n ∧ ¬ wf M' ∧
         ∀ i j v, Matrix.get M' i j (n - 1) ≠ Ok v).
Proof.
  intros Hwf. split_and!.
  - intros H. unfold Matrix.intrude. destruct (Z.ltb_spec n 1); [done|].
    by replace (Matrix.chls M =? 1) with true by lia.
  - by apply intrude_run.
  - intros Hk Hn Hr Hc.
    destruct (intrude_cells M n) as (M' & Hrun & Hg & D1 & D2 & D3 & Hcells);
      [done | done | lia |].
    assert (∀ i j, 0 ≤ i < Matrix.rows M → 0 ≤ j < Matrix.cols M →
              ∃ p, Matrix.raw M' i j = Some (Matrix.Pixel p) ∧
                   length p = Z.to_nat (Matrix.chls M)) as Hshort.
    { intros i j Hi Hj. destruct (wf_raw M i j) as (c0 & Hc0 & Hok); [done..|].
      rewrite (Hcells i j c0) by done. destruct c0 as [v|p]; simpl in Hok; [lia|].
      simpl. replace (1 <? n) with true by lia. eexists. split; [done|].
      rewrite length_take. lia. }
    exists M'. split_and!; [done | done | |].
    + intros W. destruct (wf_raw M' 0 0) as (c & Hc' & Hok); [done | lia.. |].
      destruct (Hshort 0 0) as (p & Hp & Hlen); [lia..|].
      rewrite Hp in Hc'. injection Hc' as <-. simpl in Hok. lia.
    + intros i j v Hget. unfold Matrix.get in Hget.
      destruct (Matrix.oob3 M' i j (n - 1)) eqn:Hoob; [done|].
      apply oob3_false in Hoob as (Hi & Hj & _).
      destruct (Hshort i j) as (p & Hp & Hlen); [lia..|]. rewrite Hp in Hget.
      rewrite lookup_ge_None_2 in Hget by lia. done.
Qed.

Lemma intrude_spec_witness :
  (∃ M', Matrix.intrude rgba_a 3 = Ok M' ∧ wf M' ∧ Matrix.chls M' = 3 ∧
         chan M' 0 1 2 = chan rgba_a 0 1 2) ∧
  (∃ M', Matrix.intrude rgba_a 6 = Ok M' ∧ Matrix.chls M' = 6 ∧ ¬ wf M').
Proof.
  destruct (intrude_spec rgba_a 3) as (_ & H & _); [by_decide|].
  destruct H as (M' & Hrun & W & _ & _ & K & Hch); [simpl; lia..|].
  destruct (intrude_spec rgba_a 6) as (_ & _ & H); [by_decide|].
  destruct H as (M2 & Hrun2 & K2 & W2 & _); [simpl; lia..|].
  split.
  - exists M'.
    exact (conj Hrun (conj W (conj K
             (Hch 0 1 2 ltac:(simpl; lia) ltac:(simpl; lia) ltac:(lia))))).
  - exists M2. exact (conj Hrun2 (conj K2 W2)).
Defined.

(** X9. [intrude] undoes [extrude]: extruding a matrix to [n] channels and
    intruding it back to its former channel count gives the matrix back,
    for a single-channel receiver as well. *)
Theorem extrude_then_intrude (M : Matrix.t) (n : Z) :
  wf M → 1 < n → Matrix.chls M ≤ n →
  (Matrix.extrude M n ≫= λ M', Matrix.intrude M' (Matrix.chls M)) = Ok M.
Proof.
  intros Hwf Hn Hle. pose proof Hwf as (Hk & _).
  destruct (extrude_ok M n) as (M1 & -> & W1 & R1 & C1 & K1 & H1); [done..|].
  rewrite bind_Ok.
  destruct (intrude_run M1 (Matrix.chls M)) as (M2 & -> & W2 & R2 & C2 & K2 & H2);
    [done | lia.. |].
  f_equal. apply matrix_ext_chan; [done | done | unfold same_dims; lia |].
  intros i j k Hi Hj Hk'. rewrite H2 by lia.
  destruct (H1 i j) as [Hold _]; [lia..|]. apply Hold. lia.
Qed.

Lemma extrude_then_intrude_witness :
  (Matrix.extrude gray_2x3 4 ≫= λ M', Matrix.intrude M' (Matrix.chls gray_2x3)) = Ok gray_2x3 ∧
  (Matrix.extrude rgb_one 5 ≫= λ M', Matrix.intrude M' (Matrix.chls rgb_one)) = Ok rgb_one.
Proof.
  split.
  - apply (extrude_then_intrude gray_2x3 4); [by_decide | lia | simpl; lia].
  - apply (extrude_then_intrude rgb_one 5); [by_decide | lia | simpl; lia].
Defined.

(** ** Arithmetic with a number: [add], [sub], [mul], [div] *)

Lemma update_is_set (f : Qc → Qc) (M : Matrix.t) (i j k : Z) :
  wf M → 1 < Matrix.chls M →
  0 ≤ i < Matrix.rows M → 0 ≤ j < Matrix.cols M → 0 ≤ k < Matrix.chls M →
  Matrix.update f i j (Some k) M = (x ← Matrix.get M i j k; Matrix.set M i j (f x) k).
Proof.
  intros Hwf Hc Hi Hj Hk. destruct (wf_raw M i j) as (c & Hraw & Hok); [done..|].
  unfold Matrix.update, Matrix.get, Matrix.set.
  rewrite (proj2 (oob3_false M i j k)) by done. rewrite Hraw.
  destruct c as [v|p]; simpl in Hok; [lia|]. destruct Hok as [_ Hlen].
  destruct (lookup_lt_is_Some_2 p (Z.to_nat k)) as [x ->]; [lia|].
  cbn [mbind result_bind]. by rewrite decide_True by lia.
Qed.

(** The traversal shared by the four operators: every channel value [x]
    becomes [f x]. *)
Lemma update_all (f : Qc → Qc) (M : Matrix.t) :
  wf M →
  ∃ M', Matrix.applyAll M (Matrix.update f) M = Ok M' ∧ wf M' ∧ same_dims M' M ∧
        ∀ i j k, 0 ≤ i < Matrix.rows M → 0 ≤ j < Matrix.cols M → 0 ≤ k < Matrix.chls M →
          chan M' i j k = f <$> chan M i j k.
Proof.
  intros Hwf. pose proof Hwf as (Hk & _).
  destruct (decide (1 < Matrix.chls M)) as [Hm|Hm].
  - rewrite applyAll_flat by done.
    destruct (assign_loop M (idx3 (Matrix.rows M) (Matrix.cols M) (Matrix.chls M))
                (λ p A', x ← rd3 A' p; Ok (f x)) (λ p, f (getd M p)))
      as (M' & Hrun & [W D] & Hval & _).
    + done.
    + done.
    + apply NoDup_idx3.
    + by intros i j k ?%elem_of_idx3.
    + intros [[i j] k] A' (? & ? & ?)%elem_of_idx3 _ _ -> _. by rewrite rd3_wf.
    + exists M'. split_and!; [| done | done |].
      * rewrite <-Hrun.
        assert (∀ l, Forall (λ p : Z * Z * Z,
                    0 ≤ p.1.1 < Matrix.rows M ∧ 0 ≤ p.1.2 < Matrix.cols M ∧
                    0 ≤ p.2 < Matrix.chls M) l →
                  ∀ s, wf s → same_dims s M →
                  forM l (λ p, Matrix.update f p.1.1 p.1.2 (Some p.2)) s =
                  forM l (λ p A', v ← (x ← rd3 A' p; Ok (f x));
                            Matrix.set A' p.1.1 p.1.2 v p.2) s) as Hgen.
        { induction l as [|[[i j] k] l IH]; intros Hl s Hs (E1 & E2 & E3); [done|].
          apply Forall_cons in Hl as [(Hi & Hj & Hk') Hl]. cbn [fst snd] in *.
          cbn [forM fst snd]. rewrite update_is_set by (done || lia).
          unfold rd3. cbn [fst snd].
          destruct (get_wf s i j k) as (x & -> & _); [done | lia.. |].
          cbn [mbind result_bind].
          destruct (set_spec s i j k (f x)) as (s1 & -> & W1 & D1 & _); [done | lia.. |].
          cbn [mbind result_bind]. apply IH; [done | done |].
          by eapply same_dims_trans. }
        apply Hgen; [|done|done]. apply Forall_forall. by intros [[i j] k] ?%elem_of_idx3.
      * intros i j k Hi Hj Hk'. rewrite (rd3_chan M' i j k (f (getd M (i, j, k)))).
        -- destruct (get_wf M i j k) as (x & Hx & ->); [done..|].
           simpl. f_equal. f_equal. unfold getd, rd3. cbn [fst snd]. by rewrite Hx.
        -- apply Hval, elem_of_idx3. done.
  - rewrite applyAll_flat1 by lia.
    set (F := λ p : Z * Z, match rd2 M p with
                           | Ok (Matrix.Scalar x) => Matrix.Scalar (f x)
                           | _ => Matrix.Scalar 0
                           end).
    destruct (map_cells_loop M (idx2 (Matrix.rows M) (Matrix.cols M))
      (λ p M', Matrix.update f p.1 p.2 None M') F) as (M' & Hrun & [Hg Hd] & Hval & _).
    + by apply wf_grid.
    + apply NoDup_idx2.
    + by intros i j ?%elem_of_idx2.
    + intros [i j] M' [Hi Hj]%elem_of_idx2 Hg' Hd' Hsame. cbn [fst snd].
      destruct (get_cell_wf M i j) as (c & Hc' & Hok & _); [done..|].
      unfold rd2 in Hsame; cbn [fst snd] in Hsame. rewrite Hc' in Hsame.
      apply get_cell_Ok in Hsame as [_ Hraw]. unfold Matrix.update. rewrite Hraw.
      unfold F, rd2; cbn [fst snd]. rewrite Hc'.
      destruct c; simpl in Hok; [done | lia].
    + pose proof Hd as (D1 & D2 & D3).
      assert (∀ i j, 0 ≤ i < Matrix.rows M → 0 ≤ j < Matrix.cols M →
                ∃ x, Matrix.raw M i j = Some (Matrix.Scalar x) ∧
                     Matrix.raw M' i j = Some (Matrix.Scalar (f x))) as Hcells.
      { intros i j Hi Hj. destruct (get_cell_wf M i j) as (c & Hc' & Hok & Hraw); [done..|].
        destruct c as [x|p]; simpl in Hok; [|lia]. exists x. split; [done|].
        specialize (Hval (i, j)). rewrite elem_of_idx2 in Hval.
        specialize (Hval (conj Hi Hj)). apply get_cell_Ok in Hval as [_ Hval].
        cbn [fst snd] in Hval. rewrite Hval. unfold F, rd2. cbn [fst snd]. by rewrite Hc'. }
      exists M'. split_and!; [done | | done |].
      * apply wf_intro; [done | lia |]. intros i j c Hi Hj Hc.
        destruct (Hcells i j) as (x & _ & Hx); [lia..|]. rewrite Hx in Hc.
        injection Hc as <-. simpl. lia.
      * intros i j k Hi Hj Hk'. destruct (Hcells i j) as (x & Hx & Hx'); [done..|].
        rewrite (chan_raw M' i j k _ ltac:(lia) ltac:(lia) Hx'),
          (chan_raw M i j k _ ltac:(lia) ltac:(lia) Hx).
        unfold cell_chan. replace (k <? 0) with false by lia.
        by replace (k =? 0) with true by lia.
Qed.

Lemma div_is_update (M : Matrix.t) (v : Qc) :
  v ≠ 0%Qc → Matrix.div M v = Matrix.applyAll M (Matrix.update (λ x, x / v)%Qc) M.
Proof.
  intros Hv. unfold Matrix.div, Qc_eqb. by rewrite bool_decide_eq_false_2.
Qed.

(** X10. [add(v)], [sub(v)], [mul(v)] and [div(v)] apply the operation to
    every channel of every cell, the alpha channel included, of single- and
    multi-channel matrices alike, and keep the shape; [div(0)] throws
    RangeError. *)
Theorem scalar_arithmetic_spec (M : Matrix.t) (v : Qc) :
  wf M →
  (∃ A S P,
     Matrix.add M v = Ok A ∧ Matrix.sub M v = Ok S ∧ Matrix.mul M v = Ok P ∧
     (wf A ∧ same_dims A M) ∧ (wf S ∧ same_dims S M) ∧ (wf P ∧ same_dims P M) ∧
     ∀ i j k, 0 ≤ i < Matrix.rows M → 0 ≤ j < Matrix.cols M → 0 ≤ k < Matrix.chls M →
       chan A i j k = (λ x, x + v)%Qc <$> chan M i j k ∧
       chan S i j k = (λ x, x - v)%Qc <$> chan M i j k ∧
       chan P i j k = (λ x, x * v)%Qc <$> chan M i j k) ∧
  (v ≠ 0%Qc →
   ∃ D, Matrix.div M v = Ok D ∧ wf D ∧ same_dims D M ∧
     ∀ i j k, 0 ≤ i < Matrix.rows M → 0 ≤ j < Matrix.cols M → 0 ≤ k < Matrix.chls M →
       chan D i j k = (λ x, x / v)%Qc <$> chan M i j k) ∧
  Matrix.div M 0 = Err RangeError.
Proof.
  intros Hwf. split_and!.
  - destruct (update_all (λ x, x + v)%Qc M Hwf) as (A & HA & WA & DA & CA).
    destruct (update_all (λ x, x - v)%Qc M Hwf) as (S & HS & WS & DS & CS).
    destruct (update_all (λ x, x * v)%Qc M Hwf) as (P & HP & WP & DP & CP).
    exists A, S, P. split_and!; [done..|]. intros i j k Hi Hj Hk. split_and!; auto.
  - intros Hv. rewrite div_is_update by done.
    destruct (update_all (λ x, x / v)%Qc M Hwf) as (D & HD & WD & DD & CD).
    exists D. done.
  - unfold Matrix.div, Qc_eqb. by rewrite bool_decide_eq_true_2.
Qed.

Lemma scalar_arithmetic_spec_witness :
  ∃ A D,
    Matrix.add rgba_a (q 1 4) = Ok A ∧ Matrix.div rgba_a (q 1 4) = Ok D ∧
    chan A 0 1 3 = (λ x, x + q 1 4)%Qc <$> chan rgba_a 0 1 3 ∧
    chan D 0 1 3 = (λ x, x / q 1 4)%Qc <$> chan rgba_a 0 1 3 ∧
    Matrix.div rgba_a 0 = Err RangeError.
Proof.
  destruct (scalar_arithmetic_spec rgba_a (q 1 4)) as (H1 & H2 & H3); [by_decide|].
  destruct H1 as (A & S & P & HA & _ & _ & _ & _ & _ & Hc).
  destruct H2 as (D & HD & _ & _ & Hd); [by_decide|].
  destruct (Hc 0 1 3) as (CA & _ & _); [simpl; lia..|].
  exists A, D.
  exact (conj HA (conj HD (conj CA
           (conj (Hd 0 1 3 ltac:(simpl; lia) ltac:(simpl; lia) ltac:(simpl; lia)) H3)))).
Defined.

(** ** Arithmetic with a matrix: [madd], [msub], [mavg] *)


Lemma size_differs_true (M B : Matrix.t) :
  Matrix.rows M ≠ Matrix.rows B ∨ Matrix.cols M ≠ Matrix.cols B ∨
  Matrix.chls M ≠ Matrix.chls B →
  Matrix.size_differs M B = true.
Proof.
  intros H. unfold Matrix.size_differs. rewrite !orb_true_iff, !negb_true_iff, !Z.eqb_neq.
  tauto.
Qed.

Lemma getd_chan (M : Matrix.t) (i j k : Z) :
  wf M → 1 < Matrix.chls M →
  0 ≤ i < Matrix.rows M → 0 ≤ j < Matrix.cols M → 0 ≤ k < Matrix.chls M →
  chan M i j k = Some (getd M (i, j, k)).
Proof.
  intros. destruct (get_wf M i j k) as (v & Hv & ->); [done..|].
  unfold getd, rd3. cbn [fst snd]. by rewrite Hv.
Qed.

Lemma entry_chan (M : Matrix.t) (i j : Z) :
  wf M → Matrix.chls M = 1 → 0 ≤ i < Matrix.rows M → 0 ≤ j < Matrix.cols M →
  chan M i j 0 = Some (entry M i j).
Proof.
  intros Hwf Hc Hi Hj. by rewrite (chan_scalar M i j _ (scalar_entry M i j Hwf Hc Hi Hj)).
Qed.







(** X12. Operands of different sizes: [madd], [msub] and [mavg] mean to throw
    an Error whose message is built with [getSize()], and so does [mmul]
    for single-channel operands whose inner dimensions differ; [getSize]
    reads an undeclared variable, and the caller sees its ReferenceError
    instead. *)
Theorem size_mismatch_raises_ReferenceError (M B : Matrix.t) (n : Z) :
  (Matrix.rows M ≠ Matrix.rows B ∨ Matrix.cols M ≠ Matrix.cols B ∨
   Matrix.chls M ≠ Matrix.chls B →
   Matrix.madd M B n = Err ReferenceError ∧ Matrix.msub M B n = Err ReferenceError ∧
   Matrix.mavg M B = Err ReferenceError) ∧
  (Matrix.chls M ≤ 1 → Matrix.chls B ≤ 1 → Matrix.cols M ≠ Matrix.rows B →
   Matrix.mmul M B = Err ReferenceError).
Proof.
  split.
  - intros H. unfold Matrix.madd, Matrix.msub, Matrix.mavg.
    by rewrite size_differs_true.
  - intros HM HB H. unfold Matrix.mmul.
    replace ((1 <? Matrix.chls M) || (1 <? Matrix.chls B)) with false by lia.
    by replace (Matrix.cols M =? Matrix.rows B) with false by lia.
Qed.

Lemma size_mismatch_raises_ReferenceError_witness :
  Matrix.madd rgba_a rgb_one 1 = Err ReferenceError ∧
  Matrix.msub rgba_a rgb_one 1 = Err ReferenceError ∧
  Matrix.mavg rgba_a rgb_one = Err ReferenceError ∧
  Matrix.mmul gray_2x3 gray_2x3 = Err ReferenceError.
Proof.
  destruct (size_mismatch_raises_ReferenceError rgba_a rgb_one 1) as [H _].
  destruct (size_mismatch_raises_ReferenceError gray_2x3 gray_2x3 1) as [_ H'].
  destruct H as (H1 & H2 & H3); [right; left; simpl; lia|].
  exact (conj H1 (conj H2 (conj H3 (H' ltac:(simpl; lia) ltac:(simpl; lia) ltac:(simpl; lia))))).
Defined.

(** ** [identity] and [mmul] *)

Lemma identity_run (n : Z) :
  1 ≤ n →
  ∃ I, Matrix.identity n = Ok I ∧ wf I ∧
       Matrix.rows I = n ∧ Matrix.cols I = n ∧ Matrix.chls I = 1 ∧
       ∀ i j, 0 ≤ i < n → 0 ≤ j < n →
         Matrix.get_cell I i j = Ok (Matrix.Scalar (if i =? j then 1 else 0)%Qc).
Proof.
  intros Hn. unfold Matrix.identity.
  destruct (generate_positive n n 1 0) as (M0 & Hgen & W0 & R0 & C0 & K0 & Hraw); [lia..|].
  replace (Z2Qc 1) with 1%Qc in Hgen by (symmetry; apply Z2Qc_inj_1). rewrite Hgen, bind_Ok.
  set (g := λ i : Z, (i, i)).
  assert (Inj (=) (=) g) as Hinj by (by intros ?? [= ->]).
  destruct (forM_local rd2 (λ s, wf s ∧ same_dims s M0) (g <$> range n)
              (λ _, Matrix.Scalar 1)
              (λ p s, Matrix.set_cell s p.1 p.2 (Matrix.Scalar 1)) M0)
    as (I & Hrun & [W (D1 & D2 & D3)] & Hval & Hfr).
  - apply NoDup_fmap_2; [done | apply NoDup_range].
  - done.
  - intros [a b] s (i & [= -> ->] & Hi%elem_of_range)%list_elem_of_fmap
      [Hs (E1 & E2 & E3)] _ _. cbn [fst snd].
    destruct (set_cell_spec s i i (Matrix.Scalar 1)) as (s1 & -> & ? & ? & ? & ?);
      [done | lia.. | simpl; lia |].
    exists s1. split_and!; try done. by eapply same_dims_trans.
  - exists I. split_and!; [| done | lia.. |].
    + rewrite <-Hrun, forM_fmap. done.
    + intros i j Hi Hj. destruct (Z.eqb_spec i j) as [->|Hne].
      * apply (Hval (j, j)), list_elem_of_fmap. exists j. split; [done|].
        by apply elem_of_range.
      * specialize (Hfr (i, j)). unfold rd2 in Hfr. cbn [fst snd] in Hfr. rewrite Hfr.
        -- apply get_cell_raw; [lia.. |]. rewrite Hraw by lia. done.
        -- intros (x & [= -> ->] & _)%list_elem_of_fmap. done.
Qed.

(** X13. [identity(n)] for n >= 1 builds the n by n single-channel matrix
    with ones on the diagonal and zeros elsewhere; [identity(0)] throws
    TypeError and a negative size RangeError. *)
Theorem identity_spec (n : Z) :
  (1 ≤ n →
   ∃ I, Matrix.identity n = Ok I ∧ wf I ∧
        Matrix.rows I = n ∧ Matrix.cols I = n ∧ Matrix.chls I = 1 ∧
        ∀ i j, 0 ≤ i < n → 0 ≤ j < n →
          Matrix.get_cell I i j = Ok (Matrix.Scalar (if i =? j then 1 else 0)%Qc)) ∧
  (n = 0 → Matrix.identity n = Err TypeError) ∧
  (n < 0 → Matrix.identity n = Err RangeError).
Proof.
  split_and!.
  - apply identity_run.
  - intros ->. reflexivity.
  - intros Hn. unfold Matrix.identity. replace 1%Qc with (Z2Qc 1) by apply Z2Qc_inj_1. rewrite generate_Z.
    replace ((n =? 0) || (n =? 0) || (1 =? 0)) with false by lia.
    by replace (n <? 0) with true by lia.
Qed.

Lemma identity_spec_witness :
  (∃ I, Matrix.identity 3 = Ok I ∧ wf I ∧
        Matrix.get_cell I 1 1 = Ok (Matrix.Scalar 1) ∧
        Matrix.get_cell I 1 2 = Ok (Matrix.Scalar 0)) ∧
  Matrix.identity (-2) = Err RangeError.
Proof.
  destruct (identity_spec 3) as (H & _ & _).
  destruct H as (I & Hrun & W & _ & _ & _ & Hc); [lia|].
  destruct (identity_spec (-2)) as (_ & _ & H').
  split; [|apply H'; lia].
  exists I. exact (conj Hrun (conj W (conj (Hc 1 1 ltac:(lia) ltac:(lia))
                     (Hc 1 2 ltac:(lia) ltac:(lia))))).
Defined.

(** X14. [mmul] on square single-channel operands of the same size n
    succeeds, keeps the shape and leaves in cell (i, j) of the receiver the
    sum over k of [this[k][j] * B[i][k]]: the entries of the product of [B]
    by the receiver, not of the receiver by [B]. *)
Theorem mmul_computes_B_times_A (M B : Matrix.t) (n : Z) :
  wf M → wf B → Matrix.chls M = 1 → Matrix.chls B = 1 → 1 ≤ n →
  Matrix.rows M = n → Matrix.cols M = n → Matrix.rows B = n → Matrix.cols B = n →
  ∃ M', Matrix.mmul M B = Ok M' ∧ wf M' ∧ same_dims M' M ∧
        ∀ i j, 0 ≤ i < n → 0 ≤ j < n →
          Matrix.get_cell M' i j
            = Ok (Matrix.Scalar
                    (foldl (λ s k, s + entry M k j * entry B i k)%Qc 0%Qc (range n))).
Proof. apply mmul_square. Qed.

Lemma mmul_computes_B_times_A_witness :
  ∃ M', Matrix.mmul square_a square_b = Ok M' ∧
        Matrix.get_cell M' 0 1
          = Ok (Matrix.Scalar
                  (foldl (λ s k, s + entry square_a k 1 * entry square_b 0 k)%Qc
                     0%Qc (range 2))) ∧
        view M' = ([[[3%Q]; [4%Q]]; [[26%Q]; [38%Q]]], (2, 2, 1)).
Proof.
  destruct (mmul_computes_B_times_A square_a square_b 2) as (M' & Hrun & _ & _ & Hc);
    [by_decide | by_decide | reflexivity | reflexivity | lia | reflexivity.. |].
  exists M'. refine (conj Hrun (conj (Hc 0 1 ltac:(lia) ltac:(lia)) _)).
  vm_compute in Hrun. injection Hrun as <-. reflexivity.
Defined.

Lemma sum_delta (f : Z → Qc) (i : Z) (l : list Z) (s0 : Qc) :
  NoDup l →
  foldl (λ s k, s + f k * (if i =? k then 1 else 0))%Qc s0 l
    = (s0 + if bool_decide (i ∈ l) then f i else 0)%Qc.
Proof.
  intros Hl. revert s0. induction Hl as [|k l Hk Hl IH]; intros s0; cbn [foldl].
  - rewrite bool_decide_eq_false_2 by apply not_elem_of_nil. ring.
  - rewrite IH. destruct (Z.eqb_spec i k) as [->|Hne].
    + rewrite (bool_decide_eq_false_2 (k ∈ l)) by done.
      rewrite (bool_decide_eq_true_2 (k ∈ k :: l)) by left. ring.
    + rewrite (bool_decide_ext (i ∈ k :: l) (i ∈ l)).
      * ring.
      * rewrite elem_of_cons. split; [by intros [?|?] | by right].
Qed.

Lemma sum_delta_l (f : Z → Qc) (j : Z) (l : list Z) (s0 : Qc) :
  NoDup l →
  foldl (λ s k, s + (if k =? j then 1 else 0) * f k)%Qc s0 l
    = (s0 + if bool_decide (j ∈ l) then f j else 0)%Qc.
Proof.
  intros Hl. revert s0. induction Hl as [|k l Hk Hl IH]; intros s0; cbn [foldl].
  - rewrite bool_decide_eq_false_2 by apply not_elem_of_nil. ring.
  - rewrite IH. destruct (Z.eqb_spec k j) as [->|Hne].
    + rewrite (bool_decide_eq_false_2 (j ∈ l)) by done.
      rewrite (bool_decide_eq_true_2 (j ∈ j :: l)) by left. ring.
    + rewrite (bool_decide_ext (j ∈ k :: l) (j ∈ l)).
      * ring.
      * rewrite elem_of_cons. split; [by intros [?|?] | by right].
Qed.

Lemma entry_Scalar (M : Matrix.t) (i j : Z) (v : Qc) :
  Matrix.get_cell M i j = Ok (Matrix.Scalar v) → entry M i j = v.
Proof. unfold entry. by intros ->. Qed.

Lemma foldl_ext_in {A B} (f g : A → B → A) (l : list B) (a : A) :
  (∀ a x, x ∈ l → f a x = g a x) → foldl f a l = foldl g a l.
Proof.
  revert a. induction l as [|x l IH]; intros a H; simpl; [done|].
  rewrite (H a x) by left. apply IH. intros. apply H. by right.
Qed.

(** X15. The identity matrix is neutral for [mmul] on either side: a square
    single-channel matrix of finite doubles (no infinity, no NaN)
    multiplied by [identity(n)] is left unchanged, and
    [identity(n)] multiplied by it becomes that matrix.  Finite numbers are
    needed: the products with the zeros of the identity cancel a finite
    entry only. *)
Theorem mmul_identity (M : Matrix.t) (n : Z) :
  wf M → doubles M →
  Matrix.chls M = 1 → 1 ≤ n → Matrix.rows M = n → Matrix.cols M = n →
  (Matrix.identity n ≫= λ I, Matrix.mmul M I) = Ok M ∧
  (Matrix.identity n ≫= λ I, Matrix.mmul I M) = Ok M.
Proof.
  intros HM _ CM Hn RM KM.
  destruct (identity_run n Hn) as (I & -> & WI & RI & CI & KI & HI). rewrite !bind_Ok.
  assert (∀ i j, 0 ≤ i < n → 0 ≤ j < n → entry I i j = (if i =? j then 1 else 0)%Qc) as EI.
  { intros i j Hi Hj. apply entry_Scalar. by apply HI. }
  split.
  - destruct (mmul_square M I n) as (M' & -> & W' & D' & H'); [done..|].
    f_equal. apply matrix_ext; [by apply wf_grid.. | done |].
    pose proof D' as (D1 & D2 & D3).
    intros i j Hi Hj. specialize (H' i j ltac:(lia) ltac:(lia)).
    apply get_cell_Ok in H' as [_ ->].
    destruct (get_cell_wf M i j) as (c & Hc & _ & ->); [done | lia.. |]. f_equal.
    rewrite (scalar_entry M i j) in Hc by (done || lia). injection Hc as <-. f_equal.
    unfold mmul_entry.
    rewrite (foldl_ext_in _ (λ s k, s + entry M k j * (if i =? k then 1 else 0))%Qc).
    + rewrite sum_delta by apply NoDup_range.
      rewrite bool_decide_eq_true_2 by (apply elem_of_range; lia). ring.
    + intros a k Hk%elem_of_range. rewrite EI by lia. done.
  - destruct (mmul_square I M n) as (M' & -> & W' & D' & H'); [done..|].
    f_equal. apply matrix_ext; [by apply wf_grid.. | unfold same_dims in *; lia |].
    pose proof D' as (D1 & D2 & D3).
    intros i j Hi Hj. specialize (H' i j ltac:(lia) ltac:(lia)).
    apply get_cell_Ok in H' as [_ ->].
    destruct (get_cell_wf M i j) as (c & Hc & _ & ->); [done | lia.. |]. f_equal.
    rewrite (scalar_entry M i j) in Hc by (done || lia). injection Hc as <-. f_equal.
    unfold mmul_entry.
    rewrite (foldl_ext_in _ (λ s k, s + (if k =? j then 1 else 0) * entry M i k)%Qc).
    + rewrite sum_delta_l by apply NoDup_range.
      rewrite bool_decide_eq_true_2 by (apply elem_of_range; lia). ring.
    + intros a k Hk%elem_of_range. rewrite EI by lia. done.
Qed.

Lemma mmul_identity_witness :
  (Matrix.identity 2 ≫= λ I, Matrix.mmul square_a I) = Ok square_a ∧
  (Matrix.identity 2 ≫= λ I, Matrix.mmul I square_a) = Ok square_a.
Proof.
  apply (mmul_identity square_a 2);
    [by_decide | by_decide | reflexivity | lia | reflexivity..].
Defined.

(** The accumulation loops of [mmul] on a product buffer of [c] by [c]
    cells: each round succeeds when its row index is inside the buffer and
    inside [B], and its inner index inside the receiver, and throws
    RangeError otherwise. *)
Lemma mmul_round (M B s : Matrix.t) (c i j k : Z) :
  wf M → wf B → wf s → Matrix.chls M = 1 → Matrix.chls B = 1 → Matrix.chls s = 1 →
  Matrix.cols M = c → Matrix.rows B = c → Matrix.rows s = c → Matrix.cols s = c →
  0 ≤ i → 0 ≤ j < c → 0 ≤ k < Matrix.cols B →
  (¬ (c ≤ i ∨ Matrix.rows M ≤ k) ∧
   ∃ s', (a ← Matrix.get_cell M k j ≫= Matrix.num_of_cell;
          b ← Matrix.get_cell B i k ≫= Matrix.num_of_cell;
          Matrix.accum s i j (a * b)%Qc None) = Ok s' ∧ wf s' ∧ same_dims s' s) ∨
  ((c ≤ i ∨ Matrix.rows M ≤ k) ∧
   (a ← Matrix.get_cell M k j ≫= Matrix.num_of_cell;
    b ← Matrix.get_cell B i k ≫= Matrix.num_of_cell;
    Matrix.accum s i j (a * b)%Qc None) = Err RangeError).
Proof.
  intros HM HB Hs CM CB Cs KM RB Rs Ks Hi Hj Hk.
  destruct (decide (Matrix.rows M ≤ k)) as [Hbig|Hin].
  { right. split; [by right|]. unfold Matrix.get_cell.
    by rewrite (oob2_true M k j) by lia. }
  rewrite (scalar_entry M k j) by (done || lia). cbn [mbind result_bind Matrix.num_of_cell].
  destruct (decide (c ≤ i)) as [Hbig|Hin'].
  { right. split; [by left|]. unfold Matrix.get_cell.
    by rewrite (oob2_true B i k) by lia. }
  left. split; [lia|].
  rewrite (scalar_entry B i k) by (done || lia). cbn [mbind result_bind Matrix.num_of_cell].
  rewrite accum_cell, (scalar_entry s i j) by (done || lia).
  cbn [mbind result_bind Matrix.num_of_cell].
  destruct (set_cell_spec s i j (Matrix.Scalar (entry s i j + entry M k j * entry B i k)%Qc))
    as (s1 & -> & W1 & D1 & _); [done | lia.. | simpl; lia |].
  exists s1. done.
Qed.

(** X16. [mmul] completes only on a square receiver.  For non-empty
    single-channel operands whose inner dimensions agree, a receiver with
    more rows than columns, or with fewer rows than [B] has columns, makes
    the accumulation read outside a matrix (RangeError); otherwise a
    receiver with fewer rows than columns fails when the product buffer is
    copied back into it (the TypeError of the two-argument [set]). *)
Theorem mmul_needs_a_square_receiver (M B : Matrix.t) :
  wf M → wf B → Matrix.chls M = 1 → Matrix.chls B = 1 →
  Matrix.cols M = Matrix.rows B →
  1 ≤ Matrix.rows M → 1 ≤ Matrix.cols M → 1 ≤ Matrix.cols B →
  Matrix.rows M ≠ Matrix.cols M →
  Matrix.mmul M B
    = Err (if (Matrix.cols M <? Matrix.rows M) || (Matrix.rows M <? Matrix.cols B)
           then RangeError else TypeError).
Proof.
  intros HM HB CM CB Hin Hr Hc Hcb Hns. unfold Matrix.mmul.
  replace ((1 <? Matrix.chls M) || (1 <? Matrix.chls B)) with false by lia.
  replace (Matrix.cols M =? Matrix.rows B) with true by lia. cbn [negb].
  rewrite <-Hin. set (c := Matrix.cols M) in *. unfold Matrix.new.
  destruct (generate_positive c c 1 0) as (p0 & -> & W0 & R0 & C0 & K0 & _); [lia..|].
  rewrite bind_Ok, nest3_flat.
  destruct ((c <? Matrix.rows M) || (Matrix.rows M <? Matrix.cols B)) eqn:Hcase.
  - rewrite (forM_fails (λ s, wf s ∧ same_dims s p0)
               (λ p : Z * Z * Z, c ≤ p.1.1 ∨ Matrix.rows M ≤ p.2) RangeError); [done | done | |].
    + intros [[i j] k] s (Hi & Hj & Hk)%elem_of_idx3 [Ws (E1 & E2 & E3)]. cbn [fst snd].
      destruct (mmul_round M B s c i j k) as [[Hg (s' & Hrun & W' & D')]|[Hb Hrun]];
        [done | done | done | done | done | lia | done | lia | lia | lia | lia | lia | lia | |].
      * left. split; [done|]. exists s'. split_and!; [done | done |].
        by eapply same_dims_trans.
      * right. done.
    + apply orb_true_iff in Hcase as [Hlt|Hlt].
      * exists (c, 0, 0). split; [apply elem_of_idx3; lia | left; simpl; lia].
      * exists (0, 0, Matrix.rows M). split; [apply elem_of_idx3; lia | right; simpl; lia].
  - apply orb_false_iff in Hcase as [H1 H2].
    destruct (forM_inv (λ s, wf s ∧ same_dims s p0)
                (idx3 (Matrix.rows M) c (Matrix.cols B))
                (λ p prod,
                   a ← Matrix.get_cell M p.2 p.1.2 ≫= Matrix.num_of_cell;
                   b ← Matrix.get_cell B p.1.1 p.2 ≫= Matrix.num_of_cell;
                   Matrix.accum prod p.1.1 p.1.2 (a * b)%Qc None) p0)
      as (p1 & -> & W1 & (D1 & D2 & D3)); [done | |].
    + intros [[i j] k] s (Hi & Hj & Hk)%elem_of_idx3 [Ws (E1 & E2 & E3)]. cbn [fst snd].
      destruct (mmul_round M B s c i j k) as [[Hg (s' & Hrun & W' & D')]|[Hb Hrun]];
        [done | done | done | done | done | lia | done | lia | lia | lia | lia | lia | lia | |].
      * exists s'. split_and!; [done | done |]. by eapply same_dims_trans.
      * lia.
    + rewrite bind_Ok. unfold Matrix.copy. rewrite apply_flat.
      apply (forM_fails (λ s, wf s ∧ same_dims s M)
               (λ p : Z * Z, Matrix.rows M ≤ p.1) TypeError); [done | |].
      * intros [i j] s [Hi Hj]%elem_of_idx2 [Ws (E1 & E2 & E3)]. cbn [fst snd].
        destruct (get_cell_wf p1 i j) as (x & -> & Hok & _); [done | lia.. |].
        cbn [mbind result_bind]. rewrite !Z.add_0_r.
        destruct (decide (Matrix.rows M ≤ i)) as [Hbig|Hsmall].
        -- right. split; [done|]. unfold Matrix.set_cell.
           by rewrite (oob2_true s i j) by lia.
        -- left. split; [done|].
           destruct (set_cell_spec s i j x) as (s1 & -> & ? & ? & _);
             [done | unfold c in *; lia.. | by rewrite E3, CM, <-K0, <-D3 |].
           exists s1. split_and!; [done | done |]. by eapply same_dims_trans.
      * exists (Matrix.rows M, 0). split; [apply elem_of_idx2; lia | simpl; lia].
Qed.

Lemma mmul_needs_a_square_receiver_witness :
  Matrix.mmul gray_3x2 square_a = Err RangeError ∧
  Matrix.mmul gray_2x3 gray_3x2 = Err TypeError.
Proof.
  split.
  - apply (mmul_needs_a_square_receiver gray_3x2 square_a);
      [by_decide | by_decide | reflexivity | reflexivity | reflexivity | simpl; lia..].
  - apply (mmul_needs_a_square_receiver gray_2x3 gray_3x2);
      [by_decide | by_decide | reflexivity | reflexivity | reflexivity | simpl; lia..].
Defined.

(** ** [copy] and [crop] outside their target *)

(** A non-empty source that does not fit the target at the offset: the
    first write outside the target throws. *)
Lemma copy_outside (M to : Matrix.t) (oi oj : Z) :
  wf M → wf to → Matrix.chls M = Matrix.chls to →
  1 ≤ Matrix.rows M → 1 ≤ Matrix.cols M →
  oi < 0 ∨ oj < 0 ∨ Matrix.rows to < Matrix.rows M + oi ∨ Matrix.cols to < Matrix.cols M + oj →
  Matrix.copy M to oi oj = Err TypeError.
Proof.
  intros HM Hto Hk Hr Hc Hout. unfold Matrix.copy. rewrite apply_flat.
  apply (forM_fails (λ s, wf s ∧ same_dims s to)
           (λ p : Z * Z, ¬ (0 ≤ p.1 + oi < Matrix.rows to ∧ 0 ≤ p.2 + oj < Matrix.cols to))
           TypeError); [done | |].
  - intros [i j] s [Hi Hj]%elem_of_idx2 [Ws (E1 & E2 & E3)]. cbn [fst snd].
    destruct (get_cell_wf M i j) as (x & -> & Hok & _); [done..|].
    cbn [mbind result_bind].
    destruct (decide (0 ≤ i + oi < Matrix.rows to ∧ 0 ≤ j + oj < Matrix.cols to))
      as [Hin|Hbad].
    + left. split; [tauto|].
      destruct (set_cell_spec s (i + oi) (j + oj) x) as (s1 & -> & ? & ? & _);
        [done | lia.. | by rewrite E3, <-Hk |].
      exists s1. split_and!; [done | done |]. by eapply same_dims_trans.
    + right. split; [done|]. unfold Matrix.set_cell.
      by rewrite (oob2_true s (i + oi) (j + oj)) by lia.
  - destruct (decide (oi < 0 ∨ oj < 0)) as [Hneg|Hpos].
    + exists (0, 0). split; [apply elem_of_idx2; lia | simpl; lia].
    + exists (Matrix.rows M - 1, Matrix.cols M - 1).
      split; [apply elem_of_idx2; lia | simpl; lia].
Qed.

(** X17. [copy(to, {i, j})] of a source with the channel count of the
    target.  With a non-negative offset that keeps the source inside the
    target, the target keeps its shape, holds the cells of the source in the
    block that starts at the offset and its old cells everywhere else.  A
    non-empty source that does not fit (a negative offset, or a block that
    ends past the last row or column) makes the call throw, and what it
    throws is the TypeError of the two-argument [set], not a RangeError. *)
Theorem copy_inside_and_outside (M to : Matrix.t) (oi oj : Z) :
  wf M → wf to → Matrix.chls M = Matrix.chls to →
  (0 ≤ oi → 0 ≤ oj →
   Matrix.rows M + oi ≤ Matrix.rows to → Matrix.cols M + oj ≤ Matrix.cols to →
   ∃ to', Matrix.copy M to oi oj = Ok to' ∧ (wf to' ∧ same_dims to' to) ∧
          (∀ i j, 0 ≤ i < Matrix.rows M → 0 ≤ j < Matrix.cols M →
             Matrix.get_cell to' (i + oi) (j + oj) = Matrix.get_cell M i j) ∧
          (∀ i j, ¬ (oi ≤ i < oi + Matrix.rows M ∧ oj ≤ j < oj + Matrix.cols M) →
             Matrix.get_cell to' i j = Matrix.get_cell to i j)) ∧
  (1 ≤ Matrix.rows M → 1 ≤ Matrix.cols M →
   oi < 0 ∨ oj < 0 ∨ Matrix.rows to < Matrix.rows M + oi ∨
   Matrix.cols to < Matrix.cols M + oj →
   Matrix.copy M to oi oj = Err TypeError).
Proof.
  intros HM Hto Hk. split.
  - intros. by apply copy_spec.
  - intros. by apply copy_outside.
Qed.

Lemma copy_inside_and_outside_witness :
  (∃ to', Matrix.copy rgb_one (px [[[q 0 1; q 0 1; q 0 1]; [q 1 1; q 1 1; q 1 1]]]) 0 1 = Ok to' ∧
          Matrix.get_cell to' 0 1 = Matrix.get_cell rgb_one 0 0 ∧
          Matrix.get_cell to' 0 0
            = Matrix.get_cell (px [[[q 0 1; q 0 1; q 0 1]; [q 1 1; q 1 1; q 1 1]]]) 0 0) ∧
  Matrix.copy rgba_a rgba_b 0 1 = Err TypeError ∧
  Matrix.copy rgba_a rgba_b (-1) 0 = Err TypeError.
Proof.
  destruct (copy_inside_and_outside rgb_one
              (px [[[q 0 1; q 0 1; q 0 1]; [q 1 1; q 1 1; q 1 1]]]) 0 1) as [H1 _];
    [by_decide | by_decide | reflexivity |].
  destruct H1 as (to' & Hrun & _ & Hin & Hout); [lia | lia | simpl; lia | simpl; lia |].
  destruct (copy_inside_and_outside rgba_a rgba_b 0 1) as [_ H2];
    [by_decide | by_decide | reflexivity |].
  destruct (copy_inside_and_outside rgba_a rgba_b (-1) 0) as [_ H3];
    [by_decide | by_decide | reflexivity |].
  refine (conj _ (conj (H2 ltac:(simpl; lia) ltac:(simpl; lia) ltac:(simpl; lia))
                       (H3 ltac:(simpl; lia) ltac:(simpl; lia) ltac:(simpl; lia)))).
  exists to'.
  exact (conj Hrun (conj (Hin 0 0 ltac:(simpl; lia) ltac:(simpl; lia))
                         (Hout 0 0 ltac:(simpl; lia)))).
Defined.

(** X18. [crop] with corners that do not span a rectangle inside the image:
    equal row or column coordinates make the constructor of the result throw
    TypeError (a size of 0), and a rectangle that leaves the image makes the
    first read outside it throw RangeError. *)
Theorem crop_rejects (A : Matrix.t) (x1 y1 x2 y2 : Z) :
  wf A →
  (x1 = x2 ∨ y1 = y2 → Imager.crop A x1 y1 x2 y2 = Err TypeError) ∧
  (x1 ≠ x2 → y1 ≠ y2 →
   Z.min x1 x2 < 0 ∨ Z.min y1 y2 < 0 ∨
   Matrix.rows A < Z.max x1 x2 ∨ Matrix.cols A < Z.max y1 y2 →
   Imager.crop A x1 y1 x2 y2 = Err RangeError).
Proof.
  intros HA. pose proof HA as (Hk & _). split.
  - intros H. unfold Imager.crop, Matrix.new, Matrix.getChls. rewrite generate_Z.
    by replace ((Z.abs (x2 - x1) =? 0) || (Z.abs (y2 - y1) =? 0) || (Matrix.chls A =? 0))
      with true by lia.
  - intros Hx Hy Hout. unfold Imager.crop, Matrix.new, Matrix.getChls.
    destruct (generate_positive (Z.abs (x2 - x1)) (Z.abs (y2 - y1)) (Matrix.chls A) 0)
      as (c0 & -> & W0 & R0 & C0 & K0 & _); [lia..|].
    rewrite bind_Ok, apply_flat, R0, C0.
    apply (forM_fails (λ s, wf s ∧ same_dims s c0)
             (λ p : Z * Z, ¬ (0 ≤ p.1 + Z.min x1 x2 < Matrix.rows A ∧
                              0 ≤ p.2 + Z.min y1 y2 < Matrix.cols A))
             RangeError); [done | |].
    + intros [i j] s [Hi Hj]%elem_of_idx2 [Ws (E1 & E2 & E3)]. cbn [fst snd].
      destruct (decide (0 ≤ i + Z.min x1 x2 < Matrix.rows A ∧
                        0 ≤ j + Z.min y1 y2 < Matrix.cols A)) as [Hin|Hbad].
      * left. split; [tauto|].
        destruct (get_cell_wf A (i + Z.min x1 x2) (j + Z.min y1 y2))
          as (x & -> & Hok & _); [done | lia.. |].
        cbn [mbind result_bind].
        destruct (set_cell_spec s i j x) as (s1 & -> & ? & ? & _);
          [done | lia.. | by rewrite E3, K0 |].
        exists s1. split_and!; [done | done |]. by eapply same_dims_trans.
      * right. split; [done|]. unfold Matrix.get_cell.
        by rewrite (oob2_true A (i + Z.min x1 x2) (j + Z.min y1 y2)) by lia.
    + destruct (decide (Z.min x1 x2 < 0 ∨ Z.min y1 y2 < 0)) as [Hneg|Hpos].
      * exists (0, 0). split; [apply elem_of_idx2; lia | simpl; lia].
      * exists (Z.abs (x2 - x1) - 1, Z.abs (y2 - y1) - 1).
        split; [apply elem_of_idx2; lia | simpl; lia].
Qed.

Lemma crop_rejects_witness :
  Imager.crop rgba_a 0 0 0 1 = Err TypeError ∧
  Imager.crop rgba_a 0 1 1 3 = Err RangeError.
Proof.
  destruct (crop_rejects rgba_a 0 0 0 1) as [H1 _]; [by_decide|].
  destruct (crop_rejects rgba_a 0 1 1 3) as [_ H2]; [by_decide|].
  split; [apply H1; by left | apply H2; [lia | lia | simpl; lia]].
Defined.

(** ** Rows and columns as lists: [getRow], [setRow], [getCol], [setCol] *)

Lemma at_raw (M : Matrix.t) (i j : Z) : 0 ≤ i → 0 ≤ j → Matrix.at_ M i j = Matrix.raw M i j.
Proof. intros. unfold Matrix.at_. by replace ((i <? 0) || (j <? 0)) with false by lia. Qed.

Lemma getCol_run (M : Matrix.t) (j : Z) :
  wf M → 0 ≤ j < Matrix.cols M →
  ∃ col, Matrix.getCol M j = Ok col ∧ length col = Z.to_nat (Matrix.rows M) ∧
         ∀ i, 0 ≤ i < Matrix.rows M → col !! Z.to_nat i = Matrix.raw M i j.
Proof.
  intros Hwf Hj. unfold Matrix.getCol.
  assert (0 ≤ Matrix.rows M) as Hn by (destruct Hwf as (_ & ? & _); done).
  apply (forM_range_inv (λ t col, length col = Z.to_nat t ∧
           ∀ i, 0 ≤ i < t → col !! Z.to_nat i = Matrix.raw M i j)); [done | | ].
  - split; [done|]. intros; lia.
  - intros t col Ht [Hlen Hcol]. rewrite at_raw by lia.
    destruct (wf_raw M t j) as (c & Hc & _); [done | lia.. |]. rewrite Hc.
    eexists. split; [done|]. split.
    + rewrite length_app. simpl. lia.
    + intros i Hi. destruct (decide (i = t)) as [->|Hne].
      * rewrite lookup_app_r by lia. rewrite Hlen, Nat.sub_diag. done.
      * rewrite lookup_app_l by lia. apply Hcol. lia.
Qed.

Lemma setCol_run (M : Matrix.t) (j : Z) (c : list Matrix.cell) :
  wf M → 0 ≤ j < Matrix.cols M → Z.of_nat (length c) = Matrix.rows M →
  Forall (cell_ok (Matrix.chls M)) c →
  ∃ M', Matrix.setCol M j c = Ok M' ∧ wf M' ∧ same_dims M' M ∧
        (∀ i, 0 ≤ i < Matrix.rows M → Matrix.raw M' i j = c !! Z.to_nat i) ∧
        (∀ i x, 0 ≤ i < Matrix.rows M → 0 ≤ x < Matrix.cols M → x ≠ j →
           Matrix.raw M' i x = Matrix.raw M i x).
Proof.
  intros Hwf Hj Hlen Hok. unfold Matrix.setCol.
  replace (Z.of_nat (length c) =? Matrix.rows M) with true by lia. cbn [negb].
  replace (j <? 0) with false by lia.
  set (g := λ i : Z, (i, j)).
  assert (Inj (=) (=) g) as Hinj by (by intros ?? [= ->]).
  destruct (forM_local rd2 (λ s, grid s ∧ same_dims s M) (g <$> range (Matrix.rows M))
              (λ p, default (Matrix.Scalar 0) (c !! Z.to_nat p.1))
              (λ p s, match c !! Z.to_nat p.1 with
                      | Some x => Matrix.store s p.1 j x
                      | None => Err OutsideModel
                      end) M)
    as (M' & Hrun & [G (D1 & D2 & D3)] & Hval & Hfr).
  - apply NoDup_fmap_2; [done | apply NoDup_range].
  - split; [by apply wf_grid | done].
  - intros [a b] s (i & [= -> ->] & Hi%elem_of_range)%list_elem_of_fmap
      [Hs (E1 & E2 & E3)] _ _. cbn [fst snd].
    destruct (lookup_lt_is_Some_2 c (Z.to_nat i)) as [x Hx]; [lia|]. rewrite Hx.
    destruct (store_grid_rd s i j x) as (s1 & -> & [? ?] & ? & ?); [done | lia.. |].
    exists s1. split_and!; try done. by eapply same_dims_trans.
  - assert (∀ i, 0 ≤ i < Matrix.rows M → Matrix.raw M' i j = c !! Z.to_nat i) as Hcol.
    { intros i Hi. specialize (Hval (i, j)). cbn [fst] in Hval.
      destruct (lookup_lt_is_Some_2 c (Z.to_nat i)) as [x Hx]; [lia|].
      rewrite Hx in *. simpl in Hval.
      apply get_cell_Ok in Hval as [_ Hval]; [done|].
      apply list_elem_of_fmap. exists i. split; [done|]. by apply elem_of_range. }
    assert (∀ i x, 0 ≤ i < Matrix.rows M → 0 ≤ x < Matrix.cols M → x ≠ j →
              Matrix.raw M' i x = Matrix.raw M i x) as Hrest.
    { intros i x Hi Hx Hne. specialize (Hfr (i, x)).
      destruct (wf_raw M i x) as (y & Hy & _); [done..|].
      unfold rd2 in Hfr. cbn [fst snd] in Hfr.
      rewrite (get_cell_raw M i x y) in Hfr by done.
      apply get_cell_Ok in Hfr as [_ Hfr]; [congruence|].
      intros (i' & [= -> ->] & _)%list_elem_of_fmap. done. }
    exists M'. split_and!; [| | done | done | done].
    + rewrite <-Hrun, forM_fmap. done.
    + apply wf_intro; [done | destruct Hwf; lia |].
      intros i x y Hi Hx Hy. rewrite D3.
      destruct (decide (x = j)) as [->|Hne].
      * rewrite Hcol in Hy by lia. by eapply Forall_lookup_1.
      * rewrite Hrest in Hy by (lia || done).
        destruct (wf_raw M i x) as (y' & Hy' & Hok'); [done | lia.. |]. congruence.
Qed.

Lemma column_trips (M : Matrix.t) (j : Z) (c : list Matrix.cell) :
  wf M → 0 ≤ j < Matrix.cols M →
  (Z.of_nat (length c) = Matrix.rows M → Forall (cell_ok (Matrix.chls M)) c →
   (Matrix.setCol M j c ≫= λ M', Matrix.getCol M' j) = Ok c ∧
   ∃ M', Matrix.setCol M j c = Ok M' ∧ wf M' ∧ same_dims M' M ∧
         ∀ i x, 0 ≤ i < Matrix.rows M → 0 ≤ x < Matrix.cols M → x ≠ j →
           Matrix.get_cell M' i x = Matrix.get_cell M i x) ∧
  (Matrix.getCol M j ≫= Matrix.setCol M j) = Ok M ∧
  (Z.of_nat (length c) ≠ Matrix.rows M → Matrix.setCol M j c = Err RangeError).
Proof.
  intros Hwf Hj. split_and!.
  - intros Hlen Hok.
    destruct (setCol_run M j c) as (M' & Hrun & W & (D1 & D2 & D3) & Hcol & Hrest); [done..|].
    split.
    + rewrite Hrun, bind_Ok.
      destruct (getCol_run M' j) as (col & -> & Hl & Hc); [done | lia |]. f_equal.
      apply list_eq. intros n. destruct (decide (n < length c)%nat) as [Hn|Hn].
      * specialize (Hc (Z.of_nat n) ltac:(lia)). rewrite Nat2Z.id in Hc. rewrite Hc.
        rewrite Hcol by lia. by rewrite Nat2Z.id.
      * rewrite !lookup_ge_None_2 by lia. done.
    + exists M'. split_and!; [done..|]. intros i x Hi Hx Hne.
      apply get_cell_of_raw; [lia.. |]. by apply Hrest.
  - destruct (getCol_run M j) as (col & -> & Hl & Hc); [done..|]. rewrite bind_Ok.
    pose proof Hwf as (_ & Hr0 & _).
    destruct (setCol_run M j col) as (M' & -> & W & D & Hcol & Hrest); [done | done | lia | |].
    + apply Forall_lookup. intros n x Hx.
      pose proof (lookup_lt_Some _ _ _ Hx).
      specialize (Hc (Z.of_nat n) ltac:(lia)). rewrite Nat2Z.id, Hx in Hc.
      destruct (wf_raw M (Z.of_nat n) j) as (y & Hy & Hok); [done | lia.. |]. congruence.
    + f_equal. apply matrix_ext; [by apply wf_grid.. | done |].
      pose proof D as (D1 & D2 & D3). intros i x Hi Hx.
      destruct (decide (x = j)) as [->|Hne].
      * rewrite Hcol by lia. apply Hc. lia.
      * apply Hrest; lia.
  - intros Hlen. unfold Matrix.setCol.
    by replace (Z.of_nat (length c) =? Matrix.rows M) with false by lia.
Qed.

Lemma row_trips (M : Matrix.t) (i : Z) (r : list Matrix.cell) :
  wf M → 0 ≤ i < Matrix.rows M →
  (Z.of_nat (length r) = Matrix.cols M →
   ∃ M', Matrix.setRow M i r = Ok M' ∧ same_dims M' M ∧
         Matrix.getRow M' i = Some r ∧
         (∀ i', i' ≠ i → Matrix.getRow M' i' = Matrix.getRow M i') ∧
         (Forall (cell_ok (Matrix.chls M)) r → wf M')) ∧
  (Z.of_nat (length r) ≠ Matrix.cols M → Matrix.setRow M i r = Err RangeError).
Proof.
  intros Hwf Hi. pose proof Hwf as (Hk & Hr & Hc & Hlen & Hrows). split.
  - intros Hl. unfold Matrix.setRow.
    replace (Z.of_nat (length r) =? Matrix.cols M) with true by lia. cbn [negb].
    replace ((0 <=? i) && (i <? Z.of_nat (length (Matrix.m M)))) with true by lia.
    eexists. split; [done|]. unfold Matrix.getRow, Matrix.with_m; simpl.
    split_and!; [done | | |].
    + replace (i <? 0) with false by lia. apply list_lookup_insert_eq. lia.
    + intros i' Hne. destruct (i' <? 0) eqn:Hneg; [done|].
      apply list_lookup_insert_ne. lia.
    + intros Hok. unfold wf; simpl. split_and!; [done.. | by rewrite length_insert |].
      apply Forall_insert; [done|]. split; [lia | done].
  - intros Hl. unfold Matrix.setRow.
    by replace (Z.of_nat (length r) =? Matrix.cols M) with false by lia.
Qed.

(** X19. Rows and columns as lists.  A column written with [setCol(j, c)]
    is read back by [getCol(j)], the other columns being untouched, and
    writing back the column that [getCol(j)] returned changes nothing; a row
    written with [setRow(i, r)] is what [getRow(i)] returns afterwards, the
    other rows being untouched.  A list of the wrong length is rejected with
    RangeError by both setters. *)
Theorem row_column_round_trip (M : Matrix.t) (i j : Z) (r c : list Matrix.cell) :
  wf M → 0 ≤ i < Matrix.rows M → 0 ≤ j < Matrix.cols M →
  (Z.of_nat (length c) = Matrix.rows M → Forall (cell_ok (Matrix.chls M)) c →
   (Matrix.setCol M j c ≫= λ M', Matrix.getCol M' j) = Ok c ∧
   ∃ M', Matrix.setCol M j c = Ok M' ∧ wf M' ∧ same_dims M' M ∧
         ∀ i x, 0 ≤ i < Matrix.rows M → 0 ≤ x < Matrix.cols M → x ≠ j →
           Matrix.get_cell M' i x = Matrix.get_cell M i x) ∧
  (Matrix.getCol M j ≫= Matrix.setCol M j) = Ok M ∧
  (Z.of_nat (length c) ≠ Matrix.rows M → Matrix.setCol M j c = Err RangeError) ∧
  (Z.of_nat (length r) = Matrix.cols M →
   ∃ M', Matrix.setRow M i r = Ok M' ∧ same_dims M' M ∧
         Matrix.getRow M' i = Some r ∧
         (∀ i', i' ≠ i → Matrix.getRow M' i' = Matrix.getRow M i') ∧
         (Forall (cell_ok (Matrix.chls M)) r → wf M')) ∧
  (Z.of_nat (length r) ≠ Matrix.cols M → Matrix.setRow M i r = Err RangeError).
Proof.
  intros Hwf Hi Hj.
  destruct (column_trips M j c Hwf Hj) as (C1 & C2 & C3).
  destruct (row_trips M i r Hwf Hi) as (R1 & R2).
  split_and!; done.
Qed.

Lemma row_column_round_trip_witness :
  (Matrix.setCol gray_2x3 1 [Matrix.Scalar (q 7 1); Matrix.Scalar (q 8 1)]
     ≫= λ M', Matrix.getCol M' 1) = Ok [Matrix.Scalar (q 7 1); Matrix.Scalar (q 8 1)] ∧
  (Matrix.getCol gray_2x3 1 ≫= Matrix.setCol gray_2x3 1) = Ok gray_2x3 ∧
  Matrix.setCol gray_2x3 1 [Matrix.Scalar (q 7 1)] = Err RangeError ∧
  (∃ M', Matrix.setRow gray_2x3 1
           [Matrix.Scalar (q 7 1); Matrix.Scalar (q 8 1); Matrix.Scalar (q 9 1)] = Ok M' ∧
         Matrix.getRow M' 1
           = Some [Matrix.Scalar (q 7 1); Matrix.Scalar (q 8 1); Matrix.Scalar (q 9 1)] ∧
         Matrix.getRow M' 0 = Matrix.getRow gray_2x3 0) ∧
  Matrix.setRow gray_2x3 1 [Matrix.Scalar (q 7 1)] = Err RangeError.
Proof.
  destruct (row_column_round_trip gray_2x3 1 1
              [Matrix.Scalar (q 7 1); Matrix.Scalar (q 8 1); Matrix.Scalar (q 9 1)]
              [Matrix.Scalar (q 7 1); Matrix.Scalar (q 8 1)])
    as (H1 & H2 & _ & H4 & _); [by_decide | simpl; lia | simpl; lia |].
  destruct (row_column_round_trip gray_2x3 1 1
              [Matrix.Scalar (q 7 1)] [Matrix.Scalar (q 7 1)])
    as (_ & _ & H3 & _ & H5); [by_decide | simpl; lia | simpl; lia |].
  destruct H1 as [H1 _]; [reflexivity | by_decide |].
  destruct H4 as (M' & Hrun & _ & Hget & Hrest & _); [reflexivity|].
  refine (conj H1 (conj H2 (conj (H3 ltac:(simpl; lia)) (conj _ (H5 ltac:(simpl; lia)))))).
  exists M'. exact (conj Hrun (conj Hget (Hrest 0 ltac:(lia)))).
Defined.

(** * Further properties of the Imager operators *)

(** ** Operators that recompute the colours of each pixel *)

Lemma set_store (M : Matrix.t) (i j k : Z) (v : Qc) (p : list Qc) :
  wf M → 0 ≤ i < Matrix.rows M → 0 ≤ j < Matrix.cols M → 0 ≤ k < Matrix.chls M →
  Matrix.raw M i j = Some (Matrix.Pixel p) →
  ∃ M', Matrix.set M i j v k = Ok M' ∧ wf M' ∧ same_dims M' M ∧
        Matrix.raw M' i j = Some (Matrix.Pixel (<[Z.to_nat k := v]> p)) ∧
        ∀ i' j', 0 ≤ i' → 0 ≤ j' → (i', j') ≠ (i, j) →
          Matrix.raw M' i' j' = Matrix.raw M i' j'.
Proof.
  intros Hwf Hi Hj Hk Hraw.
  destruct (wf_raw M i j) as (c & Hc & Hok); [done..|].
  rewrite Hraw in Hc. injection Hc as <-. simpl in Hok. destruct Hok as [Hc Hlen].
  unfold Matrix.set. rewrite (proj2 (oob3_false M i j k)) by done. rewrite Hraw.
  rewrite decide_True by lia.
  destruct (store_spec M i j (Matrix.Pixel (<[Z.to_nat k := v]> p)))
    as (M' & -> & W & D & Hr & Hfr); [done.. | |].
  { simpl. by rewrite length_insert. }
  exists M'. done.
Qed.

Lemma setPixel_cell (M : Matrix.t) (i j : Z) (r g b : Qc) (p : list Qc) :
  wf M → 3 ≤ Matrix.chls M → 0 ≤ i < Matrix.rows M → 0 ≤ j < Matrix.cols M →
  Matrix.raw M i j = Some (Matrix.Pixel p) →
  ∃ M', Matrix.setPixel M i j r g b None = Ok M' ∧ wf M' ∧ same_dims M' M ∧
        Matrix.raw M' i j
          = Some (Matrix.Pixel (<[2%nat := b]> (<[1%nat := g]> (<[0%nat := r]> p)))) ∧
        ∀ i' j', 0 ≤ i' → 0 ≤ j' → (i', j') ≠ (i, j) →
          Matrix.raw M' i' j' = Matrix.raw M i' j'.
Proof.
  intros Hwf Hc Hi Hj Hraw. unfold Matrix.setPixel.
  replace (Matrix.chls M <? 3) with false by lia.
  rewrite (proj2 (oob2_false M i j)) by done. rewrite andb_false_r.
  destruct (set_store M i j 0 r p) as (M1 & -> & W1 & (D1 & D2 & D3) & R1 & F1);
    [done | lia.. | done |].
  rewrite bind_Ok.
  destruct (set_store M1 i j 1 g (<[0%nat := r]> p))
    as (M2 & -> & W2 & (E1 & E2 & E3) & R2 & F2); [done | lia.. | done |].
  rewrite bind_Ok.
  destruct (set_store M2 i j 2 b (<[1%nat := g]> (<[0%nat := r]> p)))
    as (M3 & -> & W3 & (G1 & G2 & G3) & R3 & F3); [done | lia.. | done |].
  rewrite bind_Ok. exists M3.
  split_and!; [done | done | unfold same_dims; lia | exact R3 |].
  intros i' j' Hi' Hj' Hne. rewrite F3, F2, F1 by done. done.
Qed.

(** The loop of [invert] and [gray]: every pixel is recoloured from its own
    old colours. *)
Lemma recolor_loop (fr fg fb : Qc → Qc → Qc → Qc) (A : Matrix.t) :
  wf A → 3 ≤ Matrix.chls A →
  ∃ A', Matrix.apply A (λ i j A',
          r ← Matrix.get A' i j 0; g ← Matrix.get A' i j 1; b ← Matrix.get A' i j 2;
          Matrix.setPixel A' i j (fr r g b) (fg r g b) (fb r g b) None) A = Ok A' ∧
        wf A' ∧ same_dims A' A ∧
        ∀ i j c, 0 ≤ i < Matrix.rows A → 0 ≤ j < Matrix.cols A →
          Matrix.raw A i j = Some c → Matrix.raw A' i j = Some (recolored fr fg fb c).
Proof.
  intros Hwf Hc. rewrite apply_flat.
  destruct (forM_local rd2 (λ s, wf s ∧ same_dims s A)
              (idx2 (Matrix.rows A) (Matrix.cols A))
              (λ p, match rd2 A p with
                    | Ok c => recolored fr fg fb c
                    | Err _ => Matrix.Scalar 0
                    end)
              (λ p A',
                 r ← Matrix.get A' p.1 p.2 0; g ← Matrix.get A' p.1 p.2 1;
                 b ← Matrix.get A' p.1 p.2 2;
                 Matrix.setPixel A' p.1 p.2 (fr r g b) (fg r g b) (fb r g b) None) A)
    as (A' & Hrun & [W D] & Hval & _); [apply NoDup_idx2 | done | |].
  - intros [i j] s [Hi Hj]%elem_of_idx2 [Ws (E1 & E2 & E3)] Hsame _. cbn [fst snd].
    destruct (get_cell_wf A i j) as (c & Hcell & Hok & Hraw); [done..|].
    unfold rd2 in *. cbn [fst snd] in *. rewrite Hcell in Hsame.
    destruct c as [v|p]; simpl in Hok; [lia|]. destruct Hok as [_ Hlen].
    destruct (lookup_lt_is_Some_2 p 0) as [r Hr]; [lia|].
    destruct (lookup_lt_is_Some_2 p 1) as [g Hg]; [lia|].
    destruct (lookup_lt_is_Some_2 p 2) as [b Hb]; [lia|].
    rewrite !(get_via_cell s i j _ (Matrix.Pixel p)) by (done || lia).
    change (Z.to_nat 0) with 0%nat. change (Z.to_nat 1) with 1%nat.
    change (Z.to_nat 2) with 2%nat. rewrite Hr, Hg, Hb. cbn [mbind result_bind].
    pose proof Hsame as [_ Hraws]%get_cell_Ok.
    destruct (setPixel_cell s i j (fr r g b) (fg r g b) (fb r g b) p)
      as (s1 & -> & W1 & (F1 & F2 & F3) & R1 & Fr1); [done | lia.. | done |].
    exists s1. split_and!; [done | done | unfold same_dims; lia | |].
    + rewrite Hcell. simpl. rewrite Hr, Hg, Hb.
      apply get_cell_raw; [lia.. | done].
    + intros [i' j'] Hne. cbn [fst snd]. unfold Matrix.get_cell.
      rewrite (same_dims_oob2 s1 s) by done.
      destruct (Matrix.oob2 s i' j') eqn:Hoob; [done|]. apply oob2_false in Hoob.
      rewrite Fr1; [done | lia | lia | done].
  - exists A'. split_and!; [done..|]. intros i j c Hi Hj Hraw.
    specialize (Hval (i, j)). rewrite elem_of_idx2 in Hval.
    specialize (Hval (conj Hi Hj)). apply get_cell_Ok in Hval as [_ Hval].
    cbn [fst snd] in Hval. rewrite Hval.
    unfold rd2. cbn [fst snd]. by rewrite (get_cell_raw A i j c).
Qed.

Lemma recolored_chan (fr fg fb : Qc → Qc → Qc → Qc) (c : Matrix.cell) (n : Z) :
  cell_ok n c → 3 ≤ n →
  ∃ r g b, cell_chan c 0 = Some r ∧ cell_chan c 1 = Some g ∧ cell_chan c 2 = Some b ∧
    cell_chan (recolored fr fg fb c) 0 = Some (fr r g b) ∧
    cell_chan (recolored fr fg fb c) 1 = Some (fg r g b) ∧
    cell_chan (recolored fr fg fb c) 2 = Some (fb r g b) ∧
    ∀ k, 3 ≤ k → cell_chan (recolored fr fg fb c) k = cell_chan c k.
Proof.
  intros Hok Hn. destruct c as [v|p]; simpl in Hok; [lia|]. destruct Hok as [_ Hlen].
  destruct (lookup_lt_is_Some_2 p 0) as [r Hr]; [lia|].
  destruct (lookup_lt_is_Some_2 p 1) as [g Hg]; [lia|].
  destruct (lookup_lt_is_Some_2 p 2) as [b Hb]; [lia|].
  exists r, g, b. unfold recolored. rewrite Hr, Hg, Hb. unfold cell_chan. simpl.
  split_and!; [done | done | done | | | |].
  - rewrite list_lookup_insert_ne, list_lookup_insert_ne by lia.
    apply list_lookup_insert_eq. lia.
  - rewrite list_lookup_insert_ne by lia.
    apply list_lookup_insert_eq. rewrite length_insert. lia.
  - apply list_lookup_insert_eq. rewrite !length_insert. lia.
  - intros k Hk. replace (k <? 0) with false by lia.
    rewrite !list_lookup_insert_ne by lia. done.
Qed.

Lemma recolor_chans (fr fg fb : Qc → Qc → Qc → Qc) (A : Matrix.t) :
  wf A → 3 ≤ Matrix.chls A →
  ∃ A', Matrix.apply A (λ i j A',
          r ← Matrix.get A' i j 0; g ← Matrix.get A' i j 1; b ← Matrix.get A' i j 2;
          Matrix.setPixel A' i j (fr r g b) (fg r g b) (fb r g b) None) A = Ok A' ∧
        wf A' ∧ same_dims A' A ∧
        ∀ i j, 0 ≤ i < Matrix.rows A → 0 ≤ j < Matrix.cols A →
          ∃ r g b, chan A i j 0 = Some r ∧ chan A i j 1 = Some g ∧ chan A i j 2 = Some b ∧
            chan A' i j 0 = Some (fr r g b) ∧ chan A' i j 1 = Some (fg r g b) ∧
            chan A' i j 2 = Some (fb r g b) ∧
            ∀ k, 3 ≤ k → chan A' i j k = chan A i j k.
Proof.
  intros Hwf Hc.
  destruct (recolor_loop fr fg fb A) as (A' & Hrun & W & D & Hcells); [done..|].
  exists A'. split_and!; [done..|]. intros i j Hi Hj.
  destruct (wf_raw A i j) as (c & Hraw & Hok); [done..|].
  pose proof (Hcells i j c Hi Hj Hraw) as Hraw'.
  destruct (recolored_chan fr fg fb c (Matrix.chls A)) as (r & g & b & H0 & H1 & H2 & H0' & H1' & H2' & Hk);
    [done..|].
  exists r, g, b.
  rewrite !(chan_raw A i j _ c), !(chan_raw A' i j _ (recolored fr fg fb c)) by (done || lia).
  split_and!; [done..|]. intros k Hk'.
  rewrite (chan_raw A i j _ c), (chan_raw A' i j _ (recolored fr fg fb c)) by (done || lia).
  by apply Hk.
Qed.

Lemma invert_chans (A : Matrix.t) :
  wf A → 3 ≤ Matrix.chls A →
  ∃ A', Imager.invert A = Ok A' ∧ wf A' ∧ same_dims A' A ∧
        ∀ i j k, 0 ≤ i < Matrix.rows A → 0 ≤ j < Matrix.cols A → 0 ≤ k < Matrix.chls A →
          ∃ x, chan A i j k = Some x ∧
               chan A' i j k = Some (if k <? 3 then 1 - x else x)%Qc.
Proof.
  intros Hwf Hc.
  destruct (recolor_chans (λ r _ _, 1 - r)%Qc (λ _ g _, 1 - g)%Qc (λ _ _ b, 1 - b)%Qc A)
    as (A' & Hrun & W & D & Hch); [done..|].
  exists A'. split_and!; [done..|]. intros i j k Hi Hj Hk.
  destruct (Hch i j Hi Hj) as (r & g & b & H0 & H1 & H2 & H0' & H1' & H2' & Hrest).
  destruct (decide (k = 0)) as [->|?]; [by exists r|].
  destruct (decide (k = 1)) as [->|?]; [by exists g|].
  destruct (decide (k = 2)) as [->|?]; [by exists b|].
  destruct (get_wf A i j k) as (x & _ & Hx); [done | lia | done..|].
  exists x. split; [done|]. replace (k <? 3) with false by lia.
  rewrite Hrest by lia. done.
Qed.

(** X20. [invert(A)] on an image with at least three channels replaces
    every colour value [x] (channels 0, 1, 2) by [1 - x] and leaves the alpha
    channel and any further channel as they are. *)
Theorem invert_spec (A : Matrix.t) :
  wf A → 3 ≤ Matrix.chls A →
  ∃ A', Imager.invert A = Ok A' ∧ wf A' ∧ same_dims A' A ∧
        ∀ i j k, 0 ≤ i < Matrix.rows A → 0 ≤ j < Matrix.cols A → 0 ≤ k < Matrix.chls A →
          ∃ x, chan A i j k = Some x ∧
               chan A' i j k = Some (if k <? 3 then 1 - x else x)%Qc.
Proof. apply invert_chans. Qed.

Lemma invert_spec_witness :
  ∃ A', Imager.invert rgba_a = Ok A' ∧
        (∃ x, chan rgba_a 0 1 2 = Some x ∧ chan A' 0 1 2 = Some (1 - x)%Qc) ∧
        (∃ x, chan rgba_a 0 1 3 = Some x ∧ chan A' 0 1 3 = Some x).
Proof.
  destruct (invert_spec rgba_a) as (A' & Hrun & _ & _ & Hc); [by_decide | simpl; lia |].
  exists A'.
  exact (conj Hrun (conj (Hc 0 1 2 ltac:(simpl; lia) ltac:(simpl; lia) ltac:(simpl; lia))
                         (Hc 0 1 3 ltac:(simpl; lia) ltac:(simpl; lia) ltac:(simpl; lia)))).
Defined.

(** X21. [gray(A)] (type 'normal') gives the three colour channels of every
    pixel their mean [(r + g + b) / 3], and [gray(A, 'ITU-R')] the weighted
    sum [0.299 r + 0.587 g + 0.114 b]; both leave alpha as it is. *)
Theorem gray_spec (A : Matrix.t) :
  wf A → 3 ≤ Matrix.chls A →
  ∃ N I, Imager.gray_normal A = Ok N ∧ Imager.gray_ITU A = Ok I ∧
    (wf N ∧ same_dims N A) ∧ (wf I ∧ same_dims I A) ∧
    ∀ i j, 0 ≤ i < Matrix.rows A → 0 ≤ j < Matrix.cols A →
      ∃ r g b, chan A i j 0 = Some r ∧ chan A i j 1 = Some g ∧ chan A i j 2 = Some b ∧
        (∀ k, 0 ≤ k < 3 →
           chan N i j k = Some ((r + g + b) / Z2Qc 3)%Qc ∧
           chan I i j k = Some (r * Q2Qc (299 # 1000) + g * Q2Qc (587 # 1000)
                                + b * Q2Qc (114 # 1000))%Qc) ∧
        (∀ k, 3 ≤ k → chan N i j k = chan A i j k ∧ chan I i j k = chan A i j k).
Proof.
  intros Hwf Hc.
  destruct (recolor_chans (λ r g b, (r + g + b) / Z2Qc 3)%Qc (λ r g b, (r + g + b) / Z2Qc 3)%Qc
              (λ r g b, (r + g + b) / Z2Qc 3)%Qc A) as (N & HN & WN & DN & CN); [done..|].
  destruct (recolor_chans
              (λ r g b, r * Q2Qc (299 # 1000) + g * Q2Qc (587 # 1000) + b * Q2Qc (114 # 1000))%Qc
              (λ r g b, r * Q2Qc (299 # 1000) + g * Q2Qc (587 # 1000) + b * Q2Qc (114 # 1000))%Qc
              (λ r g b, r * Q2Qc (299 # 1000) + g * Q2Qc (587 # 1000) + b * Q2Qc (114 # 1000))%Qc
              A) as (I & HI & WI & DI & CI); [done..|].
  exists N, I. split_and!; [done..|]. intros i j Hi Hj.
  destruct (CN i j Hi Hj) as (r & g & b & H0 & H1 & H2 & N0 & N1 & N2 & Nk).
  destruct (CI i j Hi Hj) as (r' & g' & b' & H0' & H1' & H2' & I0 & I1 & I2 & Ik).
  assert (r' = r) as -> by congruence. assert (g' = g) as -> by congruence.
  assert (b' = b) as -> by congruence.
  exists r, g, b. split_and!; [done..| |].
  - intros k Hk. assert (k = 0 ∨ k = 1 ∨ k = 2) as [-> | [-> | ->]] by lia; done.
  - intros k Hk. split; [by apply Nk | by apply Ik].
Qed.

Lemma gray_spec_witness :
  ∃ N I, Imager.gray_normal rgba_a = Ok N ∧ Imager.gray_ITU rgba_a = Ok I ∧
         view N = ([[[1 # 2; 1 # 2; 1 # 2; 1 # 2]; [3 # 8; 3 # 8; 3 # 8; 1 # 1]]]%Q, (1, 2, 4)) ∧
         chan I 0 0 0 = Some (q 1 4 * Q2Qc (299 # 1000) + q 1 2 * Q2Qc (587 # 1000)
                              + q 3 4 * Q2Qc (114 # 1000))%Qc.
Proof.
  destruct (gray_spec rgba_a) as (N & I & HN & HI & _ & _ & Hc); [by_decide | simpl; lia |].
  destruct (Hc 0 0) as (r & g & b & H0 & H1 & H2 & Hk & _); [simpl; lia..|].
  destruct (Hk 0) as [_ HI0]; [lia|].
  exists N, I. refine (conj HN (conj HI (conj _ _))).
  - vm_compute in HN. injection HN as <-. reflexivity.
  - vm_compute in H0, H1, H2. injection H0 as <-. injection H1 as <-. injection H2 as <-.
    exact HI0.
Defined.

(** ** [normalize] *)

Lemma clip_below (x : Qc) : (x < 0)%Qc → Imager.clip x 0 1 = 0%Qc.
Proof. intros H. unfold Imager.clip, Qc_ltb. by rewrite bool_decide_eq_true_2. Qed.

Lemma clip_above (x : Qc) : (1 < x)%Qc → Imager.clip x 0 1 = 1%Qc.
Proof.
  intros H. assert (0 < 1)%Qc as H01 by by_decide.
  unfold Imager.clip, Qc_ltb. rewrite bool_decide_eq_false_2.
  - by rewrite bool_decide_eq_true_2.
  - apply Qcle_not_lt, Qclt_le_weak. by eapply Qclt_trans.
Qed.

Lemma clip_idempotent (x : Qc) : Imager.clip (Imager.clip x 0 1) 0 1 = Imager.clip x 0 1.
Proof.
  assert (0 ≤ 1)%Qc as H01 by by_decide.
  apply clip_unit; unfold Imager.clip, Qc_ltb; case_bool_decide as H0.
  - apply Qcle_refl.
  - case_bool_decide as H1; [done | by apply Qcnot_lt_le].
  - done.
  - case_bool_decide as H1; [apply Qcle_refl | by apply Qcnot_lt_le].
Qed.

Lemma normalize_chans (M : Matrix.t) :
  wf M →
  ∃ M', Imager.normalize M = Ok M' ∧ wf M' ∧ same_dims M' M ∧
        ∀ i j k, 0 ≤ i < Matrix.rows M → 0 ≤ j < Matrix.cols M → 0 ≤ k < Matrix.chls M →
          ∃ x, chan M i j k = Some x ∧ chan M' i j k = Some (Imager.clip x 0 1).
Proof.
  intros Hwf. pose proof Hwf as (Hk & _).
  destruct (decide (1 < Matrix.chls M)) as [Hm|Hm].
  - destruct (normalize_spec M) as (M' & Hrun & W & D & Hval); [done..|].
    exists M'. split_and!; [done..|]. intros i j k Hi Hj Hk'.
    exists (getd M (i, j, k)). split; [by apply getd_chan|].
    apply rd3_chan, Hval, elem_of_idx3. done.
  - unfold Imager.normalize. rewrite applyAll_flat1 by lia.
    destruct (forM_local rd2 (λ s, wf s ∧ same_dims s M)
                (idx2 (Matrix.rows M) (Matrix.cols M))
                (λ p, Matrix.Scalar (Imager.clip (entry M p.1 p.2) 0 1))
                (λ p s, x ← Matrix.get_cell s p.1 p.2 ≫= Matrix.num_of_cell;
                        Matrix.set_cell s p.1 p.2 (Matrix.Scalar (Imager.clip x 0 1))) M)
      as (M' & Hrun & [W D] & Hval & _); [apply NoDup_idx2 | done | |].
    + intros [i j] s [Hi Hj]%elem_of_idx2 [Hs (E1 & E2 & E3)] Hsame _. cbn [fst snd].
      unfold rd2 in Hsame. cbn [fst snd] in Hsame.
      rewrite Hsame, (scalar_entry M i j) by (done || lia).
      cbn [mbind result_bind Matrix.num_of_cell].
      destruct (set_cell_spec s i j (Matrix.Scalar (Imager.clip (entry M i j) 0 1)))
        as (s1 & -> & W1 & Dd & Hget & Hfr); [done | lia.. | simpl; lia |].
      exists s1. split_and!; [done | done | by eapply same_dims_trans | done | done].
    + exists M'. split_and!; [done..|]. intros i j k Hi Hj Hk'.
      assert (k = 0) as -> by lia. exists (entry M i j). split.
      * apply entry_chan; (done || lia).
      * rewrite (chan_scalar M' i j _ (Hval (i, j) ltac:(by apply elem_of_idx2))). done.
Qed.

(** X22. [normalize(A)] puts in every channel of every cell, single- and
    multi-channel matrices alike, the value that [clip] makes of the old
    one: 0 for a value below 0, 1 for a value above 1, and the value itself
    for one from 0 to 1.  Normalizing a second time changes nothing. *)
Theorem normalize_clamps (M : Matrix.t) :
  wf M →
  ∃ M', Imager.normalize M = Ok M' ∧ wf M' ∧ same_dims M' M ∧
        (∀ i j k, 0 ≤ i < Matrix.rows M → 0 ≤ j < Matrix.cols M → 0 ≤ k < Matrix.chls M →
           ∃ x, chan M i j k = Some x ∧ chan M' i j k = Some (Imager.clip x 0 1) ∧
                ((x < 0)%Qc → Imager.clip x 0 1 = 0%Qc) ∧
                ((1 < x)%Qc → Imager.clip x 0 1 = 1%Qc) ∧
                ((0 ≤ x)%Qc → (x ≤ 1)%Qc → Imager.clip x 0 1 = x)) ∧
        Imager.normalize M' = Ok M'.
Proof.
  intros Hwf.
  destruct (normalize_chans M Hwf) as (M' & Hrun & W & D & Hch).
  exists M'. split_and!; [done..| |].
  - intros i j k Hi Hj Hk. destruct (Hch i j k) as (x & Hx & Hx'); [done..|].
    exists x. split_and!; [done | done | apply clip_below | apply clip_above
                           | apply clip_unit].
  - destruct (normalize_chans M' W) as (M2 & -> & W2 & D2 & Hch2). f_equal.
    pose proof D as (D1 & D2' & D3).
    apply matrix_ext_chan; [done..|]. pose proof D2 as (E1 & E2 & E3).
    intros i j k Hi Hj Hk.
    destruct (Hch2 i j k) as (y & Hy & Hy'); [lia..|].
    destruct (Hch i j k) as (x & Hx & Hx'); [lia..|].
    rewrite Hy', Hy. rewrite Hx' in Hy. injection Hy as <-. by rewrite clip_idempotent.
Qed.

Lemma normalize_clamps_witness :
  ∃ M', Imager.normalize rgba_bright = Ok M' ∧ Imager.normalize M' = Ok M' ∧
        view M' = ([[[1; 1 # 2; 0; 1 # 3]]]%Q, (1, 1, 4)).
Proof.
  destruct (normalize_clamps rgba_bright) as (M' & Hrun & _ & _ & _ & Hidem); [by_decide|].
  exists M'. refine (conj Hrun (conj Hidem _)).
  vm_compute in Hrun. injection Hrun as <-. reflexivity.
Defined.

(** ** The formulas of [dodge] and [burn] *)

Lemma blend_chans (f : Qc → Qc → Qc) (A B : Matrix.t) :
  wf A → wf B → same_dims B A → 3 ≤ Matrix.chls A →
  ∃ A', Imager.blend f A B = Ok A' ∧ wf A' ∧ same_dims A' A ∧
        ∀ i j k, 0 ≤ i < Matrix.rows A → 0 ≤ j < Matrix.cols A → 0 ≤ k < Matrix.chls A →
          ∃ a b, chan A i j k = Some a ∧ chan B i j k = Some b ∧
                 chan A' i j k = Some (if k <? 3 then f a b else a).
Proof.
  intros HA HB HD Hc. pose proof HD as (D1 & D2 & D3).
  destruct (blend_spec f A B) as (A' & Hrun & [W D] & Hval & Hfr); [done..|].
  exists A'. split_and!; [done..|]. intros i j k Hi Hj Hk.
  exists (getd A (i, j, k)), (getd B (i, j, k)). split_and!.
  - apply getd_chan; (done || lia).
  - apply getd_chan; (done || lia).
  - apply rd3_chan. destruct (Z.ltb_spec k 3).
    + apply (Hval (i, j, k)), elem_of_idx3. lia.
    + rewrite Hfr by (rewrite elem_of_idx3; lia). apply rd3_wf; (done || lia).
Qed.

(** X23. The colours that [dodge] computes when the image and the filter
    are two objects that share no pixel array, for every colour channel of
    every pixel, from the values [a] of the image and [b] of the filter:
    [1 - (1 - a)(1 - b)] for 'screen', which is the result of the [screen]
    blend, [a / (1 - b)] for 'color' (where [b] is not 1) and [a + b] for
    'linear'. *)
Theorem dodge_formulas (A B : Matrix.t) :
  wf A → wf B → same_dims B A → 3 ≤ Matrix.chls A →
  ∃ S C L B1 B2,
    Imager.dodge A B "screen" = Ok (S, B1) ∧ Imager.dodge A B "color" = Ok (C, B2) ∧
    Imager.dodge A B "linear" = Ok (L, B) ∧ Imager.screen A B = Ok S ∧
    ∀ i j k, 0 ≤ i < Matrix.rows A → 0 ≤ j < Matrix.cols A → 0 ≤ k < 3 →
      ∃ a b, chan A i j k = Some a ∧ chan B i j k = Some b ∧
        chan S i j k = Some (1 - (1 - a) * (1 - b))%Qc ∧
        (b ≠ 1%Qc → chan C i j k = Some (a / (1 - b))%Qc) ∧
        chan L i j k = Some (a + b)%Qc.
Proof.
  intros HA HB HD Hc. pose proof HD as (D1 & D2 & D3).
  (* screen *)
  destruct (invert_chans A) as (A1 & HA1 & WA1 & DA1 & CA1); [done..|].
  destruct (invert_chans B) as (B1 & HB1 & WB1 & DB1 & CB1); [done | lia |].
  destruct (blend_chans (λ a b, a * b)%Qc A1 B1) as (A2 & HA2 & WA2 & DA2 & CA2);
    [done | done | unfold same_dims in *; lia | unfold same_dims in *; lia |].
  destruct (invert_chans A2) as (A3 & HA3 & WA3 & DA3 & CA3);
    [done | unfold same_dims in *; lia |].
  destruct (invert_chans B1) as (B1' & HB1' & WB1' & DB1' & CB1');
    [done | unfold same_dims in *; lia |].
  (* color *)
  destruct (blend_chans (λ a b, a / b)%Qc A B1) as (C & HC & WC & DC & CC);
    [done | done | unfold same_dims in *; lia | done |].
  (* linear and the screen blend *)
  destruct (blend_chans (λ a b, a + b)%Qc A B) as (L & HL & WL & DL & CL); [done..|].
  destruct (blend_chans (λ a b, 1 - (1 - a) * (1 - b))%Qc A B) as (S & HS & WS & DS & CS);
    [done..|].
  assert (∀ i j k, 0 ≤ i < Matrix.rows A → 0 ≤ j < Matrix.cols A → 0 ≤ k < Matrix.chls A →
            ∃ a b, chan A i j k = Some a ∧ chan B i j k = Some b ∧
                   chan A3 i j k = Some (if k <? 3 then 1 - (1 - a) * (1 - b) else a)%Qc ∧
                   chan C i j k = Some (if k <? 3 then a / (1 - b) else a)%Qc) as Hall.
  { intros i j k Hi Hj Hk.
    destruct (CA1 i j k) as (a & Ha & Ha1); [lia..|].
    destruct (CB1 i j k) as (b & Hb & Hb1); [lia..|].
    destruct (CA2 i j k) as (a1 & b1 & Ha1' & Hb1' & Ha2); [unfold same_dims in *; lia..|].
    destruct (CA3 i j k) as (a2 & Ha2' & Ha3); [unfold same_dims in *; lia..|].
    destruct (CC i j k) as (a' & b1'' & Ha' & Hb1'' & HC'); [lia..|].
    exists a, b. split_and!; [done | done | |].
    - rewrite Ha3. rewrite Ha2 in Ha2'. injection Ha2' as <-.
      rewrite Ha1 in Ha1'. injection Ha1' as <-.
      rewrite Hb1 in Hb1'. injection Hb1' as <-.
      destruct (k <? 3); [done|]. f_equal.
    - rewrite HC'. rewrite Ha in Ha'. injection Ha' as <-.
      rewrite Hb1 in Hb1''. injection Hb1'' as <-.
      by destruct (k <? 3). }
  assert (A3 = S) as ->.
  { apply matrix_ext_chan; [done | done | unfold same_dims in *; lia |].
    intros i j k Hi Hj Hk.
    destruct (Hall i j k) as (a & b & Ha & Hb & H3 & _); [unfold same_dims in *; lia..|].
    destruct (CS i j k) as (a' & b' & Ha' & Hb' & HS'); [unfold same_dims in *; lia..|].
    rewrite H3, HS'. assert (a' = a) as -> by congruence.
    by assert (b' = b) as -> by congruence. }
  exists S, C, L, B1', B1'. unfold Imager.dodge, Imager.dodge_color. simpl.
  unfold Imager.multiply, Imager.divide, Imager.addition, Imager.screen.
  rewrite HA1, HB1. simpl. rewrite HA2. simpl. rewrite HA3. simpl. rewrite HB1'. simpl.
  rewrite HC. simpl. rewrite HL. simpl.
  split_and!; [done..|]. intros i j k Hi Hj Hk.
  destruct (Hall i j k) as (a & b & Ha & Hb & H3 & H4); [lia..|].
  destruct (CL i j k) as (a' & b' & Ha' & Hb' & HL'); [lia..|].
  assert (a' = a) as -> by congruence. assert (b' = b) as -> by congruence.
  exists a, b. replace (k <? 3) with true in * by lia. done.
Qed.

Lemma dodge_formulas_witness :
  ∃ S C L B1 B2,
    Imager.dodge rgba_a rgba_b "screen" = Ok (S, B1) ∧
    Imager.dodge rgba_a rgba_b "color" = Ok (C, B2) ∧
    Imager.dodge rgba_a rgba_b "linear" = Ok (L, rgba_b) ∧
    Imager.screen rgba_a rgba_b = Ok S ∧
    chan S 0 1 2 = Some (1 - (1 - q 1 8) * (1 - q 1 2))%Qc ∧
    chan C 0 1 2 = Some (q 1 8 / (1 - q 1 2))%Qc ∧
    chan L 0 1 2 = Some (q 1 8 + q 1 2)%Qc.
Proof.
  destruct (dodge_formulas rgba_a rgba_b) as (S & C & L & B1 & B2 & H1 & H2 & H3 & H4 & Hc);
    [by_decide | by_decide | by_decide | simpl; lia |].
  destruct (Hc 0 1 2) as (a & b & Ha & Hb & HS & HC & HL); [simpl; lia.. | lia |].
  change (chan rgba_a 0 1 2) with (Some (q 1 8)) in Ha.
  change (chan rgba_b 0 1 2) with (Some (q 1 2)) in Hb.
  injection Ha as <-. injection Hb as <-.
  exists S, C, L, B1, B2.
  exact (conj H1 (conj H2 (conj H3 (conj H4 (conj HS (conj (HC ltac:(by_decide)) HL)))))).
Defined.

(** X24. The colours that [burn] computes when the image and the filter
    are two objects that share no pixel array, for every colour channel of
    every pixel, from the values [a] of the image and [b] of the filter:
    [a * b] for 'multiply', [1 - (1 - a) / b] for 'color' (where [b] is not
    0) and [a + b - 1] for 'linear'; the filter is then never written. *)
Theorem burn_formulas (A B : Matrix.t) :
  wf A → wf B → same_dims B A → 3 ≤ Matrix.chls A →
  ∃ P C L,
    Imager.burn A B "multiply" = Ok (P, B) ∧ Imager.burn A B "color" = Ok (C, B) ∧
    Imager.burn A B "linear" = Ok (L, B) ∧
    ∀ i j k, 0 ≤ i < Matrix.rows A → 0 ≤ j < Matrix.cols A → 0 ≤ k < 3 →
      ∃ a b, chan A i j k = Some a ∧ chan B i j k = Some b ∧
        chan P i j k = Some (a * b)%Qc ∧
        (b ≠ 0%Qc → chan C i j k = Some (1 - (1 - a) / b)%Qc) ∧
        chan L i j k = Some (a + b - 1)%Qc.
Proof.
  intros HA HB HD Hc. pose proof HD as (D1 & D2 & D3).
  destruct (blend_chans (λ a b, a * b)%Qc A B) as (P & HP & WP & DP & CP); [done..|].
  destruct (blend_chans (λ a b, a + b - 1)%Qc A B) as (L & HL & WL & DL & CL); [done..|].
  destruct (invert_chans A) as (A1 & HA1 & WA1 & DA1 & CA1); [done..|].
  destruct (blend_chans (λ a b, a / b)%Qc A1 B) as (A2 & HA2 & WA2 & DA2 & CA2);
    [done | done | unfold same_dims in *; lia | unfold same_dims in *; lia |].
  destruct (invert_chans A2) as (A3 & HA3 & WA3 & DA3 & CA3);
    [done | unfold same_dims in *; lia |].
  exists P, A3, L. unfold Imager.burn. simpl.
  unfold Imager.multiply, Imager.divide, Imager.burn_linear.
  rewrite HP, HL, HA1. simpl. rewrite HA2. simpl. rewrite HA3. simpl.
  split_and!; [done..|]. intros i j k Hi Hj Hk.
  destruct (CP i j k) as (a & b & Ha & Hb & HP'); [lia..|].
  destruct (CL i j k) as (a' & b' & Ha' & Hb' & HL'); [lia..|].
  destruct (CA1 i j k) as (a0 & Ha0 & Ha1); [lia..|].
  destruct (CA2 i j k) as (a1 & b1 & Ha1' & Hb1 & Ha2); [unfold same_dims in *; lia..|].
  destruct (CA3 i j k) as (a2 & Ha2' & Ha3); [unfold same_dims in *; lia..|].
  assert (a' = a) as -> by congruence. assert (b' = b) as -> by congruence.
  assert (a0 = a) as -> by congruence. assert (b1 = b) as -> by congruence.
  exists a, b. replace (k <? 3) with true in * by lia.
  split_and!; [done | done | done | | done].
  intros _. rewrite Ha3. rewrite Ha2 in Ha2'. injection Ha2' as <-.
  rewrite Ha1 in Ha1'. injection Ha1' as <-. done.
Qed.

Lemma burn_formulas_witness :
  ∃ P C L,
    Imager.burn rgba_a rgba_b "multiply" = Ok (P, rgba_b) ∧
    Imager.burn rgba_a rgba_b "color" = Ok (C, rgba_b) ∧
    Imager.burn rgba_a rgba_b "linear" = Ok (L, rgba_b) ∧
    chan P 0 1 2 = Some (q 1 8 * q 1 2)%Qc ∧
    chan C 0 1 2 = Some (1 - (1 - q 1 8) / q 1 2)%Qc ∧
    chan L 0 1 2 = Some (q 1 8 + q 1 2 - 1)%Qc.
Proof.
  destruct (burn_formulas rgba_a rgba_b) as (P & C & L & H1 & H2 & H3 & Hc);
    [by_decide | by_decide | by_decide | simpl; lia |].
  destruct (Hc 0 1 2) as (a & b & Ha & Hb & HP & HC & HL); [simpl; lia.. | lia |].
  change (chan rgba_a 0 1 2) with (Some (q 1 8)) in Ha.
  change (chan rgba_b 0 1 2) with (Some (q 1 2)) in Hb.
  injection Ha as <-. injection Hb as <-.
  exists P, C, L.
  exact (conj H1 (conj H2 (conj H3 (conj HP (conj (HC ltac:(by_decide)) HL))))).
Defined.

(** ** [convolution] with a single-channel kernel *)

(** The accumulation loops of [convolution]: each colour channel of the
    accumulator, zero at first, receives the sum over the window. *)
Lemma accumulate_window (pad w acc : Matrix.t) (RA CA : Z) (P X : Z * Z * Z → Z * Z → Qc) :
  wf acc → 3 ≤ Matrix.chls acc → Matrix.rows acc = RA → Matrix.cols acc = CA →
  (∀ i j k q, (i, j, k) ∈ idx3 RA CA 3 → q ∈ idx2 (Matrix.rows w) (Matrix.cols w) →
     Matrix.get pad (i + q.1) (j + q.2) k = Ok (P (i, j, k) q) ∧
     Matrix.get w q.1 q.2 k = Ok (X (i, j, k) q)) →
  (∀ p, p ∈ idx3 RA CA 3 → rd3 acc p = Ok 0%Qc) →
  ∃ acc',
    forM (range (Matrix.rows acc)) (λ i,
      forM (range (Matrix.cols acc)) (λ j,
        forM (range 3) (λ k,
          forM (range (Matrix.rows w)) (λ wi,
            forM (range (Matrix.cols w)) (λ wj accum,
              a ← Matrix.get accum i j k;
              p ← Matrix.get pad (i + wi) (j + wj) k;
              x ← Matrix.get w wi wj k;
              Matrix.set accum i j (a + p * x)%Qc k))))) acc = Ok acc' ∧
    (wf acc' ∧ same_dims acc' acc) ∧
    (∀ p, p ∈ idx3 RA CA 3 →
       rd3 acc' p = Ok (foldl (λ a q, a + P p q * X p q)%Qc 0%Qc
                          (idx2 (Matrix.rows w) (Matrix.cols w)))) ∧
    (∀ r, r ∉ idx3 RA CA 3 → rd3 acc' r = rd3 acc r).
Proof.
  intros Hacc Hc D1 D2 Hvals Hzero.
  rewrite nest3_flat, D1, D2.
  apply (forM_local rd3 (λ M, wf M ∧ same_dims M acc)); [apply NoDup_idx3 | done |].
  intros [[i j] k] s Hp [Hs Hds] Hsame _. pose proof Hp as (Hi & Hj & Hk)%elem_of_idx3.
  pose proof Hds as (E1 & E2 & E3). cbn [fst snd].
  rewrite (nest2_flat (Matrix.rows w) (Matrix.cols w) (λ wi wj accum,
    a ← Matrix.get accum i j k;
    p ← Matrix.get pad (i + wi) (j + wj) k;
    x ← Matrix.get w wi wj k;
    Matrix.set accum i j (a + p * x)%Qc k)).
  destruct (window_loop pad w i j k (idx2 (Matrix.rows w) (Matrix.cols w))
              (P (i, j, k)) (X (i, j, k)) s 0%Qc)
    as (s1 & -> & [Hs1 Hd1] & Hval & Hfr); [done | lia.. | | |].
  - intros q Hq. by apply Hvals.
  - rewrite Hsame. by apply Hzero.
  - exists s1. split_and!; [done | done | by eapply same_dims_trans | done | done].
Qed.

Lemma odd_half (n : Z) : 0 ≤ n → Z.rem n 2 ≠ 0 → n / 2 * 2 = n - 1 ∧ 1 ≤ n.
Proof.
  intros Hn Hodd. rewrite Z.rem_mod_nonneg in Hodd by lia.
  split; Z.div_mod_to_equations; lia.
Qed.

Lemma convolution_run (A w : Matrix.t) :
  wf A → 4 ≤ Matrix.chls A → 1 ≤ Matrix.rows A → 1 ≤ Matrix.cols A →
  wf w → Matrix.chls w = 1 →
  Z.rem (Matrix.rows w) 2 ≠ 0 → Z.rem (Matrix.cols w) 2 ≠ 0 →
  ∃ A' w', Imager.convolution A w = Ok (A', w') ∧
    wf A' ∧ same_dims A' A ∧
    (∀ i j, 0 ≤ i < Matrix.rows A → 0 ≤ j < Matrix.cols A →
       (∀ k, 0 ≤ k < 3 →
          rd3 A' (i, j, k) = Ok (Imager.clip (conv_sum A w i j k) 0 1)) ∧
       rd3 A' (i, j, 3) = Ok 1%Qc ∧
       (∀ k, 4 ≤ k < Matrix.chls A → rd3 A' (i, j, k) = Ok 0%Qc)) ∧
    wf w' ∧ Matrix.rows w' = Matrix.rows w ∧ Matrix.cols w' = Matrix.cols w ∧
    Matrix.chls w' = Matrix.chls A ∧
    (∀ i j k, 0 ≤ i < Matrix.rows w → 0 ≤ j < Matrix.cols w → 0 ≤ k < Matrix.chls A →
       rd3 w' (i, j, k) = Ok (entry w (Matrix.rows w - 1 - i) (Matrix.cols w - 1 - j))).
Proof.
  intros HA Hc Hr Hcl Hw Kw OR OC.
  pose proof Hw as (_ & Rw0 & Cw0 & _).
  destruct (odd_half (Matrix.rows w) Rw0 OR) as [HR HR1].
  destruct (odd_half (Matrix.cols w) Cw0 OC) as [HC HC1].
  set (R := Matrix.rows w) in *. set (C := Matrix.cols w) in *.
  unfold Imager.convolution, Matrix.getRows, Matrix.getCols, Matrix.getChls.
  fold R C.
  replace (Z.rem R 2 =? 0) with false by lia. replace (Z.rem C 2 =? 0) with false by lia.
  replace (Matrix.chls w =? 1) with true by lia.
  replace (1 <? Matrix.chls A) with true by lia. cbn [orb andb].
  (* the kernel: extruded, then turned *)
  destruct (extrude_ok w (Matrix.chls A)) as (w1 & -> & W1 & R1 & C1 & K1 & H1); [done | lia.. |].
  rewrite bind_Ok, K1, Z.eqb_refl. cbn [negb andb].
  destruct (flipXY_cells w1 W1) as (w2 & -> & W2 & (R2 & C2 & K2) & H2). rewrite bind_Ok.
  rewrite R2, C2, R1, C1. fold R C.
  assert (∀ i j k, 0 ≤ i < R → 0 ≤ j < C → 0 ≤ k < Matrix.chls A →
            rd3 w2 (i, j, k) = Ok (entry w (R - 1 - i) (C - 1 - j))) as Hker.
  { intros i j k Hi Hj Hk. unfold rd3. cbn [fst snd].
    apply chan_get; [lia.. | done |].
    unfold chan. replace ((i <? 0) || (j <? 0)) with false by lia.
    rewrite H2 by (fold R C in R1, C1; lia). rewrite R1, C1. fold R C.
    pose proof (entry_chan w (R - 1 - i) (C - 1 - j) Hw Kw ltac:(unfold R; lia)
                  ltac:(unfold C; lia)) as He.
    destruct (H1 (R - 1 - i) (C - 1 - j)) as [Hold Hnew]; [unfold R; lia | unfold C; lia |].
    destruct (decide (k = 0)) as [->|Hne].
    - specialize (Hold 0 ltac:(lia)). unfold chan in Hold, He.
      replace ((R - 1 - i <? 0) || (C - 1 - j <? 0)) with false in * by lia.
      by rewrite Hold.
    - specialize (Hnew k ltac:(lia)). unfold chan in Hnew, He.
      replace ((R - 1 - i <? 0) || (C - 1 - j <? 0)) with false in * by lia.
      rewrite Hnew, Kw. done. }
  (* the accumulator and the padded copy of the image *)
  destruct (zeros_get (Matrix.rows A) (Matrix.cols A) (Matrix.chls A))
    as (acc0 & -> & Hwf0 & R0 & C0 & K0 & Hz0); [lia..|]. rewrite bind_Ok.
  destruct (fillAlpha_spec acc0 1) as (acc1 & -> & Hwf1 & (Ra1 & Ca1 & Ka1) & Hal1 & Hfr1);
    [done | lia |]. rewrite bind_Ok.
  rewrite HR, HC.
  destruct (zeros_get (Matrix.rows A + (R - 1)) (Matrix.cols A + (C - 1)) (Matrix.chls A))
    as (pad0 & -> & Hwfp0 & Rp0 & Cp0 & Kp0 & Hzp); [lia..|]. rewrite bind_Ok.
  assert (0 ≤ R / 2 ∧ 0 ≤ C / 2 ∧ 2 * (R / 2) = R - 1 ∧ 2 * (C / 2) = C - 1)
    as (Hhr & Hhc & Hhr2 & Hhc2) by lia.
  destruct (copy_spec A pad0 (R / 2) (C / 2)) as (pad & -> & [Hwfp (Rp & Cp & Kp)] & Hin & Hout);
    [done | done | lia.. |]. rewrite bind_Ok.
  assert (∀ x y k, 0 ≤ x < Matrix.rows A + (R - 1) → 0 ≤ y < Matrix.cols A + (C - 1) →
            0 ≤ k < Matrix.chls A →
            Matrix.get pad x y k = Ok (padded A (R / 2) (C / 2) x y k)) as Hpad.
  { intros x y k Hx Hy Hk. unfold padded.
    destruct ((R / 2 <=? x) && (x <? R / 2 + Matrix.rows A) && (C / 2 <=? y)
              && (y <? C / 2 + Matrix.cols A)) eqn:Hwin.
    - rewrite !andb_true_iff, !Z.leb_le, !Z.ltb_lt in Hwin.
      destruct (get_cell_wf A (x - R / 2) (y - C / 2)) as (c & Hc' & _); [done | lia.. |].
      rewrite (get_transfer pad A x y (x - R / 2) (y - C / 2) k c); [| lia | lia | done |].
      + apply (rd3_wf A (x - R / 2) (y - C / 2) k); [done | lia..].
      + specialize (Hin (x - R / 2) (y - C / 2) ltac:(lia) ltac:(lia)).
        replace (x - R / 2 + R / 2) with x in Hin by lia.
        replace (y - C / 2 + C / 2) with y in Hin by lia. by rewrite Hin.
    - rewrite (get_same_cell pad pad0 x y k).
      + apply (Hzp x y k); lia.
      + unfold same_dims. lia.
      + apply Hout. rewrite !andb_false_iff, !Z.leb_gt, !Z.ltb_ge in Hwin. lia. }
  rewrite Z.min_r by lia.
  (* the sums *)
  destruct (accumulate_window pad w2 acc1 (Matrix.rows A) (Matrix.cols A)
              (λ p q, padded A (R / 2) (C / 2) (p.1.1 + q.1) (p.1.2 + q.2) p.2)
              (λ p q, entry w (R - 1 - q.1) (C - 1 - q.2)))
    as (acc2 & Hacc2 & [Hwf2 (Ra2 & Ca2 & Ka2)] & Hval2 & Hfr2); [done | lia.. | | |].
  { intros i j k [wi wj] (Hi & Hj & Hk)%elem_of_idx3 [Hwi Hwj]%elem_of_idx2.
    rewrite R2, R1 in Hwi. rewrite C2, C1 in Hwj. fold R in Hwi. fold C in Hwj.
    cbn [fst snd]. split.
    - apply Hpad; lia.
    - apply (Hker wi wj k); lia. }
  { intros [[i j] k] (? & ? & ?)%elem_of_idx3. rewrite Hfr1 by lia. apply Hz0; lia. }
  rewrite R2, C2, R1, C1 in Hacc2, Hval2. fold R C in Hacc2, Hval2.
  rewrite Hacc2, bind_Ok.
  destruct (normalize_spec acc2) as (acc3 & -> & Hwf3 & (R3 & C3 & K3) & Hval3);
    [done | lia |]. rewrite bind_Ok.
  destruct (copy_spec acc3 A 0 0) as (A' & -> & [HwfA' HdA'] & Hcopy & _);
    [done | done | lia.. |]. rewrite bind_Ok.
  exists A', w2. split_and!; [done | done | done | | done | lia | lia | lia | done].
  intros i j Hi Hj.
  assert (∀ k, rd3 A' (i, j, k) = rd3 acc3 (i, j, k)) as Hsame.
  { intros k. unfold rd3; simpl. apply get_same_cell.
    - eapply same_dims_trans; [done|]. unfold same_dims. lia.
    - specialize (Hcopy i j). rewrite !Z.add_0_r in Hcopy. apply Hcopy; lia. }
  split_and!.
  - intros k Hk. rewrite Hsame, Hval3 by (apply elem_of_idx3; lia). do 2 f_equal.
    apply getd_Ok. rewrite Hval2 by (apply elem_of_idx3; lia). done.
  - rewrite Hsame, Hval3 by (apply elem_of_idx3; lia).
    rewrite (getd_Ok acc2 (i, j, 3) 1%Qc); [by rewrite clip_one|].
    rewrite Hfr2 by apply alpha_not_color. apply Hal1; lia.
  - intros k Hk. rewrite Hsame, Hval3 by (apply elem_of_idx3; lia).
    rewrite (getd_Ok acc2 (i, j, k) 0%Qc).
    + by rewrite clip_unit by by_decide.
    + rewrite Hfr2 by (rewrite elem_of_idx3; lia). rewrite Hfr1 by lia. apply Hz0; lia.
Qed.

(** X25. [convolution(A, w)] of a non-empty image with at least four
    channels with a single-channel kernel of odd row and column counts:
    the image keeps its shape; each colour channel (0, 1, 2) of each pixel is
    the sum, clamped into [0, 1], of the window of the zero-padded image
    around the pixel against the kernel turned by half a turn; the alpha
    channel is 1 everywhere, whatever it was, and any further channel is 0.
    The kernel is changed as well: it comes back with as many channels as
    the image, every channel of a cell holding the entry of the cell
    opposite to it through the centre. *)
Theorem convolution_spec (A w : Matrix.t) :
  wf A → 4 ≤ Matrix.chls A → 1 ≤ Matrix.rows A → 1 ≤ Matrix.cols A →
  wf w → Matrix.chls w = 1 →
  Z.rem (Matrix.rows w) 2 ≠ 0 → Z.rem (Matrix.cols w) 2 ≠ 0 →
  ∃ A' w', Imager.convolution A w = Ok (A', w') ∧ wf A' ∧ same_dims A' A ∧
    (∀ i j, 0 ≤ i < Matrix.rows A → 0 ≤ j < Matrix.cols A →
       (∀ k, 0 ≤ k < 3 →
          Matrix.get A' i j k = Ok (Imager.clip (conv_sum A w i j k) 0 1)) ∧
       Matrix.get A' i j 3 = Ok 1%Qc ∧
       (∀ k, 4 ≤ k < Matrix.chls A → Matrix.get A' i j k = Ok 0%Qc)) ∧
    wf w' ∧ Matrix.rows w' = Matrix.rows w ∧ Matrix.cols w' = Matrix.cols w ∧
    Matrix.chls w' = Matrix.chls A ∧
    ∀ i j k, 0 ≤ i < Matrix.rows w → 0 ≤ j < Matrix.cols w → 0 ≤ k < Matrix.chls A →
      Matrix.get w' i j k
        = Ok (entry w (Matrix.rows w - 1 - i) (Matrix.cols w - 1 - j)).
Proof.
  intros HA Hc Hr Hcl Hw Kw OR OC.
  destruct (convolution_run A w)
    as (A' & w' & Hrun & W & D & Hval & W' & R & C & K & Hker); [done..|].
  exists A', w'. split_and!; [done..|]. apply Hker.
Qed.

Lemma convolution_spec_witness :
  ∃ A' w', Imager.convolution rgba_a laplacian_kernel = Ok (A', w') ∧
    Matrix.get A' 0 1 0 = Ok (Imager.clip (conv_sum rgba_a laplacian_kernel 0 1 0) 0 1) ∧
    conv_sum rgba_a laplacian_kernel 0 1 0 = q (-15) 4 ∧
    Matrix.get A' 0 1 0 = Ok 0%Qc ∧
    Matrix.get A' 0 1 3 = Ok 1%Qc ∧
    Matrix.chls w' = 4 ∧
    Matrix.get w' 0 1 2 = Ok (entry laplacian_kernel 2 1) ∧
    entry laplacian_kernel 2 1 = 1%Qc.
Proof.
  destruct (convolution_spec rgba_a laplacian_kernel)
    as (A' & w' & Hrun & _ & _ & Hval & _ & _ & _ & K & Hker);
    [by_decide | simpl; lia | simpl; lia | simpl; lia | by_decide | reflexivity
    | by_decide | by_decide |].
  destruct (Hval 0 1) as (Hcol & Hal & _); [simpl; lia..|].
  pose proof (Hcol 0 ltac:(lia)) as H0.
  pose proof (Hker 0 1 2 ltac:(simpl; lia) ltac:(simpl; lia) ltac:(simpl; lia)) as H1.
  assert (conv_sum rgba_a laplacian_kernel 0 1 0 = q (-15) 4) as Hsum by by_decide.
  assert (entry laplacian_kernel 2 1 = 1%Qc) as He by by_decide.
  exists A', w'.
  refine (conj Hrun (conj H0 (conj Hsum (conj _ (conj Hal (conj K (conj H1 He))))))).
  rewrite H0, Hsum. f_equal.
Defined.

(** ** [gaussianBlur] and [blur] outside the sizes of the specification *)





(** X27. A Gaussian [blur] of odd size N on a non-empty image with at least
    four channels runs two convolutions, first with the 1 by N row kernel
    that [gaussianBlur(N)] returns and then, on the result, with its N by 1
    column kernel: the image keeps its shape, every colour channel is the
    clamped window sum of the second pass over the clamped window sums of
    the first, and alpha ends as 1. *)
Theorem blur_odd_size (A : Matrix.t) (N : Z) :
  wf A → 4 ≤ Matrix.chls A → 1 ≤ Matrix.rows A → 1 ≤ Matrix.cols A →
  1 ≤ N → Z.rem N 2 ≠ 0 →
  ∃ wr wc A1 A2,
    Kernel.gaussianBlur N = Ok [wr; wc] ∧
    (wf wr ∧ Matrix.rows wr = 1 ∧ Matrix.cols wr = N ∧ Matrix.chls wr = 1) ∧
    (wf wc ∧ Matrix.rows wc = N ∧ Matrix.cols wc = 1 ∧ Matrix.chls wc = 1) ∧
    Imager.blur_gaussian A N = Ok A2 ∧
    (wf A1 ∧ same_dims A1 A) ∧ (wf A2 ∧ same_dims A2 A) ∧
    ∀ i j, 0 ≤ i < Matrix.rows A → 0 ≤ j < Matrix.cols A →
      (∀ k, 0 ≤ k < 3 →
         Matrix.get A1 i j k = Ok (Imager.clip (conv_sum A wr i j k) 0 1) ∧
         Matrix.get A2 i j k = Ok (Imager.clip (conv_sum A1 wc i j k) 0 1)) ∧
      Matrix.get A2 i j 3 = Ok 1%Qc.
Proof.
  intros HA Hc Hr Hcl HN Hodd. unfold Imager.blur_gaussian.
  destruct (gaussianBlur_run N) as (s & _ & _ & Hg); [lia|]. rewrite Hg.
  set (l := (λ x, x / s)%Qc <$> Kernel.pascal N) in *.
  assert (Z.of_nat (length l) = N) as Hlen.
  { unfold l. rewrite length_fmap, length_pascal by lia. lia. }
  rewrite bind_Ok. cbn [forM].
  destruct (convolution_run A (row_kernel l))
    as (A1 & w1 & -> & W1 & D1 & V1 & _);
    [done | done | done | done | apply wf_row_kernel | done | done | |].
  { cbn [Matrix.cols row_kernel]. by rewrite Hlen. }
  cbn [mbind result_bind fst]. pose proof D1 as (E1 & E2 & E3).
  destruct (convolution_run A1 (col_kernel l))
    as (A2 & w2 & -> & W2 & D2 & V2 & _);
    [done | lia | lia | lia | apply wf_col_kernel | done | | done |].
  { cbn [Matrix.rows col_kernel]. by rewrite Hlen. }
  cbn [mbind result_bind fst].
  exists (row_kernel l), (col_kernel l), A1, A2.
  split_and!; [done | apply wf_row_kernel | done | done | done | apply wf_col_kernel
               | done | done | done | done | done | done | done
               | by eapply same_dims_trans |].
  intros i j Hi Hj.
  destruct (V1 i j) as (C1 & _ & _); [lia..|].
  destruct (V2 i j) as (C2 & Al2 & _); [lia..|].
  split; [|done]. intros k Hk. split; [by apply C1 | by apply C2].
Qed.

Lemma blur_odd_size_witness :
  ∃ wr wc A1 A2,
    Kernel.gaussianBlur 3 = Ok [wr; wc] ∧ Matrix.cols wr = 3 ∧ Matrix.rows wc = 3 ∧
    Imager.blur_gaussian rgba_a 3 = Ok A2 ∧
    Matrix.get A1 0 0 2 = Ok (Imager.clip (conv_sum rgba_a wr 0 0 2) 0 1) ∧
    Matrix.get A2 0 0 2 = Ok (Imager.clip (conv_sum A1 wc 0 0 2) 0 1) ∧
    Matrix.get A2 0 0 3 = Ok 1%Qc.
Proof.
  destruct (blur_odd_size rgba_a 3)
    as (wr & wc & A1 & A2 & Hg & (_ & _ & Cr & _) & (_ & Rc & _) & Hrun & _ & _ & Hval);
    [by_decide | simpl; lia | simpl; lia | simpl; lia | lia | by_decide |].
  destruct (Hval 0 0) as [Hc Hal]; [simpl; lia..|].
  destruct (Hc 2) as [H1 H2]; [lia|].
  exists wr, wc, A1, A2.
  exact (conj Hg (conj Cr (conj Rc (conj Hrun (conj H1 (conj H2 Hal)))))).
Defined.

(** ** The other blend operators, and [light] *)






(** X29. [light] composes the other operators.  When the image and the
    filter are two objects that share no pixel array: 'hard' is the
    [overlay] blend; 'linear' runs the linear dodge and then the linear
    burn, which leaves [a + b + b - 1] in every colour channel; 'vivid'
    runs the colour
    dodge and then the colour burn on its result, with the filter as its two
    inversions left it, which leaves [1 - (1 - a / (1 - b)) / (1 - (1 - b))]
    where [b] is neither 0 nor 1.  Any other type but 'soft' is rejected
    with a LightError. *)
Theorem light_formulas (js_sqrt : Qc → Qc) (A B : Matrix.t) :
  wf A → wf B → same_dims B A → 3 ≤ Matrix.chls A →
  ∃ H L V B',
    Imager.light js_sqrt A B "hard" = Ok (H, B) ∧ Imager.overlay A B = Ok H ∧
    Imager.light js_sqrt A B "linear" = Ok (L, B) ∧
    Imager.light js_sqrt A B "vivid" = Ok (V, B') ∧
    (∀ i j k, 0 ≤ i < Matrix.rows A → 0 ≤ j < Matrix.cols A → 0 ≤ k < 3 →
       ∃ a b, chan A i j k = Some a ∧ chan B i j k = Some b ∧
         chan L i j k = Some (a + b + b - 1)%Qc ∧
         (b ≠ 0%Qc → b ≠ 1%Qc →
          chan V i j k = Some (1 - (1 - a / (1 - b)) / (1 - (1 - b)))%Qc)) ∧
    ∀ type, type ≠ "soft" → type ≠ "hard" → type ≠ "vivid" → type ≠ "linear" →
      Imager.light js_sqrt A B type = Err LightError.
Proof.
  intros HA HB HD Hc. pose proof HD as (D1 & D2 & D3).
  (* hard *)
  destruct (blend_chans Imager.overlay_fn A B) as (H & HH & _ & _ & _); [done..|].
  (* linear *)
  destruct (blend_chans (λ a b, a + b)%Qc A B) as (L1 & HL1 & WL1 & DL1 & CL1); [done..|].
  destruct (blend_chans (λ a b, a + b - 1)%Qc L1 B) as (L & HL & WL & DL & CL);
    [done | done | unfold same_dims in *; lia | unfold same_dims in *; lia |].
  (* vivid *)
  destruct (invert_chans B) as (B1 & HB1 & WB1 & DB1 & CB1); [done | lia |].
  destruct (blend_chans (λ a b, a / b)%Qc A B1) as (V1 & HV1 & WV1 & DV1 & CV1);
    [done | done | unfold same_dims in *; lia | done |].
  destruct (invert_chans B1) as (B2 & HB2 & WB2 & DB2 & CB2);
    [done | unfold same_dims in *; lia |].
  destruct (invert_chans V1) as (V2 & HV2 & WV2 & DV2 & CV2);
    [done | unfold same_dims in *; lia |].
  destruct (blend_chans (λ a b, a / b)%Qc V2 B2) as (V3 & HV3 & WV3 & DV3 & CV3);
    [done | done | unfold same_dims in *; lia | unfold same_dims in *; lia |].
  destruct (invert_chans V3) as (V & HV & WV & DV & CV);
    [done | unfold same_dims in *; lia |].
  exists H, L, V, B2. split_and!.
  - unfold Imager.light. simpl. by rewrite HH.
  - done.
  - unfold Imager.light, Imager.dodge, Imager.burn. simpl.
    unfold Imager.addition, Imager.burn_linear. rewrite HL1. simpl. by rewrite HL.
  - unfold Imager.light, Imager.dodge, Imager.dodge_color, Imager.burn. simpl.
    unfold Imager.divide. rewrite HB1. simpl. rewrite HV1. simpl. rewrite HB2. simpl.
    rewrite HV2. simpl. rewrite HV3. simpl. by rewrite HV.
  - intros i j k Hi Hj Hk.
    destruct (CL1 i j k) as (a & b & Ha & Hb & Hl1); [lia..|].
    destruct (CL i j k) as (l1 & b' & Hl1' & Hb' & Hl); [unfold same_dims in *; lia..|].
    destruct (CB1 i j k) as (b0 & Hb0 & Hb1); [lia..|].
    destruct (CV1 i j k) as (a1 & b1 & Ha1 & Hb1' & Hv1); [lia..|].
    destruct (CB2 i j k) as (b1' & Hb1'' & Hb2); [unfold same_dims in *; lia..|].
    destruct (CV2 i j k) as (v1 & Hv1' & Hv2); [unfold same_dims in *; lia..|].
    destruct (CV3 i j k) as (v2 & b2 & Hv2' & Hb2' & Hv3); [unfold same_dims in *; lia..|].
    destruct (CV i j k) as (v3 & Hv3' & Hv); [unfold same_dims in *; lia..|].
    replace (k <? 3) with true in * by lia.
    assert (b' = b) as -> by congruence. assert (b0 = b) as -> by congruence.
    assert (a1 = a) as -> by congruence.
    assert (l1 = (a + b)%Qc) as -> by congruence.
    assert (b1 = (1 - b)%Qc) as -> by congruence.
    assert (b1' = (1 - b)%Qc) as -> by congruence.
    assert (v1 = (a / (1 - b))%Qc) as -> by congruence.
    assert (v2 = (1 - a / (1 - b))%Qc) as -> by congruence.
    assert (b2 = (1 - (1 - b))%Qc) as -> by congruence.
    assert (v3 = ((1 - a / (1 - b)) / (1 - (1 - b)))%Qc) as -> by congruence.
    exists a, b. split_and!; [done | done | done |].
    intros _ _. by rewrite Hv.
  - intros type H1 H2 H3 H4. unfold Imager.light.
    by rewrite !(proj2 (String.eqb_neq _ _)) by done.
Qed.

Lemma light_formulas_witness :
  ∃ H L V B',
    Imager.light (λ x, x) rgba_a rgba_b "hard" = Ok (H, rgba_b) ∧
    Imager.overlay rgba_a rgba_b = Ok H ∧
    Imager.light (λ x, x) rgba_a rgba_b "linear" = Ok (L, rgba_b) ∧
    Imager.light (λ x, x) rgba_a rgba_b "vivid" = Ok (V, B') ∧
    chan L 0 1 2 = Some (q 1 8 + q 1 2 + q 1 2 - 1)%Qc ∧
    chan V 0 1 2 = Some (1 - (1 - q 1 8 / (1 - q 1 2)) / (1 - (1 - q 1 2)))%Qc ∧
    Imager.light (λ x, x) rgba_a rgba_b "bright" = Err LightError.
Proof.
  destruct (light_formulas (λ x, x) rgba_a rgba_b)
    as (H & L & V & B' & H1 & H2 & H3 & H4 & Hc & Hrej);
    [by_decide | by_decide | by_decide | simpl; lia |].
  destruct (Hc 0 1 2) as (a & b & Ha & Hb & HL & HV); [simpl; lia.. | lia |].
  change (chan rgba_a 0 1 2) with (Some (q 1 8)) in Ha.
  change (chan rgba_b 0 1 2) with (Some (q 1 2)) in Hb.
  injection Ha as <-. injection Hb as <-.
  exists H, L, V, B'.
  refine (conj H1 (conj H2 (conj H3 (conj H4 (conj HL (conj (HV _ _) (Hrej _ _ _ _ _))))))).
  all: by_decide.
Defined.

(** ** [pixelize] *)

(** With a positive step the counted loop visits the starts of the blocks
    and stops. *)
Lemma stride_starts {St} (n size : Z) (body : Z → St → result St) (s : St) :
  1 ≤ size → 0 ≤ n →
  Imager.stride (Z.to_nat n) 0 n size body s = forM (starts n size) body s.
Proof.
  intros Hs Hn. unfold starts. set (cnt := (n + size - 1) / size).
  assert (∀ t, 0 ≤ t → (t * size < n ↔ t < cnt)) as Hcnt.
  { intros t Ht. unfold cnt.
    pose proof (Z.div_mod (n + size - 1) size ltac:(lia)).
    pose proof (Z.mod_pos_bound (n + size - 1) size ltac:(lia)). split; nia. }
  assert (∀ fuel t s, 0 ≤ t → n - t * size ≤ Z.of_nat fuel →
            Imager.stride fuel (t * size) n size body s
            = forM ((λ t, t * size) <$> seqZ t (cnt - t)) body s) as Hgen.
  { induction fuel as [|fuel IH]; intros t s0 Ht Hf.
    - simpl. replace (t * size <? n) with false by lia.
      rewrite seqZ_nil; [done|]. pose proof (Hcnt t Ht). lia.
    - simpl. destruct (Z.ltb_spec (t * size) n) as [Hlt|Hge].
      + rewrite seqZ_cons by (apply Hcnt in Hlt; lia). simpl.
        destruct (body (t * size) s0) as [s1|e]; simpl; [|done].
        replace (t * size + size) with ((t + 1) * size) by lia.
        rewrite IH by nia. do 3 f_equal; lia.
      + rewrite seqZ_nil; [done|]. pose proof (Hcnt t Ht). lia. }
  pose proof (Hgen (Z.to_nat n) 0 s ltac:(lia) ltac:(lia)) as H. change (0 * size) with 0 in H.
  rewrite H. unfold range. by rewrite Z.sub_0_r.
Qed.

Lemma elem_of_starts (n size i0 : Z) :
  1 ≤ size → i0 ∈ starts n size ↔ 0 ≤ i0 < n ∧ i0 = i0 / size * size.
Proof.
  intros Hs. unfold starts. rewrite list_elem_of_fmap. setoid_rewrite elem_of_range.
  pose proof (Z.div_mod (n + size - 1) size ltac:(lia)).
  pose proof (Z.mod_pos_bound (n + size - 1) size ltac:(lia)).
  split.
  - intros (t & -> & Ht). rewrite Z.div_mul by lia. split; [nia | done].
  - intros [Hi Heq]. exists (i0 / size). split; [done|].
    pose proof (Z.div_pos i0 size ltac:(lia) ltac:(lia)). split; [done|]. nia.
Qed.

Lemma NoDup_starts (n size : Z) : 1 ≤ size → NoDup (starts n size).
Proof.
  intros Hs. unfold starts. apply NoDup_fmap_2; [|apply NoDup_range].
  intros a b Hab. nia.
Qed.

Lemma elem_of_block (i0 size n i : Z) :
  i ∈ Imager.block i0 size n ↔ i0 ≤ i ∧ i < i0 + size ∧ i < n.
Proof. unfold Imager.block. rewrite elem_of_seqZ. lia. Qed.

(** Nested loops over two lists visit the pairs in order. *)
Lemma nest_pairs {St} (l1 l2 : list Z) (cb : Z → Z → St → result St) (s : St) :
  forM l1 (λ i, forM l2 (λ j, cb i j)) s
  = forM (i ← l1; j ← l2; [(i, j)]) (λ p, cb p.1 p.2) s.
Proof.
  rewrite forM_bind. apply forM_ext; intros i s' _.
  rewrite forM_bind. apply forM_ext; intros j s'' _. by rewrite forM_singleton.
Qed.

Lemma elem_of_pairs (l1 l2 : list Z) (i j : Z) :
  (i, j) ∈ (i ← l1; j ← l2; [(i, j)]) ↔ i ∈ l1 ∧ j ∈ l2.
Proof.
  rewrite list_elem_of_bind. setoid_rewrite list_elem_of_bind.
  setoid_rewrite list_elem_of_singleton.
  split; [intros (i' & (j' & [= -> ->] & ?) & ?); done|].
  intros [? ?]. exists i. split; [|done]. exists j. done.
Qed.

Lemma NoDup_pairs (l1 l2 : list Z) :
  NoDup l1 → NoDup l2 → NoDup (i ← l1; j ← l2; [(i, j)]).
Proof.
  intros H1 H2. apply NoDup_bind; [| |done].
  - intros i1 i2 [a b] _ _ (j1 & E1 & _)%list_elem_of_bind (j2 & E2 & _)%list_elem_of_bind.
    apply list_elem_of_singleton in E1, E2. congruence.
  - intros i _. apply NoDup_bind; [| |done].
    + intros j1 j2 [a b] _ _ E1 E2. apply list_elem_of_singleton in E1, E2. congruence.
    + intros. apply NoDup_singleton.
Qed.

Lemma elem_of_cells (i0 j0 size R C i j : Z) :
  (i, j) ∈ cells i0 j0 size R C
  ↔ (i0 ≤ i ∧ i < i0 + size ∧ i < R) ∧ (j0 ≤ j ∧ j < j0 + size ∧ j < C).
Proof. unfold cells. by rewrite elem_of_pairs, !elem_of_block. Qed.

(** A loop over regions that do not overlap, each round rewriting the cells
    of its own region from what the region held at the start: every visited
    cell ends with its assigned value and the others are kept. *)
Lemma region_loop {R} (reg : R → Z → Z → Prop) (F : Z → Z → Matrix.cell) (A : Matrix.t)
    (step : R → Matrix.t → result Matrix.t) (l : list R) :
  wf A → NoDup l →
  (∀ r r' i j, r ∈ l → r' ∈ l → reg r i j → reg r' i j → r = r') →
  (∀ r A', r ∈ l → wf A' → same_dims A' A →
     (∀ i j, 0 ≤ i < Matrix.rows A → 0 ≤ j < Matrix.cols A → reg r i j →
        Matrix.raw A' i j = Matrix.raw A i j) →
     ∃ A'', step r A' = Ok A'' ∧ wf A'' ∧ same_dims A'' A ∧
       (∀ i j, 0 ≤ i < Matrix.rows A → 0 ≤ j < Matrix.cols A → reg r i j →
          Matrix.raw A'' i j = Some (F i j)) ∧
       (∀ i j, 0 ≤ i < Matrix.rows A → 0 ≤ j < Matrix.cols A → ¬ reg r i j →
          Matrix.raw A'' i j = Matrix.raw A' i j)) →
  ∃ A', forM l step A = Ok A' ∧ wf A' ∧ same_dims A' A ∧
    (∀ r i j, 0 ≤ i < Matrix.rows A → 0 ≤ j < Matrix.cols A → r ∈ l → reg r i j →
       Matrix.raw A' i j = Some (F i j)) ∧
    (∀ i j, 0 ≤ i < Matrix.rows A → 0 ≤ j < Matrix.cols A → (∀ r, r ∈ l → ¬ reg r i j) →
       Matrix.raw A' i j = Matrix.raw A i j).
Proof.
  intros HA Hnd Hdisj Hstep.
  assert (∀ l' s, NoDup l' → l' ⊆ l → wf s → same_dims s A →
            (∀ r i j, 0 ≤ i < Matrix.rows A → 0 ≤ j < Matrix.cols A → r ∈ l' → reg r i j →
               Matrix.raw s i j = Matrix.raw A i j) →
            ∃ s', forM l' step s = Ok s' ∧ wf s' ∧ same_dims s' A ∧
              (∀ r i j, 0 ≤ i < Matrix.rows A → 0 ≤ j < Matrix.cols A → r ∈ l' →
                 reg r i j → Matrix.raw s' i j = Some (F i j)) ∧
              (∀ i j, 0 ≤ i < Matrix.rows A → 0 ≤ j < Matrix.cols A →
                 (∀ r, r ∈ l' → ¬ reg r i j) → Matrix.raw s' i j = Matrix.raw s i j))
    as Hgen.
  { induction l' as [|r l' IH]; intros s Hl Hsub Hs Hd Hin; simpl.
    - exists s. split_and!; [done..| |done]. intros r i j _ _ Hr. by apply elem_of_nil in Hr.
    - apply NoDup_cons in Hl as [Hr Hl].
      destruct (Hstep r s) as (s1 & -> & W1 & D1 & Hval1 & Hfr1); [| done | done | |].
      { apply Hsub. left. }
      { intros i j Hi Hj Hreg. apply (Hin r); [done | done | left | done]. }
      simpl.
      assert (∀ r' i j, r' ∈ l' → reg r' i j → ¬ reg r i j) as Hother.
      { intros r' i j Hr' Hreg' Hreg.
        assert (r = r') as -> by (apply (Hdisj r r' i j); [apply Hsub; left
          | apply Hsub; by right | done | done]).
        done. }
      destruct (IH s1) as (s' & -> & W' & D' & Hval & Hrest); [done | | done | done | |].
      { intros x Hx. apply Hsub. by right. }
      { intros r' i j Hi Hj Hr' Hreg. rewrite Hfr1 by eauto.
        apply (Hin r'); [done | done | by right | done]. }
      exists s'. split_and!; [done | done | done | |].
      + intros r' i j Hi Hj [->|Hr']%elem_of_cons Hreg; [|by apply (Hval r')].
        rewrite Hrest; [by apply Hval1 | done | done |].
        intros r' Hr' Hreg'. by apply (Hother r' i j).
      + intros i j Hi Hj Hno. rewrite Hrest, Hfr1; [done | done | done | | done | done |].
        * apply Hno. left.
        * intros r' Hr'. apply Hno. by right. }
  destruct (Hgen l A) as (s' & ? & ? & ? & ? & ?);
    [done | done | done | apply same_dims_refl | done |].
  exists s'. by split_and!.
Qed.

(** [setPixel(i, j, r, g, b, 1)] on a pixel. *)
Lemma setPixel_opaque (M : Matrix.t) (i j : Z) (r g b : Qc) (p : list Qc) :
  wf M → 3 ≤ Matrix.chls M → 0 ≤ i < Matrix.rows M → 0 ≤ j < Matrix.cols M →
  Matrix.raw M i j = Some (Matrix.Pixel p) →
  ∃ M', Matrix.setPixel M i j r g b (Some 1%Qc) = Ok M' ∧ wf M' ∧ same_dims M' M ∧
        Matrix.raw M' i j = Some (repainted r g b (Matrix.Pixel p)) ∧
        ∀ i' j', 0 ≤ i' → 0 ≤ j' → (i', j') ≠ (i, j) →
          Matrix.raw M' i' j' = Matrix.raw M i' j'.
Proof.
  intros Hwf Hc Hi Hj Hraw.
  destruct (wf_raw M i j) as (c & Hc' & Hok); [done..|].
  rewrite Hraw in Hc'. injection Hc' as <-. simpl in Hok. destruct Hok as [_ Hlen].
  unfold Matrix.setPixel.
  replace (Matrix.chls M <? 3) with false by lia. cbn [bool_decide decide_rel andb].
  rewrite bool_decide_eq_false_2 by done. cbn [andb].
  destruct (set_store M i j 0 r p) as (M1 & -> & W1 & (D1 & D2 & D3) & R1 & F1);
    [done | lia.. | done |].
  rewrite bind_Ok.
  destruct (set_store M1 i j 1 g (<[0%nat := r]> p))
    as (M2 & -> & W2 & (E1 & E2 & E3) & R2 & F2); [done | lia.. | done |].
  rewrite bind_Ok.
  destruct (set_store M2 i j 2 b (<[1%nat := g]> (<[0%nat := r]> p)))
    as (M3 & -> & W3 & (G1 & G2 & G3) & R3 & F3); [done | lia.. | done |].
  rewrite bind_Ok. destruct (Z.leb_spec 4 (Matrix.chls M3)) as [H4|H4].
  - destruct (set_store M3 i j 3 1 (<[2%nat := b]> (<[1%nat := g]> (<[0%nat := r]> p))))
      as (M4 & -> & W4 & (K1 & K2 & K3) & R4 & F4); [done | lia.. | done |].
    exists M4. split_and!; [done | done | unfold same_dims; lia | exact R4 |].
    intros i' j' Hi' Hj' Hne. rewrite F4, F3, F2, F1 by done. done.
  - exists M3. split_and!; [done | done | unfold same_dims; lia | |].
    + rewrite R3. simpl. do 2 f_equal. rewrite (list_insert_ge _ 3); [reflexivity|].
      rewrite !length_insert. lia.
    + intros i' j' Hi' Hj' Hne. rewrite F3, F2, F1 by done. done.
Qed.

Lemma repainted_ok (r g b : Qc) (c : Matrix.cell) (n : Z) :
  cell_ok n c → cell_ok n (repainted r g b c).
Proof. destruct c as [v|p]; simpl; [done|]. by rewrite !length_insert. Qed.

Lemma repainted_chan (r g b : Qc) (c : Matrix.cell) (n : Z) :
  cell_ok n c → 3 ≤ n →
  cell_chan (repainted r g b c) 0 = Some r ∧
  cell_chan (repainted r g b c) 1 = Some g ∧
  cell_chan (repainted r g b c) 2 = Some b ∧
  (4 ≤ n → cell_chan (repainted r g b c) 3 = Some 1%Qc) ∧
  ∀ k, 4 ≤ k → cell_chan (repainted r g b c) k = cell_chan c k.
Proof.
  intros Hok Hn. destruct c as [v|p]; simpl in Hok; [lia|]. destruct Hok as [_ Hlen].
  unfold cell_chan, repainted. simpl.
  destruct p as [|x0 [|x1 [|x2 p]]]; simpl in Hlen; try lia.
  split_and!; [done | done | done | |].
  - intros H4. destruct p; simpl in *; [lia | done].
  - intros k Hk. replace (k <? 0) with false by lia.
    destruct (Z.to_nat k) as [|[|[|[|n']]]] eqn:E; try lia.
    simpl. by destruct p.
Qed.

(** The first inner loops of [pixelize]: the three sums over the cells of a
    block. *)
Lemma pixel_sums (A A' : Matrix.t) (cs : list (Z * Z)) (x0 x1 x2 : Qc) :
  wf A → 3 ≤ Matrix.chls A → same_dims A' A →
  (∀ i j, (i, j) ∈ cs →
     (0 ≤ i < Matrix.rows A ∧ 0 ≤ j < Matrix.cols A) ∧
     Matrix.raw A' i j = Matrix.raw A i j) →
  forM cs (λ q, forM (range 3) (λ k pixel,
             v ← Matrix.get A' q.1 q.2 k;
             Ok (alter (λ x, x + v)%Qc (Z.to_nat k) pixel))) [x0; x1; x2]
  = Ok [foldl (λ s q, (s + getd A (q.1, q.2, 0%Z))%Qc) x0 cs;
        foldl (λ s q, (s + getd A (q.1, q.2, 1%Z))%Qc) x1 cs;
        foldl (λ s q, (s + getd A (q.1, q.2, 2%Z))%Qc) x2 cs].
Proof.
  intros HA Hc Hd. revert x0 x1 x2.
  induction cs as [|[i j] cs IH]; intros x0 x1 x2 Hcs; [done|].
  destruct (Hcs i j) as [[Hi Hj] Hraw]; [left|].
  assert (∀ k, 0 ≤ k < 3 → Matrix.get A' i j k = Ok (getd A (i, j, k))) as Hget.
  { intros k Hk. rewrite (get_same_raw A' A) by done.
    apply (rd3_wf A i j k); (done || lia). }
  cbn [forM fst snd]. change (range 3) with [0; 1; 2]. cbn [forM].
  rewrite !Hget by lia. cbn [mbind result_bind Z.to_nat alter list_alter].
  simpl. apply IH. intros i' j' Hin. apply Hcs. by right.
Qed.

(** The second inner loops of [pixelize]: every cell of the block is
    repainted, the others are kept. *)
Lemma paint_cells (A' : Matrix.t) (cs : list (Z * Z)) (r g b : Qc) :
  wf A' → 3 ≤ Matrix.chls A' → NoDup cs →
  (∀ i j, (i, j) ∈ cs → 0 ≤ i < Matrix.rows A' ∧ 0 ≤ j < Matrix.cols A') →
  ∃ A'', forM cs (λ q A'', Matrix.setPixel A'' q.1 q.2 r g b (Some 1%Qc)) A' = Ok A'' ∧
    wf A'' ∧ same_dims A'' A' ∧
    (∀ i j c, (i, j) ∈ cs → Matrix.raw A' i j = Some c →
       Matrix.raw A'' i j = Some (repainted r g b c)) ∧
    (∀ i j, 0 ≤ i < Matrix.rows A' → 0 ≤ j < Matrix.cols A' → (i, j) ∉ cs →
       Matrix.raw A'' i j = Matrix.raw A' i j).
Proof.
  intros HA Hc Hnd Hin.
  destruct (region_loop (λ q i j, q = (i, j))
    (λ i j, match Matrix.raw A' i j with
            | Some c => repainted r g b c
            | None => Matrix.Scalar 0%Qc
            end) A'
    (λ q A'', Matrix.setPixel A'' q.1 q.2 r g b (Some 1%Qc)) cs)
    as (A'' & Hrun & W & D & Hval & Hrest); [done | done | | |].
  - intros q q' i j _ _ -> ->. done.
  - intros [i j] s Hq Hs Hd Hsame. destruct (Hin i j Hq) as [Hi Hj]. cbn [fst snd].
    pose proof Hd as (D1 & D2 & D3).
    destruct (wf_raw A' i j) as (c & Hraw & Hok); [done..|].
    destruct c as [v|p]; simpl in Hok; [lia|].
    destruct (setPixel_opaque s i j r g b p) as (s1 & -> & W1 & D' & R1 & F1);
      [done | lia | lia | lia | by rewrite Hsame | ].
    exists s1. split_and!; [done | done | by eapply same_dims_trans | |].
    + intros i' j' _ _ [= -> ->]. by rewrite R1, Hraw.
    + intros i' j' Hi' Hj' Hne. apply F1; [lia | lia |]. congruence.
  - exists A''. split_and!; [done..| |].
    + intros i j c Hq Hraw. destruct (Hin i j Hq) as [Hi Hj].
      rewrite (Hval (i, j) i j) by done. by rewrite Hraw.
    + intros i j Hi Hj Hq. apply Hrest; [done..|]. intros q Hq' ->. done.
Qed.

(** The loops of [pixelize] as one loop over the blocks. *)
Lemma pixelize_flat (A : Matrix.t) (size : Z) :
  wf A → 1 ≤ size →
  Imager.pixelize A size
  = forM (i0 ← starts (Matrix.rows A) size; j0 ← starts (Matrix.cols A) size; [(i0, j0)])
      (λ p A',
         pixel ← forM (cells p.1 p.2 size (Matrix.rows A) (Matrix.cols A))
                   (λ q, forM (range 3) (λ k pixel,
                      v ← Matrix.get A' q.1 q.2 k;
                      Ok (alter (λ x, x + v)%Qc (Z.to_nat k) pixel))) [0; 0; 0]%Qc;
         let pixel :=
           foldl (λ pixel p, alter (λ x, x / Z2Qc (size * size))%Qc (Z.to_nat p) pixel)
                 pixel (range 3) in
         forM (cells p.1 p.2 size (Matrix.rows A) (Matrix.cols A))
           (λ q A'', Matrix.setPixel A'' q.1 q.2 (nth 0 pixel 0%Qc) (nth 1 pixel 0%Qc)
                       (nth 2 pixel 0%Qc) (Some 1%Qc)) A') A.
Proof.
  intros (_ & Hr & Hc & _) Hs. unfold Imager.pixelize.
  rewrite stride_starts by done.
  rewrite <-(nest_pairs _ _ (λ i0 j0 A',
     pixel ← forM (cells i0 j0 size (Matrix.rows A) (Matrix.cols A))
               (λ q, forM (range 3) (λ k pixel,
                  v ← Matrix.get A' q.1 q.2 k;
                  Ok (alter (λ x, x + v)%Qc (Z.to_nat k) pixel))) [0; 0; 0]%Qc;
     let pixel :=
       foldl (λ pixel p, alter (λ x, x / Z2Qc (size * size))%Qc (Z.to_nat p) pixel)
             pixel (range 3) in
     forM (cells i0 j0 size (Matrix.rows A) (Matrix.cols A))
       (λ q A'', Matrix.setPixel A'' q.1 q.2 (nth 0 pixel 0%Qc) (nth 1 pixel 0%Qc)
                   (nth 2 pixel 0%Qc) (Some 1%Qc)) A')).
  apply forM_ext; intros i0 s _. rewrite stride_starts by done.
  apply forM_ext; intros j0 s' _. unfold cells.
  rewrite <-(nest_pairs _ _ (λ i2 j2, forM (range 3) (λ k pixel,
               v ← Matrix.get s' i2 j2 k;
               Ok (alter (λ x, x + v)%Qc (Z.to_nat k) pixel)))).
  destruct (forM (Imager.block i0 size (Matrix.rows A)) _ _) as [pixel|e]; [|done].
  cbn [mbind result_bind].
  by rewrite <-(nest_pairs _ _ (λ i2 j2 A'', Matrix.setPixel A'' i2 j2 _ _ _ _)).
Qed.

Lemma block_of_start (size i0 i : Z) :
  1 ≤ size → i0 = i0 / size * size → i0 ≤ i < i0 + size → i / size * size = i0.
Proof.
  intros Hs H0 Hi. assert (i / size = i0 / size) as ->; [|lia].
  symmetry. apply (Z.div_unique i size (i0 / size) (i - i0)); lia.
Qed.

Lemma start_of_cell (size n i : Z) :
  1 ≤ size → 0 ≤ i < n →
  i / size * size ∈ starts n size ∧ i / size * size ≤ i < i / size * size + size.
Proof.
  intros Hs Hi.
  pose proof (Z.div_mod i size ltac:(lia)). pose proof (Z.mod_pos_bound i size ltac:(lia)).
  pose proof (Z.div_pos i size ltac:(lia) ltac:(lia)).
  split; [|lia]. apply elem_of_starts; [done|].
  split; [nia|]. by rewrite Z.div_mul by lia.
Qed.

(** The cells of the result of [pixelize]. *)
Lemma pixelize_run (A : Matrix.t) (size : Z) :
  wf A → 3 ≤ Matrix.chls A → 1 ≤ size →
  ∃ A', Imager.pixelize A size = Ok A' ∧ wf A' ∧ same_dims A' A ∧
    ∀ i j c, 0 ≤ i < Matrix.rows A → 0 ≤ j < Matrix.cols A → Matrix.raw A i j = Some c →
      Matrix.raw A' i j
        = Some (repainted (block_mean A size (i / size * size) (j / size * size) 0)
                          (block_mean A size (i / size * size) (j / size * size) 1)
                          (block_mean A size (i / size * size) (j / size * size) 2) c).
Proof.
  intros HA Hc Hs. rewrite pixelize_flat by done.
  set (R := Matrix.rows A). set (C := Matrix.cols A).
  destruct (region_loop
    (λ p i j, (i, j) ∈ cells p.1 p.2 size R C)
    (λ i j, repainted (block_mean A size (i / size * size) (j / size * size) 0)
                      (block_mean A size (i / size * size) (j / size * size) 1)
                      (block_mean A size (i / size * size) (j / size * size) 2)
                      (default (Matrix.Scalar 0%Qc) (Matrix.raw A i j))) A
    (λ p A',
       pixel ← forM (cells p.1 p.2 size R C)
                 (λ q, forM (range 3) (λ k pixel,
                    v ← Matrix.get A' q.1 q.2 k;
                    Ok (alter (λ x, x + v)%Qc (Z.to_nat k) pixel))) [0; 0; 0]%Qc;
       let pixel :=
         foldl (λ pixel p, alter (λ x, x / Z2Qc (size * size))%Qc (Z.to_nat p) pixel)
               pixel (range 3) in
       forM (cells p.1 p.2 size R C)
         (λ q A'', Matrix.setPixel A'' q.1 q.2 (nth 0 pixel 0%Qc) (nth 1 pixel 0%Qc)
                     (nth 2 pixel 0%Qc) (Some 1%Qc)) A')
    (i0 ← starts R size; j0 ← starts C size; [(i0, j0)]))
    as (A' & Hrun & W & D & Hval & _); [done | | | |].
  - apply NoDup_pairs; by apply NoDup_starts.
  - intros [i0 j0] [i0' j0'] i j [Hi0 Hj0]%elem_of_pairs [Hi0' Hj0']%elem_of_pairs.
    cbn [fst snd]. intros [Hi Hj]%elem_of_cells [Hi' Hj']%elem_of_cells.
    apply elem_of_starts in Hi0 as [_ Hi0], Hj0 as [_ Hj0]; [|done..].
    apply elem_of_starts in Hi0' as [_ Hi0'], Hj0' as [_ Hj0']; [|done..].
    f_equal.
    + rewrite <-(block_of_start size i0 i), <-(block_of_start size i0' i) by (done || lia).
      done.
    + rewrite <-(block_of_start size j0 j), <-(block_of_start size j0' j) by (done || lia).
      done.
  - intros [i0 j0] s [Hi0 Hj0]%elem_of_pairs Hws Hd Hsame. cbn [fst snd] in *.
    apply elem_of_starts in Hi0 as [Hi0 Ei0], Hj0 as [Hj0 Ej0]; [|done..].
    assert (∀ i j, (i, j) ∈ cells i0 j0 size R C → 0 ≤ i < R ∧ 0 ≤ j < C) as Hin.
    { intros i j [Hi Hj]%elem_of_cells. lia. }
    rewrite (pixel_sums A s); [| done | done | done |].
    2:{ intros i j Hq. destruct (Hin i j Hq). split; [done | by apply Hsame]. }
    cbn [mbind result_bind]. change (range 3) with [0; 1; 2].
    cbn [foldl Z.to_nat alter list_alter Pos.to_nat Pos.iter_op Nat.add nth].
    pose proof Hd as (D1 & D2 & D3).
    destruct (paint_cells s (cells i0 j0 size R C)
                (block_mean A size i0 j0 0) (block_mean A size i0 j0 1)
                (block_mean A size i0 j0 2))
      as (s1 & Hp & W1 & D' & Hv1 & Hf1); [done | lia | | |].
    { apply NoDup_pairs; apply NoDup_seqZ. }
    { intros i j Hq. destruct (Hin i j Hq). unfold R, C in *. lia. }
    exists s1. split_and!; [exact Hp | done | by eapply same_dims_trans | |].
    + intros i j Hi Hj Hq. pose proof Hq as [Hqi Hqj]%elem_of_cells.
      rewrite (block_of_start size i0 i), (block_of_start size j0 j) by (done || lia).
      destruct (wf_raw A i j) as (c & Hraw & _); [done..|].
      rewrite Hraw. cbn [default]. apply Hv1; [done|]. rewrite Hsame by done. done.
    + intros i j Hi Hj Hq. apply Hf1; [unfold R, C in *; lia.. | done].
  - exists A'. split_and!; [done..|]. intros i j c Hi Hj Hraw.
    destruct (start_of_cell size R i) as [Hsi Hbi]; [done..|].
    destruct (start_of_cell size C j) as [Hsj Hbj]; [done..|].
    rewrite (Hval (i / size * size, j / size * size) i j); [by rewrite Hraw | done | done | |].
    + by apply elem_of_pairs.
    + cbn [fst snd]. apply elem_of_cells. unfold R, C in *. lia.
Qed.

(** X30. [pixelize(A, size)] for a size of at least 1, on an image with at
    least three channels, returns: the image keeps its shape, and every
    pixel holds, in each colour channel (0, 1, 2), the sum of that channel
    over the cells of its block of [size] by [size] pixels divided by
    [size * size].  The divisor is the area of a whole block also where the
    right or the bottom side cuts the block short, so that such a block gets
    less than the mean of its cells.  The alpha channel, where there is
    one, becomes 1, and any further channel is kept. *)
Theorem pixelize_spec (A : Matrix.t) (size : Z) :
  wf A → 3 ≤ Matrix.chls A → 1 ≤ size →
  ∃ A', Imager.pixelize A size = Ok A' ∧ wf A' ∧ same_dims A' A ∧
    ∀ i j, 0 ≤ i < Matrix.rows A → 0 ≤ j < Matrix.cols A →
      (∀ k, 0 ≤ k < 3 →
         chan A' i j k
           = Some (block_mean A size (i / size * size) (j / size * size) k)) ∧
      (4 ≤ Matrix.chls A → chan A' i j 3 = Some 1%Qc) ∧
      (∀ k, 4 ≤ k → chan A' i j k = chan A i j k).
Proof.
  intros HA Hc Hs.
  destruct (pixelize_run A size) as (A' & Hrun & W & D & Hcells); [done..|].
  exists A'. split_and!; [done..|]. intros i j Hi Hj.
  destruct (wf_raw A i j) as (c & Hraw & Hok); [done..|].
  pose proof (Hcells i j c Hi Hj Hraw) as Hraw'.
  destruct (repainted_chan
              (block_mean A size (i / size * size) (j / size * size) 0)
              (block_mean A size (i / size * size) (j / size * size) 1)
              (block_mean A size (i / size * size) (j / size * size) 2)
              c (Matrix.chls A)) as (C0 & C1 & C2 & C3 & Crest); [done..|].
  split_and!.
  - intros k Hk. rewrite (chan_raw A' i j k _ ltac:(lia) ltac:(lia) Hraw').
    assert (k = 0 ∨ k = 1 ∨ k = 2) as [-> | [-> | ->]] by lia; done.
  - intros H4. rewrite (chan_raw A' i j 3 _ ltac:(lia) ltac:(lia) Hraw'). by apply C3.
  - intros k Hk. rewrite (chan_raw A' i j k _ ltac:(lia) ltac:(lia) Hraw').
    rewrite (chan_raw A i j k _ ltac:(lia) ltac:(lia) Hraw). by apply Crest.
Qed.

Lemma pixelize_spec_witness :
  ∃ A', Imager.pixelize rgba_a 2 = Ok A' ∧
    chan A' 0 1 0 = Some (block_mean rgba_a 2 0 0 0) ∧
    block_mean rgba_a 2 0 0 0 = q 5 16 ∧
    chan A' 0 1 3 = Some 1%Qc.
Proof.
  destruct (pixelize_spec rgba_a 2) as (A' & Hrun & _ & _ & Hval);
    [by_decide | simpl; lia | lia |].
  destruct (Hval 0 1) as (Hcol & Hal & _); [simpl; lia..|].
  assert (block_mean rgba_a 2 0 0 0 = q 5 16) as Hmean by by_decide.
  exists A'.
  exact (conj Hrun (conj (Hcol 0 ltac:(lia)) (conj Hmean (Hal ltac:(simpl; lia))))).
Defined.
